(** * englint: the content scanner and the scan orchestrator

    A shallow embedding of [internal/scanner] (the Go package that walks
    the file tree, tracks comment and string context byte by byte, and
    reports every character outside the permitted alphabet), together
    with the properties its specification states about it.

    Conventions.
    - A Go [string] and a Go [[]byte] are byte sequences: [list byte].
    - A Go [int] and a [rune] are [Z].  Every counter of the scanner
      ([i], [line], [col]) is bounded by the length of the text plus one,
      so the 64-bit wrap-around of [int] is never reached.
    - A Go [map[K]struct{}] is a [gset K].
    - [(T, error)] results are [result T]; a function that mutates
      [visited] and [*Result] and returns an [error] threads a
      [scanSt] explicitly. *)

From Stdlib Require Import ZArith Lia List Strings.String Strings.Byte.
From Stdlib Require Import DecimalString.
From stdpp Require Import base decidable option list gmap sets sorting.
Import ListNotations.
Open Scope Z_scope.
Set Warnings "-register-all,-clear-no-such-hyp".

(* ================================================================== *)
(** ** Bytes and Go strings *)

#[global] Instance byte_eq_dec : EqDecision byte := Byte.byte_eq_dec.
#[global] Instance byte_countable : Countable byte :=
  inj_countable Byte.to_N Byte.of_N Byte.of_to_N.

Abbreviation gostring := (list byte).

(** The numeric value of a byte, [0 .. 255]. *)
Definition bv (b : byte) : Z := Z.of_N (Byte.to_N b).

(** [byte(z)] for [0 <= z < 256]. *)
Definition byte_of_Z (z : Z) : byte :=
  default x00 (Byte.of_N (Z.to_N (z mod 256))).

(** A string literal as the bytes of its UTF-8 source text. *)
Definition str (s : String.string) : gostring := list_byte_of_string s.

(** [len(s)] *)
Definition len {A} (s : list A) : Z := Z.of_nat (length s).

(** [s[i:]] and [s[:n]] *)
Definition slice_from {A} (s : list A) (i : Z) : list A := drop (Z.to_nat i) s.
Definition slice_to {A} (s : list A) (n : Z) : list A := take (Z.to_nat n) s.

Definition nl : byte := x0a.
Definition cr : byte := x0d.
Definition tab : byte := x09.
Definition quote1 : byte := x27.
Definition quote2 : byte := x22.
Definition backtick : byte := x60.
Definition backslash : byte := x5c.

(** [strings.HasPrefix] *)
Fixpoint HasPrefix (s prefix : gostring) : bool :=
  match prefix, s with
  | [], _ => true
  | p :: ps, c :: cs => bool_decide (p = c) && HasPrefix cs ps
  | _ :: _, [] => false
  end.

(** [strings.HasSuffix] and [strings.TrimSuffix] *)
Definition HasSuffix (s suffix : gostring) : bool :=
  HasPrefix (reverse s) (reverse suffix).

Definition TrimSuffix (s suffix : gostring) : gostring :=
  if HasSuffix s suffix then take (length s - length suffix)%nat s else s.

(** [strings.Split(text, "\n")]: the pieces between newline bytes; a text
    with [n] newlines has [n + 1] pieces. *)
Fixpoint Split_nl (s : gostring) : list gostring :=
  match s with
  | [] => [[]]
  | b :: t =>
      if bool_decide (b = nl) then [] :: Split_nl t
      else match Split_nl t with
           | l :: ls => (b :: l) :: ls
           | [] => [[b]]
           end
  end.

(** [strings.TrimRight(s, "\r")]: every trailing carriage return goes. *)
Fixpoint TrimRight_cr (s : gostring) : gostring :=
  match s with
  | [] => []
  | b :: t =>
      match TrimRight_cr t with
      | [] => if bool_decide (b = cr) then [] else [b]
      | t' => b :: t'
      end
  end.

(** Go's [<] on strings: bytewise lexicographic order. *)
Fixpoint str_lt (a b : gostring) : bool :=
  match a, b with
  | _, [] => false
  | [], _ :: _ => true
  | x :: a', y :: b' =>
      if bv x <? bv y then true
      else if bv y <? bv x then false
      else str_lt a' b'
  end.

(* ================================================================== *)
(** ** UTF-8, after Go's [unicode/utf8] *)

Definition RuneError : Z := 0xFFFD.

(** The [first] table of [unicode/utf8]: information about the first
    byte of an encoding.  [0xF0] marks ASCII, [0xF1] an invalid first
    byte; otherwise the low three bits give the size and the high four
    bits index [acceptRanges]. *)
Definition utf8_first (s0 : Z) : Z :=
  if s0 <? 0x80 then 0xF0
  else if s0 <? 0xC2 then 0xF1
  else if s0 <? 0xE0 then 0x02
  else if s0 =? 0xE0 then 0x13
  else if s0 <? 0xED then 0x03
  else if s0 =? 0xED then 0x23
  else if s0 <? 0xF0 then 0x03
  else if s0 =? 0xF0 then 0x34
  else if s0 <? 0xF4 then 0x04
  else if s0 =? 0xF4 then 0x44
  else 0xF1.

(** [acceptRanges]: the admissible second byte for each class. *)
Definition utf8_accept (k : Z) : Z * Z :=
  if k =? 0 then (0x80, 0xBF)
  else if k =? 1 then (0xA0, 0xBF)
  else if k =? 2 then (0x80, 0x9F)
  else if k =? 3 then (0x90, 0xBF)
  else if k =? 4 then (0x80, 0x8F)
  else (0, 0).

Definition is_cont (b : Z) : bool := (0x80 <=? b) && (b <=? 0xBF).

(** [utf8.DecodeRuneInString]: the first rune of [s] and its width in
    bytes; [(RuneError, 0)] for the empty string and [(RuneError, 1)]
    for an invalid encoding. *)
Definition DecodeRuneInString (s : gostring) : Z * Z :=
  match s with
  | [] => (RuneError, 0)
  | b0 :: t =>
      let s0 := bv b0 in
      let x := utf8_first s0 in
      if 0xF0 <=? x then
        (if x =? 0xF0 then s0 else RuneError, 1)
      else
        let sz := Z.land x 7 in
        let '(lo, hi) := utf8_accept (Z.shiftr x 4) in
        if len s <? sz then (RuneError, 1)
        else
          match t with
          | [] => (RuneError, 1)
          | b1 :: t1 =>
              let s1 := bv b1 in
              if (s1 <? lo) || (hi <? s1) then (RuneError, 1)
              else if sz <=? 2 then
                (Z.lor (Z.shiftl (Z.land s0 0x1F) 6) (Z.land s1 0x3F), 2)
              else
                match t1 with
                | [] => (RuneError, 1)
                | b2 :: t2 =>
                    let s2 := bv b2 in
                    if negb (is_cont s2) then (RuneError, 1)
                    else if sz <=? 3 then
                      (Z.lor (Z.lor (Z.shiftl (Z.land s0 0x0F) 12)
                                    (Z.shiftl (Z.land s1 0x3F) 6))
                             (Z.land s2 0x3F), 3)
                    else
                      match t2 with
                      | [] => (RuneError, 1)
                      | b3 :: _ =>
                          let s3 := bv b3 in
                          if negb (is_cont s3) then (RuneError, 1)
                          else
                            (Z.lor (Z.lor (Z.lor
                               (Z.shiftl (Z.land s0 0x07) 18)
                               (Z.shiftl (Z.land s1 0x3F) 12))
                               (Z.shiftl (Z.land s2 0x3F) 6))
                               (Z.land s3 0x3F), 4)
                      end
                end
          end
  end.

Definition is_surrogate (r : Z) : bool := (0xD800 <=? r) && (r <=? 0xDFFF).

(** [utf8.RuneLen] *)
Definition RuneLen (r : Z) : Z :=
  if r <? 0 then -1
  else if r <=? 0x7F then 1
  else if r <=? 0x7FF then 2
  else if is_surrogate r then -1
  else if r <=? 0xFFFF then 3
  else if r <=? 0x10FFFF then 4
  else -1.

(** [utf8.AppendRune(nil, r)], which is what the conversion [string(r)]
    produces: an invalid rune is written as U+FFFD. *)
Definition encode_rune (r : Z) : gostring :=
  let r := if (r <? 0) || (0x10FFFF <? r) || is_surrogate r then RuneError else r in
  let tx (z : Z) := byte_of_Z (Z.lor 0x80 (Z.land z 0x3F)) in
  if r <=? 0x7F then [byte_of_Z r]
  else if r <=? 0x7FF then
    [byte_of_Z (Z.lor 0xC0 (Z.shiftr r 6)); tx r]
  else if r <=? 0xFFFF then
    [byte_of_Z (Z.lor 0xE0 (Z.shiftr r 12)); tx (Z.shiftr r 6); tx r]
  else
    [byte_of_Z (Z.lor 0xF0 (Z.shiftr r 18)); tx (Z.shiftr r 12);
     tx (Z.shiftr r 6); tx r].

(** [for _, r := range s]: the runes of [s] in order, an invalid byte
    counting as one [RuneError].  Each round consumes at least one byte,
    so [length s] rounds are enough. *)
Fixpoint runes_fuel (fuel : nat) (s : gostring) : list Z :=
  match fuel with
  | O => []
  | S f =>
      match s with
      | [] => []
      | _ :: _ =>
          let '(r, size) := DecodeRuneInString s in
          r :: runes_fuel f (slice_from s size)
      end
  end.

Definition runes (s : gostring) : list Z := runes_fuel (length s) s.

(** [fmt.Sprintf("U+%04X", r)] for a non-negative rune: upper-case
    hexadecimal, zero-padded to four digits. *)
Definition hex_digit (d : Z) : byte :=
  if d <? 10 then byte_of_Z (48 + d) else byte_of_Z (55 + d).

Fixpoint hex_upper (fuel : nat) (n : Z) (acc : gostring) : gostring :=
  match fuel with
  | O => acc
  | S f =>
      let acc' := hex_digit (n mod 16) :: acc in
      if n / 16 =? 0 then acc' else hex_upper f (n / 16) acc'
  end.

Definition pad4 (s : gostring) : gostring :=
  replicate (4 - length s)%nat x30 ++ s.

Definition format_codepoint (r : Z) : gostring :=
  str "U+" ++ pad4 (hex_upper 16 r []).

(* ================================================================== *)
(** ** What the scanner takes from outside

    The Unicode tables and the formatting verbs of the Go standard
    library, and [match.Match] of [internal/match] (the glob matcher,
    whose source is not part of this development), are parameters: no
    property below depends on what they answer, except where a
    hypothesis says so. *)

Inductive script :=
  | Han | Hiragana | Katakana | Hangul | Cyrillic | Arabic | Thai
  | Devanagari | Hebrew | Greek | Latin.

Record Env := {
  (** [unicode.Is(table, r)] for the script tables *)
  unicode_Is : script -> Z -> bool;
  unicode_IsPunct : Z -> bool;
  unicode_IsSymbol : Z -> bool;
  unicode_ToLower : Z -> Z;
  (** the [%q] verb of [fmt] on a string: [strconv.Quote] *)
  strconv_Quote : gostring -> gostring;
  strings_TrimSpace : gostring -> gostring;
  (** [match.Match(pattern, value)] of [internal/match] *)
  match_Match : gostring -> gostring -> bool
}.

(** [unicode.In(r, tables...)] *)
Definition unicode_In (E : Env) (r : Z) (tables : list script) : bool :=
  existsb (fun t => unicode_Is E t r) tables.

(** [strings.ToLower]: ASCII strings take the fast path, others are
    mapped rune by rune and re-encoded. *)
Definition lower_ascii (b : byte) : byte :=
  if (0x41 <=? bv b) && (bv b <=? 0x5A) then byte_of_Z (bv b + 32) else b.

Definition ToLower (E : Env) (s : gostring) : gostring :=
  if forallb (fun b => bv b <? 0x80) s then map lower_ascii s
  else flat_map (fun r => encode_rune (unicode_ToLower E r)) (runes s).

(** [filepath.ToSlash]: the separator is already the slash (the program
    is built for macOS and Linux). *)
Definition ToSlash (p : gostring) : gostring := p.

Definition slash : byte := x2f.
Definition dot : byte := x2e.

(** [filepath.Ext]: the suffix from the last dot of the last element. *)
Fixpoint ext_scan (rev_path acc : gostring) : gostring :=
  match rev_path with
  | [] => []
  | b :: t =>
      if bool_decide (b = slash) then []
      else if bool_decide (b = dot) then b :: acc
      else ext_scan t (b :: acc)
  end.

Definition Ext (path : gostring) : gostring := ext_scan (reverse path) [].

(** [filepath.Base]: the last element, trailing slashes removed. *)
Fixpoint strip_slashes (rev_path : gostring) : gostring :=
  match rev_path with
  | b :: t => if bool_decide (b = slash) then strip_slashes t else rev_path
  | [] => []
  end.

Fixpoint last_element (rev_path acc : gostring) : gostring :=
  match rev_path with
  | [] => acc
  | b :: t => if bool_decide (b = slash) then acc else last_element t (b :: acc)
  end.

Definition Base (path : gostring) : gostring :=
  match path with
  | [] => [dot]
  | _ =>
      match last_element (strip_slashes (reverse path)) [] with
      | [] => [slash]
      | e => e
      end
  end.

(* ================================================================== *)
(** ** Data model *)

Abbreviation Severity := (list byte) (only parsing).
Definition SeverityError : Severity := str "error".
Definition SeverityWarning : Severity := str "warning".

Record Options := {
  Include : list gostring;
  Exclude : list gostring;
  AllowRunes : gset Z;
  OSeverity : Severity;
  IgnoreComments : bool;
  IgnoreStrings : bool;
  AllowFilePatterns : list gostring
}.

Record Finding := {
  Path : gostring;
  Line : Z;
  Column : Z;
  Character : gostring;
  CodePoint : gostring;
  Category : gostring;
  FSeverity : Severity;
  Message : gostring;
  Excerpt : gostring
}.

Record SkippedFile := { SPath : gostring; Reason : gostring }.

Record Summary := { FilesScanned : Z; FilesSkipped : Z; NFindings : Z }.

Record Result := {
  Findings : list Finding;
  ScannedFiles : list gostring;
  SkippedFiles : list SkippedFile;
  RSummary : Summary
}.

#[global] Instance Finding_eq_dec : EqDecision Finding.
Proof. solve_decision. Defined.
#[global] Instance SkippedFile_eq_dec : EqDecision SkippedFile.
Proof. solve_decision. Defined.

(** The zero value [Result{}]. *)
Definition Result_zero : Result :=
  {| Findings := []; ScannedFiles := []; SkippedFiles := [];
     RSummary := {| FilesScanned := 0; FilesSkipped := 0; NFindings := 0 |} |}.

Record syntaxRules := {
  lineComments : list gostring;
  blockStart : gostring;
  blockEnd : gostring;
  strings : bool;
  backtick_strings : bool
}.

Inductive scanState :=
  | stateCode
  | stateLineComment
  | stateBlockComment
  | stateSingleString
  | stateDoubleString
  | stateBacktickString.

#[global] Instance scanState_eq_dec : EqDecision scanState.
Proof. solve_decision. Defined.

(* ================================================================== *)
(** ** Helpers of the content scanner *)

Definition normalizeOptions (opts : Options) : Options :=
  {| Include := Include opts;
     Exclude := Exclude opts;
     AllowRunes := AllowRunes opts;
     OSeverity := if bool_decide (OSeverity opts = SeverityWarning)
                  then OSeverity opts else SeverityError;
     IgnoreComments := IgnoreComments opts;
     IgnoreStrings := IgnoreStrings opts;
     AllowFilePatterns := AllowFilePatterns opts |}.

Definition isBinary_control (b : byte) : bool :=
  if bool_decide (b = nl) || bool_decide (b = cr) || bool_decide (b = tab)
  then false
  else (bv b <? 0x20) || (bv b =? 0x7f).

(** [isBinary].  The last line of the source compares
    [float64(control)/float64(len(sample))] with [0.30].  Both operands
    are integers not above 8192 and IEEE division is correctly rounded,
    so the quotient exceeds the double nearest to 3/10 exactly when
    [10 * control > 3 * len(sample)]; the comparison is written in that
    form. *)
Definition isBinary (data : list byte) : bool :=
  if len data =? 0 then false
  else
    let sample := if 8192 <? len data then slice_to data 8192 else data in
    if existsb (fun b => bool_decide (b = x00)) sample then true
    else
      let control := len (filter (fun b => isBinary_control b = true) sample) in
      3 * len sample <? 10 * control.

Definition mkSyntax lc bs be s bt : syntaxRules :=
  {| lineComments := lc; blockStart := bs; blockEnd := be;
     strings := s; backtick_strings := bt |}.

Definition one_of (x : gostring) (l : list String.string) : bool :=
  existsb (fun e => bool_decide (x = str e)) l.

Definition syntaxForPath (E : Env) (path : gostring) : syntaxRules :=
  let ext := ToLower E (Ext path) in
  let base := ToLower E (Base path) in
  if one_of ext [".go"; ".js"; ".jsx"; ".ts"; ".tsx"; ".java"; ".c"; ".cc";
                 ".cpp"; ".h"; ".hpp"; ".cs"; ".swift"; ".kt"; ".kts"; ".rs";
                 ".php"]%string
  then mkSyntax [str "//"] (str "/*") (str "*/") true true
  else if one_of ext [".py"; ".rb"; ".sh"; ".bash"; ".zsh"; ".yaml"; ".yml";
                      ".toml"; ".ini"; ".conf"; ".properties"]%string
  then mkSyntax [str "#"] [] [] true false
  else if one_of ext [".sql"]%string
  then mkSyntax [str "--"] (str "/*") (str "*/") true false
  else if one_of ext [".lua"]%string
  then mkSyntax [str "--"] [] [] true false
  else if bool_decide (base = str "dockerfile") || HasSuffix base (str ".dockerfile")
  then mkSyntax [str "#"] [] [] true false
  else mkSyntax [] [] [] false false.

Fixpoint matchPrefix (input : gostring) (prefixes : list gostring) : option gostring :=
  match prefixes with
  | [] => None
  | p :: ps =>
      if bool_decide (p = []) then matchPrefix input ps
      else if HasPrefix input p then Some p
      else matchPrefix input ps
  end.

(** [advanceByToken]: the loop over the runes of [token]. *)
Definition advance_rune (acc : Z * Z * Z) (r : Z) : Z * Z * Z :=
  let '(i, line, col) := acc in
  let i := i + RuneLen r in
  if r =? 0x0A then (i, line + 1, 1) else (i, line, col + 1).

Definition advanceByToken (i line col : Z) (token : gostring) : Z * Z * Z :=
  fold_left advance_rune (runes token) (i, line, col).

Definition is_comment_state (s : scanState) : bool :=
  match s with stateLineComment | stateBlockComment => true | _ => false end.

Definition is_string_state (s : scanState) : bool :=
  match s with
  | stateSingleString | stateDoubleString | stateBacktickString => true
  | _ => false
  end.

Definition shouldInspect (state : scanState) (opts : Options) : bool :=
  match state with
  | stateLineComment | stateBlockComment => negb (IgnoreComments opts)
  | stateSingleString | stateDoubleString | stateBacktickString =>
      negb (IgnoreStrings opts)
  | _ => true
  end.

Definition isAllowedRune (r : Z) (allow : gset Z) : bool :=
  if (r =? 0x0A) || (r =? 0x0D) || (r =? 0x09) then true
  else if (0x20 <=? r) && (r <=? 0x7e) then true
  else bool_decide (r ∈ allow).

Definition lineExcerpt (lines : list gostring) (line : Z) : gostring :=
  if (line <? 1) || (len lines <? line) then []
  else
    let excerpt := TrimRight_cr (default [] (lines !! Z.to_nat (line - 1))) in
    if 160 <? len excerpt then slice_to excerpt 160 ++ str "..."
    else excerpt.

Definition categoryForRune (E : Env) (r : Z) : gostring :=
  if unicode_In E r [Han; Hiragana; Katakana; Hangul] then str "CJK"
  else if unicode_In E r [Cyrillic] then str "Cyrillic"
  else if unicode_In E r [Arabic] then str "Arabic"
  else if unicode_In E r [Thai] then str "Thai"
  else if unicode_In E r [Devanagari] then str "Devanagari"
  else if unicode_In E r [Hebrew] then str "Hebrew"
  else if unicode_In E r [Greek] then str "Greek"
  else if unicode_In E r [Latin] then str "Latin Extended"
  else if unicode_IsPunct E r || unicode_IsSymbol E r then str "Unicode Symbol"
  else str "Other Unicode".

(* ================================================================== *)
(** ** The content scanner: [scanContent]

    The variables of the [for] loop form a [loopState]; [loop_body] is
    one round of the loop, where each [continue] of the source is a
    branch that returns the next state and the code after the [switch]
    is [inspect_rune]. *)

Record loopState := {
  ls_i : Z;
  ls_line : Z;
  ls_col : Z;
  ls_state : scanState;
  ls_escaped : bool;
  ls_findings : list Finding
}.

Definition invalid_finding (path : gostring) (lines : list gostring)
    (opts : Options) (line col : Z) : Finding :=
  {| Path := path; Line := line; Column := col;
     Character := str "?";
     CodePoint := str "invalid-utf8";
     Category := str "Invalid UTF-8";
     FSeverity := OSeverity opts;
     Message := str "Detected invalid UTF-8 byte sequence";
     Excerpt := lineExcerpt lines line |}.

Definition rune_finding (E : Env) (path : gostring) (lines : list gostring)
    (opts : Options) (line col r : Z) : Finding :=
  let category := categoryForRune E r in
  let codePoint := format_codepoint r in
  {| Path := path; Line := line; Column := col;
     Character := encode_rune r;
     CodePoint := codePoint;
     Category := category;
     FSeverity := OSeverity opts;
     Message := str "Detected " ++ category ++ str " character "
                ++ strconv_Quote E (encode_rune r)
                ++ str " (" ++ codePoint ++ str ")";
     Excerpt := lineExcerpt lines line |}.

Section ScanContent.
Context (E : Env).
Context (path : gostring) (text : gostring) (lines : list gostring).
Context (syntax : syntaxRules) (opts : Options).

(** A transition of the state machine that consumes one ASCII byte. *)
Definition consume1 (s : loopState) (state : scanState) (escaped : bool)
    : loopState :=
  {| ls_i := ls_i s + 1; ls_line := ls_line s; ls_col := ls_col s + 1;
     ls_state := state; ls_escaped := escaped;
     ls_findings := ls_findings s |}.

(** A transition that consumes a comment token. *)
Definition consume_token (s : loopState) (token : gostring)
    (state : scanState) : loopState :=
  let '(i, line, col) := advanceByToken (ls_i s) (ls_line s) (ls_col s) token in
  {| ls_i := i; ls_line := line; ls_col := col;
     ls_state := state; ls_escaped := false;
     ls_findings := ls_findings s |}.

(** The code after the [switch]: decode one rune at [text[i:]], report
    it when it is inspected and not allowed, and step over it. *)
Definition inspect_rune (s : loopState) : loopState :=
  let '(r, size) := DecodeRuneInString (slice_from text (ls_i s)) in
  if (r =? RuneError) && (size =? 1) then
    {| ls_i := ls_i s + 1; ls_line := ls_line s; ls_col := ls_col s + 1;
       ls_state := ls_state s; ls_escaped := false;
       ls_findings :=
         if shouldInspect (ls_state s) opts
         then ls_findings s
              ++ [invalid_finding path lines opts (ls_line s) (ls_col s)]
         else ls_findings s |}
  else
    let findings :=
      if shouldInspect (ls_state s) opts && negb (isAllowedRune r (AllowRunes opts))
      then ls_findings s
           ++ [rune_finding E path lines opts (ls_line s) (ls_col s) r]
      else ls_findings s in
    if r =? 0x0A then
      {| ls_i := ls_i s + size; ls_line := ls_line s + 1; ls_col := 1;
         ls_state := if bool_decide (ls_state s = stateLineComment)
                     then stateCode else ls_state s;
         ls_escaped := false; ls_findings := findings |}
    else
      {| ls_i := ls_i s + size; ls_line := ls_line s; ls_col := ls_col s + 1;
         ls_state := ls_state s;
         ls_escaped := false; ls_findings := findings |}.

(** One round of the loop; [c] is [text[i]]. *)
Definition loop_body (s : loopState) : loopState :=
  let rest := slice_from text (ls_i s) in
  match rest with
  | [] => s (* not reached: the loop condition is [i < len(text)] *)
  | c :: _ =>
      match ls_state s with
      | stateCode =>
          if negb (bool_decide (blockStart syntax = []))
             && HasPrefix rest (blockStart syntax)
          then consume_token s (blockStart syntax) stateBlockComment
          else
            match matchPrefix rest (lineComments syntax) with
            | Some token => consume_token s token stateLineComment
            | None =>
                if strings syntax then
                  if bool_decide (c = quote1) then consume1 s stateSingleString false
                  else if bool_decide (c = quote2) then consume1 s stateDoubleString false
                  else if bool_decide (c = backtick) && backtick_strings syntax
                  then consume1 s stateBacktickString false
                  else inspect_rune s
                else inspect_rune s
            end
      | stateLineComment =>
          if bool_decide (c = nl) then
            {| ls_i := ls_i s + 1; ls_line := ls_line s + 1; ls_col := 1;
               ls_state := stateCode; ls_escaped := false;
               ls_findings := ls_findings s |}
          else inspect_rune s
      | stateBlockComment =>
          if negb (bool_decide (blockEnd syntax = []))
             && HasPrefix rest (blockEnd syntax)
          then consume_token s (blockEnd syntax) stateCode
          else inspect_rune s
      | stateSingleString =>
          if negb (ls_escaped s) then
            if bool_decide (c = backslash) then consume1 s (ls_state s) true
            else if bool_decide (c = quote1)
            then consume1 s stateCode (ls_escaped s)
            else inspect_rune s
          else inspect_rune s
      | stateDoubleString =>
          if negb (ls_escaped s) then
            if bool_decide (c = backslash) then consume1 s (ls_state s) true
            else if bool_decide (c = quote2)
            then consume1 s stateCode (ls_escaped s)
            else inspect_rune s
          else inspect_rune s
      | stateBacktickString =>
          if bool_decide (c = backtick)
          then consume1 s stateCode (ls_escaped s)
          else inspect_rune s
      end
  end.

(** The [for] loop.  [None] means the fuel ran out before the loop
    condition turned false. *)
Fixpoint scan_loop (fuel : nat) (s : loopState) : option (list Finding) :=
  if ls_i s <? len text then
    match fuel with
    | O => None
    | S f => scan_loop f (loop_body s)
    end
  else Some (ls_findings s).

Definition loop_init : loopState :=
  {| ls_i := 0; ls_line := 1; ls_col := 1; ls_state := stateCode;
     ls_escaped := false; ls_findings := [] |}.
End ScanContent.

(** [scanContent].  Every round advances [i] by at least one (proved
    below), so [len(text)] rounds always reach the end of the loop; the
    [None] branch is there for typing only. *)
Definition scanContent (E : Env) (path : gostring) (data : list byte)
    (syntax : syntaxRules) (opts : Options) : list Finding :=
  let text := data in
  let lines := Split_nl text in
  default [] (scan_loop E path text lines syntax opts (length text) loop_init).

(* ================================================================== *)
(** ** The file system as [Scan] sees it *)

Inductive error :=
  | os_error (op : gostring) (name : gostring)
      (** an error returned by [os] or [path/filepath] *)
  | read_error (display : gostring) (cause : error)
      (** [fmt.Errorf("read %s: %w", display, err)] *).

Inductive result (A : Type) :=
  | OK (a : A)
  | Err (e : error).
Arguments OK {A} a.
Arguments Err {A} e.

(** What [filepath.WalkDir] finds under a root.  Every node carries the
    path that [WalkDir] hands to its callback (the root as given, below
    it [filepath.Join(parent, name)]).  A file node says whether its
    entry type is regular; a directory node lists the entries that
    [os.ReadDir] returned, in its order, and the error it returned with
    them, if any. *)
Inductive fsnode :=
  | FsFile (path : gostring) (regular : bool)
  | FsDir (path : gostring) (entries : list fsnode) (readErr : option error).

Record World := {
  os_Getwd : result gostring;
  (** [os.Stat(path)]; the answer is [info.IsDir()] *)
  os_Stat : gostring -> result bool;
  (** [os.Lstat(root)] of [filepath.WalkDir], with the tree below *)
  os_Lstat : gostring -> result fsnode;
  filepath_Abs : gostring -> result gostring;
  filepath_Rel : gostring -> gostring -> result gostring;
  os_ReadFile : gostring -> result (list byte)
}.

(** [fs.DirEntry], as far as the callback reads it. *)
Record DirEntry := { d_IsDir : bool; d_IsRegular : bool }.

(** What a [fs.WalkDirFunc] returns: [nil], [fs.SkipDir] or an error. *)
Inductive walkRet :=
  | WNil
  | WSkipDir
  | WErr (e : error).

(** [visited] and [*res], the two objects [scanFile] mutates. *)
Record scanSt := { visited : gset (list byte); res : Result }.

(** [sort.Slice] and [sort.Strings]: the library promises a permutation
    ordered by [less] and no more (the sort is not stable); merge sort
    stands for it. *)
Definition sort_Slice {A} (less : A -> A -> bool) (l : list A) : list A :=
  @merge_sort A (fun a b => less b a = false)
    (fun a b => decide (less b a = false)) l.

Definition finding_less (a b : Finding) : bool :=
  if negb (bool_decide (Path a = Path b)) then str_lt (Path a) (Path b)
  else if negb (Line a =? Line b) then Line a <? Line b
  else if negb (Column a =? Column b) then Column a <? Column b
  else str_lt (CodePoint a) (CodePoint b).

Section Orchestrator.
Context (E : Env) (W : World).

Definition matches (path : gostring) (patterns : list gostring) : bool :=
  let norm := ToSlash path in
  let base := Base norm in
  existsb (fun p =>
    let p := strings_TrimSpace E p in
    if bool_decide (p = []) then false
    else if match_Match E p norm || match_Match E p base then true
    else
      let p := ToSlash p in
      if HasSuffix p (str "/**") then
        let prefix := TrimSuffix p (str "/**") in
        bool_decide (norm = prefix) || HasPrefix norm (prefix ++ str "/")
      else false) patterns.

Definition isIncluded (path : gostring) (include : list gostring) : bool :=
  if len include =? 0 then true else matches path include.

Definition isExcluded (path : gostring) (exclude : list gostring) : bool :=
  if len exclude =? 0 then false
  else if matches path exclude then true
  else matches (path ++ str "/") exclude.

Definition isAllowedFile (path : gostring) (patterns : list gostring) : bool :=
  if len patterns =? 0 then false else matches path patterns.

Definition displayPath (cwd path : gostring) : gostring :=
  match filepath_Abs W path with
  | Err _ => ToSlash path
  | OK abs =>
      match filepath_Rel W cwd abs with
      | Err _ => ToSlash abs
      | OK rel =>
          if HasPrefix rel (str "..") then ToSlash abs
          else if bool_decide (rel = str ".") then rel
          else ToSlash rel
      end
  end.

Definition add_skipped (r : Result) (display reason : gostring) : Result :=
  {| Findings := Findings r; ScannedFiles := ScannedFiles r;
     SkippedFiles := SkippedFiles r ++ [{| SPath := display; Reason := reason |}];
     RSummary := RSummary r |}.

Definition add_scanned (r : Result) (display : gostring)
    (findings : list Finding) : Result :=
  {| Findings := if 0 <? len findings then Findings r ++ findings
                 else Findings r;
     ScannedFiles := ScannedFiles r ++ [display];
     SkippedFiles := SkippedFiles r;
     RSummary := RSummary r |}.

Definition scanFile (path cwd : gostring) (opts : Options) (st : scanSt)
    : scanSt * option error :=
  match filepath_Abs W path with
  | Err e => (st, Some e)
  | OK abs =>
      if bool_decide (abs ∈ visited st) then (st, None)
      else
        let v := {[abs]} ∪ visited st in
        let display := displayPath cwd abs in
        if negb (isIncluded display (Include opts)) then
          ({| visited := v; res := res st |}, None)
        else if isExcluded display (Exclude opts) then
          ({| visited := v; res := res st |}, None)
        else if isAllowedFile display (AllowFilePatterns opts) then
          ({| visited := v;
              res := add_skipped (res st) display (str "allowed by file pattern") |},
           None)
        else
          match os_ReadFile W abs with
          | Err e =>
              ({| visited := v; res := res st |}, Some (read_error display e))
          | OK data =>
              if isBinary data then
                ({| visited := v;
                    res := add_skipped (res st) display (str "binary file") |},
                 None)
              else
                let findings :=
                  scanContent E display data (syntaxForPath E display) opts in
                ({| visited := v;
                    res := add_scanned (res st) display findings |}, None)
          end
  end.

(** The callback that [walkDir] passes to [filepath.WalkDir]. *)
Definition walkFn (cwd : gostring) (opts : Options) (path : gostring)
    (d : DirEntry) (walkErr : option error) (st : scanSt) : scanSt * walkRet :=
  match walkErr with
  | Some e => (st, WErr e)
  | None =>
      let display := displayPath cwd path in
      if d_IsDir d then
        if negb (bool_decide (display = str ".")) && isExcluded display (Exclude opts)
        then (st, WSkipDir)
        else (st, WNil)
      else if negb (d_IsRegular d) then (st, WNil)
      else
        match scanFile path cwd opts st with
        | (st', None) => (st', WNil)
        | (st', Some e) => (st', WErr e)
        end
  end.

Definition dirEntry_dir : DirEntry := {| d_IsDir := true; d_IsRegular := false |}.
Definition dirEntry_file (regular : bool) : DirEntry :=
  {| d_IsDir := false; d_IsRegular := regular |}.

(** The loop of [filepath.walkDir] over the entries of a directory:
    [SkipDir] from an entry ends the loop without an error. *)
Fixpoint walk_entries (walk : fsnode -> scanSt -> scanSt * walkRet)
    (entries : list fsnode) (st : scanSt) : scanSt * walkRet :=
  match entries with
  | [] => (st, WNil)
  | e :: es =>
      match walk e st with
      | (st', WNil) => walk_entries walk es st'
      | (st', WSkipDir) => (st', WNil)
      | (st', WErr x) => (st', WErr x)
      end
  end.

(** [filepath.walkDir] of the standard library: the callback is called
    on the node; a directory that was not skipped is read, a read
    error is reported to the callback in a second call, and the
    entries are walked in order. *)
Fixpoint walkDir_node
    (fn : gostring -> DirEntry -> option error -> scanSt -> scanSt * walkRet)
    (n : fsnode) (st : scanSt) : scanSt * walkRet :=
  match n with
  | FsFile p regular => fn p (dirEntry_file regular) None st
  | FsDir p entries readErr =>
      match fn p dirEntry_dir None st with
      | (st1, WSkipDir) => (st1, WNil)
      | (st1, WErr e) => (st1, WErr e)
      | (st1, WNil) =>
          match readErr with
          | None => walk_entries (walkDir_node fn) entries st1
          | Some e =>
              match fn p dirEntry_dir (Some e) st1 with
              | (st2, WSkipDir) => (st2, WNil)
              | (st2, WErr x) => (st2, WErr x)
              | (st2, WNil) => walk_entries (walkDir_node fn) entries st2
              end
          end
      end
  end.

(** [filepath.WalkDir(root, fn)] *)
Definition filepath_WalkDir (root : gostring)
    (fn : gostring -> DirEntry -> option error -> scanSt -> scanSt * walkRet)
    (st : scanSt) : scanSt * option error :=
  let '(st', r) :=
    match os_Lstat W root with
    | Err e => fn root dirEntry_dir (Some e) st
    | OK n => walkDir_node fn n st
    end in
  match r with
  | WErr e => (st', Some e)
  | _ => (st', None)
  end.

Definition walkDir (root cwd : gostring) (opts : Options) (st : scanSt)
    : scanSt * option error :=
  filepath_WalkDir root (walkFn cwd opts) st.

(** The loop of [Scan] over [cleanPaths]. *)
Fixpoint scan_paths (cwd : gostring) (opts : Options)
    (cleanPaths : list gostring) (st : scanSt) : scanSt * option error :=
  match cleanPaths with
  | [] => (st, None)
  | path :: rest =>
      match os_Stat W path with
      | Err e => (st, Some e)
      | OK true =>
          match walkDir path cwd opts st with
          | (st', None) => scan_paths cwd opts rest st'
          | (st', Some e) => (st', Some e)
          end
      | OK false =>
          match scanFile path cwd opts st with
          | (st', None) => scan_paths cwd opts rest st'
          | (st', Some e) => (st', Some e)
          end
      end
  end.

Definition clean_paths (paths : list gostring) : list gostring :=
  let paths := if len paths =? 0 then [str "."] else paths in
  let cleanPaths :=
    filter (fun p => p ≠ []) (map (strings_TrimSpace E) paths) in
  if len cleanPaths =? 0 then [str "."] else cleanPaths.

(** The tail of [Scan]: the three sorts and the summary. *)
Definition finish (r : Result) : Result :=
  let scanned := sort_Slice str_lt (ScannedFiles r) in
  let skipped := sort_Slice (fun a b => str_lt (SPath a) (SPath b)) (SkippedFiles r) in
  let findings := sort_Slice finding_less (Findings r) in
  {| Findings := findings; ScannedFiles := scanned; SkippedFiles := skipped;
     RSummary := {| FilesScanned := len scanned;
                    FilesSkipped := len skipped;
                    NFindings := len findings |} |}.

Definition scanSt_init : scanSt :=
  {| visited := ∅;
     res := {| Findings := []; ScannedFiles := []; SkippedFiles := [];
               RSummary := RSummary Result_zero |} |}.

Definition Scan (paths : list gostring) (opts : Options) : Result * option error :=
  let opts := normalizeOptions opts in
  let cleanPaths := clean_paths paths in
  match os_Getwd W with
  | Err e => (Result_zero, Some e)
  | OK cwd =>
      match scan_paths cwd opts cleanPaths scanSt_init with
      | (_, Some e) => (Result_zero, Some e)
      | (st, None) => (finish (res st), None)
      end
  end.
End Orchestrator.

(* ================================================================== *)
(** ** The callers of the scanner

    What [cmd/englint] and [internal/config] do before [Scan] is
    called, and what [internal/output] does with its result.  More of
    the standard library comes in: [utf8.ValidString], [strings.ToUpper],
    [strings.TrimPrefix], [strings.SplitN], [strings.ReplaceAll],
    [strconv.ParseBool] and the [%d] verb; [strconv.Unquote] is a
    parameter of the parser. *)

(** [utf8.ValidString]: the decoder never answers [(RuneError, 1)] on
    the way through the string. *)
Fixpoint valid_fuel (fuel : nat) (s : gostring) : bool :=
  match fuel with
  | O => true
  | S f =>
      match s with
      | [] => true
      | _ :: _ =>
          let '(r, size) := DecodeRuneInString s in
          if (r =? RuneError) && (size =? 1) then false
          else valid_fuel f (slice_from s size)
      end
  end.

Definition ValidString (s : gostring) : bool := valid_fuel (length s) s.

(** [strings.TrimPrefix] *)
Definition TrimPrefix (s prefix : gostring) : gostring :=
  if HasPrefix s prefix then drop (length prefix) s else s.

(** [strings.ToUpper]: ASCII strings take the fast path, others are
    mapped rune by rune with [unicode.ToUpper] and re-encoded. *)
Definition upper_ascii (b : byte) : byte :=
  if (0x61 <=? bv b) && (bv b <=? 0x7A) then byte_of_Z (bv b - 32) else b.

Definition ToUpper (unicode_ToUpper : Z -> Z) (s : gostring) : gostring :=
  if forallb (fun b => bv b <? 0x80) s then map upper_ascii s
  else flat_map (fun r => encode_rune (unicode_ToUpper r)) (runes s).

(** The [%d] verb of [fmt] on an [int]. *)
Definition format_int (z : Z) : gostring :=
  str (NilZero.string_of_int (Z.to_int z)).

(** *** [internal/config]: the allow list and the parser of the configuration *)

Definition hash : byte := x23.
Definition colon : byte := x3a.

(** [strings.SplitN(s, ":", 2)]: the text before the first colon and
    the text after it, or nothing when there is no colon (the result
    then has one element). *)
Fixpoint SplitN_colon (s : gostring) : option (gostring * gostring) :=
  match s with
  | [] => None
  | b :: t =>
      if bool_decide (b = colon) then Some ([], t)
      else match SplitN_colon t with
           | Some (k, v) => Some (b :: k, v)
           | None => None
           end
  end.

(** [strings.ReplaceAll(s, "''", "'")] *)
Fixpoint ReplaceAll_quotes (s : gostring) : gostring :=
  match s with
  | a :: ((b :: t) as t') =>
      if bool_decide (a = quote1) && bool_decide (b = quote1)
      then quote1 :: ReplaceAll_quotes t
      else a :: ReplaceAll_quotes t'
  | _ => s
  end.

(** [strconv.ParseBool] *)
Definition ParseBool (s : gostring) : option bool :=
  if one_of s ["1"; "t"; "T"; "TRUE"; "true"; "True"]%string then Some true
  else if one_of s ["0"; "f"; "F"; "FALSE"; "false"; "False"]%string
  then Some false
  else None.

Module config.

(** [Config].  A [nil] slice and an empty slice are the same list: the
    parser does not tell them apart. *)
Record Config := {
  Include : list gostring;
  Exclude : list gostring;
  Allow : list gostring;
  Severity : gostring;
  IgnoreComments : bool;
  IgnoreStrings : bool;
  AllowFilePatterns : list gostring
}.

Definition Config_zero : Config :=
  {| Include := []; Exclude := []; Allow := []; Severity := [];
     IgnoreComments := false; IgnoreStrings := false;
     AllowFilePatterns := [] |}.

(** The errors of [parseScalar], and those of [parseConfigYAML] with
    their line number; one constructor for each [fmt.Errorf]. *)
Inductive scalar_error :=
  | empty_value
  | invalid_quoted (value : gostring)
  | invalid_single_quoted (value : gostring).

Inductive parse_error :=
  | list_item_without_key (lineNo : Z)
  | bad_scalar (lineNo : Z) (e : scalar_error)
  | no_list_values (lineNo : Z) (key : gostring)
  | expected_key_value (lineNo : Z)
  | must_be_bool (lineNo : Z) (key : gostring)
  | requires_list_values (lineNo : Z) (key : gostring)
  | unknown_key (lineNo : Z) (key : gostring).

(** [AllowedRuneMap]: the two nested [range] loops, the outer over the
    items and the inner over the runes of an item. *)
Definition AllowedRuneMap (allow : list gostring) : gset Z :=
  fold_left
    (fun out item => fold_left (fun out r => {[ r ]} ∪ out) (runes item) out)
    allow ∅.

Section Parser.
Context (E : Env).
(** [strconv.Unquote] *)
Context (strconv_Unquote : gostring -> option gostring).

(** [stripInlineComment].  The loop [for i, r := range line] with its
    three flags; [rest] is [line[i:]]. *)
Fixpoint strip_loop (fuel : nat) (line rest : gostring) (i : Z)
    (inSingle inDouble escaped : bool) : gostring :=
  match fuel with
  | O => strings_TrimSpace E line
  | S f =>
      match rest with
      | [] => strings_TrimSpace E line
      | _ :: _ =>
          let '(r, size) := DecodeRuneInString rest in
          let next := strip_loop f line (slice_from rest size) (i + size) in
          if r =? 0x5C then
            next inSingle inDouble (if inDouble then negb escaped else false)
          else if r =? 0x22 then
            next inSingle
              (if negb inSingle && negb escaped then negb inDouble else inDouble)
              false
          else if r =? 0x27 then
            next (if negb inDouble then negb inSingle else inSingle) inDouble
              false
          else if r =? 0x23 then
            if negb inSingle && negb inDouble
            then strings_TrimSpace E (slice_to line i)
            else next inSingle inDouble false
          else next inSingle inDouble false
      end
  end.

Definition stripInlineComment (line : gostring) : gostring :=
  strip_loop (length line) line line 0 false false false.

Definition parseScalar (value : gostring) : gostring + scalar_error :=
  let value := strings_TrimSpace E (stripInlineComment value) in
  if bool_decide (value = []) then inr empty_value
  else if HasPrefix value [quote2] then
    match strconv_Unquote value with
    | None => inr (invalid_quoted value)
    | Some unq => inl unq
    end
  else if HasPrefix value [quote1] then
    if negb (HasSuffix value [quote1]) || (len value <? 2)
    then inr (invalid_single_quoted value)
    else
      let inner := TrimSuffix (TrimPrefix value [quote1]) [quote1] in
      inl (ReplaceAll_quotes inner)
  else inl value.

Definition add_Include v c :=
  {| Include := Include c ++ [v]; Exclude := Exclude c; Allow := Allow c;
     Severity := Severity c; IgnoreComments := IgnoreComments c;
     IgnoreStrings := IgnoreStrings c; AllowFilePatterns := AllowFilePatterns c |}.
Definition add_Exclude v c :=
  {| Include := Include c; Exclude := Exclude c ++ [v]; Allow := Allow c;
     Severity := Severity c; IgnoreComments := IgnoreComments c;
     IgnoreStrings := IgnoreStrings c; AllowFilePatterns := AllowFilePatterns c |}.
Definition add_Allow v c :=
  {| Include := Include c; Exclude := Exclude c; Allow := Allow c ++ [v];
     Severity := Severity c; IgnoreComments := IgnoreComments c;
     IgnoreStrings := IgnoreStrings c; AllowFilePatterns := AllowFilePatterns c |}.
Definition add_AllowFilePatterns v c :=
  {| Include := Include c; Exclude := Exclude c; Allow := Allow c;
     Severity := Severity c; IgnoreComments := IgnoreComments c;
     IgnoreStrings := IgnoreStrings c;
     AllowFilePatterns := AllowFilePatterns c ++ [v] |}.
Definition set_Severity v c :=
  {| Include := Include c; Exclude := Exclude c; Allow := Allow c;
     Severity := v; IgnoreComments := IgnoreComments c;
     IgnoreStrings := IgnoreStrings c; AllowFilePatterns := AllowFilePatterns c |}.
Definition set_IgnoreComments v c :=
  {| Include := Include c; Exclude := Exclude c; Allow := Allow c;
     Severity := Severity c; IgnoreComments := v;
     IgnoreStrings := IgnoreStrings c; AllowFilePatterns := AllowFilePatterns c |}.
Definition set_IgnoreStrings v c :=
  {| Include := Include c; Exclude := Exclude c; Allow := Allow c;
     Severity := Severity c; IgnoreComments := IgnoreComments c;
     IgnoreStrings := v; AllowFilePatterns := AllowFilePatterns c |}.

(** A line that the parser passes over: blank, or a comment. *)
Definition passed_line (raw : gostring) : bool :=
  let line := strings_TrimSpace E raw in
  bool_decide (line = []) || HasPrefix line [hash].

(** One round of the loop of [parseConfigYAML] on a line that is not
    passed over: the next [cfg] and [currentList], or the error. *)
Definition parse_line (lineNo : Z) (raw : gostring) (cfg : Config)
    (currentList : gostring) : (Config * gostring) + parse_error :=
  let line := strings_TrimSpace E raw in
  if HasPrefix line (str "- ") then
    if bool_decide (currentList = []) then inr (list_item_without_key lineNo)
    else
      match parseScalar (strings_TrimSpace E (TrimPrefix line (str "- "))) with
      | inr e => inr (bad_scalar lineNo e)
      | inl value =>
          if bool_decide (currentList = str "include")
          then inl (add_Include value cfg, currentList)
          else if bool_decide (currentList = str "exclude")
          then inl (add_Exclude value cfg, currentList)
          else if bool_decide (currentList = str "allow")
          then inl (add_Allow value cfg, currentList)
          else if bool_decide (currentList = str "allow_file_patterns")
          then inl (add_AllowFilePatterns value cfg, currentList)
          else inr (no_list_values lineNo currentList)
      end
  else
    match SplitN_colon line with
    | None => inr (expected_key_value lineNo)
    | Some (k, v) =>
        let key := strings_TrimSpace E k in
        let valueRaw := strings_TrimSpace E v in
        if bool_decide (valueRaw = []) then inl (cfg, key)
        else
          match parseScalar valueRaw with
          | inr e => inr (bad_scalar lineNo e)
          | inl value =>
              if bool_decide (key = str "severity")
              then inl (set_Severity value cfg, [])
              else if bool_decide (key = str "ignore_comments") then
                match ParseBool value with
                | Some b => inl (set_IgnoreComments b cfg, [])
                | None => inr (must_be_bool lineNo (str "ignore_comments"))
                end
              else if bool_decide (key = str "ignore_strings") then
                match ParseBool value with
                | Some b => inl (set_IgnoreStrings b cfg, [])
                | None => inr (must_be_bool lineNo (str "ignore_strings"))
                end
              else if one_of key ["include"; "exclude"; "allow";
                                  "allow_file_patterns"]%string
              then inr (requires_list_values lineNo key)
              else inr (unknown_key lineNo key)
          end
    end.

(** The loop over the lines; [i] is the index of the first of them. *)
Fixpoint parse_lines (lines : list gostring) (i : Z) (cfg : Config)
    (currentList : gostring) : Config + parse_error :=
  match lines with
  | [] => inl cfg
  | raw :: rest =>
      let lineNo := i + 1 in
      if passed_line raw then parse_lines rest (i + 1) cfg currentList
      else
        match parse_line lineNo raw cfg currentList with
        | inr e => inr e
        | inl (cfg', currentList') => parse_lines rest (i + 1) cfg' currentList'
        end
  end.

Definition parseConfigYAML (input : gostring) : Config + parse_error :=
  parse_lines (Split_nl input) 0 Config_zero [].
End Parser.
End config.

(** *** [cmd/englint]: the arguments of the commands *)
Module main.

Record scanArgs := {
  ConfigPath : gostring;
  Include : list gostring;
  Exclude : list gostring;
  JSON : bool;
  Fix : bool;
  Severity : gostring;
  NoColor : bool;
  Verbose : bool;
  Paths : list gostring
}.

Record initArgs := { InitConfigPath : gostring }.

(** The errors of the argument parsers, one constructor for each
    [fmt.Errorf]. *)
Inductive arg_error :=
  | flag_requires_value (flag : gostring)
      (** ["flag %s requires a value"] *)
  | unknown_flag (arg : gostring)
      (** ["unknown flag: %s"] *)
  | unknown_flag_for_init (arg : gostring)
      (** ["unknown flag for init: %s"] *).

Definition with_ConfigPath (v : gostring) (a : scanArgs) : scanArgs :=
  {| ConfigPath := v; Include := Include a; Exclude := Exclude a;
     JSON := JSON a; Fix := Fix a; Severity := Severity a;
     NoColor := NoColor a; Verbose := Verbose a; Paths := Paths a |}.

Definition with_Include (v : list gostring) (a : scanArgs) : scanArgs :=
  {| ConfigPath := ConfigPath a; Include := v; Exclude := Exclude a;
     JSON := JSON a; Fix := Fix a; Severity := Severity a;
     NoColor := NoColor a; Verbose := Verbose a; Paths := Paths a |}.

Definition with_Exclude (v : list gostring) (a : scanArgs) : scanArgs :=
  {| ConfigPath := ConfigPath a; Include := Include a; Exclude := v;
     JSON := JSON a; Fix := Fix a; Severity := Severity a;
     NoColor := NoColor a; Verbose := Verbose a; Paths := Paths a |}.

Definition with_JSON (v : bool) (a : scanArgs) : scanArgs :=
  {| ConfigPath := ConfigPath a; Include := Include a; Exclude := Exclude a;
     JSON := v; Fix := Fix a; Severity := Severity a;
     NoColor := NoColor a; Verbose := Verbose a; Paths := Paths a |}.

Definition with_Fix (v : bool) (a : scanArgs) : scanArgs :=
  {| ConfigPath := ConfigPath a; Include := Include a; Exclude := Exclude a;
     JSON := JSON a; Fix := v; Severity := Severity a;
     NoColor := NoColor a; Verbose := Verbose a; Paths := Paths a |}.

Definition with_Severity (v : gostring) (a : scanArgs) : scanArgs :=
  {| ConfigPath := ConfigPath a; Include := Include a; Exclude := Exclude a;
     JSON := JSON a; Fix := Fix a; Severity := v;
     NoColor := NoColor a; Verbose := Verbose a; Paths := Paths a |}.

Definition with_NoColor (v : bool) (a : scanArgs) : scanArgs :=
  {| ConfigPath := ConfigPath a; Include := Include a; Exclude := Exclude a;
     JSON := JSON a; Fix := Fix a; Severity := Severity a;
     NoColor := v; Verbose := Verbose a; Paths := Paths a |}.

Definition with_Verbose (v : bool) (a : scanArgs) : scanArgs :=
  {| ConfigPath := ConfigPath a; Include := Include a; Exclude := Exclude a;
     JSON := JSON a; Fix := Fix a; Severity := Severity a;
     NoColor := NoColor a; Verbose := v; Paths := Paths a |}.

Definition with_Paths (v : list gostring) (a : scanArgs) : scanArgs :=
  {| ConfigPath := ConfigPath a; Include := Include a; Exclude := Exclude a;
     JSON := JSON a; Fix := Fix a; Severity := Severity a;
     NoColor := NoColor a; Verbose := Verbose a; Paths := v |}.

Definition default_config_path : gostring := str ".englint.yaml".

Section Args.
Context (E : Env).

(** The [for] loop of [parseScanArgs]: [args] is [args[i:]].  A flag
    that takes a value consumes the next argument ([i++]); ["--"] ends
    the loop and hands the rest to [Paths]. *)
Fixpoint scan_args_loop (args : list gostring) (out : scanArgs)
    : scanArgs + arg_error :=
  match args with
  | [] => inl out
  | raw :: rest =>
      let arg := strings_TrimSpace E raw in
      if bool_decide (arg = []) then scan_args_loop rest out
      else if bool_decide (arg = str "--") then
        inl (with_Paths (Paths out ++ rest) out)
      else if negb (HasPrefix arg (str "-")) then
        scan_args_loop rest (with_Paths (Paths out ++ [arg]) out)
      else if bool_decide (arg = str "--json") then
        scan_args_loop rest (with_JSON true out)
      else if bool_decide (arg = str "--fix") then
        scan_args_loop rest (with_Fix true out)
      else if bool_decide (arg = str "--no-color") then
        scan_args_loop rest (with_NoColor true out)
      else if bool_decide (arg = str "--verbose") then
        scan_args_loop rest (with_Verbose true out)
      else if bool_decide (arg = str "--config") then
        match rest with
        | [] => inr (flag_requires_value (str "--config"))
        | v :: rest' => scan_args_loop rest' (with_ConfigPath v out)
        end
      else if HasPrefix arg (str "--config=") then
        scan_args_loop rest
          (with_ConfigPath (TrimPrefix arg (str "--config=")) out)
      else if bool_decide (arg = str "--exclude") then
        match rest with
        | [] => inr (flag_requires_value (str "--exclude"))
        | v :: rest' =>
            scan_args_loop rest' (with_Exclude (Exclude out ++ [v]) out)
        end
      else if HasPrefix arg (str "--exclude=") then
        scan_args_loop rest
          (with_Exclude (Exclude out ++ [TrimPrefix arg (str "--exclude=")]) out)
      else if bool_decide (arg = str "--include") then
        match rest with
        | [] => inr (flag_requires_value (str "--include"))
        | v :: rest' =>
            scan_args_loop rest' (with_Include (Include out ++ [v]) out)
        end
      else if HasPrefix arg (str "--include=") then
        scan_args_loop rest
          (with_Include (Include out ++ [TrimPrefix arg (str "--include=")]) out)
      else if bool_decide (arg = str "--severity") then
        match rest with
        | [] => inr (flag_requires_value (str "--severity"))
        | v :: rest' => scan_args_loop rest' (with_Severity v out)
        end
      else if HasPrefix arg (str "--severity=") then
        scan_args_loop rest
          (with_Severity (TrimPrefix arg (str "--severity=")) out)
      else inr (unknown_flag arg)
  end.

Definition scanArgs_init : scanArgs :=
  {| ConfigPath := default_config_path; Include := []; Exclude := [];
     JSON := false; Fix := false; Severity := [];
     NoColor := false; Verbose := false; Paths := [] |}.

Definition parseScanArgs (args : list gostring) : scanArgs + arg_error :=
  match scan_args_loop args scanArgs_init with
  | inr e => inr e
  | inl out =>
      let out := if len (Paths out) =? 0 then with_Paths [str "."] out else out in
      let out :=
        if bool_decide (strings_TrimSpace E (ConfigPath out) = [])
        then with_ConfigPath default_config_path out else out in
      inl (with_Severity (ToLower E (strings_TrimSpace E (Severity out))) out)
  end.

Fixpoint init_args_loop (args : list gostring) (out : initArgs)
    : initArgs + arg_error :=
  match args with
  | [] => inl out
  | raw :: rest =>
      let arg := strings_TrimSpace E raw in
      if bool_decide (arg = []) then init_args_loop rest out
      else if bool_decide (arg = str "--config") then
        match rest with
        | [] => inr (flag_requires_value (str "--config"))
        | v :: rest' => init_args_loop rest' {| InitConfigPath := v |}
        end
      else if HasPrefix arg (str "--config=") then
        init_args_loop rest
          {| InitConfigPath := TrimPrefix arg (str "--config=") |}
      else inr (unknown_flag_for_init arg)
  end.

Definition parseInitArgs (args : list gostring) : initArgs + arg_error :=
  match init_args_loop args {| InitConfigPath := default_config_path |} with
  | inr e => inr e
  | inl out =>
      inl (if bool_decide (strings_TrimSpace E (InitConfigPath out) = [])
           then {| InitConfigPath := default_config_path |} else out)
  end.
End Args.
End main.

(** *** [internal/output]: the human-readable report *)
Module output.

Definition fixSuggestion : gostring :=
  str "Auto-fix is not implemented yet. Replace characters manually or add safe symbols to the allow list in .englint.yaml.".

Record ScanOptions := { Verbose : bool; FixRequested : bool }.

(** The flags of a [Writer]; its [Out] is the writer state that the
    functions below thread. *)
Record Writer := { JSON : bool; NoColor : bool }.

Definition esc : byte := x1b.

Definition colorize (w : Writer) (label : gostring) (severity : gostring)
    : gostring :=
  if NoColor w then label
  else if bool_decide (severity = SeverityWarning)
  then [esc] ++ str "[33m" ++ label ++ [esc] ++ str "[0m"
  else [esc] ++ str "[31m" ++ label ++ [esc] ++ str "[0m".

Section Print.
(** [w.Out]: an [io.Writer] in a state of type [Out]; [Write] returns
    the next state and the error, if any.  [fmt.Fprintf] and
    [fmt.Fprintln] format their arguments and call [Write] once. *)
Context {Out Err : Type} (Write : Out -> gostring -> Out * option Err).
Context (E : Env) (unicode_ToUpper : Z -> Z).

(** A statement of the function: it runs on the writer and either goes
    on ([None]) or makes the function return the error. *)
Definition stmt := Out -> Out * option Err.

Definition seq (a b : stmt) : stmt :=
  fun out =>
    match a out with
    | (out', None) => b out'
    | (out', Some e) => (out', Some e)
    end.

Definition skip : stmt := fun out => (out, None).

Fixpoint for_range {A} (l : list A) (body : A -> stmt) : stmt :=
  match l with
  | [] => skip
  | x :: l' => seq (body x) (for_range l' body)
  end.

Definition when (c : bool) (a : stmt) : stmt := if c then a else skip.

Definition Fprint (s : gostring) : stmt := fun out => Write out s.

(** ["%s %s:%d:%d [%s] %s (%s)\n"] *)
Definition finding_line (w : Writer) (finding : Finding) : gostring :=
  let label := ToUpper unicode_ToUpper (FSeverity finding) in
  let label := colorize w label (FSeverity finding) in
  label ++ str " " ++ Path finding ++ str ":" ++ format_int (Line finding)
  ++ str ":" ++ format_int (Column finding)
  ++ str " [" ++ Category finding ++ str "] " ++ Character finding
  ++ str " (" ++ CodePoint finding ++ str ")" ++ [nl].

(** ["Summary: scanned=%d skipped=%d findings=%d\n"] *)
Definition summary_line (s : Summary) : gostring :=
  str "Summary: scanned=" ++ format_int (FilesScanned s)
  ++ str " skipped=" ++ format_int (FilesSkipped s)
  ++ str " findings=" ++ format_int (NFindings s) ++ [nl].

Definition printScanHuman (w : Writer) (result : Result) (opts : ScanOptions)
    : stmt :=
  seq (when (Verbose opts)
         (seq (for_range (ScannedFiles result) (fun file =>
                 Fprint (str "SCANNED " ++ file ++ [nl])))
              (for_range (SkippedFiles result) (fun skipped =>
                 Fprint (str "SKIPPED " ++ SPath skipped ++ str " ("
                         ++ Reason skipped ++ str ")" ++ [nl])))))
 (seq (for_range (Findings result) (fun finding =>
         seq (Fprint (finding_line w finding))
             (when (negb (bool_decide
                            (strings_TrimSpace E (Excerpt finding) = [])))
                (Fprint (str "  " ++ Excerpt finding ++ [nl])))))
 (seq (when (NFindings (RSummary result) =? 0)
         (Fprint (str "No non-English text found." ++ [nl])))
 (seq (Fprint (summary_line (RSummary result)))
      (when (FixRequested opts && (0 <? NFindings (RSummary result)))
         (Fprint (fixSuggestion ++ [nl])))))).
End Print.
End output.

(* ================================================================== *)
(** ** A small concrete environment

    Used to run the definitions above on concrete inputs.  The Unicode
    tables are excerpts of Go's (the main block of each script), the
    [%q] verb is given for strings that need no escaping, and
    [match.Match] accepts literal patterns only, which is the one case
    the tests of [internal/match] fix without the glob translation. *)
Module Sample.

Definition in_ranges (r : Z) (l : list (Z * Z)) : bool :=
  existsb (fun '(lo, hi) => (lo <=? r) && (r <=? hi)) l.

Definition script_ranges (t : script) : list (Z * Z) :=
  match t with
  | Han => [(0x3400, 0x4DBF); (0x4E00, 0x9FFF)]
  | Hiragana => [(0x3041, 0x3096); (0x309D, 0x309F)]
  | Katakana => [(0x30A1, 0x30FA); (0x30FD, 0x30FF)]
  | Hangul => [(0x1100, 0x11FF); (0xAC00, 0xD7A3)]
  | Cyrillic => [(0x0400, 0x0484); (0x0487, 0x052F)]
  | Arabic => [(0x0620, 0x063F); (0x0641, 0x064A)]
  | Thai => [(0x0E01, 0x0E3A); (0x0E40, 0x0E5B)]
  | Devanagari => [(0x0900, 0x0950); (0x0966, 0x097F)]
  | Hebrew => [(0x0591, 0x05C7); (0x05D0, 0x05EA)]
  | Greek => [(0x0370, 0x0373); (0x0388, 0x038A); (0x038E, 0x03A1); (0x03A3, 0x03E1)]
  | Latin => [(0x41, 0x5A); (0x61, 0x7A); (0xC0, 0xD6); (0xD8, 0xF6); (0xF8, 0x02B8)]
  end.

Definition is_space (b : byte) : bool :=
  bool_decide (b = x20) || ((0x09 <=? bv b) && (bv b <=? 0x0D)).

Fixpoint trim_left (s : gostring) : gostring :=
  match s with
  | b :: t => if is_space b then trim_left t else s
  | [] => []
  end.

Definition env : Env :=
  {| unicode_Is := fun t r => in_ranges r (script_ranges t);
     unicode_IsPunct := fun r => in_ranges r [(0x2010, 0x2027); (0x3001, 0x3003)];
     unicode_IsSymbol := fun r => in_ranges r [(0xA9, 0xA9); (0x2190, 0x21FF)];
     unicode_ToLower := fun r =>
       if (0x41 <=? r) && (r <=? 0x5A) then r + 32 else r;
     strconv_Quote := fun s => [quote2] ++ s ++ [quote2];
     strings_TrimSpace := fun s => reverse (trim_left (reverse (trim_left s)));
     match_Match := fun p v => bool_decide (p = v) |}.

Definition enoent (op name : gostring) : error := os_error op name.

Definition lookup_file {A} (name : gostring) (files : list (gostring * A))
    : option A :=
  snd <$> find (fun e => bool_decide (fst e = name)) files.

(** A working directory [cwd] that holds the given regular files and
    directory trees by name, and nothing else. *)
Definition world (cwd : gostring) (files : list (gostring * list byte))
    (dirs : list (gostring * fsnode)) : World :=
  let abs p := if HasPrefix p [slash] then p else cwd ++ [slash] ++ p in
  let rel p :=
    if HasPrefix p (cwd ++ [slash]) then Some (drop (length cwd + 1) p)
    else None in
  {| os_Getwd := OK cwd;
     os_Stat := fun p =>
       match rel (abs p) with
       | Some name =>
           if bool_decide (is_Some (lookup_file name files)) then OK false
           else if bool_decide (is_Some (lookup_file name dirs)) then OK true
           else Err (enoent (str "stat") p)
       | None => Err (enoent (str "stat") p)
       end;
     os_Lstat := fun p =>
       match rel (abs p) ≫= fun name => lookup_file name dirs with
       | Some n => OK n
       | None => Err (enoent (str "lstat") p)
       end;
     filepath_Abs := fun p => OK (abs p);
     filepath_Rel := fun base p =>
       if HasPrefix p (base ++ [slash])
       then OK (drop (length base + 1) p)
       else OK (str "../" ++ p);
     os_ReadFile := fun p =>
       match rel p ≫= fun name => lookup_file name files with
       | Some data => OK data
       | None => Err (enoent (str "open") p)
       end |}.

Definition options : Options :=
  {| Include := []; Exclude := []; AllowRunes := ∅;
     OSeverity := SeverityError;
     IgnoreComments := false; IgnoreStrings := false;
     AllowFilePatterns := [] |}.

Definition go_syntax : syntaxRules :=
  mkSyntax [str "//"] (str "/*") (str "*/") true true.

(** [var _ = "こんにちは"] *)
Definition greeting : list byte :=
  str "var _ = " ++ [quote2] ++ str "こんにちは" ++ [quote2].

Definition greeting_world : World :=
  world (str "/w") [(str "sample.go", greeting)] [].

(** A line whose non-ASCII characters are all on the allow list. *)
Definition allowed_text : list byte := str "x = '©→©' // →".
Definition allowed_opts : Options :=
  {| Include := []; Exclude := []; AllowRunes := {[ 0xA9; 0x2192 ]};
     OSeverity := SeverityError;
     IgnoreComments := false; IgnoreStrings := false;
     AllowFilePatterns := [] |}.

(** A line of 161 letters and one offending character. *)
Definition long_line : list byte := replicate 161 x61 ++ str "é".

Definition greeting_first : Finding :=
  default (invalid_finding [] [] options 0 0)
    (head (scanContent env (str "sample.go") greeting
             (syntaxForPath env (str "sample.go")) options)).

(** One offending character in code, one in a line comment, one in a
    double-quoted string. *)
Definition three_contexts : list byte :=
  str "é // é" ++ [nl; quote2] ++ str "é" ++ [quote2; nl].

Definition greeting_result : Result :=
  (Scan env greeting_world [str "sample.go"] options).1.

(** A file that begins with a NUL byte. *)
Definition binary_data : list byte := [x00; x01].
Definition binary_world : World :=
  world (str "/w") [(str "a.bin", binary_data)] [].

(** A directory [d] with a file that has findings and a sub-directory
    that cannot be read. *)
Definition blocked_tree : fsnode :=
  FsDir (str "d")
    [FsFile (str "d/a.go") true;
     FsDir (str "d/blocked") [] (Some (os_error (str "open") (str "d/blocked")))]
    None.

Definition blocked_world : World :=
  world (str "/w") [(str "d/a.go", greeting)]
    [(str "d", blocked_tree)].

(** The greeting file, present but not readable. *)
Definition unreadable_world : World :=
  {| os_Getwd := os_Getwd greeting_world;
     os_Stat := os_Stat greeting_world;
     os_Lstat := os_Lstat greeting_world;
     filepath_Abs := filepath_Abs greeting_world;
     filepath_Rel := filepath_Rel greeting_world;
     os_ReadFile := fun p => Err (os_error (str "open") p) |}.
(** The greeting file left out by an exclude pattern, and allowed by an
    allow-file pattern. *)
Definition excluding : Options :=
  {| Include := []; Exclude := [str "sample.go"]; AllowRunes := ∅;
     OSeverity := SeverityError;
     IgnoreComments := false; IgnoreStrings := false;
     AllowFilePatterns := [] |}.

Definition allowing_file : Options :=
  {| Include := []; Exclude := []; AllowRunes := ∅;
     OSeverity := SeverityError;
     IgnoreComments := false; IgnoreStrings := false;
     AllowFilePatterns := [str "sample.go"] |}.

(** The directory [d/blocked] excluded. *)
Definition pruning : Options :=
  {| Include := []; Exclude := [str "d/blocked"]; AllowRunes := ∅;
     OSeverity := SeverityError;
     IgnoreComments := false; IgnoreStrings := false;
     AllowFilePatterns := [] |}.

Definition blocked_dir : fsnode :=
  FsDir (str "d/blocked") [] (Some (os_error (str "open") (str "d/blocked"))).

(** A file without findings. *)
Definition clean_world : World :=
  world (str "/w") [(str "ok.go", str "package p")] [].

Definition clean_result : Result :=
  (Scan env clean_world [str "ok.go"] options).1.

(** A writer that appends to a buffer and never fails. *)
Definition buffer_Write (out s : gostring) : gostring * option error :=
  (out ++ s, None).

(** Only the copyright sign allowed, through the allow list of a
    configuration; and the first finding for the arrow in
    [allowed_text] under these options. *)
Definition copyright_only : Options :=
  {| Include := []; Exclude := [];
     AllowRunes := config.AllowedRuneMap [str "©"];
     OSeverity := SeverityError;
     IgnoreComments := false; IgnoreStrings := false;
     AllowFilePatterns := [] |}.

Definition arrow_finding : Finding :=
  default (invalid_finding [] [] options 0 0)
    (head (scanContent env (str "a.py") allowed_text
             (syntaxForPath env (str "a.py")) copyright_only)).
(** The binary file left out by an exclude pattern, and allowed by an
    allow-file pattern. *)
Definition excluding_binary : Options :=
  {| Include := []; Exclude := [str "a.bin"]; AllowRunes := ∅;
     OSeverity := SeverityError;
     IgnoreComments := false; IgnoreStrings := false;
     AllowFilePatterns := [] |}.

Definition allowing_binary : Options :=
  {| Include := []; Exclude := []; AllowRunes := ∅;
     OSeverity := SeverityError;
     IgnoreComments := false; IgnoreStrings := false;
     AllowFilePatterns := [str "a.bin"] |}.
End Sample.

(* ================================================================== *)
(** ** Notions used to state the properties

    None of these is part of the program.  They describe a text
    independently of the scanner's state machine (its runes and where
    they stand, its permitted characters, its layout in code, comments
    and strings), and name the context in which the scanner met a
    character. *)

Definition printable (b : byte) : bool := (0x20 <=? bv b) && (bv b <=? 0x7E).

(** A syntax profile whose comment tokens are printable ASCII, as every
    profile of [syntaxForPath] is. *)
Definition plain_syntax (syntax : syntaxRules) : bool :=
  forallb (forallb printable) (lineComments syntax)
  && forallb printable (blockStart syntax)
  && forallb printable (blockEnd syntax).

(** A rune of a text with its byte offset, its line (1-based) and its
    column (1-based, counted in runes; an invalid byte counts as one). *)
Record rune_at := {
  ra_offset : Z;
  ra_line : Z;
  ra_col : Z;
  ra_rune : Z;
  ra_size : Z
}.

Fixpoint text_runes_from (fuel : nat) (s : gostring) (off line col : Z)
    : list rune_at :=
  match fuel with
  | O => []
  | S f =>
      match s with
      | [] => []
      | _ :: _ =>
          let '(r, size) := DecodeRuneInString s in
          {| ra_offset := off; ra_line := line; ra_col := col;
             ra_rune := r; ra_size := size |}
          :: text_runes_from f (slice_from s size) (off + size)
               (if r =? 0x0A then line + 1 else line)
               (if r =? 0x0A then 1 else col + 1)
      end
  end.

(** The runes of a suffix that starts at [off], [line], [col]. *)
Definition runes_at (s : gostring) (off line col : Z) : list rune_at :=
  text_runes_from (length s) s off line col.

Definition text_runes (text : gostring) : list rune_at := runes_at text 0 1 1.

(** An invalid byte: the decoder answered [(RuneError, 1)]. *)
Definition ra_invalid (x : rune_at) : bool :=
  (ra_rune x =? RuneError) && (ra_size x =? 1).

(** The rune is to be reported under the allow list [allow]. *)
Definition offending (allow : gset Z) (x : rune_at) : bool :=
  ra_invalid x || negb (isAllowedRune (ra_rune x) allow).

(** The finding the scanner writes for an offending rune. *)
Definition finding_at (E : Env) (path : gostring) (lines : list gostring)
    (opts : Options) (x : rune_at) : Finding :=
  if ra_invalid x then invalid_finding path lines opts (ra_line x) (ra_col x)
  else rune_finding E path lines opts (ra_line x) (ra_col x) (ra_rune x).

(** One finding for each offending rune of a suffix, in text order. *)
Definition expected (E : Env) (path : gostring) (lines : list gostring)
    (opts : Options) (s : gostring) (off line col : Z) : list Finding :=
  map (finding_at E path lines opts)
      (filter (fun x => offending (AllowRunes opts) x = true)
              (runes_at s off line col)).

(** One finding for each offending rune of the text. *)
Definition findings_of_text (E : Env) (path : gostring) (text : gostring)
    (opts : Options) : list Finding :=
  expected E path (Split_nl text) opts text 0 1 1.

(** The number of newline bytes in a prefix, and the line around a byte
    offset: from after the previous newline up to the next one. *)
Definition count_nl (s : gostring) : Z :=
  len (filter (fun b => b = nl) s).

Fixpoint until_nl (s : gostring) : gostring :=
  match s with
  | [] => []
  | b :: t => if bool_decide (b = nl) then [] else b :: until_nl t
  end.

Definition line_around (text : gostring) (off : Z) : gostring :=
  reverse (until_nl (reverse (slice_to text off))) ++ until_nl (slice_from text off).

(** The positions of the runes of an ASCII text, in closed form: the
    line is one more than the number of newlines before the byte, the
    column one more than the number of bytes since the last newline. *)
Definition byte_position_ok (text : gostring) (x : rune_at) : Prop :=
  exists c,
    text !! Z.to_nat (ra_offset x) = Some c
    /\ ra_rune x = bv c /\ ra_size x = 1
    /\ ra_line x = 1 + count_nl (slice_to text (ra_offset x))
    /\ ra_col x = 1 + len (until_nl (reverse (slice_to text (ra_offset x)))).

Definition set_flags (ignoreComments ignoreStrings : bool) (o : Options)
    : Options :=
  {| Include := Include o; Exclude := Exclude o; AllowRunes := AllowRunes o;
     OSeverity := OSeverity o;
     IgnoreComments := ignoreComments; IgnoreStrings := ignoreStrings;
     AllowFilePatterns := AllowFilePatterns o |}.

Definition set_allow (allow : gset Z) (o : Options) : Options :=
  {| Include := Include o; Exclude := Exclude o; AllowRunes := allow;
     OSeverity := OSeverity o;
     IgnoreComments := IgnoreComments o; IgnoreStrings := IgnoreStrings o;
     AllowFilePatterns := AllowFilePatterns o |}.

(** The context of each finding: the scanner is run with nothing
    ignored, and every finding is paired with the state the loop was in
    when it wrote it. *)
Section Contexts.
Context (E : Env) (path text : gostring) (lines : list gostring).
Context (syntax : syntaxRules) (opts : Options).

Fixpoint context_loop (fuel : nat) (s : loopState)
    : list (scanState * Finding) :=
  if ls_i s <? len text then
    match fuel with
    | O => []
    | S f =>
        let s' := loop_body E path text lines syntax (set_flags false false opts) s in
        map (pair (ls_state s))
            (drop (length (ls_findings s)) (ls_findings s'))
        ++ context_loop f s'
    end
  else [].
End Contexts.

Definition scanContexts (E : Env) (path : gostring) (data : list byte)
    (syntax : syntaxRules) (opts : Options) : list (scanState * Finding) :=
  context_loop E path data (Split_nl data) syntax opts (length data) loop_init.

(** The variables of the loop other than the findings. *)
Definition cursor (s : loopState) : Z * Z * Z * scanState * bool :=
  (ls_i s, ls_line s, ls_col s, ls_state s, ls_escaped s).

(** The order of the specification: [(path, line, column, codePoint)]
    compared lexicographically, strings bytewise. *)
Definition key_le (a b : Finding) : Prop :=
  str_lt (Path a) (Path b) = true
  \/ (Path a = Path b
      /\ (Line a < Line b
          \/ (Line a = Line b
              /\ (Column a < Column b
                  \/ (Column a = Column b
                      /\ (str_lt (CodePoint a) (CodePoint b) = true
                          \/ CodePoint a = CodePoint b)))))).

(** The Japanese code points of the greeting with their columns. *)
Definition greeting_runes : list (Z * Z) :=
  [(10, 0x3053); (11, 0x3093); (12, 0x306B); (13, 0x3061); (14, 0x306F)].

Definition default_options (o : Options) : Prop :=
  Include o = [] /\ Exclude o = [] /\ AllowFilePatterns o = []
  /\ AllowRunes o = ∅ /\ OSeverity o = SeverityError
  /\ IgnoreComments o = false /\ IgnoreStrings o = false.

(** Binary content, in the words of the specification: within the first
    [min(length, 8192)] bytes there is a NUL byte, or the control
    characters other than newline, carriage return and tab are more than
    0.30 of the sample. *)
Definition control_byte (b : byte) : Prop :=
  (bv b < 0x20 \/ bv b = 0x7f) /\ b <> nl /\ b <> cr /\ b <> tab.

#[global] Instance control_byte_dec b : Decision (control_byte b).
Proof. unfold control_byte. apply _. Defined.

Definition binary_content (data : list byte) : Prop :=
  let sample := slice_to data (Z.min (len data) 8192) in
  x00 ∈ sample \/ 3 * len sample < 10 * len (filter control_byte sample).

(** What makes a scan fail.  A file is unreadable for the scan when it
    passes the include, exclude and allow-file steps and [os.ReadFile]
    fails on it.  A walk fails in a tree when, outside the directories
    that the exclude patterns prune, it meets a directory that cannot be
    read or a regular file that is unreadable. *)
Section Failures.
Context (E : Env) (W : World) (cwd : gostring) (opts : Options).

Definition passes_filters (abs : gostring) : bool :=
  let display := displayPath W cwd abs in
  isIncluded E display (Include opts)
  && negb (isExcluded E display (Exclude opts))
  && negb (isAllowedFile E display (AllowFilePatterns opts)).

Definition unreadable (abs : gostring) : bool :=
  passes_filters abs
  && match os_ReadFile W abs with Err _ => true | OK _ => false end.

Definition file_fails (path : gostring) : bool :=
  match filepath_Abs W path with
  | OK abs => unreadable abs
  | Err _ => false
  end.

Definition pruned (path : gostring) : bool :=
  let display := displayPath W cwd path in
  negb (bool_decide (display = str "."))
  && isExcluded E display (Exclude opts).

Fixpoint fails_in (n : fsnode) : bool :=
  match n with
  | FsFile p regular => regular && file_fails p
  | FsDir p entries readErr =>
      negb (pruned p)
      && (bool_decide (is_Some readErr) || existsb fails_in entries)
  end.

Definition root_fails (p : gostring) : bool :=
  match os_Stat W p with
  | Err _ => true
  | OK true =>
      match os_Lstat W p with
      | Err _ => true
      | OK n => fails_in n
      end
  | OK false => file_fails p
  end.

(** No path visited so far is unreadable: [scanFile] would have
    returned the read error. *)
Definition clean_visited (st : scanSt) : Prop :=
  forall abs, abs ∈ visited st -> unreadable abs = false.
End Failures.

(** What a scan has scanned.  [findings_of] is what scanning the file at
    a canonical path contributes; [scanned_once] says that the scanned
    files and the findings collected so far come from a list of distinct
    visited canonical paths, one entry and one batch of findings each. *)
Section ScannedOnce.
Context (E : Env) (W : World) (cwd : gostring) (opts : Options).

Definition findings_of (abs : gostring) : list Finding :=
  let display := displayPath W cwd abs in
  match os_ReadFile W abs with
  | OK data => scanContent E display data (syntaxForPath E display) opts
  | Err _ => []
  end.

Definition scanned_once (st : scanSt) : Prop :=
  exists l : list gostring,
    NoDup l
    /\ (forall a, a ∈ l -> a ∈ visited st)
    /\ ScannedFiles (res st) = map (displayPath W cwd) l
    /\ Findings (res st) = flat_map findings_of l.
End ScannedOnce.

(** What is still to be reported from a state of the loop: the findings
    for the offending runes of [text[i:]].  A round of the loop is in
    step with the text when what it writes, followed by what is still
    to be reported after it, is a selection of what was to be reported
    before it, and all of it when nothing is ignored. *)
Section InStep.
Context (E : Env) (path text : gostring) (lines : list gostring).
Context (opts : Options).

Definition ahead (s : loopState) : list Finding :=
  expected E path lines opts (slice_from text (ls_i s))
    (ls_i s) (ls_line s) (ls_col s).

Definition no_flags : Prop :=
  IgnoreComments opts = false /\ IgnoreStrings opts = false.

Definition step_ok (s s' : loopState) : Prop :=
  exists new,
    ls_findings s' = ls_findings s ++ new
    /\ sublist (new ++ ahead s') (ahead s)
    /\ (no_flags -> new ++ ahead s' = ahead s).

(** One round under [opts] and one round with nothing ignored, from the
    same position: they end at the same position, and the round under
    [opts] writes what the other writes if the state is inspected, and
    nothing otherwise. *)
Definition factor_ok (s s0 s' s0' : loopState) : Prop :=
  cursor s' = cursor s0'
  /\ exists new,
       ls_findings s0' = ls_findings s0 ++ new
       /\ ls_findings s' = ls_findings s
            ++ (if shouldInspect (ls_state s) opts then new else []).
End InStep.

(** The position of a finding, and the order of positions in a text:
    by line, then by column. *)
Definition pos_lt (a b : Z * Z) : Prop :=
  a.1 < b.1 \/ (a.1 = b.1 /\ a.2 < b.2).

Definition finding_pos (f : Finding) : Z * Z := (Line f, Column f).

(** What a finding written at a state of the loop looks like; what a
    round of the loop does to the findings and to the position; and
    what holds of the loop state after any number of rounds. *)
Definition written_at (path : gostring) (lines : list gostring)
    (opts : Options) (s : loopState) (f : Finding) : Prop :=
  Line f = ls_line s /\ Column f = ls_col s /\ Path f = path
  /\ FSeverity f = OSeverity opts /\ Excerpt f = lineExcerpt lines (ls_line s).

Definition round_ok (path : gostring) (lines : list gostring)
    (opts : Options) (s s' : loopState) : Prop :=
  (ls_findings s' = ls_findings s
   \/ exists f, ls_findings s' = ls_findings s ++ [f]
                /\ written_at path lines opts s f)
  /\ pos_lt (ls_line s, ls_col s) (ls_line s', ls_col s')
  /\ (1 <= ls_line s -> 1 <= ls_col s -> 1 <= ls_line s' /\ 1 <= ls_col s').

Definition positions_inv (path text : gostring) (opts : Options)
    (s : loopState) : Prop :=
  1 <= ls_line s /\ 1 <= ls_col s
  /\ len (ls_findings s) <= Z.min (ls_i s) (len text)
  /\ Forall (fun f => pos_lt (finding_pos f) (ls_line s, ls_col s)
                      /\ 1 <= Line f /\ 1 <= Column f
                      /\ Path f = path /\ FSeverity f = OSeverity opts)
            (ls_findings s)
  /\ StronglySorted (fun a b => pos_lt (finding_pos a) (finding_pos b))
       (ls_findings s).

(** [a <= b] for Go strings: not [b < a]. *)
Definition str_le (a b : gostring) : Prop := str_lt b a = false.

(** An entry that the walk passes over: a file that is not regular, or
    a directory that the exclude patterns prune. *)
Definition passed_over (E : Env) (W : World) (cwd : gostring) (opts : Options)
    (n : fsnode) : bool :=
  match n with
  | FsFile _ regular => negb regular
  | FsDir p _ _ => pruned E W cwd opts p
  end.

(** An ASCII string. *)
Definition ascii (s : gostring) : Prop := Forall (fun b => bv b < 0x80) s.

(** A continuation byte of the encoder. *)
Definition utf8_tx (z : Z) : byte := byte_of_Z (Z.lor 0x80 (Z.land z 0x3F)).

(** Reading a code point back: the value of a hexadecimal digit, of a
    string of digits, and of the number after ["U+"]. *)
Definition digit_value (b : byte) : Z :=
  if bv b <? 58 then bv b - 48 else bv b - 55.

Definition hex_value (s : gostring) : Z :=
  fold_left (fun v b => v * 16 + digit_value b) s 0.

Definition parse_codepoint (s : gostring) : Z := hex_value (slice_from s 2).

(** An argument that is a path: it does not start with a dash once
    trimmed.  The paths that such arguments stand for: trimmed, blank
    ones dropped.  And what [parseScanArgs] returns when no flag is
    given. *)
Definition plain_arg (E : Env) (a : gostring) : Prop :=
  HasPrefix (strings_TrimSpace E a) (str "-") = false.

Definition paths_of (E : Env) (args : list gostring) : list gostring :=
  filter (fun p => p ≠ []) (map (strings_TrimSpace E) args).

Definition only_paths (E : Env) (paths : list gostring) : main.scanArgs :=
  {| main.ConfigPath := str ".englint.yaml";
     main.Include := []; main.Exclude := [];
     main.JSON := false; main.Fix := false;
     main.Severity := ToLower E (strings_TrimSpace E []);
     main.NoColor := false; main.Verbose := false;
     main.Paths := if len paths =? 0 then [str "."] else paths |}.

(** The writes a report consists of, in order. *)
Definition report_writes (E : Env) (toUpper : Z -> Z) (w : output.Writer)
    (result : Result) (opts : output.ScanOptions) : list gostring :=
  (if output.Verbose opts
   then map (fun file => str "SCANNED " ++ file ++ [nl]) (ScannedFiles result)
        ++ map (fun s => str "SKIPPED " ++ SPath s ++ str " (" ++ Reason s
                         ++ str ")" ++ [nl]) (SkippedFiles result)
   else [])
  ++ flat_map (fun f =>
       output.finding_line toUpper w f
       :: (if bool_decide (strings_TrimSpace E (Excerpt f) = []) then []
           else [str "  " ++ Excerpt f ++ [nl]])) (Findings result)
  ++ (if NFindings (RSummary result) =? 0
      then [str "No non-English text found." ++ [nl]] else [])
  ++ [output.summary_line (RSummary result)]
  ++ (if output.FixRequested opts && (0 <? NFindings (RSummary result))
      then [output.fixSuggestion ++ [nl]] else []).

(** Writing a list of strings one by one, up to the first error. *)
Fixpoint write_all {Out Err} (Write : Out -> gostring -> Out * option Err)
    (l : list gostring) (out : Out) : Out * option Err :=
  match l with
  | [] => (out, None)
  | s :: l' =>
      match Write out s with
      | (out', None) => write_all Write l' out'
      | (out', Some e) => (out', Some e)
      end
  end.

(** Two rounds from the same position, the second with the larger
    allow set: they end at the same position, and the second writes
    what the first writes or nothing. *)
Definition fewer (s s' t t' : loopState) : Prop :=
  cursor t = cursor t'
  /\ exists new new',
       ls_findings t = ls_findings s ++ new
       /\ ls_findings t' = ls_findings s' ++ new'
       /\ sublist new' new.

(** The line number that an error of the parser carries. *)
Definition error_line (e : config.parse_error) : Z :=
  match e with
  | config.list_item_without_key n | config.bad_scalar n _
  | config.no_list_values n _ | config.expected_key_value n
  | config.must_be_bool n _ | config.requires_list_values n _
  | config.unknown_key n _ => n
  end.

(** The same error [k] lines further down. *)
Definition shift_error (k : Z) (e : config.parse_error) : config.parse_error :=
  match e with
  | config.list_item_without_key n => config.list_item_without_key (n + k)
  | config.bad_scalar n x => config.bad_scalar (n + k) x
  | config.no_list_values n x => config.no_list_values (n + k) x
  | config.expected_key_value n => config.expected_key_value (n + k)
  | config.must_be_bool n x => config.must_be_bool (n + k) x
  | config.requires_list_values n x => config.requires_list_values (n + k) x
  | config.unknown_key n x => config.unknown_key (n + k) x
  end.

Definition shift_result {A} (k : Z) (r : A + config.parse_error)
    : A + config.parse_error :=
  match r with
  | inl a => inl a
  | inr e => inr (shift_error k e)
  end.

(** A line that the parser accepts: it is passed over, or it is a list
    item, or it is [key: value] where the value is empty or the key is
    one of the three keys that take a value. *)
Definition accepted_line (E : Env) (raw : gostring) : Prop :=
  config.passed_line E raw = true
  \/ HasPrefix (strings_TrimSpace E raw) (str "- ") = true
  \/ exists k v,
       SplitN_colon (strings_TrimSpace E raw) = Some (k, v)
       /\ (strings_TrimSpace E v = []
           \/ strings_TrimSpace E k
              ∈ [str "severity"; str "ignore_comments"; str "ignore_strings"]).

(** A byte that is neither a hash nor a quote. *)
Definition quiet (b : byte) : Prop := b <> hash /\ b <> quote1 /\ b <> quote2.

(** The permitted set of the specification: ASCII 0x20-0x7E, tab, line
    feed and carriage return. *)
Definition permitted (r : Z) : Prop :=
  r = 0x09 \/ r = 0x0A \/ r = 0x0D \/ 0x20 <= r <= 0x7E.

(** A rune of the text that is to be reported under the allow list: an
    invalid byte, or a character that is neither permitted nor in the
    allow list. *)
Definition disallowed (allow : gset Z) (x : rune_at) : Prop :=
  ra_invalid x = true \/ ~ (permitted (ra_rune x) \/ ra_rune x ∈ allow).

#[global] Instance permitted_dec r : Decision (permitted r).
Proof. unfold permitted. apply _. Defined.

#[global] Instance disallowed_dec allow x : Decision (disallowed allow x).
Proof. unfold disallowed. apply _. Defined.

(** ** The layout of a text

    Where the comments and the string literals of a text are, said
    without the scanner: the text is cut into pieces, each of them a
    stretch of code, a line comment, a block comment or a string
    literal with its delimiters.  [wf_layout] says when such a cut is
    right for a syntax profile. *)

Inductive ctx := in_code | in_line_comment | in_block_comment | in_string.

#[global] Instance ctx_eq_dec : EqDecision ctx.
Proof. solve_decision. Defined.

(** "CODE is always inspected; comment states are inspected unless
    ignoreComments; string states are inspected unless ignoreStrings." *)
Definition inspected (opts : Options) (c : ctx) : bool :=
  match c with
  | in_code => true
  | in_line_comment | in_block_comment => negb (IgnoreComments opts)
  | in_string => negb (IgnoreStrings opts)
  end.

(** A piece of text.  A comment or a string that is not [closed] runs
    to the end of the text. *)
Inductive piece :=
  | Code (body : gostring)
  | LineComment (token body : gostring) (closed : bool)
  | BlockComment (body : gostring) (closed : bool)
  | Quoted (q : byte) (body : gostring) (closed : bool).

Definition closing (closed : bool) (stop : gostring) : gostring :=
  if closed then stop else [].

Definition render_piece (syntax : syntaxRules) (p : piece) : gostring :=
  match p with
  | Code body => body
  | LineComment token body closed => token ++ body ++ closing closed [nl]
  | BlockComment body closed =>
      blockStart syntax ++ body ++ closing closed (blockEnd syntax)
  | Quoted q body closed => [q] ++ body ++ closing closed [q]
  end.

Definition render (syntax : syntaxRules) (L : list piece) : gostring :=
  flat_map (render_piece syntax) L.

Definition piece_ctx (p : piece) : ctx :=
  match p with
  | Code _ => in_code
  | LineComment _ _ _ => in_line_comment
  | BlockComment _ _ => in_block_comment
  | Quoted _ _ _ => in_string
  end.

(** The context of every byte of the text: a delimiter belongs to its
    comment or string. *)
Definition contexts (syntax : syntaxRules) (L : list piece) : list ctx :=
  flat_map (fun p => replicate (length (render_piece syntax p)) (piece_ctx p)) L.

Definition context_at (syntax : syntaxRules) (L : list piece) (off : Z)
    : option ctx :=
  contexts syntax L !! Z.to_nat off.

(** A comment starts at the head of [rest]. *)
Definition comment_starts (syntax : syntaxRules) (rest : gostring) : bool :=
  (negb (bool_decide (blockStart syntax = []))
   && HasPrefix rest (blockStart syntax))
  || existsb (fun t => negb (bool_decide (t = [])) && HasPrefix rest t)
             (lineComments syntax).

(** The byte opens a string literal in this profile. *)
Definition opens_string (syntax : syntaxRules) (c : byte) : bool :=
  strings syntax
  && (bool_decide (c = quote1) || bool_decide (c = quote2)
      || (bool_decide (c = backtick) && backtick_strings syntax)).

(** Code: no comment and no string starts anywhere in it. *)
Fixpoint code_body (syntax : syntaxRules) (body follow : gostring) : bool :=
  match body with
  | [] => true
  | c :: body' =>
      negb (comment_starts syntax (body ++ follow))
      && negb (opens_string syntax c)
      && code_body syntax body' follow
  end.

(** [token] is the first of the tokens that the text [rest] starts
    with ("first matching token in rule-defined order wins"). *)
Fixpoint first_token (tokens : list gostring) (token rest : gostring) : bool :=
  match tokens with
  | [] => false
  | t :: ts =>
      if bool_decide (t = token) then true
      else (bool_decide (t = []) || negb (HasPrefix rest t))
           && first_token ts token rest
  end.

(** The token [stop] starts nowhere in [body], read with what follows
    it. *)
Fixpoint no_end (stop body tail : gostring) : bool :=
  match body with
  | [] => true
  | _ :: body' => negb (HasPrefix (body ++ tail) stop) && no_end stop body' tail
  end.

(** The body of a quoted string: a backslash takes the next byte with
    it, and no other byte is the delimiter.  A body that ends in a lone
    backslash can only be the body of a string that is not closed. *)
Fixpoint string_body (closed : bool) (q : byte) (body : gostring) : bool :=
  match body with
  | [] => true
  | c :: rest =>
      if bool_decide (c = backslash) then
        match rest with
        | [] => negb closed
        | _ :: rest' => string_body closed q rest'
        end
      else negb (bool_decide (c = q)) && string_body closed q rest
  end.

Definition ends_text (closed : bool) (follow : gostring) : bool :=
  closed || bool_decide (follow = []).

Definition wf_piece (syntax : syntaxRules) (p : piece) (follow : gostring)
    : bool :=
  match p with
  | Code body => code_body syntax body follow
  | LineComment token body closed =>
      negb (negb (bool_decide (blockStart syntax = []))
            && HasPrefix (render_piece syntax p ++ follow) (blockStart syntax))
      && negb (bool_decide (token = []))
      && first_token (lineComments syntax) token (render_piece syntax p ++ follow)
      && forallb (fun c => negb (bool_decide (c = nl))) body
      && ends_text closed follow
  | BlockComment body closed =>
      negb (bool_decide (blockStart syntax = []))
      && (if closed
          then negb (bool_decide (blockEnd syntax = []))
               && no_end (blockEnd syntax) body (blockEnd syntax ++ follow)
          else bool_decide (follow = [])
               && (bool_decide (blockEnd syntax = [])
                   || no_end (blockEnd syntax) body []))
  | Quoted q body closed =>
      opens_string syntax q
      && negb (comment_starts syntax (render_piece syntax p ++ follow))
      && (if bool_decide (q = backtick)
          then forallb (fun c => negb (bool_decide (c = backtick))) body
          else string_body closed q body)
      && ends_text closed follow
  end.

Definition is_code (p : piece) : bool :=
  match p with Code _ => true | _ => false end.

Definition starts_with_code (L : list piece) : bool :=
  match L with p :: _ => is_code p | [] => false end.

(** A layout is well formed when every piece is, read with the text
    that follows it, and no two pieces of code are neighbours. *)
Fixpoint wf_layout (syntax : syntaxRules) (L : list piece) : bool :=
  match L with
  | [] => true
  | p :: L' =>
      wf_piece syntax p (render syntax L')
      && negb (is_code p && starts_with_code L')
      && wf_layout syntax L'
  end.

(** The context at a byte offset is inspected under the options. *)
Definition inspected_at (opts : Options) (tags : list ctx) (off : Z) : bool :=
  match tags !! Z.to_nat off with
  | Some c => inspected opts c
  | None => true
  end.

(** One finding for each offending rune of a suffix whose offset is
    kept. *)
Definition expected_where (keep : Z -> bool) (E : Env) (path : gostring)
    (lines : list gostring) (opts : Options) (s : gostring)
    (off line col : Z) : list Finding :=
  map (finding_at E path lines opts)
      (filter (fun x => offending (AllowRunes opts) x && keep (ra_offset x) = true)
              (runes_at s off line col)).

(** Where the scanner stands in a layout: in a piece of code, or inside
    a comment or a string whose opening it has consumed, with [body]
    still to come, and the pieces [L] after it. *)
Inductive mode :=
  | MCode (body : gostring) (L : list piece)
  | MLine (body : gostring) (closed : bool) (L : list piece)
  | MBlock (body : gostring) (closed : bool) (L : list piece)
  | MString (q : byte) (escaped : bool) (body : gostring) (closed : bool)
      (L : list piece).

Definition mode_body (M : mode) : gostring :=
  match M with
  | MCode b _ | MLine b _ _ | MBlock b _ _ | MString _ _ b _ _ => b
  end.

Definition mode_layout (M : mode) : list piece :=
  match M with
  | MCode _ L | MLine _ _ L | MBlock _ _ L | MString _ _ _ _ L => L
  end.

Definition mode_closing (syntax : syntaxRules) (M : mode) : gostring :=
  match M with
  | MCode _ _ => []
  | MLine _ c _ => closing c [nl]
  | MBlock _ c _ => closing c (blockEnd syntax)
  | MString q _ _ c _ => closing c [q]
  end.

Definition mode_ctx (M : mode) : ctx :=
  match M with
  | MCode _ _ => in_code
  | MLine _ _ _ => in_line_comment
  | MBlock _ _ _ => in_block_comment
  | MString _ _ _ _ _ => in_string
  end.

Definition mode_rest (syntax : syntaxRules) (M : mode) : gostring :=
  mode_body M ++ mode_closing syntax M ++ render syntax (mode_layout M).

Definition mode_tags (syntax : syntaxRules) (M : mode) : list ctx :=
  replicate (length (mode_body M ++ mode_closing syntax M)) (mode_ctx M)
  ++ contexts syntax (mode_layout M).

Definition string_state (q : byte) : scanState :=
  if bool_decide (q = quote1) then stateSingleString
  else if bool_decide (q = quote2) then stateDoubleString
  else stateBacktickString.

Definition mode_state (M : mode) : scanState :=
  match M with
  | MCode _ _ => stateCode
  | MLine _ _ _ => stateLineComment
  | MBlock _ _ _ => stateBlockComment
  | MString q _ _ _ _ => string_state q
  end.

(** What is left of a string body, after a backslash or not. *)
Definition string_rem (closed : bool) (q : byte) (escaped : bool)
    (body : gostring) : bool :=
  if bool_decide (q = backtick)
  then negb escaped && forallb (fun c => negb (bool_decide (c = backtick))) body
  else if escaped then
         match body with
         | [] => negb closed
         | _ :: body' => string_body closed q body'
         end
       else string_body closed q body.

Definition mode_ok (syntax : syntaxRules) (M : mode) : bool :=
  match M with
  | MCode body L =>
      code_body syntax body (render syntax L)
      && negb (starts_with_code L) && wf_layout syntax L
  | MLine body closed L =>
      forallb (fun c => negb (bool_decide (c = nl))) body
      && ends_text closed (render syntax L) && wf_layout syntax L
  | MBlock body closed L =>
      (if closed
       then negb (bool_decide (blockEnd syntax = []))
            && no_end (blockEnd syntax) body (blockEnd syntax ++ render syntax L)
       else bool_decide (render syntax L = [])
            && (bool_decide (blockEnd syntax = [])
                || no_end (blockEnd syntax) body []))
      && wf_layout syntax L
  | MString q escaped body closed L =>
      opens_string syntax q && string_rem closed q escaped body
      && ends_text closed (render syntax L) && wf_layout syntax L
  end.

(** The mode at the start of a layout. *)
Definition enter (L : list piece) : mode :=
  match L with
  | Code body :: L' => MCode body L'
  | _ => MCode [] L
  end.

(** The scanner, in state [s], stands at mode [M] of a text whose
    contexts are [tags]. *)
Definition at_mode (syntax : syntaxRules) (text : gostring) (tags : list ctx)
    (s : loopState) (M : mode) : Prop :=
  0 <= ls_i s
  /\ slice_from text (ls_i s) = mode_rest syntax M
  /\ drop (Z.to_nat (ls_i s)) tags = mode_tags syntax M
  /\ mode_ok syntax M = true
  /\ ls_state s = mode_state M
  /\ (forall q e b c L, M = MString q e b c L -> ls_escaped s = e).

(** The same mode with another body still to come. *)
Definition with_body (M : mode) (b : gostring) : mode :=
  match M with
  | MCode _ L => MCode b L
  | MLine _ c L => MLine b c L
  | MBlock _ c L => MBlock b c L
  | MString q _ _ c L => MString q false b c L
  end.

(** What is still to be reported from a state of the loop, at the kept
    offsets; and a round of the loop that ends at a mode of the layout
    and is in step with it. *)
Definition round_exp (keep : Z -> bool) (E : Env) (path text : gostring)
    (lines : list gostring) (opts : Options) (s : loopState) : list Finding :=
  expected_where keep E path lines opts (slice_from text (ls_i s))
    (ls_i s) (ls_line s) (ls_col s).

Definition round_in (syntax : syntaxRules) (text : gostring) (tags : list ctx)
    (keep : Z -> bool) (E : Env) (path : gostring) (lines : list gostring)
    (opts : Options) (s s' : loopState) (M' : mode) : Prop :=
  at_mode syntax text tags s' M'
  /\ exists new,
       ls_findings s' = ls_findings s ++ new
       /\ new ++ round_exp keep E path text lines opts s'
          = round_exp keep E path text lines opts s.

(** The path that [Scan] works on for an argument [p]: trimmed of white
    space, and ["."] when nothing is left. *)
Definition cleaned_path (E : Env) (p : gostring) : gostring :=
  if bool_decide (strings_TrimSpace E p = []) then str "."
  else strings_TrimSpace E p.


(* ================================================================== *)
(** * Properties *)

(** ** Bytes and UTF-8 *)

Lemma bv_range (b : byte) : 0 <= bv b < 256.
Proof.
  unfold bv. pose proof (Byte.to_N_bounded b). lia.
Qed.

Lemma byte_of_bv (z : Z) (b : byte) : z = bv b -> byte_of_Z z = b.
Proof.
  intros ->. unfold byte_of_Z, bv.
  pose proof (Byte.to_N_bounded b).
  rewrite Z.mod_small by lia. rewrite N2Z.id, Byte.of_to_N. done.
Qed.

Lemma len_nonneg {A} (l : list A) : 0 <= len l.
Proof. unfold len. lia. Qed.

Lemma len_cons {A} (x : A) (l : list A) : len (x :: l) = 1 + len l.
Proof. unfold len. simpl. lia. Qed.

Lemma len_app {A} (l k : list A) : len (l ++ k) = len l + len k.
Proof. unfold len. rewrite length_app. lia. Qed.

Lemma lor_disjoint (x b n : Z) :
  0 <= n -> 0 <= b < 2 ^ n -> x mod 2 ^ n = 0 -> Z.lor x b = x + b.
Proof.
  intros Hn Hb Hx. symmetry. apply Z.add_nocarry_lor.
  apply Z.bits_inj'. intros m Hm.
  rewrite Z.land_spec, Z.bits_0.
  destruct (Z.lt_ge_cases m n) as [Hlt | Hge].
  - assert (Z.testbit x m = false) as ->; [|done].
    assert (x = (x / 2 ^ n) * 2 ^ n) as Heq.
    { pose proof (Z.div_mod x (2 ^ n)). lia. }
    rewrite Heq. apply Z.mul_pow2_bits_low. lia.
  - assert (Z.testbit b m = false) as ->; [|by rewrite andb_false_r].
    rewrite <- (Z.mod_small b (2 ^ n)) by lia.
    apply Z.mod_pow2_bits_high. lia.
Qed.

Lemma land_low (x : Z) (n : Z) :
  0 <= n -> Z.land x (2 ^ n - 1) = x mod 2 ^ n.
Proof.
  intros Hn. rewrite <- Z.land_ones by done.
  f_equal. rewrite Z.ones_equiv. lia.
Qed.

Ltac mod0 k :=
  match goal with
  | |- ?x mod ?n = 0 => replace x with (k * n) by lia; apply Z.mod_mul; lia
  end.

(** The bit operations of the decoder, as arithmetic. *)
Lemma decode2_arith (s0 s1 : Z) :
  Z.lor (Z.shiftl (Z.land s0 0x1F) 6) (Z.land s1 0x3F)
  = (s0 mod 32) * 64 + s1 mod 64.
Proof.
  change 0x1F with (2 ^ 5 - 1). change 0x3F with (2 ^ 6 - 1).
  rewrite !land_low by lia. rewrite Z.shiftl_mul_pow2 by lia.
  apply (lor_disjoint _ _ 6); [lia | | ].
  - apply Z.mod_pos_bound. lia.
  - apply Z.mod_mul. lia.
Qed.

Lemma decode3_arith (s0 s1 s2 : Z) :
  Z.lor (Z.lor (Z.shiftl (Z.land s0 0x0F) 12) (Z.shiftl (Z.land s1 0x3F) 6))
        (Z.land s2 0x3F)
  = (s0 mod 16) * 4096 + (s1 mod 64) * 64 + s2 mod 64.
Proof.
  change 0x0F with (2 ^ 4 - 1). change 0x3F with (2 ^ 6 - 1).
  rewrite !land_low by lia. rewrite !Z.shiftl_mul_pow2 by lia.
  change (2 ^ 4) with 16. change (2 ^ 6) with 64. change (2 ^ 12) with 4096.
  pose proof (Z.mod_pos_bound s1 64 ltac:(lia)).
  pose proof (Z.mod_pos_bound s2 64 ltac:(lia)).
  generalize dependent (s0 mod 16). generalize dependent (s1 mod 64).
  generalize dependent (s2 mod 64). intros c Hc b Hb a.
  rewrite (lor_disjoint (a * 4096) (b * 64) 12); [| lia | change (2^12) with 4096; lia | ].
  - apply (lor_disjoint _ _ 6); [lia | change (2^6) with 64; lia | ].
    change (2 ^ 6) with 64. mod0 (a * 64 + b).
  - change (2 ^ 12) with 4096. mod0 a.
Qed.
Lemma decode4_arith (s0 s1 s2 s3 : Z) :
  Z.lor (Z.lor (Z.lor (Z.shiftl (Z.land s0 0x07) 18)
                      (Z.shiftl (Z.land s1 0x3F) 12))
               (Z.shiftl (Z.land s2 0x3F) 6))
        (Z.land s3 0x3F)
  = (s0 mod 8) * 262144 + (s1 mod 64) * 4096 + (s2 mod 64) * 64 + s3 mod 64.
Proof.
  change 0x07 with (2 ^ 3 - 1). change 0x3F with (2 ^ 6 - 1).
  rewrite !land_low by lia. rewrite !Z.shiftl_mul_pow2 by lia.
  change (2 ^ 3) with 8. change (2 ^ 6) with 64. change (2 ^ 12) with 4096.
  change (2 ^ 18) with 262144.
  pose proof (Z.mod_pos_bound s1 64 ltac:(lia)).
  pose proof (Z.mod_pos_bound s2 64 ltac:(lia)).
  pose proof (Z.mod_pos_bound s3 64 ltac:(lia)).
  generalize dependent (s0 mod 8). generalize dependent (s1 mod 64).
  generalize dependent (s2 mod 64). generalize dependent (s3 mod 64).
  intros d Hd c Hc b Hb a.
  rewrite (lor_disjoint (a * 262144) (b * 4096) 18);
    [| lia | change (2 ^ 18) with 262144; lia | change (2 ^ 18) with 262144; mod0 a].
  rewrite (lor_disjoint _ (c * 64) 12);
    [| lia | change (2 ^ 12) with 4096; lia
     | change (2 ^ 12) with 4096; mod0 (a * 64 + b)].
  apply (lor_disjoint _ _ 6); [lia | change (2 ^ 6) with 64; lia | ].
  change (2 ^ 6) with 64. mod0 (a * 4096 + b * 64 + c).
Qed.

Ltac zb :=
  repeat match goal with
  | H : (_ <? _) = true |- _ => apply Z.ltb_lt in H
  | H : (_ <? _) = false |- _ => apply Z.ltb_ge in H
  | H : (_ <=? _) = true |- _ => apply Z.leb_le in H
  | H : (_ <=? _) = false |- _ => apply Z.leb_gt in H
  | H : (_ =? _) = true |- _ => apply Z.eqb_eq in H
  | H : (_ =? _) = false |- _ => apply Z.eqb_neq in H
  | H : (_ || _) = true |- _ => apply orb_true_iff in H
  | H : (_ || _) = false |- _ => apply orb_false_iff in H; destruct H
  | H : (_ && _) = true |- _ => apply andb_true_iff in H; destruct H
  | H : (_ && _) = false |- _ => apply andb_false_iff in H
  | H : negb _ = true |- _ => apply negb_true_iff in H
  | H : negb _ = false |- _ => apply negb_false_iff in H
  end.

Ltac dec_split c := destruct c eqn:?.

Ltac dec_err :=
  intros [= <- <-]; rewrite ?len_cons;
  (split; [lia | split; [by left | right; unfold RuneError; lia]]).

Ltac dec_ok lem :=
  rewrite lem; intros [= <- <-]; rewrite ?len_cons;
  (split; [lia|]);
  (split; [right | right; split; [lia|]]);
  unfold RuneLen, is_surrogate; repeat case_match; zb;
  Z.div_mod_to_equations; lia.

Ltac dec_guard :=
  repeat (match goal with
          | |- context [if ?c then (RuneError, 1) else _] => dec_split c
          end; [dec_err|]).

(** What the decoder returns on a non-empty string: a width between one
    and the length; either the error rune with width one, or a rune
    whose encoding has exactly that width; and a rune below [0x80] only
    for an ASCII first byte. *)
Lemma Decode_spec b t r size :
  DecodeRuneInString (b :: t) = (r, size) ->
  1 <= size <= len (b :: t)
  /\ ((r = RuneError /\ size = 1) \/ RuneLen r = size)
  /\ ((bv b < 0x80 /\ r = bv b /\ size = 1) \/ (0x80 <= bv b /\ 0x80 <= r)).
Proof.
  unfold DecodeRuneInString. pose proof (bv_range b) as Hb.
  generalize dependent (bv b). intros s0 Hs0.
  pose proof (len_nonneg t) as Ht. rewrite len_cons.
  unfold utf8_first.
  destruct (s0 <? 128) eqn:H1.
  { simpl. intros [= <- <-]. zb. split; [lia|]. split; [|left; lia].
    right. unfold RuneLen.
    destruct (s0 <? 0) eqn:?; zb; [lia|]. destruct (s0 <=? 127) eqn:?; zb; lia. }
  zb.
  destruct (s0 <? 194) eqn:H2.
  { simpl. dec_err. }
  destruct (s0 <? 224) eqn:H3;
    [|destruct (s0 =? 224) eqn:H4;
      [|destruct (s0 <? 237) eqn:H5;
        [|destruct (s0 =? 237) eqn:H6;
          [|destruct (s0 <? 240) eqn:H7;
            [|destruct (s0 =? 240) eqn:H8;
              [|destruct (s0 <? 244) eqn:H9;
                [|destruct (s0 =? 244) eqn:H10]]]]]]];
    zb.
  all: repeat match goal with
       | |- context [Z.land (Z.pos ?p) 7] =>
           let v := eval vm_compute in (Z.land (Z.pos p) 7) in
           change (Z.land (Z.pos p) 7) with v
       | |- context [utf8_accept ?a] =>
           let v := eval vm_compute in (utf8_accept a) in
           change (utf8_accept a) with v
       | |- context [?a <=? ?b] =>
           let v := eval vm_compute in (a <=? b) in
           match v with true => idtac | false => idtac end;
           change (a <=? b) with v
       end; cbv beta iota.
  all: try solve [simpl; dec_err].
  all: destruct t as [|b1 t1]; [try dec_guard; dec_err|].
  all: rewrite ?len_cons in *; pose proof (len_nonneg t1);
    pose proof (bv_range b1) as Hb1; generalize dependent (bv b1);
    intros s1 Hs1.
  all: dec_guard; zb.
  all: try solve [dec_ok decode2_arith].
  all: destruct t1 as [|b2 t2]; [dec_err|].
  all: rewrite ?len_cons in *; pose proof (len_nonneg t2);
    pose proof (bv_range b2) as Hb2; unfold is_cont in *;
    generalize dependent (bv b2); intros s2 Hs2.
  all: dec_guard; zb.
  all: try solve [dec_ok decode3_arith].
  all: destruct t2 as [|b3 t3]; [dec_err|].
  all: rewrite ?len_cons in *; pose proof (len_nonneg t3);
    pose proof (bv_range b3) as Hb3; unfold is_cont in *;
    generalize dependent (bv b3); intros s3 Hs3.
  all: dec_guard; zb.
  all: try solve [dec_ok decode4_arith].
Qed.

Lemma Decode_ascii b t :
  bv b < 0x80 -> DecodeRuneInString (b :: t) = (bv b, 1).
Proof.
  intros Hb. destruct (DecodeRuneInString (b :: t)) as [r size] eqn:Hd.
  apply Decode_spec in Hd as (_ & _ & [(_ & -> & ->) | ?]); [done | lia].
Qed.

Lemma Decode_RuneLen b t r size :
  DecodeRuneInString (b :: t) = (r, size) -> 1 <= RuneLen r.
Proof.
  intros Hd. apply Decode_spec in Hd as (Hs & [[-> _] | <-] & _).
  - by vm_compute.
  - lia.
Qed.

Lemma runes_fuel_RuneLen fuel s :
  Forall (fun r => 1 <= RuneLen r) (runes_fuel fuel s).
Proof.
  revert s. induction fuel as [|f IH]; intros s; cbn [runes_fuel]; [constructor|].
  destruct s as [|b t]; [constructor|].
  destruct (DecodeRuneInString (b :: t)) as [r size] eqn:Hd.
  constructor; [by eapply Decode_RuneLen | apply IH].
Qed.

Lemma runes_nonempty s : s <> [] -> runes s <> [].
Proof.
  unfold runes. destruct s as [|b t]; [done|]. intros _.
  cbn [length runes_fuel].
  by destruct (DecodeRuneInString (b :: t)).
Qed.

(** ** [advanceByToken] *)

Lemma advance_fold_i rs i line col :
  Forall (fun r => 1 <= RuneLen r) rs ->
  i + len rs <= (fold_left advance_rune rs (i, line, col)).1.1.
Proof.
  intros H. revert i line col.
  induction H as [|r rs Hr _ IH]; intros i line col.
  - unfold len. simpl. lia.
  - simpl. rewrite len_cons.
    destruct (r =? 10);
      (etrans; [|apply IH]); lia.
Qed.

Lemma advanceByToken_advances i line col token :
  token <> [] -> i + 1 <= (advanceByToken i line col token).1.1.
Proof.
  intros Hne. unfold advanceByToken.
  pose proof (advance_fold_i (runes token) i line col
                (runes_fuel_RuneLen _ _)) as H.
  pose proof (runes_nonempty token Hne).
  destruct (runes token); [done|]. rewrite len_cons in H.
  pose proof (len_nonneg l). lia.
Qed.

Lemma matchPrefix_Some input prefixes p :
  matchPrefix input prefixes = Some p ->
  p ∈ prefixes /\ p <> [] /\ HasPrefix input p = true.
Proof.
  induction prefixes as [|q qs IH]; simpl; [done|].
  case_bool_decide as Hq; [intros H; apply IH in H; set_solver|].
  destruct (HasPrefix input q) eqn:Hp.
  - intros [= <-]. set_solver.
  - intros H; apply IH in H; set_solver.
Qed.

(** ** Every round of the loop advances *)

Lemma slice_from_nonempty {A} (text : list A) (i : Z) :
  0 <= i < len text -> slice_from text i <> [].
Proof.
  unfold slice_from, len. intros Hi Hnil.
  apply (f_equal length) in Hnil. rewrite length_drop in Hnil.
  simpl in Hnil. lia.
Qed.

Section LoopAdvance.
Context (E : Env) (path text : gostring) (lines : list gostring).
Context (syntax : syntaxRules) (opts : Options).

Local Abbreviation body := (loop_body E path text lines syntax opts).
Local Abbreviation inspect := (inspect_rune E path text lines opts).
Local Abbreviation loop := (scan_loop E path text lines syntax opts).

Lemma consume_token_advances s token state :
  token <> [] -> ls_i s + 1 <= ls_i (consume_token s token state).
Proof.
  intros Hne. unfold consume_token.
  pose proof (advanceByToken_advances (ls_i s) (ls_line s) (ls_col s) token Hne) as H.
  destruct (advanceByToken _ _ _ _) as [[i line] col]. simpl in *. lia.
Qed.

Lemma inspect_rune_advances s :
  0 <= ls_i s < len text -> ls_i s + 1 <= ls_i (inspect s).
Proof.
  intros Hi. unfold inspect_rune.
  pose proof (slice_from_nonempty text (ls_i s) Hi) as Hne.
  destruct (slice_from text (ls_i s)) as [|b t] eqn:Hrest; [done|].
  destruct (DecodeRuneInString (b :: t)) as [r size] eqn:Hd.
  apply Decode_spec in Hd as (Hsize & _).
  repeat case_match; simpl; lia.
Qed.

Lemma loop_body_advances s :
  0 <= ls_i s < len text -> ls_i s + 1 <= ls_i (body s).
Proof.
  intros Hi. unfold loop_body.
  pose proof (inspect_rune_advances s Hi) as Hin.
  pose proof (slice_from_nonempty text (ls_i s) Hi) as Hne.
  destruct (slice_from text (ls_i s)) as [|c rest] eqn:Hrest; [done|].
  destruct (ls_state s);
  repeat match goal with
  | |- context [matchPrefix ?a ?b] =>
      let Hm := fresh "Hm" in
      destruct (matchPrefix a b) eqn:Hm;
      [apply matchPrefix_Some in Hm as (_ & ? & _)|]
  | |- context [bool_decide ?P] => destruct (bool_decide_reflect P)
  | |- context [if ?c then _ else _] => destruct c eqn:?
  end;
  simpl in *;
  try (apply consume_token_advances; done); try done; try lia.
Qed.

(** With [len(text) - i] rounds of fuel the loop reaches its end. *)
Lemma scan_loop_total fuel s :
  0 <= ls_i s -> len text - ls_i s <= Z.of_nat fuel ->
  is_Some (loop fuel s).
Proof.
  revert s. induction fuel as [|f IH]; intros s H0 Hfuel; simpl.
  - destruct (ls_i s <? len text) eqn:Hlt; zb; [lia | by eexists].
  - destruct (ls_i s <? len text) eqn:Hlt; zb; [|by eexists].
    pose proof (loop_body_advances s ltac:(lia)).
    apply IH; lia.
Qed.

(** More fuel does not change the outcome. *)
Lemma scan_loop_more_fuel fuel fuel' s fs :
  (fuel <= fuel')%nat -> loop fuel s = Some fs -> loop fuel' s = Some fs.
Proof.
  revert fuel' s. induction fuel as [|f IH]; intros fuel' s Hle; simpl.
  - destruct (ls_i s <? len text) eqn:Hlt; [done|].
    intros [= <-]. destruct fuel'; simpl; by rewrite Hlt.
  - destruct (ls_i s <? len text) eqn:Hlt.
    + destruct fuel' as [|f']; [lia|]. simpl. rewrite Hlt.
      apply IH. lia.
    + intros [= <-]. destruct fuel'; simpl; by rewrite Hlt.
Qed.
End LoopAdvance.

(** C10.  [scanContent] terminates on every input: every round of its
    loop moves the byte index forward by at least one, because the
    decoder consumes at least one byte of a non-empty string and
    [advanceByToken] at least one byte of a non-empty token; hence
    [len(text)] rounds always bring the loop to its end, and the scanner
    is a total function of the bytes, the syntax rules and the options. *)
Theorem scanContent_terminates (E : Env) (path : gostring) (data : list byte)
    (syntax : syntaxRules) (opts : Options) :
  (forall s, 0 <= ls_i s < len data ->
     ls_i s + 1 <= ls_i (loop_body E path data (Split_nl data) syntax opts s))
  /\ (forall s, s <> [] -> 1 <= (DecodeRuneInString s).2)
  /\ (forall i line col token,
        token <> [] -> i + 1 <= (advanceByToken i line col token).1.1)
  /\ exists fs,
       scan_loop E path data (Split_nl data) syntax opts (length data) loop_init
         = Some fs
       /\ scanContent E path data syntax opts = fs.
Proof.
  split; [apply loop_body_advances|].
  split.
  { intros [|b t] Hne; [done|].
    destruct (DecodeRuneInString (b :: t)) as [r size] eqn:Hd.
    apply Decode_spec in Hd. simpl. lia. }
  split; [apply advanceByToken_advances|].
  destruct (scan_loop_total E path data (Split_nl data) syntax opts
              (length data) loop_init) as [fs Hfs].
  - simpl. lia.
  - simpl. unfold len. lia.
  - exists fs. split; [done|]. unfold scanContent. by rewrite Hfs.
Qed.

(** ** The runes of a text *)

Lemma slice_from_drop (s : gostring) (n : nat) :
  slice_from s (Z.of_nat n) = drop n s.
Proof. unfold slice_from. by rewrite Nat2Z.id. Qed.

Lemma slice_from_add {A} (s : list A) (i k : Z) :
  0 <= i -> 0 <= k -> slice_from s (i + k) = slice_from (slice_from s i) k.
Proof.
  intros Hi Hk. unfold slice_from. rewrite drop_drop. f_equal. lia.
Qed.

Lemma slice_from_cons {A} (s : list A) (i : Z) (c : A) (rest : list A) :
  0 <= i -> slice_from s i = c :: rest -> slice_from s (i + 1) = rest.
Proof.
  intros Hi H. rewrite slice_from_add by lia. rewrite H. done.
Qed.

Lemma slice_from_length_le {A} (s : list A) (k : Z) :
  (length (slice_from s k) <= length s)%nat.
Proof. unfold slice_from. rewrite length_drop. lia. Qed.

Lemma text_runes_from_fuel f1 f2 s off line col :
  (length s <= f1)%nat -> (length s <= f2)%nat ->
  text_runes_from f1 s off line col = text_runes_from f2 s off line col.
Proof.
  revert f2 s off line col.
  induction f1 as [|f1 IH]; intros f2 s off line col H1 H2.
  - destruct s; [|simpl in H1; lia]. by destruct f2.
  - destruct s as [|b t]; [by destruct f2|].
    destruct f2 as [|f2]; [simpl in H2; lia|].
    cbn [text_runes_from].
    destruct (DecodeRuneInString (b :: t)) as [r size] eqn:Hd.
    f_equal. apply Decode_spec in Hd as (Hsize & _).
    assert (length (slice_from (b :: t) size) < length (b :: t))%nat.
    { unfold slice_from. rewrite length_drop. simpl. lia. }
    simpl in *. apply IH; lia.
Qed.

Lemma runes_at_nil off line col : runes_at [] off line col = [].
Proof. done. Qed.

Lemma runes_at_cons b t off line col :
  runes_at (b :: t) off line col =
    let '(r, size) := DecodeRuneInString (b :: t) in
    {| ra_offset := off; ra_line := line; ra_col := col;
       ra_rune := r; ra_size := size |}
    :: runes_at (slice_from (b :: t) size) (off + size)
         (if r =? 0x0A then line + 1 else line)
         (if r =? 0x0A then 1 else col + 1).
Proof.
  unfold runes_at. cbn [length text_runes_from].
  destruct (DecodeRuneInString (b :: t)) as [r size] eqn:Hd.
  f_equal. apply text_runes_from_fuel; [|done].
  apply Decode_spec in Hd as (Hsize & _).
  unfold slice_from. rewrite length_drop. simpl. lia.
Qed.

Lemma runes_at_ascii b t off line col :
  bv b < 0x80 ->
  runes_at (b :: t) off line col =
    {| ra_offset := off; ra_line := line; ra_col := col;
       ra_rune := bv b; ra_size := 1 |}
    :: runes_at t (off + 1)
         (if bv b =? 0x0A then line + 1 else line)
         (if bv b =? 0x0A then 1 else col + 1).
Proof.
  intros Hb. rewrite runes_at_cons, Decode_ascii by done. done.
Qed.

Lemma printable_spec b :
  printable b = true -> 0x20 <= bv b <= 0x7E.
Proof. unfold printable. intros H. zb. lia. Qed.

Lemma isAllowedRune_printable b allow :
  printable b = true -> isAllowedRune (bv b) allow = true.
Proof.
  intros H. apply printable_spec in H. unfold isAllowedRune.
  destruct (_ || _); [done|].
  destruct (0x20 <=? bv b) eqn:?, (bv b <=? 0x7e) eqn:?; zb; simpl; try done; lia.
Qed.

Lemma RuneLen_ascii r : 0 <= r <= 0x7F -> RuneLen r = 1.
Proof.
  intros H. unfold RuneLen.
  destruct (r <? 0) eqn:?; zb; [lia|].
  destruct (r <=? 0x7F) eqn:?; zb; [done | lia].
Qed.

Lemma runes_fuel_printable fuel t :
  forallb printable t = true -> (length t <= fuel)%nat ->
  runes_fuel fuel t = map bv t.
Proof.
  revert fuel. induction t as [|b t IH]; intros fuel Hp Hf.
  - by destruct fuel.
  - destruct fuel as [|f]; [simpl in Hf; lia|].
    simpl in Hp. apply andb_true_iff in Hp as [Hb Ht].
    apply printable_spec in Hb.
    cbn [runes_fuel]. rewrite Decode_ascii by lia.
    cbn [map]. f_equal. change (slice_from (b :: t) 1) with t.
    apply IH; [done | simpl in Hf; lia].
Qed.

Lemma advanceByToken_printable i line col t :
  forallb printable t = true ->
  advanceByToken i line col t = (i + len t, line, col + len t).
Proof.
  intros Hp. unfold advanceByToken, runes.
  rewrite runes_fuel_printable by done.
  revert i col. induction t as [|b t IH]; intros i col.
  - unfold len. simpl. f_equal; [f_equal; lia | lia].
  - simpl in Hp. apply andb_true_iff in Hp as [Hb Ht].
    apply printable_spec in Hb.
    cbn [map fold_left advance_rune]. rewrite RuneLen_ascii by lia.
    destruct (bv b =? 10) eqn:?; zb; [lia|].
    rewrite IH by done. rewrite len_cons. f_equal; [f_equal; lia | lia].
Qed.

Lemma HasPrefix_app s p :
  HasPrefix s p = true -> s = p ++ drop (length p) s.
Proof.
  revert s. induction p as [|x p IH]; intros s; simpl; [done|].
  destruct s as [|c s]; [done|].
  intros H. apply andb_true_iff in H as [H1 H2].
  apply bool_decide_eq_true in H1. subst. simpl. f_equal. by apply IH.
Qed.

Lemma HasPrefix_self_app (p s : gostring) : HasPrefix (p ++ s) p = true.
Proof.
  induction p as [|x p IH]; [by destruct s|]. simpl.
  by rewrite bool_decide_eq_true_2.
Qed.

Section ExpectedFindings.
Context (E : Env) (path : gostring) (lines : list gostring) (opts : Options).

Local Abbreviation expd := (expected E path lines opts).

Lemma expected_nil off line col : expd [] off line col = [].
Proof. done. Qed.

Lemma expected_allowed_ascii b t off line col :
  bv b < 0x80 -> isAllowedRune (bv b) (AllowRunes opts) = true ->
  expd (b :: t) off line col =
    expd t (off + 1)
      (if bv b =? 0x0A then line + 1 else line)
      (if bv b =? 0x0A then 1 else col + 1).
Proof.
  intros Hb Ha. unfold expected. rewrite runes_at_ascii by done.
  rewrite filter_cons_False; [done|].
  unfold offending, ra_invalid. simpl. rewrite Ha.
  pose proof (bv_range b).
  destruct (bv b =? RuneError) eqn:?; zb; [unfold RuneError in *; lia|].
  simpl. done.
Qed.

Lemma expected_printable b t off line col :
  printable b = true ->
  expd (b :: t) off line col = expd t (off + 1) line (col + 1).
Proof.
  intros Hp. pose proof (printable_spec b Hp).
  rewrite expected_allowed_ascii;
    [|lia|by apply isAllowedRune_printable].
  destruct (bv b =? 10) eqn:?; zb; [lia | done].
Qed.

Lemma expected_token t rest off line col :
  forallb printable t = true ->
  expd (t ++ rest) off line col =
    expd rest (off + len t) line (col + len t).
Proof.
  revert off col. induction t as [|b t IH]; intros off col Hp.
  - unfold len. simpl. f_equal; lia.
  - simpl in Hp. apply andb_true_iff in Hp as [Hb Ht].
    simpl. rewrite expected_printable by done. rewrite IH by done.
    rewrite len_cons. f_equal; lia.
Qed.

Lemma expected_cons b t off line col r size :
  DecodeRuneInString (b :: t) = (r, size) ->
  expd (b :: t) off line col =
    (let x := {| ra_offset := off; ra_line := line; ra_col := col;
                 ra_rune := r; ra_size := size |} in
     if offending (AllowRunes opts) x then [finding_at E path lines opts x]
     else [])
    ++ expd (slice_from (b :: t) size) (off + size)
         (if r =? 0x0A then line + 1 else line)
         (if r =? 0x0A then 1 else col + 1).
Proof.
  intros Hd. unfold expected. rewrite runes_at_cons, Hd.
  cbn zeta. destruct (offending _ _) eqn:Ho.
  - rewrite filter_cons_True by done. done.
  - rewrite filter_cons_False by (by rewrite Ho). done.
Qed.
End ExpectedFindings.

(** ** The scanner against the runes of the text

    For a profile with printable tokens, the bytes that the state
    machine consumes on its own (delimiters, comment tokens, the newline
    that ends a line comment) are allowed characters, and the scanner
    stays aligned with the runes of the text: what it reports is a
    selection of [findings_of_text], and all of it when nothing is
    ignored. *)
Section ScanVsText.
Context (E : Env) (path text : gostring) (lines : list gostring).
Context (syntax : syntaxRules) (opts : Options).
Hypothesis Hplain : plain_syntax syntax = true.

Local Abbreviation body := (loop_body E path text lines syntax opts).
Local Abbreviation inspect := (inspect_rune E path text lines opts).
Local Abbreviation loop := (scan_loop E path text lines syntax opts).

Local Abbreviation ahead := (ahead E path text lines opts).
Local Abbreviation no_flags := (no_flags opts).
Local Abbreviation step_ok := (step_ok E path text lines opts).

Lemma step_ok_same s s' :
  ls_findings s' = ls_findings s -> ahead s' = ahead s -> step_ok s s'.
Proof.
  intros Hf Ha. exists []. rewrite app_nil_r, Hf. simpl. rewrite Ha. done.
Qed.

Lemma step_consume1 s c rest state escaped :
  0 <= ls_i s -> slice_from text (ls_i s) = c :: rest ->
  printable c = true -> step_ok s (consume1 s state escaped).
Proof.
  intros Hi Hrest Hc. apply step_ok_same; [done|].
  unfold ahead. simpl. rewrite Hrest.
  rewrite (slice_from_cons _ _ _ _ Hi Hrest).
  by rewrite expected_printable.
Qed.

Lemma step_newline s rest :
  0 <= ls_i s -> slice_from text (ls_i s) = nl :: rest ->
  step_ok s {| ls_i := ls_i s + 1; ls_line := ls_line s + 1; ls_col := 1;
               ls_state := stateCode; ls_escaped := false;
               ls_findings := ls_findings s |}.
Proof.
  intros Hi Hrest. apply step_ok_same; [done|].
  unfold ahead. simpl. rewrite Hrest.
  rewrite (slice_from_cons _ _ _ _ Hi Hrest).
  by rewrite expected_allowed_ascii.
Qed.

Lemma step_token s token state :
  0 <= ls_i s -> HasPrefix (slice_from text (ls_i s)) token = true ->
  forallb printable token = true ->
  step_ok s (consume_token s token state).
Proof.
  intros Hi Hpre Hp. unfold consume_token.
  rewrite advanceByToken_printable by done.
  apply step_ok_same; [done|].
  unfold ahead. simpl.
  rewrite slice_from_add by (pose proof (len_nonneg token); lia).
  rewrite (HasPrefix_app _ _ Hpre) at 2.
  rewrite expected_token by done.
  unfold slice_from at 1. unfold len. rewrite Nat2Z.id. done.
Qed.

Lemma step_inspect s :
  0 <= ls_i s < len text -> step_ok s (inspect s).
Proof.
  intros Hi. unfold inspect_rune, step_ok, ahead.
  pose proof (slice_from_nonempty text (ls_i s) Hi) as Hne.
  destruct (slice_from text (ls_i s)) as [|b t] eqn:Hrest; [done|].
  destruct (DecodeRuneInString (b :: t)) as [r size] eqn:Hd.
  rewrite (expected_cons _ _ _ _ _ _ _ _ _ _ _ Hd).
  pose proof (Decode_spec _ _ _ _ Hd) as (Hsize & _ & _).
  unfold offending, finding_at, ra_invalid. cbn [ra_rune ra_size ra_line ra_col].
  destruct ((r =? RuneError) && (size =? 1)) eqn:Hinv.
  - zb. subst. cbn [orb ls_i ls_line ls_col ls_findings].
    change (RuneError =? 10) with false. cbv iota.
    rewrite slice_from_add, Hrest by lia.
    destruct (shouldInspect (ls_state s) opts) eqn:Hsi.
    + eexists. split; [done|]. split; [done|]. done.
    + exists []. split; [by rewrite app_nil_r|].
      split; [by apply sublist_cons|].
      intros [Hc Hs]. unfold shouldInspect in Hsi.
      rewrite Hc, Hs in Hsi. by destruct (ls_state s).
  - cbn [orb]. exists
      (if shouldInspect (ls_state s) opts
          && negb (isAllowedRune r (AllowRunes opts))
       then [rune_finding E path lines opts (ls_line s) (ls_col s) r]
       else []).
    assert (Hsl : slice_from text (ls_i s + size) = slice_from (b :: t) size)
      by (by rewrite slice_from_add, Hrest by lia).
    split; [|split].
    + destruct (r =? 10), (shouldInspect _ _ && negb _); simpl;
        by rewrite ?app_nil_r.
    + destruct (r =? 10); cbn [ls_i ls_line ls_col]; rewrite Hsl;
        destruct (shouldInspect _ _), (isAllowedRune _ _); simpl;
        first [done | by apply sublist_cons].
    + intros [Hc Hs].
      assert (shouldInspect (ls_state s) opts = true) as ->.
      { unfold shouldInspect. rewrite Hc, Hs. by destruct (ls_state s). }
      destruct (r =? 10); cbn [ls_i ls_line ls_col]; rewrite Hsl;
        by destruct (isAllowedRune _ _).
Qed.

Lemma plain_blockStart : forallb printable (blockStart syntax) = true.
Proof.
  unfold plain_syntax in Hplain.
  by apply andb_true_iff in Hplain as [[_ ?]%andb_true_iff _].
Qed.

Lemma plain_blockEnd : forallb printable (blockEnd syntax) = true.
Proof.
  unfold plain_syntax in Hplain.
  by apply andb_true_iff in Hplain as [_ ?].
Qed.

Lemma plain_lineComment token :
  token ∈ lineComments syntax -> forallb printable token = true.
Proof.
  unfold plain_syntax in Hplain.
  apply andb_true_iff in Hplain as [[H _]%andb_true_iff _].
  intros Hin. rewrite forallb_forall in H. apply H.
  by apply list_elem_of_In.
Qed.

Lemma step_body s :
  0 <= ls_i s < len text -> step_ok s (body s).
Proof.
  intros Hi. unfold loop_body.
  pose proof (step_inspect s Hi) as Hin.
  pose proof (slice_from_nonempty text (ls_i s) Hi) as Hne.
  destruct (slice_from text (ls_i s)) as [|c rest] eqn:Hrest; [done|].
  assert (0 <= ls_i s) as Hi0 by lia.
  destruct (ls_state s);
  repeat match goal with
  | |- context [matchPrefix ?a ?b] =>
      let Hm := fresh "Hm" in
      destruct (matchPrefix a b) eqn:Hm;
      [apply matchPrefix_Some in Hm as (? & ? & ?)|]
  | |- context [bool_decide ?P] => destruct (bool_decide_reflect P)
  | |- context [if ?c then _ else _] => destruct c eqn:?
  end;
  zb; subst; try done;
  first
    [ by eapply step_consume1
    | by apply step_newline with rest
    | apply step_token; [done | by rewrite Hrest |];
      first [apply plain_blockStart | apply plain_blockEnd
            | by apply plain_lineComment] ].
Qed.

(** The loop, from any state reached at offset [i]. *)
Lemma scan_loop_plain fuel s :
  0 <= ls_i s -> len text - ls_i s <= Z.of_nat fuel ->
  exists rest,
    loop fuel s = Some (ls_findings s ++ rest)
    /\ sublist rest (ahead s)
    /\ (no_flags -> rest = ahead s).
Proof.
  revert s. induction fuel as [|f IH]; intros s H0 Hfuel;
    cbn [scan_loop];
    destruct (ls_i s <? len text) eqn:Hlt; zb; try lia.
  1, 3: exists []; rewrite app_nil_r; split; [done|];
    assert (ahead s = []) as ->;
    [unfold ahead, slice_from; rewrite drop_ge by (unfold len in *; lia); done
    |done].
  destruct (step_body s ltac:(lia)) as (new & Hf & Hsub & Heq).
  pose proof (loop_body_advances E path text lines syntax opts s ltac:(lia)).
  destruct (IH (body s) ltac:(lia) ltac:(lia)) as (rest & Hl & Hsub' & Heq').
  exists (new ++ rest). rewrite Hl, Hf, <- app_assoc. split; [done|]. split.
  - etrans; [|apply Hsub]. by apply sublist_app.
  - intros Hnf. rewrite Heq' by done. by apply Heq.
Qed.
End ScanVsText.

Lemma syntaxForPath_plain (E : Env) (p : gostring) :
  plain_syntax (syntaxForPath E p) = true.
Proof. unfold syntaxForPath. by repeat case_match. Qed.

(** For a profile with printable tokens, the scanner reports a selection
    of the offending runes of the text, each at its place, and all of
    them when neither comments nor strings are ignored. *)
Lemma scanContent_vs_text (E : Env) (path : gostring) (data : list byte)
    (syntax : syntaxRules) (opts : Options) :
  plain_syntax syntax = true ->
  sublist (scanContent E path data syntax opts) (findings_of_text E path data opts)
  /\ (IgnoreComments opts = false -> IgnoreStrings opts = false ->
      scanContent E path data syntax opts = findings_of_text E path data opts).
Proof.
  intros Hplain.
  destruct (scan_loop_plain E path data (Split_nl data) syntax opts Hplain
              (length data) loop_init)
    as (rest & Hl & Hsub & Heq); [simpl; lia | simpl; unfold len; lia |].
  unfold scanContent. rewrite Hl. simpl. split; [done|].
  intros Hc Hs. by apply Heq.
Qed.

Lemma categoryForRune_not_invalid (E : Env) (r : Z) :
  categoryForRune E r <> str "Invalid UTF-8".
Proof. unfold categoryForRune. by repeat case_match. Qed.

(** A byte from [0x80] on that is followed by nothing or by an ASCII
    byte is an invalid encoding. *)
Lemma Decode_lone_byte b t :
  0x80 <= bv b ->
  match t with [] => True | c :: _ => bv c < 0x80 end ->
  DecodeRuneInString (b :: t) = (RuneError, 1).
Proof.
  intros Hb Ht. unfold DecodeRuneInString.
  pose proof (bv_range b) as Hr. generalize dependent (bv b). intros s0 Hs0 Hr.
  destruct (0xF0 <=? utf8_first s0) eqn:Hf.
  - destruct (utf8_first s0 =? 0xF0) eqn:Ha; [|done].
    unfold utf8_first in Ha. repeat case_match; zb; lia.
  - destruct (utf8_accept _) as [lo hi] eqn:Hacc.
    destruct (_ <? _); [done|].
    destruct t as [|b1 t1]; [done|].
    assert (0x80 <= lo) as Hlo.
    { unfold utf8_first in Hacc, Hf.
      repeat case_match; zb; try lia;
        vm_compute in Hacc; injection Hacc as <- <-; lia. }
    destruct (bv b1 <? lo) eqn:Hlt; zb; [done | lia].
Qed.

(** In a profile with printable tokens the [switch] never consumes a
    byte from [0x80] on: such a byte always reaches the decoder. *)
Lemma loop_body_non_ascii (E : Env) (path text : gostring)
    (lines : list gostring) (syntax : syntaxRules) (opts : Options)
    (s : loopState) (c : byte) (rest : gostring) :
  plain_syntax syntax = true ->
  slice_from text (ls_i s) = c :: rest -> 0x80 <= bv c ->
  loop_body E path text lines syntax opts s
  = inspect_rune E path text lines opts s.
Proof.
  intros Hplain Hrest Hc. unfold loop_body. rewrite Hrest.
  assert (Htok : forall token, forallb printable token = true ->
            token <> [] -> HasPrefix (c :: rest) token = false).
  { intros [|x token] Hp Hne; [done|]. simpl in *.
    apply andb_true_iff in Hp as [Hx _]. apply printable_spec in Hx.
    case_bool_decide; [subst; lia | done]. }
  assert (Hbs : negb (bool_decide (blockStart syntax = []))
                && HasPrefix (c :: rest) (blockStart syntax) = false).
  { destruct (bool_decide_reflect (blockStart syntax = [])); [done|].
    simpl. apply Htok; [|done]. by apply plain_blockStart. }
  assert (Hbe : negb (bool_decide (blockEnd syntax = []))
                && HasPrefix (c :: rest) (blockEnd syntax) = false).
  { destruct (bool_decide_reflect (blockEnd syntax = [])); [done|].
    simpl. apply Htok; [|done]. by apply plain_blockEnd. }
  assert (Hlc : matchPrefix (c :: rest) (lineComments syntax) = None).
  { destruct (matchPrefix _ _) eqn:Hm; [|done].
    apply matchPrefix_Some in Hm as (Hin & Hne & Hp).
    rewrite Htok in Hp; [done | by eapply plain_lineComment | done]. }
  rewrite Hbs, Hbe, Hlc.
  assert (c <> quote1 /\ c <> quote2 /\ c <> backtick /\ c <> backslash
          /\ c <> nl) as (? & ? & ? & ? & ?).
  { repeat split; intros ->; vm_compute in Hc; done. }
  rewrite !bool_decide_eq_false_2 by done.
  by repeat case_match.
Qed.

(** ** Where the runes of a text stand *)

Ltac tail_err := intros [= <- <-]; by left.
Ltac tail_guard :=
  repeat (match goal with
          | |- context [if ?c then (RuneError, 1) else _] => dec_split c
          end; [tail_err|]).

Lemma Decode_tail b t r size :
  DecodeRuneInString (b :: t) = (r, size) ->
  size = 1
  \/ exists pre post, t = pre ++ post /\ size = 1 + len pre
       /\ Forall (fun c => 0x80 <= bv c) pre.
Proof.
  unfold DecodeRuneInString.
  destruct (0xF0 <=? utf8_first (bv b)) eqn:Hf; [intros [= <- <-]; by left|].
  destruct (utf8_accept _) as [lo hi] eqn:Hacc.
  assert (0x80 <= lo) as Hlo.
  { unfold utf8_first in Hacc, Hf.
    repeat case_match; zb; try lia;
      vm_compute in Hacc; injection Hacc as <- <-; lia. }
  tail_guard.
  destruct t as [|b1 t1]; [tail_err|]. tail_guard. zb.
  destruct (_ <=? 2).
  { intros [= <- <-]. right. exists [b1], t1. repeat split; try done.
    constructor; [lia | constructor]. }
  destruct t1 as [|b2 t2]; [tail_err|]. unfold is_cont. tail_guard. zb.
  destruct (_ <=? 3).
  { intros [= <- <-]. right. exists [b1; b2], t2. repeat split; try done.
    repeat constructor; lia. }
  destruct t2 as [|b3 t3]; [tail_err|]. tail_guard. zb.
  intros [= <- <-]. right. exists [b1; b2; b3], t3. repeat split; try done.
  repeat constructor; lia.
Qed.

Lemma bv_inj a b : bv a = bv b -> a = b.
Proof.
  unfold bv. intros H. apply N2Z.inj in H.
  apply (f_equal Byte.of_N) in H. rewrite !Byte.of_to_N in H. by injection H.
Qed.

Lemma count_nl_app a b : count_nl (a ++ b) = count_nl a + count_nl b.
Proof. unfold count_nl. by rewrite filter_app, len_app. Qed.

Lemma count_nl_cons c s :
  count_nl (c :: s) = (if bool_decide (c = nl) then 1 else 0) + count_nl s.
Proof.
  unfold count_nl. case_bool_decide.
  - rewrite filter_cons_True by done. by rewrite len_cons.
  - rewrite filter_cons_False by done. lia.
Qed.

Lemma count_nl_nonneg s : 0 <= count_nl s.
Proof. apply len_nonneg. Qed.

Lemma count_nl_high s : Forall (fun c => 0x80 <= bv c) s -> count_nl s = 0.
Proof.
  induction 1 as [|c s Hc _ IH]; [done|].
  rewrite count_nl_cons, IH. case_bool_decide; [|done].
  subst. vm_compute in Hc. done.
Qed.

Lemma Decode_count_nl b t r size :
  DecodeRuneInString (b :: t) = (r, size) ->
  count_nl (slice_to (b :: t) size) = if r =? 0x0A then 1 else 0.
Proof.
  intros Hd. pose proof (Decode_spec _ _ _ _ Hd) as (_ & _ & Hcase).
  destruct Hcase as [(Hb & -> & ->) | (Hb & Hr)].
  - change (slice_to (b :: t) 1) with [b] at 1.
    rewrite count_nl_cons. change (count_nl []) with 0.
    case_bool_decide as Hnl.
    + subst. done.
    + destruct (bv b =? 10) eqn:Heq; [|done]. zb.
      exfalso. apply Hnl. by apply bv_inj.
  - destruct (r =? 10) eqn:Heq; zb; [lia|].
    apply count_nl_high.
    destruct (Decode_tail _ _ _ _ Hd) as [-> | (pre & post & -> & -> & Hpre)].
    + change (slice_to (b :: t) 1) with [b] at 1. by constructor.
    + unfold slice_to. replace (Z.to_nat (1 + len pre)) with (S (length pre))
        by (unfold len; lia).
      simpl. rewrite take_app_length. by constructor.
Qed.

Lemma text_runes_from_positions fuel pre s off line col :
  off = len pre -> line = 1 + count_nl pre ->
  Forall (fun x =>
            len pre <= ra_offset x < len (pre ++ s)
            /\ ra_line x = 1 + count_nl (slice_to (pre ++ s) (ra_offset x))
            /\ ra_offset x + ra_size x <= len (pre ++ s)
            /\ DecodeRuneInString (slice_from (pre ++ s) (ra_offset x))
               = (ra_rune x, ra_size x))
         (text_runes_from fuel s off line col).
Proof.
  revert pre s off line col.
  induction fuel as [|f IH]; intros pre s off line col Hoff Hline;
    [constructor|].
  destruct s as [|b t]; [constructor|]. cbn [text_runes_from].
  destruct (DecodeRuneInString (b :: t)) as [r size] eqn:Hd.
  pose proof (Decode_spec _ _ _ _ Hd) as (Hsize & _ & _).
  pose proof (len_nonneg pre) as Hpre.
  constructor.
  - cbn [ra_offset ra_line ra_size ra_rune]. subst off line.
    rewrite len_app.
    assert (slice_to (pre ++ b :: t) (len pre) = pre) as ->.
    { unfold slice_to, len. rewrite Nat2Z.id. apply take_app_length. }
    assert (slice_from (pre ++ b :: t) (len pre) = b :: t) as ->.
    { unfold slice_from, len. rewrite Nat2Z.id. apply drop_app_length. }
    repeat split; try done; lia.
  - assert (Happ : (pre ++ slice_to (b :: t) size) ++ slice_from (b :: t) size
                   = pre ++ b :: t).
    { rewrite <- app_assoc. f_equal. apply take_drop. }
    assert (Hlen : len (pre ++ slice_to (b :: t) size) = off + size).
    { rewrite len_app. unfold slice_to, len in *. rewrite length_take. lia. }
    specialize (IH (pre ++ slice_to (b :: t) size) (slice_from (b :: t) size)
                  (off + size) (if r =? 10 then line + 1 else line)
                  (if r =? 10 then 1 else col + 1)).
    rewrite Happ in IH.
    eapply Forall_impl; [apply IH|].
    + by rewrite Hlen.
    + rewrite count_nl_app, (Decode_count_nl _ _ _ _ Hd).
      destruct (r =? 10); lia.
    + intros x (? & ? & ? & ?). repeat split; try done; lia.
Qed.

Lemma text_runes_positions text :
  Forall (fun x =>
            0 <= ra_offset x < len text
            /\ ra_line x = 1 + count_nl (slice_to text (ra_offset x))
            /\ ra_offset x + ra_size x <= len text
            /\ DecodeRuneInString (slice_from text (ra_offset x))
               = (ra_rune x, ra_size x))
         (text_runes text).
Proof.
  apply (text_runes_from_positions (length text) [] text 0 1 1); done.
Qed.

(** ** The layout of a text and the rounds of the scanner

    For a profile with printable tokens and a text with a well-formed
    layout, every round of the loop ends at a place of the layout, in
    the state that belongs to it: the scanner reports the disallowed
    runes of the pieces whose context it inspects, and no others. *)

(** *** The permitted set *)

Lemma isAllowedRune_spec r allow :
  isAllowedRune r allow = true <-> permitted r \/ r ∈ allow.
Proof.
  unfold isAllowedRune, permitted.
  destruct (r =? 10) eqn:H1; zb; [split; [intros _; left; lia | done]|].
  destruct (r =? 13) eqn:H2; zb; [split; [intros _; left; lia | done]|].
  destruct (r =? 9) eqn:H3; zb; [split; [intros _; left; lia | done]|].
  cbn [orb].
  destruct (0x20 <=? r) eqn:H4, (r <=? 0x7e) eqn:H5; zb; cbn [andb];
    try (split; [intros _; left; lia | done]);
    rewrite bool_decide_eq_true; split; try tauto;
    (intros [?|?]; [lia | done]).
Qed.

Lemma offending_spec allow x :
  offending allow x = true <-> disallowed allow x.
Proof.
  unfold offending, disallowed.
  rewrite orb_true_iff, negb_true_iff, <- not_true_iff_false, isAllowedRune_spec.
  done.
Qed.

(** *** Findings at the kept offsets *)

Section Where.
Context (keep : Z -> bool) (E : Env) (path : gostring).
Context (lines : list gostring) (opts : Options).

Local Abbreviation ew := (expected_where keep E path lines opts).

Lemma ew_nil off line col : ew [] off line col = [].
Proof. done. Qed.

Lemma ew_cons b t off line col r size :
  DecodeRuneInString (b :: t) = (r, size) ->
  ew (b :: t) off line col =
    (let x := {| ra_offset := off; ra_line := line; ra_col := col;
                 ra_rune := r; ra_size := size |} in
     if offending (AllowRunes opts) x && keep off
     then [finding_at E path lines opts x] else [])
    ++ ew (slice_from (b :: t) size) (off + size)
         (if r =? 0x0A then line + 1 else line)
         (if r =? 0x0A then 1 else col + 1).
Proof.
  intros Hd. unfold expected_where. rewrite runes_at_cons, Hd.
  cbn zeta. destruct (offending _ _ && keep off) eqn:Ho.
  - rewrite filter_cons_True by done. done.
  - rewrite filter_cons_False by (cbn [ra_offset]; by rewrite Ho). done.
Qed.

Lemma ew_allowed_ascii b t off line col :
  bv b < 0x80 -> isAllowedRune (bv b) (AllowRunes opts) = true ->
  ew (b :: t) off line col =
    ew t (off + 1)
      (if bv b =? 0x0A then line + 1 else line)
      (if bv b =? 0x0A then 1 else col + 1).
Proof.
  intros Hb Ha. rewrite (ew_cons _ _ _ _ _ _ _ (Decode_ascii b t Hb)).
  cbn zeta. unfold offending, ra_invalid. cbn [ra_rune ra_size]. rewrite Ha.
  pose proof (bv_range b).
  destruct (bv b =? RuneError) eqn:?; zb; [unfold RuneError in *; lia|].
  done.
Qed.

Lemma ew_printable b t off line col :
  printable b = true ->
  ew (b :: t) off line col = ew t (off + 1) line (col + 1).
Proof.
  intros Hp. pose proof (printable_spec b Hp).
  rewrite ew_allowed_ascii;
    [|lia|by apply isAllowedRune_printable].
  destruct (bv b =? 10) eqn:?; zb; [lia | done].
Qed.

Lemma ew_token t rest off line col :
  forallb printable t = true ->
  ew (t ++ rest) off line col = ew rest (off + len t) line (col + len t).
Proof.
  revert off col. induction t as [|b t IH]; intros off col Hp.
  - unfold len. simpl. f_equal; lia.
  - simpl in Hp. apply andb_true_iff in Hp as [Hb Ht].
    simpl. rewrite ew_printable by done. rewrite IH by done.
    rewrite len_cons. f_equal; lia.
Qed.
End Where.

(** *** Tokens of a profile *)

Lemma matchPrefix_first_token tokens token rest :
  first_token tokens token rest = true -> token <> [] ->
  HasPrefix rest token = true ->
  matchPrefix rest tokens = Some token.
Proof.
  intros Hf Hne Hp. induction tokens as [|t ts IH]; [done|].
  cbn [first_token matchPrefix] in *.
  destruct (bool_decide_reflect (t = token)) as [-> | Hnt].
  - rewrite bool_decide_eq_false_2 by done. by rewrite Hp.
  - apply andb_true_iff in Hf as [Ht Hf].
    destruct (bool_decide_reflect (t = [])); [by apply IH|].
    cbn [orb] in Ht. apply negb_true_iff in Ht. rewrite Ht. by apply IH.
Qed.

Lemma first_token_elem tokens token rest :
  first_token tokens token rest = true -> token ∈ tokens.
Proof.
  induction tokens as [|t ts IH]; [done|]. cbn [first_token].
  destruct (bool_decide_reflect (t = token)) as [-> | Hnt]; [set_solver|].
  intros [_ H]%andb_true_iff. set_solver.
Qed.

Lemma matchPrefix_none tokens rest :
  existsb (fun t => negb (bool_decide (t = [])) && HasPrefix rest t) tokens
    = false ->
  matchPrefix rest tokens = None.
Proof.
  induction tokens as [|t ts IH]; [done|]. cbn [existsb matchPrefix].
  intros [Ht Hts]%orb_false_iff.
  destruct (bool_decide_reflect (t = [])); [by apply IH|].
  cbn [negb andb] in Ht. rewrite Ht. by apply IH.
Qed.

Lemma printable_head_ascii (t rest : gostring) :
  forallb printable t = true -> t <> [] ->
  match t ++ rest with [] => True | c :: _ => bv c < 0x80 end.
Proof.
  destruct t as [|c t]; [done|]. intros [Hc _]%andb_true_iff _.
  apply printable_spec in Hc. simpl. lia.
Qed.

(** *** Bodies and what the decoder takes from them *)

Lemma code_body_drop syntax body follow k :
  code_body syntax body follow = true ->
  code_body syntax (drop k body) follow = true.
Proof.
  revert body. induction k as [|k IH]; intros body; [by rewrite drop_0|].
  destruct body as [|c body]; [done|]. cbn [code_body drop].
  intros [_ H]%andb_true_iff. by apply IH.
Qed.

Lemma no_end_drop stop body tail k :
  no_end stop body tail = true -> no_end stop (drop k body) tail = true.
Proof.
  revert body. induction k as [|k IH]; intros body; [by rewrite drop_0|].
  destruct body as [|c body]; [done|]. cbn [no_end drop].
  intros [_ H]%andb_true_iff. by apply IH.
Qed.

Lemma forallb_drop {A} (f : A -> bool) (l : list A) k :
  forallb f l = true -> forallb f (drop k l) = true.
Proof.
  revert l. induction k as [|k IH]; intros l; [by rewrite drop_0|].
  destruct l as [|c l]; [done|]. cbn [forallb drop].
  intros [_ H]%andb_true_iff. by apply IH.
Qed.

Lemma string_body_drop closed q body k :
  Forall (fun c => 0x80 <= bv c) (take k body) ->
  string_body closed q body = true ->
  string_body closed q (drop k body) = true.
Proof.
  revert body. induction k as [|k IH]; intros body; [by rewrite drop_0|].
  destruct body as [|c body]; [done|]. cbn [take drop].
  intros Hh. apply Forall_cons in Hh as [Hc Hh]. cbn [string_body].
  rewrite bool_decide_eq_false_2 by (intros ->; vm_compute in Hc; done).
  intros [_ H]%andb_true_iff. by apply IH.
Qed.

(** The bytes of a rune that starts in a body stay within the body when
    nothing or an ASCII byte follows it. *)
Lemma Decode_within c body tail r size :
  DecodeRuneInString (c :: body ++ tail) = (r, size) ->
  match tail with [] => True | d :: _ => bv d < 0x80 end ->
  exists k : nat,
    size = 1 + Z.of_nat k /\ (k <= length body)%nat
    /\ Forall (fun c => 0x80 <= bv c) (take k body)
    /\ slice_from (c :: body ++ tail) size = drop k body ++ tail.
Proof.
  intros Hd Htail.
  destruct (Decode_tail _ _ _ _ Hd) as [-> | (pre & post & Heq & -> & Hpre)].
  { exists 0%nat. rewrite take_0, drop_0. repeat split; try done; lia. }
  assert (Hle : (length pre <= length body)%nat).
  { destruct (decide (length pre <= length body)%nat) as [|Hgt]; [done|].
    exfalso. apply (f_equal (fun l => l !! length body)) in Heq.
    rewrite lookup_app_r, Nat.sub_diag in Heq by done.
    rewrite lookup_app_l in Heq by lia.
    destruct tail as [|d tail].
    - simpl in Heq. symmetry in Heq. apply lookup_ge_None in Heq. lia.
    - simpl in Heq. symmetry in Heq.
      rewrite Forall_lookup in Hpre. apply Hpre in Heq. lia. }
  exists (length pre). unfold len.
  assert (Hpre' : pre = take (length pre) body).
  { apply (f_equal (take (length pre))) in Heq.
    rewrite take_app_le in Heq by done. rewrite take_app_length in Heq. done. }
  split; [done|]. split; [done|]. split; [by rewrite <- Hpre'|].
  unfold slice_from. replace (Z.to_nat (1 + Z.of_nat (length pre)))
    with (S (length pre)) by lia.
  cbn [drop]. by rewrite drop_app_le.
Qed.

(** *** Lists of contexts *)

Lemma drop_replicate_app {A} (x : A) (m n : nat) (l : list A) :
  (n <= m)%nat -> drop n (replicate m x ++ l) = replicate (m - n) x ++ l.
Proof.
  intros Hle. rewrite drop_app_le by (rewrite length_replicate; lia).
  by rewrite drop_replicate.
Qed.

Lemma render_cons syntax p L :
  render syntax (p :: L) = render_piece syntax p ++ render syntax L.
Proof. done. Qed.

Lemma contexts_cons syntax p L :
  contexts syntax (p :: L)
  = replicate (length (render_piece syntax p)) (piece_ctx p) ++ contexts syntax L.
Proof. done. Qed.

Lemma enter_rest syntax L : mode_rest syntax (enter L) = render syntax L.
Proof. destruct L as [|[] L]; done. Qed.

Lemma enter_tags syntax L : mode_tags syntax (enter L) = contexts syntax L.
Proof.
  destruct L as [|[] L]; try done.
  unfold mode_tags. cbn [enter mode_body mode_closing mode_layout mode_ctx].
  by rewrite app_nil_r.
Qed.

Lemma enter_ok syntax L :
  wf_layout syntax L = true -> mode_ok syntax (enter L) = true.
Proof.
  destruct L as [|p L]; [done|]. intros Hwf.
  destruct p; cbn [enter mode_ok]; try (by rewrite Hwf).
  cbn [wf_layout wf_piece is_code andb] in Hwf.
  apply andb_true_iff in Hwf as [[H1 H2]%andb_true_iff H3].
  by rewrite H1, H2, H3.
Qed.

Lemma enter_state L : mode_state (enter L) = stateCode.
Proof. by destruct L as [|[] L]. Qed.

Lemma enter_not_string L q e b c L' : enter L <> MString q e b c L'.
Proof. by destruct L as [|[] L]. Qed.

Lemma string_state_cases q :
  string_state q = stateSingleString \/ string_state q = stateDoubleString
  \/ string_state q = stateBacktickString.
Proof. unfold string_state. repeat case_bool_decide; tauto. Qed.

Section Layout.
Context (E : Env) (path text : gostring) (lines : list gostring).
Context (syntax : syntaxRules) (opts : Options) (tags : list ctx).
Hypothesis Hplain : plain_syntax syntax = true.

Local Abbreviation body := (loop_body E path text lines syntax opts).
Local Abbreviation inspect := (inspect_rune E path text lines opts).
Local Abbreviation keep := (inspected_at opts tags).
Local Abbreviation ew := (expected_where keep E path lines opts).
Local Abbreviation exp := (round_exp keep E path text lines opts).
Local Abbreviation at_ := (at_mode syntax text tags).
Local Abbreviation round := (round_in syntax text tags keep E path lines opts).

Lemma inspected_state M :
  shouldInspect (mode_state M) opts = inspected opts (mode_ctx M).
Proof.
  destruct M; try done. cbn [mode_state mode_ctx].
  by destruct (string_state_cases q) as [-> | [-> | ->]].
Qed.

Lemma tag_here s M :
  at_ s M -> mode_body M ++ mode_closing syntax M <> [] ->
  keep (ls_i s) = inspected opts (mode_ctx M).
Proof.
  intros (Hi & _ & Htags & _) Hne. unfold inspected_at.
  assert (tags !! Z.to_nat (ls_i s) = Some (mode_ctx M)) as ->; [|done].
  rewrite <- (Nat.add_0_r (Z.to_nat _)), <- lookup_drop, Htags.
  unfold mode_tags. destruct (mode_body M ++ mode_closing syntax M); done.
Qed.

(** *** What follows a body starts with an ASCII byte *)

Lemma quote_ascii q : opens_string syntax q = true -> printable q = true.
Proof.
  unfold opens_string. intros [_ H]%andb_true_iff.
  apply orb_true_iff in H as [H | [H _]%andb_true_iff];
    [apply orb_true_iff in H as [H | H]|];
    apply bool_decide_eq_true in H; by subst.
Qed.

Lemma piece_head_ascii p follow :
  is_code p = false -> wf_piece syntax p follow = true ->
  match render_piece syntax p ++ follow with
  | [] => True
  | d :: _ => bv d < 0x80
  end.
Proof.
  destruct p as [b | token b c | b c | q b c]; [done| | |]; intros _ Hwf.
  - cbn [wf_piece] in Hwf.
    apply andb_true_iff in Hwf as [[[[_ Hne]%andb_true_iff Hft]%andb_true_iff _]%andb_true_iff _].
    apply negb_true_iff, bool_decide_eq_false in Hne.
    apply first_token_elem, (plain_lineComment _ Hplain) in Hft.
    cbn [render_piece]. rewrite <- app_assoc.
    by apply printable_head_ascii.
  - cbn [wf_piece] in Hwf. apply andb_true_iff in Hwf as [Hne _].
    apply negb_true_iff, bool_decide_eq_false in Hne.
    cbn [render_piece]. rewrite <- app_assoc.
    apply printable_head_ascii; [|done]. by apply plain_blockStart.
  - cbn [wf_piece] in Hwf.
    apply andb_true_iff in Hwf as [[[Hq _]%andb_true_iff _]%andb_true_iff _].
    apply quote_ascii, printable_spec in Hq. simpl. lia.
Qed.

Lemma render_head_ascii L :
  wf_layout syntax L = true -> starts_with_code L = false ->
  match render syntax L with [] => True | d :: _ => bv d < 0x80 end.
Proof.
  destruct L as [|p L]; [done|]. cbn [wf_layout starts_with_code].
  intros [[Hp _]%andb_true_iff _]%andb_true_iff Hc.
  rewrite render_cons. by apply piece_head_ascii.
Qed.

Lemma tail_ascii M :
  mode_ok syntax M = true ->
  match mode_closing syntax M ++ render syntax (mode_layout M) with
  | [] => True
  | d :: _ => bv d < 0x80
  end.
Proof.
  destruct M as [b L | b c L | b c L | q e b c L];
    cbn [mode_ok mode_closing mode_layout]; intros Hok.
  - apply andb_true_iff in Hok as [[_ Hc]%andb_true_iff Hwf].
    apply negb_true_iff in Hc. by apply render_head_ascii.
  - apply andb_true_iff in Hok as [[_ He]%andb_true_iff _].
    destruct c; [simpl; vm_compute; done|].
    apply bool_decide_eq_true in He. by rewrite He.
  - apply andb_true_iff in Hok as [Hc _]. destruct c.
    + apply andb_true_iff in Hc as [Hne _].
      apply negb_true_iff, bool_decide_eq_false in Hne.
      apply printable_head_ascii; [|done]. by apply plain_blockEnd.
    + apply andb_true_iff in Hc as [Hr _].
      apply bool_decide_eq_true in Hr. by rewrite Hr.
  - apply andb_true_iff in Hok as [[[Hq _]%andb_true_iff He]%andb_true_iff _].
    destruct c.
    + apply quote_ascii, printable_spec in Hq. simpl. lia.
    + apply bool_decide_eq_true in He. by rewrite He.
Qed.

(** *** Moving on in the text *)

Lemma at_advance s s' M M' (n : nat) :
  at_ s M ->
  ls_i s' = ls_i s + Z.of_nat n ->
  drop n (mode_rest syntax M) = mode_rest syntax M' ->
  drop n (mode_tags syntax M) = mode_tags syntax M' ->
  mode_ok syntax M' = true ->
  ls_state s' = mode_state M' ->
  (forall q e b c L, M' = MString q e b c L -> ls_escaped s' = e) ->
  at_ s' M'.
Proof.
  intros (Hi & Hrest & Htags & _) Hi' Hr Ht Hok Hst Hesc.
  split; [lia|]. split; [|split; [|done]].
  - rewrite Hi', slice_from_add, Hrest by lia. unfold slice_from.
    by rewrite Nat2Z.id.
  - rewrite <- Ht, <- Htags, drop_drop. f_equal. lia.
Qed.

Lemma quiet_round s s' M' :
  at_ s' M' -> ls_findings s' = ls_findings s -> exp s' = exp s ->
  round s s' M'.
Proof.
  intros Hat Hf He. split; [done|]. exists [].
  by rewrite app_nil_r, Hf.
Qed.

Lemma drop_body_rest M c b (k : nat) :
  mode_body M = c :: b -> (k <= length b)%nat ->
  drop (S k) (mode_rest syntax M) = mode_rest syntax (with_body M (drop k b)).
Proof.
  intros Hb Hk. unfold mode_rest. rewrite Hb. cbn [app drop].
  rewrite drop_app_le by done. by destruct M.
Qed.

Lemma drop_body_tags M c b (k : nat) :
  mode_body M = c :: b -> (k <= length b)%nat ->
  drop (S k) (mode_tags syntax M) = mode_tags syntax (with_body M (drop k b)).
Proof.
  intros Hb Hk. unfold mode_tags. rewrite Hb.
  rewrite drop_replicate_app by (rewrite length_app; simpl; lia).
  assert (mode_closing syntax (with_body M (drop k b)) = mode_closing syntax M)
    as -> by (by destruct M).
  assert (mode_layout (with_body M (drop k b)) = mode_layout M)
    as -> by (by destruct M).
  assert (mode_ctx (with_body M (drop k b)) = mode_ctx M)
    as -> by (by destruct M).
  assert (mode_body (with_body M (drop k b)) = drop k b)
    as -> by (by destruct M).
  do 2 f_equal. rewrite !length_app, length_drop. simpl. lia.
Qed.

(** *** A round that decodes a rune *)

Lemma inspect_exp s c t r size :
  0 <= ls_i s -> slice_from text (ls_i s) = c :: t ->
  DecodeRuneInString (c :: t) = (r, size) ->
  keep (ls_i s) = shouldInspect (ls_state s) opts ->
  ls_i (inspect s) = ls_i s + size
  /\ ls_escaped (inspect s) = false
  /\ ls_state (inspect s)
     = (if (r =? 10) && bool_decide (ls_state s = stateLineComment)
        then stateCode else ls_state s)
  /\ exists new,
       ls_findings (inspect s) = ls_findings s ++ new
       /\ new ++ exp (inspect s) = exp s.
Proof.
  intros Hi Hrest Hd Hkeep. unfold round_exp at 2.
  rewrite Hrest, (ew_cons _ _ _ _ _ _ _ _ _ _ _ _ Hd), Hkeep.
  pose proof (Decode_spec _ _ _ _ Hd) as (Hsize & _ & _).
  assert (Hsl : slice_from text (ls_i s + size) = slice_from (c :: t) size)
    by (by rewrite slice_from_add, Hrest by lia).
  unfold inspect_rune, round_exp. rewrite Hrest, Hd.
  unfold offending, finding_at, ra_invalid. cbn [ra_rune ra_size ra_line ra_col].
  destruct ((r =? RuneError) && (size =? 1)) eqn:Hinv.
  - zb. subst. cbn [orb ls_i ls_line ls_col ls_findings ls_state ls_escaped].
    change (RuneError =? 10) with false. cbn [andb]. rewrite Hsl.
    repeat split; try done.
    destruct (shouldInspect (ls_state s) opts).
    + by eexists.
    + exists []. by rewrite app_nil_r.
  - cbn [orb].
    destruct (r =? 10) eqn:Hnl;
      cbn [ls_i ls_line ls_col ls_findings ls_state ls_escaped andb];
      rewrite Hsl; (split; [done|]); (split; [done|]); (split; [done|]);
      rewrite (andb_comm (negb _));
      destruct (shouldInspect (ls_state s) opts && negb (isAllowedRune r _));
      first [ by eexists | by exists []; rewrite app_nil_r ].
Qed.

(** A round that inspects the first rune of the body of the mode. *)
Lemma rune_round s M c b :
  at_ s M -> mode_body M = c :: b ->
  body s = inspect s ->
  (forall k : nat,
     (k <= length b)%nat -> Forall (fun c => 0x80 <= bv c) (take k b) ->
     mode_ok syntax (with_body M (drop k b)) = true) ->
  (forall cl L, M <> MLine (c :: b) cl L \/ c <> nl) ->
  exists M', round s (body s) M'.
Proof.
  intros Hat Hb Hbody Hok Hnl. pose proof Hat as (Hi & Hrest & Htags & HokM & Hst & Hesc).
  rewrite Hbody.
  assert (Hr : slice_from text (ls_i s)
               = c :: b ++ mode_closing syntax M ++ render syntax (mode_layout M)).
  { rewrite Hrest. unfold mode_rest. by rewrite Hb. }
  destruct (DecodeRuneInString (c :: b ++ mode_closing syntax M
                                  ++ render syntax (mode_layout M)))
    as [r size] eqn:Hd.
  destruct (Decode_within _ _ _ _ _ Hd (tail_ascii M HokM))
    as (k & -> & Hk & Hhigh & Hsl).
  assert (Hkeep : keep (ls_i s) = shouldInspect (ls_state s) opts).
  { rewrite Hst, inspected_state. apply tag_here; [done|]. by rewrite Hb. }
  destruct (inspect_exp s _ _ _ _ Hi Hr Hd Hkeep) as (Hi' & He' & Hs' & Hnew).
  exists (with_body M (drop k b)). split; [|done].
  apply (at_advance s _ M _ (S k)); try done.
  - rewrite Hi'. lia.
  - by apply (drop_body_rest M c).
  - by apply (drop_body_tags M c).
  - by apply Hok.
  - rewrite Hs', Hst.
    assert (mode_state (with_body M (drop k b)) = mode_state M) as ->
      by (by destruct M).
    destruct (r =? 10) eqn:Hr10; cbn [andb]; [|done]. zb. subst r.
    destruct (bool_decide_reflect (mode_state M = stateLineComment)) as [Hl|];
      [|done]. exfalso.
    pose proof (Decode_spec _ _ _ _ Hd) as (_ & _ & [(_ & Hc & _) | (_ & ?)]);
      [|lia].
    assert (c = nl) as -> by (apply bv_inj; by rewrite <- Hc).
    destruct M as [? ? | ? cl L | ? ? ? | q0 ? ? ? ?]; try done.
    + cbn [mode_body] in Hb. subst. destruct (Hnl cl L); done.
    + cbn [mode_state] in Hl.
      destruct (string_state_cases q0) as [H | [H | H]]; congruence.
  - intros q e b' c' L' HM. rewrite He'. destruct M; simpl in HM; congruence.
Qed.

(** *** Rounds that consume a delimiter *)

Lemma token_round s M M' token st :
  at_ s M -> mode_rest syntax M = token ++ mode_rest syntax M' ->
  drop (length token) (mode_tags syntax M) = mode_tags syntax M' ->
  forallb printable token = true ->
  mode_ok syntax M' = true -> st = mode_state M' ->
  (forall q e b c L, M' <> MString q e b c L) ->
  round s (consume_token s token st) M'.
Proof.
  intros Hat Hr Ht Hp Hok -> Hns. pose proof Hat as (Hi & Hrest & _).
  unfold consume_token. rewrite advanceByToken_printable by done.
  assert (Hat' : at_ {| ls_i := ls_i s + len token; ls_line := ls_line s;
                        ls_col := ls_col s + len token;
                        ls_state := mode_state M'; ls_escaped := false;
                        ls_findings := ls_findings s |} M').
  { apply (at_advance s _ M M' (length token)); try done.
    - by rewrite Hr, drop_app_length.
    - intros q e b c L HM. by destruct (Hns q e b c L). }
  apply quiet_round; [done|done|].
  destruct Hat' as (_ & Hrest' & _). unfold round_exp.
  rewrite Hrest', Hrest, Hr. cbn [ls_i ls_line ls_col].
  by rewrite ew_token.
Qed.

Lemma byte_round s M M' c st esc :
  at_ s M -> mode_rest syntax M = c :: mode_rest syntax M' ->
  drop 1 (mode_tags syntax M) = mode_tags syntax M' ->
  printable c = true ->
  mode_ok syntax M' = true -> st = mode_state M' ->
  (forall q e b cl L, M' = MString q e b cl L -> esc = e) ->
  round s (consume1 s st esc) M'.
Proof.
  intros Hat Hr Ht Hp Hok -> Hesc. pose proof Hat as (Hi & Hrest & _).
  assert (Hat' : at_ (consume1 s (mode_state M') esc) M').
  { apply (at_advance s _ M M' 1); try done. by rewrite Hr. }
  apply quiet_round; [done|done|].
  destruct Hat' as (_ & Hrest' & _). unfold round_exp.
  rewrite Hrest', Hrest, Hr. cbn [consume1 ls_i ls_line ls_col].
  by rewrite ew_printable.
Qed.

Lemma newline_round s M M' :
  at_ s M -> mode_rest syntax M = nl :: mode_rest syntax M' ->
  drop 1 (mode_tags syntax M) = mode_tags syntax M' ->
  mode_ok syntax M' = true -> mode_state M' = stateCode ->
  (forall q e b c L, M' <> MString q e b c L) ->
  round s {| ls_i := ls_i s + 1; ls_line := ls_line s + 1; ls_col := 1;
             ls_state := stateCode; ls_escaped := false;
             ls_findings := ls_findings s |} M'.
Proof.
  intros Hat Hr Ht Hok Hst Hns. pose proof Hat as (Hi & Hrest & _).
  assert (Hat' : at_ {| ls_i := ls_i s + 1; ls_line := ls_line s + 1;
                        ls_col := 1; ls_state := stateCode;
                        ls_escaped := false;
                        ls_findings := ls_findings s |} M').
  { apply (at_advance s _ M M' 1); try done.
    - by rewrite Hr.
    - intros q e b c L HM. by destruct (Hns q e b c L). }
  apply quiet_round; [done|done|].
  destruct Hat' as (_ & Hrest' & _). unfold round_exp.
  rewrite Hrest', Hrest, Hr. cbn [ls_i ls_line ls_col].
  by rewrite ew_allowed_ascii.
Qed.

(** *** What a round does in each state *)

Lemma body_code_inspect s c rest :
  slice_from text (ls_i s) = c :: rest -> ls_state s = stateCode ->
  comment_starts syntax (c :: rest) = false -> opens_string syntax c = false ->
  body s = inspect s.
Proof.
  intros Hrest Hst Hcs Hos. unfold loop_body. rewrite Hrest, Hst.
  unfold comment_starts in Hcs. apply orb_false_iff in Hcs as [Hb Hl].
  rewrite Hb, (matchPrefix_none _ _ Hl).
  unfold opens_string in Hos.
  destruct (strings syntax); [|done]. cbn [andb] in Hos.
  apply orb_false_iff in Hos as [[H1 H2]%orb_false_iff H3].
  by rewrite H1, H2, H3.
Qed.

Lemma body_quote_open s q rest :
  slice_from text (ls_i s) = q :: rest -> ls_state s = stateCode ->
  comment_starts syntax (q :: rest) = false -> opens_string syntax q = true ->
  body s = consume1 s (string_state q) false.
Proof.
  intros Hrest Hst Hcs Hos. unfold loop_body. rewrite Hrest, Hst.
  unfold comment_starts in Hcs. apply orb_false_iff in Hcs as [Hb Hl].
  rewrite Hb, (matchPrefix_none _ _ Hl).
  unfold opens_string in Hos. apply andb_true_iff in Hos as [-> Hq].
  unfold string_state.
  destruct (bool_decide_reflect (q = quote1)); [done|].
  destruct (bool_decide_reflect (q = quote2)); [done|].
  cbn [orb] in Hq. by rewrite Hq.
Qed.

Lemma code_rune s c b L :
  at_ s (MCode (c :: b) L) -> exists M', round s (body s) M'.
Proof.
  intros Hat. pose proof Hat as (Hi & Hrest & _ & Hok & Hst & _).
  cbn [mode_ok code_body] in Hok.
  apply andb_true_iff in Hok as [[Hcb Hsw]%andb_true_iff Hwf].
  apply andb_true_iff in Hcb as [[Hcs Hos]%andb_true_iff Hcb].
  apply negb_true_iff in Hcs, Hos.
  apply (rune_round s (MCode (c :: b) L) c b); [done|done| | |].
  - by apply (body_code_inspect s c (b ++ render syntax L)).
  - intros k _ _. cbn [with_body mode_ok].
    by rewrite code_body_drop, Hsw, Hwf.
  - intros cl L'. by left.
Qed.

Lemma code_open s p L :
  at_ s (MCode [] (p :: L)) -> exists M', round s (body s) M'.
Proof.
  intros Hat. pose proof Hat as (Hi & Hrest & _ & Hok & Hst & _).
  cbn [mode_state] in Hst.
  cbn [mode_ok code_body starts_with_code wf_layout andb] in Hok.
  apply andb_true_iff in Hok as [Hnc Hwf].
  apply andb_true_iff in Hwf as [[Hp _]%andb_true_iff Hwf].
  unfold mode_rest in Hrest.
  cbn [mode_body mode_closing mode_layout app] in Hrest.
  rewrite render_cons in Hrest.
  destruct p as [b | token b c | b c | q b c]; [done| | |].
  - (* a line comment opens *)
    cbn [wf_piece] in Hp.
    apply andb_true_iff in Hp as [[[[Hbs Hne]%andb_true_iff Hft]%andb_true_iff
                                    Hb]%andb_true_iff He].
    apply negb_true_iff in Hbs.
    apply negb_true_iff, bool_decide_eq_false in Hne.
    assert (Hpre : HasPrefix (render_piece syntax (LineComment token b c)
                                ++ render syntax L) token = true).
    { cbn [render_piece]. rewrite <- app_assoc. apply HasPrefix_self_app. }
    pose proof (matchPrefix_first_token _ _ _ Hft Hne Hpre) as Hm.
    exists (MLine b c L).
    assert (body s = consume_token s token stateLineComment) as ->.
    { unfold loop_body. rewrite Hrest, Hst.
      destruct (render_piece syntax (LineComment token b c) ++ render syntax L)
        as [|c0 r0] eqn:Hr0.
      { cbn [render_piece] in Hr0. destruct token; done. }
      by rewrite Hbs, Hm. }
    apply (token_round s (MCode [] (LineComment token b c :: L))); try done.
    + unfold mode_rest. cbn [mode_body mode_closing mode_layout app render_piece].
      rewrite render_cons. cbn [render_piece]. by rewrite <- !app_assoc.
    + unfold mode_tags.
      cbn [mode_body mode_closing mode_layout mode_ctx app length replicate].
      rewrite contexts_cons. cbn [render_piece piece_ctx].
      rewrite drop_replicate_app by (rewrite length_app; lia).
      do 2 f_equal. rewrite !length_app. lia.
    + apply (plain_lineComment _ Hplain). by eapply first_token_elem.
    + cbn [mode_ok]. by rewrite Hb, He, Hwf.
  - (* a block comment opens *)
    cbn [wf_piece] in Hp. apply andb_true_iff in Hp as [Hne Hcl].
    exists (MBlock b c L).
    assert (body s = consume_token s (blockStart syntax) stateBlockComment) as ->.
    { unfold loop_body. rewrite Hrest, Hst. cbn [render_piece].
      rewrite <- app_assoc.
      destruct (blockStart syntax ++ _) as [|c0 r0] eqn:Hr0.
      { apply negb_true_iff, bool_decide_eq_false in Hne.
        destruct (blockStart syntax); done. }
      rewrite <- Hr0, Hne, HasPrefix_self_app. done. }
    apply (token_round s (MCode [] (BlockComment b c :: L))); try done.
    + unfold mode_rest. cbn [mode_body mode_closing mode_layout app render_piece].
      rewrite render_cons. cbn [render_piece]. by rewrite <- !app_assoc.
    + unfold mode_tags.
      cbn [mode_body mode_closing mode_layout mode_ctx app length replicate].
      rewrite contexts_cons. cbn [render_piece piece_ctx].
      rewrite drop_replicate_app by (rewrite length_app; lia).
      do 2 f_equal. rewrite !length_app. lia.
    + by apply plain_blockStart.
    + cbn [mode_ok]. by rewrite Hcl, Hwf.
  - (* a string opens *)
    cbn [wf_piece] in Hp.
    apply andb_true_iff in Hp as [[[Hq Hcs]%andb_true_iff Hb]%andb_true_iff He].
    apply negb_true_iff in Hcs.
    exists (MString q false b c L).
    assert (Hr : slice_from text (ls_i s)
                 = q :: (b ++ closing c [q]) ++ render syntax L)
      by (by rewrite Hrest).
    rewrite (body_quote_open s q _ Hr Hst); [|by rewrite <- Hcs|done].
    apply (byte_round s (MCode [] (Quoted q b c :: L)) _ q); try done.
    + unfold mode_rest. cbn [mode_body mode_closing mode_layout app render_piece].
      rewrite render_cons. cbn [render_piece app]. by rewrite <- !app_assoc.
    + by apply quote_ascii.
    + cbn [mode_ok]. rewrite Hq, He, Hwf. unfold string_rem.
      destruct (bool_decide (q = backtick)); by rewrite Hb.
    + by intros ? ? ? ? ? [= _ <- _ _ _].
Qed.

Lemma line_round s b c L :
  at_ s (MLine b c L) -> b ++ closing c [nl] <> [] ->
  exists M', round s (body s) M'.
Proof.
  intros Hat Hne. pose proof Hat as (Hi & Hrest & _ & Hok & Hst & _).
  cbn [mode_state] in Hst.
  cbn [mode_ok] in Hok.
  apply andb_true_iff in Hok as [[Hb He]%andb_true_iff Hwf].
  destruct b as [|c0 b].
  - destruct c; [|done]. exists (enter L).
    unfold mode_rest in Hrest.
    cbn [mode_body mode_closing mode_layout closing app] in Hrest.
    assert (body s = {| ls_i := ls_i s + 1; ls_line := ls_line s + 1;
                        ls_col := 1; ls_state := stateCode;
                        ls_escaped := false;
                        ls_findings := ls_findings s |}) as ->.
    { unfold loop_body. rewrite Hrest, Hst. by rewrite bool_decide_eq_true_2. }
    apply (newline_round s (MLine [] true L)); try done.
    + by rewrite enter_rest.
    + by rewrite enter_tags.
    + by apply enter_ok.
    + apply enter_state.
    + intros. apply enter_not_string.
  - cbn [forallb] in Hb. apply andb_true_iff in Hb as [Hc0 Hb].
    apply negb_true_iff, bool_decide_eq_false in Hc0.
    apply (rune_round s (MLine (c0 :: b) c L) c0 b); [done|done| | |].
    + unfold loop_body. unfold mode_rest in Hrest.
      cbn [mode_body app] in Hrest. rewrite Hrest, Hst.
      by rewrite bool_decide_eq_false_2.
    + intros k _ _. cbn [with_body mode_ok].
      by rewrite forallb_drop, He, Hwf.
    + intros cl L'. by right.
Qed.

Lemma block_round s b c L :
  at_ s (MBlock b c L) -> b ++ closing c (blockEnd syntax) <> [] ->
  exists M', round s (body s) M'.
Proof.
  intros Hat Hne. pose proof Hat as (Hi & Hrest & _ & Hok & Hst & _).
  cbn [mode_state] in Hst.
  cbn [mode_ok] in Hok. apply andb_true_iff in Hok as [Hcl Hwf].
  unfold mode_rest in Hrest. cbn [mode_body mode_closing mode_layout] in Hrest.
  destruct b as [|c0 b].
  - destruct c; [|done]. exists (enter L).
    apply andb_true_iff in Hcl as [Hbe _]. cbn [closing app] in Hrest, Hne.
    assert (body s = consume_token s (blockEnd syntax) stateCode) as ->.
    { unfold loop_body. rewrite Hrest, Hst.
      destruct (blockEnd syntax ++ render syntax L) as [|c0 r0] eqn:Hr0.
      { destruct (blockEnd syntax); done. }
      rewrite <- Hr0, Hbe, HasPrefix_self_app. done. }
    apply (token_round s (MBlock [] true L)); try done.
    + rewrite enter_rest. unfold mode_rest.
      by cbn [mode_body mode_closing mode_layout closing app].
    + rewrite enter_tags. unfold mode_tags.
      cbn [mode_body mode_closing mode_layout closing app].
      by rewrite drop_replicate_app, Nat.sub_diag by done.
    + by apply plain_blockEnd.
    + by apply enter_ok.
    + by rewrite enter_state.
    + intros. apply enter_not_string.
  - apply (rune_round s (MBlock (c0 :: b) c L) c0 b); [done|done| | |].
    + unfold loop_body. cbn [app] in Hrest. rewrite Hrest, Hst.
      assert (negb (bool_decide (blockEnd syntax = []))
              && HasPrefix (c0 :: b ++ closing c (blockEnd syntax)
                              ++ render syntax L) (blockEnd syntax) = false)
        as ->; [|done].
      destruct (bool_decide_reflect (blockEnd syntax = [])) as [|Hbe]; [done|].
      cbn [negb andb]. destruct c.
      * apply andb_true_iff in Hcl as [_ Hno]. cbn [no_end] in Hno.
        apply andb_true_iff in Hno as [Hno _]. by apply negb_true_iff in Hno.
      * apply andb_true_iff in Hcl as [Hr Hno].
        apply bool_decide_eq_true in Hr. rewrite Hr.
        cbn [orb no_end] in Hno.
        apply andb_true_iff in Hno as [Hno _]. apply negb_true_iff in Hno.
        cbn [closing]. by rewrite !app_nil_r in *.
    + intros k _ _. cbn [with_body mode_ok]. rewrite Hwf, andb_true_r.
      destruct c.
      * apply andb_true_iff in Hcl as [-> Hno].
        by apply (no_end_drop _ _ _ (S k)) in Hno.
      * apply andb_true_iff in Hcl as [-> Hno]. cbn [andb].
        destruct (bool_decide (blockEnd syntax = [])); [done|].
        cbn [orb] in *. by apply (no_end_drop _ _ _ (S k)) in Hno.
    + intros cl L'. by left.
Qed.

Lemma string_round s q e b c L :
  at_ s (MString q e b c L) -> b ++ closing c [q] <> [] ->
  exists M', round s (body s) M'.
Proof.
  intros Hat Hne. pose proof Hat as (Hi & Hrest & _ & Hok & Hst & Hesc).
  specialize (Hesc _ _ _ _ _ eq_refl).
  cbn [mode_ok] in Hok.
  apply andb_true_iff in Hok as [[[Hq Hsr]%andb_true_iff He]%andb_true_iff Hwf].
  unfold mode_rest in Hrest. cbn [mode_body mode_closing mode_layout] in Hrest.
  cbn [mode_state] in Hst. unfold string_rem in Hsr.
  assert (Hquote : q = backtick \/ q = quote1 \/ q = quote2).
  { unfold opens_string in Hq. apply andb_true_iff in Hq as [_ Hq].
    apply orb_true_iff in Hq as [Hq | [Hq _]%andb_true_iff];
      [apply orb_true_iff in Hq as [Hq | Hq]|];
      apply bool_decide_eq_true in Hq; tauto. }
  assert (Hclose : b = [] -> e = false ->
            exists M', round s (consume1 s stateCode (ls_escaped s)) M').
  { intros -> ->. destruct c; [|done]. exists (enter L).
    cbn [closing app] in Hrest.
    apply (byte_round s (MString q false [] true L) _ q); try done.
    - by rewrite enter_rest.
    - by rewrite enter_tags.
    - by apply quote_ascii.
    - by apply enter_ok.
    - by rewrite enter_state.
    - intros ? ? ? ? ? HM. by destruct (enter_not_string _ _ _ _ _ _ HM). }
  assert (Hrune : forall c0 b0, b = c0 :: b0 -> body s = inspect s ->
            (forall k : nat, Forall (fun c => 0x80 <= bv c) (take k b0) ->
               string_rem c q false (drop k b0) = true) ->
            exists M', round s (body s) M').
  { intros c0 b0 -> Hbody Hdrop.
    apply (rune_round s (MString q e (c0 :: b0) c L) c0 b0); [done|done|done| |].
    - intros k _ Hh. cbn [with_body mode_ok].
      by rewrite Hq, (Hdrop k Hh), He, Hwf.
    - intros cl L'. by left. }
  destruct (bool_decide_reflect (q = backtick)) as [-> | Hnb].
  - (* a backtick string *)
    apply andb_true_iff in Hsr as [He0 Hb]. apply negb_true_iff in He0. subst e.
    change (string_state backtick) with stateBacktickString in Hst.
    destruct b as [|c0 b].
    + destruct (Hclose eq_refl eq_refl) as [M' HM']. exists M'.
      assert (body s = consume1 s stateCode (ls_escaped s)) as ->; [|done].
      destruct c; [|done]. cbn [closing app] in Hrest.
      unfold loop_body. rewrite Hrest, Hst. by rewrite bool_decide_eq_true_2.
    + cbn [forallb] in Hb. apply andb_true_iff in Hb as [Hc0 Hb].
      apply negb_true_iff, bool_decide_eq_false in Hc0.
      apply (Hrune c0 b eq_refl).
      * unfold loop_body. cbn [app] in Hrest. rewrite Hrest, Hst.
        by rewrite bool_decide_eq_false_2.
      * intros k _. unfold string_rem. cbn [negb andb].
        rewrite bool_decide_eq_true_2 by done. by apply forallb_drop.
  - (* a quoted string *)
    assert (Hbody : body s
              = match b ++ closing c [q] ++ render syntax L with
                | [] => s
                | c0 :: _ =>
                    if negb e then
                      if bool_decide (c0 = backslash)
                      then consume1 s (ls_state s) true
                      else if bool_decide (c0 = q)
                      then consume1 s stateCode (ls_escaped s)
                      else inspect s
                    else inspect s
                end).
    { unfold loop_body. rewrite Hrest, Hst, Hesc. unfold string_state.
      destruct Hquote as [? | [-> | ->]]; [done| |];
        by destruct (b ++ _ ++ _). }
    assert (Hsd : forall b0 k,
              Forall (fun c => 0x80 <= bv c) (take k b0) ->
              string_body c q b0 = true ->
              string_rem c q false (drop k b0) = true).
    { intros b0 k Hh Hsb. unfold string_rem.
      rewrite bool_decide_eq_false_2 by done. by apply string_body_drop. }
    assert (Hqb : q <> backslash) by (destruct Hquote as [-> | [-> | ->]]; done).
    destruct e.
    + (* after a backslash *)
      destruct b as [|c0 b].
      { apply negb_true_iff in Hsr. subst c. done. }
      apply (Hrune c0 b eq_refl); [by rewrite Hbody|].
      intros k Hh. by apply Hsd.
    + destruct b as [|c0 b].
      * destruct (Hclose eq_refl eq_refl) as [M' HM']. exists M'.
        rewrite Hbody. destruct c; [|done]. cbn [closing app negb].
        rewrite bool_decide_eq_false_2 by done.
        by rewrite bool_decide_eq_true_2.
      * cbn [string_body] in Hsr. cbn [app negb] in Hbody.
        destruct (bool_decide_reflect (c0 = backslash)) as [-> | Hnbs].
        -- exists (MString q true b c L). rewrite Hbody, Hst.
           apply (byte_round s (MString q false (backslash :: b) c L) _
                    backslash); try done.
           ++ cbn [mode_ok]. rewrite Hq, He, Hwf. unfold string_rem.
              rewrite bool_decide_eq_false_2 by done. by rewrite Hsr.
           ++ by intros ? ? ? ? ? [= _ <- _ _ _].
        -- apply andb_true_iff in Hsr as [Hc0 Hsb].
           apply negb_true_iff in Hc0.
           apply (Hrune c0 b eq_refl); [by rewrite Hbody, Hc0|].
           intros k Hh. by apply Hsd.
Qed.

Lemma round_exists s M :
  at_ s M -> mode_rest syntax M <> [] -> exists M', round s (body s) M'.
Proof.
  intros Hat Hne. pose proof Hat as (_ & _ & _ & Hok & _).
  destruct M as [b L | b c L | b c L | q e b c L].
  - destruct b as [|c b]; [|by eapply code_rune].
    destruct L as [|p L]; [done|]. by eapply code_open.
  - apply (line_round s b c L); [done|]. intros Hnil. apply Hne.
    unfold mode_rest. cbn [mode_body mode_closing mode_layout].
    cbn [mode_ok] in Hok.
    apply andb_true_iff in Hok as [[_ He]%andb_true_iff _].
    apply app_eq_nil in Hnil as [-> Hc]. destruct c; [done|].
    by apply bool_decide_eq_true in He as ->.
  - apply (block_round s b c L); [done|]. intros Hnil. apply Hne.
    unfold mode_rest. cbn [mode_body mode_closing mode_layout].
    cbn [mode_ok] in Hok. apply andb_true_iff in Hok as [Hcl _].
    apply app_eq_nil in Hnil as [-> Hc]. destruct c.
    + apply andb_true_iff in Hcl as [Hbe _].
      apply negb_true_iff, bool_decide_eq_false in Hbe. done.
    + apply andb_true_iff in Hcl as [Hr _].
      by apply bool_decide_eq_true in Hr as ->.
  - apply (string_round s q e b c L); [done|]. intros Hnil. apply Hne.
    unfold mode_rest. cbn [mode_body mode_closing mode_layout].
    cbn [mode_ok] in Hok.
    apply andb_true_iff in Hok as [[_ He]%andb_true_iff _].
    apply app_eq_nil in Hnil as [-> Hc]. destruct c; [done|].
    by apply bool_decide_eq_true in He as ->.
Qed.

(** *** The loop *)

Lemma scan_loop_layout fuel s M :
  at_ s M -> len text - ls_i s <= Z.of_nat fuel ->
  scan_loop E path text lines syntax opts fuel s
  = Some (ls_findings s ++ exp s).
Proof.
  revert s M. induction fuel as [|f IH]; intros s M Hat Hfuel;
    pose proof Hat as (Hi & Hrest & _);
    cbn [scan_loop]; destruct (ls_i s <? len text) eqn:Hlt; zb; try lia.
  1, 3: unfold round_exp, slice_from;
    rewrite drop_ge by (unfold len in *; lia); by rewrite app_nil_r.
  destruct (round_exists s M Hat) as (M' & Hat' & new & Hf & He).
  { rewrite <- Hrest. apply slice_from_nonempty. lia. }
  pose proof (loop_body_advances E path text lines syntax opts s ltac:(lia)).
  rewrite (IH _ M' Hat') by lia.
  by rewrite Hf, <- app_assoc, He.
Qed.
End Layout.

(** For a text with a well-formed layout, the scanner reports the
    offending runes of the text that stand in a context it inspects,
    each at its place and in text order. *)
Lemma scanContent_layout (E : Env) (path : gostring) (data : list byte)
    (syntax : syntaxRules) (opts : Options) (L : list piece) :
  plain_syntax syntax = true ->
  wf_layout syntax L = true -> render syntax L = data ->
  scanContent E path data syntax opts
  = map (finding_at E path (Split_nl data) opts)
      (filter (fun x => disallowed (AllowRunes opts) x
                        /\ inspected_at opts (contexts syntax L) (ra_offset x) = true)
              (text_runes data)).
Proof.
  intros Hplain Hwf Hr. unfold scanContent.
  rewrite (scan_loop_layout E path data (Split_nl data) syntax opts
             (contexts syntax L) Hplain (length data) loop_init (enter L)).
  - cbn [loop_init ls_findings app]. unfold round_exp, expected_where.
    cbn [loop_init ls_i ls_line ls_col]. change (slice_from data 0) with data.
    fold (text_runes data). cbn [default from_option]. unfold id. f_equal.
    apply list_filter_iff. intros x.
    rewrite andb_true_iff, offending_spec. done.
  - repeat split; try done.
    + by rewrite enter_rest.
    + by rewrite enter_tags.
    + by apply enter_ok.
    + by rewrite enter_state.
    + intros ? ? ? ? ? HM. by destruct (enter_not_string _ _ _ _ _ _ HM).
  - simpl. unfold len. lia.
Qed.

(** *** Every text has a layout *)

Lemma existsb_first_token (tokens : list gostring) (rest : gostring) :
  existsb (fun t => negb (bool_decide (t = [])) && HasPrefix rest t) tokens
    = true ->
  exists token,
    token <> [] /\ HasPrefix rest token = true
    /\ first_token tokens token rest = true.
Proof.
  induction tokens as [|t ts IH]; [done|]. cbn [existsb first_token].
  destruct (negb (bool_decide (t = [])) && HasPrefix rest t) eqn:Ht.
  - intros _. apply andb_true_iff in Ht as [Hne Hp].
    apply negb_true_iff, bool_decide_eq_false in Hne.
    exists t. split; [done|]. split; [done|].
    by rewrite bool_decide_eq_true_2.
  - cbn [orb]. intros (token & Hne & Hp & Hf)%IH. exists token.
    split; [done|]. split; [done|].
    destruct (bool_decide_reflect (t = token)); [done|].
    rewrite Hf, andb_true_r.
    destruct (bool_decide_reflect (t = [])); [done|].
    cbn [negb andb orb] in *. by rewrite Ht.
Qed.

Lemma code_mode_layout syntax body L :
  mode_ok syntax (MCode body L) = true ->
  wf_layout syntax (Code body :: L) = true.
Proof.
  cbn [mode_ok wf_layout wf_piece is_code andb].
  intros [[-> ->]%andb_true_iff ->]%andb_true_iff. done.
Qed.

Section Existence.
Context (syntax : syntaxRules).

Lemma string_mode_ok q e body closed L :
  mode_ok syntax (MString q e body closed L) = true
  <-> opens_string syntax q = true /\ string_rem closed q e body = true
      /\ ends_text closed (render syntax L) = true
      /\ wf_layout syntax L = true.
Proof. cbn [mode_ok]. rewrite !andb_true_iff. tauto. Qed.

(** From every state of the scanner, what is left of a text can be laid
    out. *)
Lemma modes_exist (n : nat) (rest : gostring) :
  (length rest <= n)%nat ->
  (exists body L,
     rest = mode_rest syntax (MCode body L)
     /\ mode_ok syntax (MCode body L) = true)
  /\ (exists body closed L,
        rest = mode_rest syntax (MLine body closed L)
        /\ mode_ok syntax (MLine body closed L) = true)
  /\ (exists body closed L,
        rest = mode_rest syntax (MBlock body closed L)
        /\ mode_ok syntax (MBlock body closed L) = true)
  /\ (forall q e,
        opens_string syntax q = true -> (q = backtick -> e = false) ->
        exists body closed L,
          rest = mode_rest syntax (MString q e body closed L)
          /\ mode_ok syntax (MString q e body closed L) = true).
Proof.
  revert rest. induction n as [|n IH]; intros rest Hlen.
  { destruct rest; [|simpl in Hlen; lia].
    split; [by exists [], []|]. split; [by exists [], false, []|].
    split.
    - exists [], false, []. split; [done|]. cbn [mode_ok no_end].
      by rewrite orb_true_r.
    - intros q e Hq He. exists [], false, []. split; [done|].
      apply string_mode_ok. repeat split; try done. unfold string_rem.
      destruct (bool_decide_reflect (q = backtick)) as [Hb|];
        [by rewrite (He Hb) | by destruct e]. }
  destruct rest as [|c t].
  { apply (IH []). simpl. lia. }
  assert (Hafter : forall k : nat,
            (1 <= k)%nat ->
            exists L, drop k (c :: t) = render syntax L
                      /\ wf_layout syntax L = true).
  { intros k Hk.
    destruct (IH (drop k (c :: t))) as [(body & L & Hr & Hok) _].
    { rewrite length_drop. simpl in *. lia. }
    exists (Code body :: L). split; [done | by apply code_mode_layout]. }
  simpl in Hlen.
  destruct (IH t ltac:(lia)) as (Hcode & Hline & Hblock & Hstring).
  split; [|split; [|split]].
  - (* code *)
    destruct (negb (bool_decide (blockStart syntax = []))
              && HasPrefix (c :: t) (blockStart syntax)) eqn:Hbs.
    { apply andb_true_iff in Hbs as [Hne Hp].
      destruct (IH (drop (length (blockStart syntax)) (c :: t)))
        as (_ & _ & (body & closed & L & Hr & Hok) & _).
      { rewrite length_drop. simpl.
        apply negb_true_iff, bool_decide_eq_false in Hne.
        destruct (blockStart syntax); [done | simpl; lia]. }
      exists [], (BlockComment body closed :: L). split.
      - unfold mode_rest in *.
        cbn [mode_body mode_closing mode_layout app] in *.
        rewrite render_cons. cbn [render_piece]. rewrite <- !app_assoc, <- Hr.
        by apply HasPrefix_app.
      - cbn [mode_ok] in Hok. apply andb_true_iff in Hok as [Hcl Hwf].
        cbn [mode_ok code_body starts_with_code is_code negb andb wf_layout
               wf_piece].
        by rewrite Hne, Hcl, Hwf. }
    destruct (existsb (fun t0 => negb (bool_decide (t0 = [])) && HasPrefix (c :: t) t0)
                (lineComments syntax)) eqn:Hlc.
    { apply existsb_first_token in Hlc as (token & Hne & Hp & Hf).
      destruct (IH (drop (length token) (c :: t)))
        as (_ & (body & closed & L & Hr & Hok) & _).
      { rewrite length_drop. simpl. destruct token; [done | simpl; lia]. }
      exists [], (LineComment token body closed :: L).
      assert (Hrest : c :: t = render_piece syntax (LineComment token body closed)
                               ++ render syntax L).
      { unfold mode_rest in Hr. cbn [mode_body mode_closing mode_layout] in Hr.
        cbn [render_piece]. rewrite <- !app_assoc, <- Hr.
        by apply HasPrefix_app. }
      split.
      - unfold mode_rest. cbn [mode_body mode_closing mode_layout app].
        by rewrite render_cons.
      - cbn [mode_ok] in Hok.
        apply andb_true_iff in Hok as [[Hb He]%andb_true_iff Hwf].
        cbn [mode_ok code_body starts_with_code is_code negb andb wf_layout
               wf_piece].
        rewrite <- Hrest, Hbs, Hf, Hb, He, Hwf.
        by rewrite bool_decide_eq_false_2 by done. }
    destruct (opens_string syntax c) eqn:Hos.
    { destruct (Hstring c false Hos ltac:(done))
        as (body & closed & L & Hr & Hok).
      exists [], (Quoted c body closed :: L).
      assert (Hrest : c :: t = render_piece syntax (Quoted c body closed)
                               ++ render syntax L).
      { unfold mode_rest in Hr. cbn [mode_body mode_closing mode_layout] in Hr.
        cbn [render_piece app]. by rewrite <- !app_assoc, <- Hr. }
      split.
      - unfold mode_rest. cbn [mode_body mode_closing mode_layout app].
        by rewrite render_cons.
      - apply string_mode_ok in Hok as (_ & Hsr & He & Hwf).
        cbn [mode_ok code_body starts_with_code is_code negb andb wf_layout
               wf_piece].
        rewrite <- Hrest. unfold comment_starts. rewrite Hbs, Hlc, Hos, He, Hwf.
        cbn [orb negb andb]. rewrite !andb_true_r.
        unfold string_rem in Hsr.
        by destruct (bool_decide (c = backtick)). }
    destruct Hcode as (body & L & Hr & Hok).
    exists (c :: body), L.
    unfold mode_rest in *. cbn [mode_body mode_closing mode_layout app] in *.
    split; [by rewrite Hr|].
    cbn [mode_ok] in Hok.
    apply andb_true_iff in Hok as [[Hcb Hsw]%andb_true_iff Hwf].
    cbn [mode_ok code_body app]. rewrite <- Hr. unfold comment_starts.
    by rewrite Hbs, Hlc, Hos, Hcb, Hsw, Hwf.
  - (* a line comment *)
    destruct (bool_decide_reflect (c = nl)) as [-> | Hnl].
    + destruct (Hafter 1%nat ltac:(lia)) as (L & Hr & Hwf).
      exists [], true, L. split.
      * unfold mode_rest. cbn [mode_body mode_closing mode_layout closing app].
        by rewrite <- Hr.
      * cbn [mode_ok forallb ends_text orb andb]. by rewrite Hwf.
    + destruct Hline as (body & closed & L & Hr & Hok).
      exists (c :: body), closed, L.
      unfold mode_rest in *. cbn [mode_body mode_closing mode_layout app] in *.
      split; [by rewrite Hr|].
      cbn [mode_ok] in Hok.
      apply andb_true_iff in Hok as [[Hb He]%andb_true_iff Hwf].
      cbn [mode_ok forallb]. rewrite bool_decide_eq_false_2 by done.
      by rewrite Hb, He, Hwf.
  - (* a block comment *)
    destruct (negb (bool_decide (blockEnd syntax = []))
              && HasPrefix (c :: t) (blockEnd syntax)) eqn:Hbe.
    + apply andb_true_iff in Hbe as [Hne Hp].
      destruct (Hafter (length (blockEnd syntax))) as (L & Hr & Hwf).
      { apply negb_true_iff, bool_decide_eq_false in Hne.
        destruct (blockEnd syntax); [done | simpl; lia]. }
      exists [], true, L. split.
      * unfold mode_rest. cbn [mode_body mode_closing mode_layout closing app].
        rewrite <- Hr. by apply HasPrefix_app.
      * cbn [mode_ok no_end]. by rewrite Hne, Hwf.
    + destruct Hblock as (body & closed & L & Hr & Hok).
      exists (c :: body), closed, L.
      unfold mode_rest in *. cbn [mode_body mode_closing mode_layout app] in *.
      split; [by rewrite Hr|].
      cbn [mode_ok] in Hok. apply andb_true_iff in Hok as [Hcl Hwf].
      cbn [mode_ok no_end]. rewrite Hwf, andb_true_r.
      destruct closed.
      * apply andb_true_iff in Hcl as [Hne Hno]. rewrite Hne, Hno.
        rewrite Hne in Hbe. cbn [andb closing app] in *. rewrite <- Hr.
        by rewrite Hbe.
      * apply andb_true_iff in Hcl as [HL Hno]. rewrite HL. cbn [andb].
        apply bool_decide_eq_true in HL. rewrite HL in Hr.
        cbn [closing app] in Hr. rewrite app_nil_r in Hr. subst t.
        destruct (bool_decide (blockEnd syntax = [])); [done|].
        cbn [negb andb orb] in *. by rewrite app_nil_r, Hbe, Hno.
  - (* a string *)
    intros q e Hq He.
    assert (Hcons : forall e0 e1 body closed L,
              t = mode_rest syntax (MString q e0 body closed L) ->
              c :: t = mode_rest syntax (MString q e1 (c :: body) closed L)).
    { intros e0 e1 body closed L Hr. unfold mode_rest in *.
      cbn [mode_body mode_closing mode_layout app] in *. by rewrite Hr. }
    assert (Hclose : c = q ->
              exists body closed L,
                c :: t = mode_rest syntax (MString q false body closed L)
                /\ mode_ok syntax (MString q false body closed L) = true).
    { intros ->. destruct (Hafter 1%nat ltac:(lia)) as (L & Hr & Hwf).
      exists [], true, L. split.
      - unfold mode_rest. cbn [mode_body mode_closing mode_layout closing app].
        by rewrite <- Hr.
      - apply string_mode_ok. repeat split; try done. unfold string_rem.
        by destruct (bool_decide (q = backtick)). }
    destruct (bool_decide_reflect (q = backtick)) as [-> | Hnb].
    + rewrite (He eq_refl).
      destruct (bool_decide_reflect (c = backtick)) as [Hc | Hc];
        [by apply Hclose|].
      destruct (Hstring backtick false Hq ltac:(done))
        as (body & closed & L & Hr & Hok).
      exists (c :: body), closed, L. split; [by eapply Hcons|].
      apply string_mode_ok in Hok as (_ & Hsr & Hend & Hwf).
      apply string_mode_ok. repeat split; try done.
      unfold string_rem in *. rewrite bool_decide_eq_true_2 in * by done.
      cbn [forallb negb andb] in *. by rewrite bool_decide_eq_false_2 by done.
    + assert (Hstr : forall e0,
                exists body closed L,
                  t = mode_rest syntax (MString q e0 body closed L)
                  /\ mode_ok syntax (MString q e0 body closed L) = true).
      { intros e0. by apply Hstring. }
      assert (Hkeep : forall e0 body closed L,
                mode_ok syntax (MString q e0 body closed L) = true ->
                (string_rem closed q e0 body = true ->
                 string_rem closed q e (c :: body) = true) ->
                mode_ok syntax (MString q e (c :: body) closed L) = true).
      { intros e0 body closed L Hok Hsr.
        apply string_mode_ok in Hok as (_ & Hsr0 & Hend & Hwf).
        apply string_mode_ok. repeat split; try done. by apply Hsr. }
      destruct e.
      * (* the byte after a backslash *)
        destruct (Hstr false) as (body & closed & L & Hr & Hok).
        exists (c :: body), closed, L. split; [by eapply Hcons|].
        apply (Hkeep false); [done|]. unfold string_rem.
        by rewrite bool_decide_eq_false_2 by done.
      * destruct (bool_decide_reflect (c = backslash)) as [-> | Hbs].
        -- destruct (Hstr true) as (body & closed & L & Hr & Hok).
           exists (backslash :: body), closed, L. split; [by eapply Hcons|].
           apply (Hkeep true); [done|]. unfold string_rem.
           by rewrite bool_decide_eq_false_2 by done.
        -- destruct (bool_decide_reflect (c = q)) as [Hcq | Hcq];
             [by apply Hclose|].
           destruct (Hstr false) as (body & closed & L & Hr & Hok).
           exists (c :: body), closed, L. split; [by eapply Hcons|].
           apply (Hkeep false); [done|]. unfold string_rem.
           rewrite bool_decide_eq_false_2 by done. cbn [string_body].
           rewrite !bool_decide_eq_false_2 by done. done.
Qed.
End Existence.

(** Every text has a well-formed layout, in every syntax profile. *)
Lemma layout_exists (syntax : syntaxRules) (text : gostring) :
  exists L, wf_layout syntax L = true /\ render syntax L = text.
Proof.
  destruct (modes_exist syntax (length text) text)
    as [(body & L & Hr & Hok) _]; [done|].
  exists (Code body :: L). split; [by apply code_mode_layout | done].
Qed.

Lemma finding_at_position E path lines opts x :
  Line (finding_at E path lines opts x) = ra_line x
  /\ Column (finding_at E path lines opts x) = ra_col x.
Proof. unfold finding_at. by destruct (ra_invalid x). Qed.

Lemma inspected_at_context syntax L opts off c :
  context_at syntax L off = Some c ->
  inspected_at opts (contexts syntax L) off = inspected opts c.
Proof. unfold context_at, inspected_at. by intros ->. Qed.

(** The findings under any setting of the two flags, for a text with a
    layout: those of the offending runes in the inspected contexts. *)
Lemma scanContent_flags (E : Env) (path : gostring) (data : list byte)
    (syntax : syntaxRules) (opts : Options) (L : list piece)
    (ignoreComments ignoreStrings : bool) :
  plain_syntax syntax = true ->
  wf_layout syntax L = true -> render syntax L = data ->
  scanContent E path data syntax (set_flags ignoreComments ignoreStrings opts)
  = map (finding_at E path (Split_nl data) opts)
      (filter (fun x => inspected_at (set_flags ignoreComments ignoreStrings opts)
                          (contexts syntax L) (ra_offset x) = true)
              (filter (disallowed (AllowRunes opts)) (text_runes data))).
Proof.
  intros Hplain Hwf Hr.
  rewrite (scanContent_layout E path data syntax _ L Hplain Hwf Hr).
  trans (map (finding_at E path (Split_nl data) opts)
           (filter (fun x => disallowed (AllowRunes opts) x
                             /\ inspected_at (set_flags ignoreComments ignoreStrings opts)
                                  (contexts syntax L) (ra_offset x) = true)
                   (text_runes data))); [done|].
  f_equal. rewrite list_filter_filter. apply list_filter_iff. intros x. tauto.
Qed.

(** ** Invalid bytes *)

Lemma runes_at_ascii_positions pre s off line col :
  Forall (fun c => bv c < 0x80) s ->
  off = len pre -> line = 1 + count_nl pre ->
  col = 1 + len (until_nl (reverse pre)) ->
  Forall (byte_position_ok (pre ++ s)) (runes_at s off line col).
Proof.
  intros Hs. revert pre off line col.
  induction Hs as [|c t Hc _ IH]; intros pre off line col Hoff Hline Hcol;
    [constructor|].
  rewrite runes_at_ascii by done. constructor.
  - exists c. cbn [ra_offset ra_rune ra_size ra_line ra_col]. subst off.
    assert (slice_to (pre ++ c :: t) (len pre) = pre) as ->.
    { unfold slice_to, len. rewrite Nat2Z.id. apply take_app_length. }
    unfold len at 1. rewrite Nat2Z.id, list_lookup_middle by done. done.
  - rewrite (cons_middle c pre t), app_assoc.
    apply IH.
    + rewrite len_app. subst. unfold len at 3. simpl. lia.
    + rewrite count_nl_app, count_nl_cons. change (count_nl []) with 0.
      case_bool_decide as Hnl.
      * subst c. simpl. lia.
      * destruct (bv c =? 10) eqn:Heq; zb; [|lia].
        exfalso. apply Hnl. by apply bv_inj.
    + rewrite reverse_app. simpl.
      case_bool_decide as Hnl.
      * subst c. done.
      * destruct (bv c =? 10) eqn:Heq; zb.
        -- exfalso. apply Hnl. by apply bv_inj.
        -- rewrite len_cons. lia.
Qed.

Lemma Forall_sublist {A} (P : A -> Prop) (l k : list A) :
  sublist l k -> Forall P k -> Forall P l.
Proof.
  rewrite !Forall_forall. intros Hsub Hk x Hx. apply Hk.
  by eapply elem_of_sublist.
Qed.

Lemma expected_category E path lines opts s off line col :
  Forall (fun c => bv c < 0x80) s ->
  Forall (fun f => Category f <> str "Invalid UTF-8")
         (expected E path lines opts s off line col).
Proof.
  intros Hs. unfold expected. apply Forall_fmap.
  eapply Forall_sublist; [apply sublist_filter|].
  revert off line col. induction Hs as [|c t Hc _ IH]; intros off line col;
    [constructor|].
  rewrite runes_at_ascii by done. constructor; [|apply IH].
  simpl. unfold finding_at, ra_invalid. simpl.
  pose proof (bv_range c).
  destruct (bv c =? RuneError) eqn:Heq; zb; [unfold RuneError in *; lia|].
  simpl. apply categoryForRune_not_invalid.
Qed.

Lemma scan_loop_step E path text lines syntax opts fuel s :
  ls_i s < len text ->
  scan_loop E path text lines syntax opts (S fuel) s
  = scan_loop E path text lines syntax opts fuel
      (loop_body E path text lines syntax opts s).
Proof. intros H. cbn [scan_loop]. apply Z.ltb_lt in H. by rewrite H. Qed.

Lemma encode_rune_ascii c : bv c < 0x80 -> encode_rune (bv c) = [c].
Proof.
  intros Hc. pose proof (bv_range c). unfold encode_rune, is_surrogate.
  destruct (bv c <? 0) eqn:?; zb; [lia|].
  destruct (1114111 <? bv c) eqn:?; zb; [lia|].
  destruct (55296 <=? bv c) eqn:?; zb; [lia|]. cbn [orb andb].
  destruct (bv c <=? 127) eqn:?; zb; [|lia].
  by rewrite (byte_of_bv _ c).
Qed.

(** The findings for the offending bytes of an ASCII stretch stand
    where the bytes stand. *)
Lemma expected_ascii_positions E path lines opts pre s off line col :
  Forall (fun c => bv c < 0x80) s ->
  off = len pre -> line = 1 + count_nl pre ->
  col = 1 + len (until_nl (reverse pre)) ->
  Forall (fun f =>
            exists k c,
              len pre <= k
              /\ (pre ++ s) !! Z.to_nat k = Some c
              /\ Character f = [c]
              /\ Line f = 1 + count_nl (slice_to (pre ++ s) k)
              /\ Column f = 1 + len (until_nl (reverse (slice_to (pre ++ s) k))))
         (expected E path lines opts s off line col).
Proof.
  intros Hs Hoff Hline Hcol. unfold expected. apply Forall_fmap.
  eapply Forall_sublist; [apply sublist_filter|].
  pose proof (runes_at_ascii_positions pre s off line col Hs Hoff Hline Hcol)
    as Hpos.
  pose proof (text_runes_from_positions (length s) pre s off line col Hoff Hline)
    as Hoffs.
  fold (runes_at s off line col) in Hoffs.
  rewrite Forall_forall in *. intros x Hx.
  destruct (Hpos x Hx) as (c & Hc & Hr & Hsz & Hl & Hcl).
  destruct (Hoffs x Hx) as (Hlo & _).
  assert (Hasc : bv c < 0x80).
  { rewrite lookup_app_r in Hc by (unfold len in Hlo; lia).
    apply list_elem_of_lookup_2 in Hc.
    rewrite Forall_forall in Hs. by apply Hs. }
  exists (ra_offset x), c. unfold finding_at, ra_invalid. rewrite Hr, Hsz.
  pose proof (bv_range c).
  destruct (bv c =? RuneError) eqn:?; zb; [unfold RuneError in *; lia|].
  cbn [andb rune_finding Character Line Column].
  rewrite encode_rune_ascii by done. repeat split; try done. lia.
Qed.

(** C4.  A byte that is not part of a valid UTF-8 encoding, when the
    loop reaches it, makes the scanner write exactly one finding, and only
    if the state is inspected: category "Invalid UTF-8", character "?",
    code point "invalid-utf8", at the line and column of the byte; the
    index then moves by exactly one byte and the column by one.  In
    particular, for a text that is one invalid byte followed by ASCII
    bytes, the result is that one finding followed by findings for ASCII
    characters only, none of them "Invalid UTF-8"; these are (a selection
    of, and with nothing ignored all of) the offending characters of the
    ASCII text, and each of them carries the byte it reports and stands
    at the line and column that byte has in the whole text: the line is
    one more than the number of newlines before it, the column one more
    than the number of bytes since the last newline. *)
Theorem invalid_byte_resync (E : Env) (p path : gostring) (opts : Options) :
  (forall text s c rest,
     slice_from text (ls_i s) = c :: rest ->
     DecodeRuneInString (c :: rest) = (RuneError, 1) ->
     loop_body E path text (Split_nl text) (syntaxForPath E p) opts s
     = {| ls_i := ls_i s + 1; ls_line := ls_line s; ls_col := ls_col s + 1;
          ls_state := ls_state s; ls_escaped := false;
          ls_findings :=
            ls_findings s ++
            (if shouldInspect (ls_state s) opts
             then [{| Path := path; Line := ls_line s; Column := ls_col s;
                      Character := str "?";
                      CodePoint := str "invalid-utf8";
                      Category := str "Invalid UTF-8";
                      FSeverity := OSeverity opts;
                      Message := str "Detected invalid UTF-8 byte sequence";
                      Excerpt := lineExcerpt (Split_nl text) (ls_line s) |}]
             else []) |})
  /\ (forall b rest,
        0x80 <= bv b -> Forall (fun c => bv c < 0x80) rest ->
        let text := b :: rest in
        let after := expected E path (Split_nl text) opts rest 1 1 2 in
        exists others,
          scanContent E path text (syntaxForPath E p) opts
            = {| Path := path; Line := 1; Column := 1;
                 Character := str "?";
                 CodePoint := str "invalid-utf8";
                 Category := str "Invalid UTF-8";
                 FSeverity := OSeverity opts;
                 Message := str "Detected invalid UTF-8 byte sequence";
                 Excerpt := lineExcerpt (Split_nl text) 1 |} :: others
          /\ Forall (fun f => Category f <> str "Invalid UTF-8") others
          /\ sublist others after
          /\ (IgnoreComments opts = false -> IgnoreStrings opts = false ->
              others = after)
          /\ Forall (byte_position_ok text) (runes_at rest 1 1 2)
          /\ Forall (fun f =>
                       exists k c,
                         1 <= k /\ text !! Z.to_nat k = Some c
                         /\ Character f = [c]
                         /\ Line f = 1 + count_nl (slice_to text k)
                         /\ Column f
                            = 1 + len (until_nl (reverse (slice_to text k))))
                    others).
Proof.
  pose proof (syntaxForPath_plain E p) as Hplain. split.
  - intros text s c rest Hrest Hd.
    assert (0x80 <= bv c) as Hc.
    { apply Decode_spec in Hd as (_ & _ & [(? & ? & _) | (? & _)]);
        [|done]. pose proof (bv_range c). unfold RuneError in *. lia. }
    rewrite (loop_body_non_ascii _ _ _ _ _ _ _ _ _ Hplain Hrest Hc).
    unfold inspect_rune. rewrite Hrest, Hd. cbn [andb Z.eqb Pos.eqb RuneError].
    destruct (shouldInspect _ _); by rewrite ?app_nil_r.
  - intros b rest Hb Hrest text after.
    assert (Hd : DecodeRuneInString text = (RuneError, 1)).
    { apply Decode_lone_byte; [done|]. destruct Hrest; done. }
    set (s1 := {| ls_i := 1; ls_line := 1; ls_col := 2; ls_state := stateCode;
                  ls_escaped := false;
                  ls_findings := [invalid_finding path (Split_nl text) opts 1 1] |}).
    assert (Hstep : loop_body E path text (Split_nl text) (syntaxForPath E p)
                      opts loop_init = s1).
    { rewrite (loop_body_non_ascii _ _ _ _ _ _ _ b rest Hplain); [|done|done].
      unfold inspect_rune. cbn [loop_init ls_i ls_state ls_line ls_col ls_findings].
      change (slice_from text 0) with text. rewrite Hd. done. }
    destruct (scan_loop_plain E path text (Split_nl text) (syntaxForPath E p)
                opts Hplain (length rest) s1)
      as (others & Hl & Hsub & Heq).
    { simpl. lia. }
    { subst text. rewrite len_cons. unfold len. simpl. lia. }
    assert (Hahead : ahead E path text (Split_nl text) opts s1 = after) by done.
    rewrite Hahead in Hsub, Heq.
    assert (Hnl : count_nl [b] = 0) by (rewrite count_nl_high; [done|by constructor]).
    assert (Hcol : until_nl (reverse [b]) = [b]).
    { simpl. case_bool_decide as Hnlb; [|done].
      subst b. vm_compute in Hb. done. }
    exists others. split; [|split; [|split; [|split; [|split]]]].
    + unfold scanContent. change (length text) with (S (length rest)).
      rewrite scan_loop_step, Hstep, Hl; [done|].
      subst text. rewrite len_cons. pose proof (len_nonneg rest).
      simpl. lia.
    + eapply Forall_sublist; [apply Hsub|]. by apply expected_category.
    + done.
    + intros Hc Hs. by apply Heq.
    + apply (runes_at_ascii_positions [b] rest 1 1 2); [done|done| |].
      * by rewrite Hnl.
      * by rewrite Hcol.
    + eapply Forall_sublist; [apply Hsub|].
      apply (expected_ascii_positions E path (Split_nl text) opts [b] rest 1 1 2);
        [done|done| |].
      * by rewrite Hnl.
      * by rewrite Hcol.
Qed.

Lemma invalid_byte_resync_witness :
  let text := byte_of_Z 255 :: str "a" ++ [nl; x01] in
  let after := expected Sample.env (str "a.go") (Split_nl text) Sample.options
                 (str "a" ++ [nl; x01]) 1 1 2 in
  exists others,
    scanContent Sample.env (str "a.go") text
        (syntaxForPath Sample.env (str "a.go")) Sample.options
      = {| Path := str "a.go"; Line := 1; Column := 1;
           Character := str "?";
           CodePoint := str "invalid-utf8";
           Category := str "Invalid UTF-8";
           FSeverity := OSeverity Sample.options;
           Message := str "Detected invalid UTF-8 byte sequence";
           Excerpt := lineExcerpt (Split_nl text) 1 |} :: others
    /\ Forall (fun f => Category f <> str "Invalid UTF-8") others
    /\ sublist others after
    /\ (IgnoreComments Sample.options = false ->
        IgnoreStrings Sample.options = false -> others = after)
    /\ Forall (byte_position_ok text) (runes_at (str "a" ++ [nl; x01]) 1 1 2)
    /\ Forall (fun f =>
                 exists k c,
                   1 <= k /\ text !! Z.to_nat k = Some c
                   /\ Character f = [c]
                   /\ Line f = 1 + count_nl (slice_to text k)
                   /\ Column f
                      = 1 + len (until_nl (reverse (slice_to text k))))
              others.
Proof.
  apply (proj2 (invalid_byte_resync Sample.env (str "a.go") (str "a.go")
                  Sample.options) (byte_of_Z 255) (str "a" ++ [nl; x01])).
  - vm_compute. discriminate.
  - repeat constructor.
Defined.

(** ** The allow list *)

Lemma filter_ext_Forall {A} (P Q R : A -> Prop)
    `{!forall x, Decision (P x)} `{!forall x, Decision (Q x)} (l : list A) :
  Forall R l -> (forall x, R x -> (P x <-> Q x)) -> filter P l = filter Q l.
Proof.
  intros Hl Hext. induction Hl as [|x l Hx _ IH]; [done|].
  rewrite !filter_cons, IH.
  destruct (decide (P x)) as [HP | HP], (decide (Q x)) as [HQ | HQ];
    try done; exfalso; apply Hext in Hx; tauto.
Qed.

Lemma filter_none {A} (P : A -> Prop) `{!forall x, Decision (P x)} (l : list A) :
  Forall (fun x => ~ P x) l -> filter P l = [].
Proof.
  induction 1 as [|x l Hx _ IH]; [done|]. by rewrite filter_cons_False.
Qed.

Lemma isAllowedRune_difference r c allow :
  isAllowedRune r (allow ∖ {[c]})
  = isAllowedRune r ∅ || (isAllowedRune r allow && negb (r =? c)).
Proof.
  unfold isAllowedRune.
  destruct (_ || _); [done|]. destruct (_ && _); [done|].
  rewrite (bool_decide_eq_false_2 (r ∈ (∅ : gset Z))) by set_solver.
  simpl. destruct (r =? c) eqn:Heq; zb.
  - subst. rewrite andb_false_r. apply bool_decide_eq_false_2. set_solver.
  - rewrite andb_true_r. apply bool_decide_ext. set_solver.
Qed.

(** C7 (amended).  When every rune of the text is valid and either in
    the permitted set (ASCII 0x20-0x7E, tab, CR, LF) or in the allow
    list, scanning yields no finding.  Removing a code point [c] from the
    allow list then brings back findings at occurrences of [c] and
    nothing else, each at the line and column of its occurrence and with
    the character and the code point of [c]: one for every occurrence
    when neither comments nor strings are ignored, and in general one
    for every occurrence that stands in an inspected context of the
    text, whatever well-formed layout the text is given (it has one).
    (Removing a
    code point that the permitted set already contains brings nothing
    back.) *)
Theorem allow_list_subtraction (E : Env) (p path : gostring)
    (data : list byte) (opts : Options) :
  Forall (fun x => ra_invalid x = false
                   /\ (permitted (ra_rune x) \/ ra_rune x ∈ AllowRunes opts))
         (text_runes data) ->
  scanContent E path data (syntaxForPath E p) opts = []
  /\ (exists L, wf_layout (syntaxForPath E p) L = true
                /\ render (syntaxForPath E p) L = data)
  /\ forall c : Z,
       let opts' := set_allow (AllowRunes opts ∖ {[c]}) opts in
       let occurrences :=
         filter (fun x => ra_rune x = c /\ ~ permitted c) (text_runes data) in
       let finding := finding_at E path (Split_nl data) opts' in
       sublist (scanContent E path data (syntaxForPath E p) opts')
               (map finding occurrences)
       /\ (IgnoreComments opts = false -> IgnoreStrings opts = false ->
           scanContent E path data (syntaxForPath E p) opts'
           = map finding occurrences)
       /\ (forall L,
             wf_layout (syntaxForPath E p) L = true ->
             render (syntaxForPath E p) L = data ->
             scanContent E path data (syntaxForPath E p) opts'
             = map finding
                 (filter (fun x => inspected_at opts
                                     (contexts (syntaxForPath E p) L)
                                     (ra_offset x) = true)
                         occurrences))
       /\ Forall (fun x =>
                    Line (finding x) = ra_line x
                    /\ Column (finding x) = ra_col x
                    /\ Character (finding x) = encode_rune c
                    /\ CodePoint (finding x) = format_codepoint c)
                 occurrences.
Proof.
  intros Hclean. pose proof (syntaxForPath_plain E p) as Hplain.
  assert (Hoff : Forall (fun x => offending (AllowRunes opts) x = false)
                        (text_runes data)).
  { eapply Forall_impl; [apply Hclean|]. intros x [Hinv Hal].
    apply not_true_iff_false. rewrite offending_spec. unfold disallowed.
    rewrite Hinv. intros [? | ?]; [done | tauto]. }
  split; [|split].
  - destruct (scanContent_vs_text E path data _ opts Hplain) as [Hsub _].
    unfold findings_of_text, expected in Hsub. fold (text_runes data) in Hsub.
    rewrite filter_none in Hsub; [by apply sublist_nil_r in Hsub|].
    eapply Forall_impl; [apply Hoff|]. intros x Hx. by rewrite Hx.
  - apply layout_exists.
  - intros c opts' occurrences finding.
    assert (Hocc : filter (disallowed (AllowRunes opts')) (text_runes data)
                   = occurrences).
    { apply (filter_ext_Forall _ _ _ _ Hclean). intros x [Hinv Hal].
      unfold disallowed. cbn [AllowRunes opts' set_allow]. rewrite Hinv.
      split.
      - intros [? | Hn]; [done|].
        destruct (decide (ra_rune x = c)) as [<- | Hne]; [tauto|].
        exfalso. apply Hn. destruct Hal; [tauto|]. right. set_solver.
      - intros [<- Hnp]. right. intros [? | ?]; [done | set_solver]. }
    destruct (scanContent_vs_text E path data _ opts' Hplain) as [Hsub Heq].
    assert (Hall : findings_of_text E path data opts' = map finding occurrences).
    { unfold findings_of_text, expected. fold (text_runes data).
      rewrite <- Hocc. unfold finding. f_equal.
      apply list_filter_iff. intros x. apply offending_spec. }
    rewrite Hall in Hsub, Heq.
    split; [done|]. split; [apply Heq|]. split.
    + intros L Hwf Hr.
      rewrite (scanContent_layout E path data _ opts' L Hplain Hwf Hr).
      fold finding. f_equal. rewrite <- Hocc, list_filter_filter.
      apply list_filter_iff. intros x. cbn [opts' IgnoreComments]. tauto.
    + unfold occurrences. apply Forall_forall. intros x Hx.
      apply list_elem_of_filter in Hx as [[Hr _] Hin].
      rewrite Forall_forall in Hclean. destruct (Hclean x Hin) as [Hinv _].
      unfold finding, finding_at. rewrite Hinv, Hr. done.
Qed.

Lemma allow_list_subtraction_witness :
  scanContent Sample.env (str "a.go") Sample.allowed_text
    (syntaxForPath Sample.env (str "a.go")) Sample.allowed_opts = []
  /\ (exists L, wf_layout (syntaxForPath Sample.env (str "a.go")) L = true
                /\ render (syntaxForPath Sample.env (str "a.go")) L
                   = Sample.allowed_text)
  /\ forall c : Z,
       let opts' := set_allow (AllowRunes Sample.allowed_opts ∖ {[c]})
                      Sample.allowed_opts in
       let occurrences :=
         filter (fun x => ra_rune x = c /\ ~ permitted c)
                (text_runes Sample.allowed_text) in
       let finding :=
         finding_at Sample.env (str "a.go") (Split_nl Sample.allowed_text) opts' in
       sublist (scanContent Sample.env (str "a.go") Sample.allowed_text
                  (syntaxForPath Sample.env (str "a.go")) opts')
               (map finding occurrences)
       /\ (IgnoreComments Sample.allowed_opts = false ->
           IgnoreStrings Sample.allowed_opts = false ->
           scanContent Sample.env (str "a.go") Sample.allowed_text
             (syntaxForPath Sample.env (str "a.go")) opts'
           = map finding occurrences)
       /\ (forall L,
             wf_layout (syntaxForPath Sample.env (str "a.go")) L = true ->
             render (syntaxForPath Sample.env (str "a.go")) L
               = Sample.allowed_text ->
             scanContent Sample.env (str "a.go") Sample.allowed_text
               (syntaxForPath Sample.env (str "a.go")) opts'
             = map finding
                 (filter (fun x => inspected_at Sample.allowed_opts
                                     (contexts (syntaxForPath Sample.env (str "a.go")) L)
                                     (ra_offset x) = true)
                         occurrences))
       /\ Forall (fun x =>
                    Line (finding x) = ra_line x
                    /\ Column (finding x) = ra_col x
                    /\ Character (finding x) = encode_rune c
                    /\ CodePoint (finding x) = format_codepoint c)
                 occurrences.
Proof.
  apply (allow_list_subtraction Sample.env (str "a.go") (str "a.go")
           Sample.allowed_text Sample.allowed_opts).
  apply (bool_decide_unpack _). vm_compute. exact I.
Defined.

(** C7 as stated fails when comments or strings are ignored: the arrow
    occurs twice in the sample line, in a string and in a comment; with
    both ignored, taking it off the allow list brings back no finding. *)
Lemma allow_list_ignored_occurrences :
  let opts := set_flags true true Sample.allowed_opts in
  let opts' := set_allow (AllowRunes opts ∖ {[0x2192]}) opts in
  Forall (fun x => ra_invalid x = false
                   /\ (permitted (ra_rune x) \/ ra_rune x ∈ AllowRunes opts))
         (text_runes Sample.allowed_text)
  /\ ~ permitted 0x2192
  /\ length (filter (fun x => ra_rune x = 0x2192) (text_runes Sample.allowed_text))
     = 2%nat
  /\ scanContent Sample.env (str "a.go") Sample.allowed_text
       (syntaxForPath Sample.env (str "a.go")) opts' = [].
Proof.
  split; [apply (bool_decide_unpack _); vm_compute; exact I|].
  split; [unfold permitted; lia|].
  split; vm_compute; reflexivity.
Qed.

(** ** Excerpts *)

Lemma Split_nl_head s : exists ls, Split_nl s = until_nl s :: ls.
Proof.
  induction s as [|b t [ls IH]]; simpl; [by eexists|].
  case_bool_decide; [by eexists|]. rewrite IH. by eexists.
Qed.

Lemma until_nl_app_in x y : nl ∈ x -> until_nl (x ++ y) = until_nl x.
Proof.
  induction x as [|b x IH]; intros Hin; [by apply elem_of_nil in Hin|].
  simpl. case_bool_decide as Hb; [done|].
  apply elem_of_cons in Hin as [?|Hin]; [by subst|]. by rewrite IH.
Qed.

Lemma until_nl_app_notin x y : nl ∉ x -> until_nl (x ++ y) = x ++ until_nl y.
Proof.
  induction x as [|b x IH]; intros Hin; [done|].
  simpl. apply not_elem_of_cons in Hin as [Hb Hin].
  rewrite bool_decide_eq_false_2 by done. by rewrite IH.
Qed.

Lemma filter_nl_nil s : filter (fun b => b = nl) s = [] -> nl ∉ s.
Proof.
  induction s as [|b s IH]; [intros _; apply not_elem_of_nil|].
  rewrite filter_cons. destruct (decide (b = nl)); [done|].
  intros H. apply not_elem_of_cons. split; [done | by apply IH].
Qed.

Lemma filter_nl_cons s x l : filter (fun b => b = nl) s = x :: l -> nl ∈ s.
Proof.
  intros H. assert (x ∈ filter (fun b => b = nl) s) as Hx by (rewrite H; left).
  apply list_elem_of_filter in Hx as [-> ?]. done.
Qed.

Lemma Split_nl_lookup_line (text : gostring) (k : nat) :
  (k <= length text)%nat ->
  Split_nl text !! length (filter (fun b => b = nl) (take k text))
  = Some (reverse (until_nl (reverse (take k text))) ++ until_nl (drop k text)).
Proof.
  revert k. induction text as [|b t IH]; intros k Hk.
  - simpl in Hk. by replace k with 0%nat by lia.
  - destruct k as [|k].
    + destruct (Split_nl_head (b :: t)) as [ls ->]. done.
    + simpl in Hk. specialize (IH k ltac:(lia)).
      cbn [take drop]. rewrite filter_cons, reverse_cons.
      destruct (decide (b = nl)) as [-> | Hb].
      * cbn [length Split_nl]. rewrite bool_decide_eq_true_2 by done.
        change (([] :: Split_nl t) !! S ?n) with (Split_nl t !! n).
        rewrite IH. f_equal. f_equal. f_equal.
        destruct (decide (nl ∈ reverse (take k t))) as [Hin | Hnin].
        -- by rewrite until_nl_app_in.
        -- rewrite until_nl_app_notin by done. simpl.
           pose proof (until_nl_app_notin _ [] Hnin) as Hu.
           rewrite !app_nil_r in Hu. by rewrite Hu, app_nil_r.
      * cbn [Split_nl]. rewrite bool_decide_eq_false_2 by done.
        destruct (Split_nl_head t) as [ls Hls]. rewrite Hls in IH |- *.
        destruct (filter (fun b0 => b0 = nl) (take k t)) as [|x l] eqn:Hf.
        -- apply filter_nl_nil in Hf. cbn [length] in IH |- *.
           change ((?x :: ?l) !! 0%nat) with (Some x) in IH |- *.
           injection IH as IH. f_equal.
           assert (nl ∉ reverse (take k t)) as Hr by (by rewrite elem_of_reverse).
           rewrite until_nl_app_notin by done.
           pose proof (until_nl_app_notin _ [] Hr) as Hu.
           rewrite !app_nil_r in Hu. rewrite Hu in IH.
           simpl. rewrite bool_decide_eq_false_2 by done.
           rewrite reverse_app, reverse_involutive. simpl.
           rewrite reverse_involutive in IH. by rewrite IH.
        -- apply filter_nl_cons in Hf. cbn [length] in IH |- *.
           change ((?x :: ?l) !! S ?n) with (l !! n) in IH |- *.
           rewrite IH. f_equal. f_equal. f_equal.
           rewrite until_nl_app_in; [done|]. by rewrite elem_of_reverse.
Qed.

Lemma TrimRight_cr_spec s :
  exists n, s = TrimRight_cr s ++ replicate n cr
            /\ last (TrimRight_cr s) <> Some cr.
Proof.
  induction s as [|b t (n & Ht & Hlast)]; [by exists 0%nat|].
  cbn [TrimRight_cr]. destruct (TrimRight_cr t) as [|x T] eqn:HT.
  - case_bool_decide as Hb.
    + exists (S n). subst b. simpl in *. by rewrite <- Ht.
    + exists n. simpl in *. split; [by rewrite <- Ht | congruence].
  - exists n. split; [simpl; f_equal; exact Ht | done].
Qed.

Lemma lineExcerpt_at (text : gostring) (off : Z) :
  0 <= off <= len text ->
  lineExcerpt (Split_nl text) (1 + count_nl (slice_to text off))
  = let l := TrimRight_cr (line_around text off) in
    if 160 <? len l then slice_to l 160 ++ str "..." else l.
Proof.
  intros Hoff. unfold lineExcerpt.
  pose proof (Split_nl_lookup_line text (Z.to_nat off)
                ltac:(unfold len in Hoff; lia)) as Hl.
  pose proof (count_nl_nonneg (slice_to text off)) as Hn.
  assert (Z.to_nat (1 + count_nl (slice_to text off) - 1)
          = length (filter (fun b => b = nl) (take (Z.to_nat off) text))) as ->.
  { unfold count_nl, slice_to, len. lia. }
  rewrite Hl. apply lookup_lt_Some in Hl.
  destruct (_ <? 1) eqn:H1; zb; [lia|].
  destruct (len (Split_nl text) <? _) eqn:H2; zb.
  { unfold count_nl, slice_to, len in *. lia. }
  done.
Qed.

Lemma finding_at_line_excerpt E path lines opts x :
  Line (finding_at E path lines opts x) = ra_line x
  /\ Excerpt (finding_at E path lines opts x) = lineExcerpt lines (ra_line x).
Proof. unfold finding_at. by destruct (ra_invalid x). Qed.

(** C2 (amended).  Every finding of a scanned file stands on a line of
    the text: its line number is one more than the number of newlines
    before the offending byte.  Its excerpt is that line, from after the
    previous newline up to the next, with every trailing carriage return
    removed, when this is at most 160 bytes long; otherwise it is the
    first 160 bytes followed by "...", 163 bytes in all.  The limit
    counts bytes, not characters. *)
Theorem excerpt_of_finding (E : Env) (p path : gostring) (data : list byte)
    (opts : Options) (f : Finding) :
  f ∈ scanContent E path data (syntaxForPath E p) opts ->
  exists (off : Z) (line_text : gostring) (n : nat),
    0 <= off < len data
    /\ Line f = 1 + count_nl (slice_to data off)
    /\ line_around data off = line_text ++ replicate n cr
    /\ last line_text <> Some cr
    /\ Excerpt f = (if 160 <? len line_text
                    then slice_to line_text 160 ++ str "..."
                    else line_text)
    /\ len (Excerpt f) <= 163.
Proof.
  intros Hf.
  destruct (scanContent_vs_text E path data _ opts (syntaxForPath_plain E p))
    as [Hsub _].
  apply (elem_of_sublist _ _ _ Hf) in Hsub.
  unfold findings_of_text, expected in Hsub.
  apply list_elem_of_fmap in Hsub as (x & -> & Hx).
  apply list_elem_of_filter in Hx as [_ Hx].
  pose proof (text_runes_positions data) as Hpos.
  rewrite Forall_forall in Hpos. destruct (Hpos x Hx) as (Hoff & Hline & _).
  destruct (finding_at_line_excerpt E path (Split_nl data) opts x) as [-> ->].
  destruct (TrimRight_cr_spec (line_around data (ra_offset x)))
    as (n & Hn & Hlast).
  exists (ra_offset x), (TrimRight_cr (line_around data (ra_offset x))), n.
  rewrite Hline, lineExcerpt_at by lia. cbv zeta.
  repeat split; try done; try lia.
  destruct (160 <? _) eqn:Hlong; zb; [|lia].
  rewrite len_app. change (len (str "...")) with 3.
  unfold slice_to, len in *. rewrite length_take. lia.
Qed.

Lemma excerpt_of_finding_witness :
  exists (off : Z) (line_text : gostring) (n : nat),
    0 <= off < len Sample.greeting
    /\ Line Sample.greeting_first = 1 + count_nl (slice_to Sample.greeting off)
    /\ line_around Sample.greeting off = line_text ++ replicate n cr
    /\ last line_text <> Some cr
    /\ Excerpt Sample.greeting_first
       = (if 160 <? len line_text
          then slice_to line_text 160 ++ str "..."
          else line_text)
    /\ len (Excerpt Sample.greeting_first) <= 163.
Proof.
  apply (excerpt_of_finding Sample.env (str "sample.go") (str "sample.go")
           Sample.greeting Sample.options Sample.greeting_first).
  apply (bool_decide_unpack _). vm_compute. exact I.
Defined.

(** C2 as stated fails: the excerpt of a finding on a line of more than
    160 bytes is 163 bytes long. *)
Lemma excerpt_longer_than_160 :
  map (fun f => len (Excerpt f))
      (scanContent Sample.env (str "a.go") Sample.long_line
         (syntaxForPath Sample.env (str "a.go")) Sample.options) = [163]
  /\ ~ Forall (fun f => len (Excerpt f) <= 160)
         (scanContent Sample.env (str "a.go") Sample.long_line
            (syntaxForPath Sample.env (str "a.go")) Sample.options).
Proof.
  remember (scanContent Sample.env (str "a.go") Sample.long_line
              (syntaxForPath Sample.env (str "a.go")) Sample.options)
    as fs eqn:Hfs.
  assert (H : map (fun f => len (Excerpt f)) fs = [163])
    by (subst fs; vm_compute; reflexivity).
  clear Hfs. split; [exact H|]. intros HF.
  destruct fs as [|f fs]; [done|]. injection H as H1 H2.
  inversion HF; lia.
Qed.

(** ** Contexts: what the ignore flags remove *)

Section Factor.
Context (E : Env) (path text : gostring) (lines : list gostring).
Context (syntax : syntaxRules) (opts : Options).

Local Abbreviation opts0 := (set_flags false false opts).
Local Abbreviation body := (loop_body E path text lines syntax opts).
Local Abbreviation body0 := (loop_body E path text lines syntax opts0).

Local Abbreviation factor_ok := (factor_ok opts).

Lemma factor_quiet s s0 s' s0' :
  cursor s' = cursor s0' ->
  ls_findings s' = ls_findings s -> ls_findings s0' = ls_findings s0 ->
  factor_ok s s0 s' s0'.
Proof.
  intros Hc Hf Hf0. split; [done|]. exists []. rewrite Hf, Hf0.
  split; [by rewrite app_nil_r|].
  destruct (shouldInspect (ls_state s) opts); by rewrite app_nil_r.
Qed.

Lemma factor_consume1 s s0 state escaped :
  cursor s = cursor s0 ->
  factor_ok s s0 (consume1 s state escaped) (consume1 s0 state escaped).
Proof.
  intros [= Hi Hl Hc Hs He]. apply factor_quiet; [|done|done].
  unfold cursor. simpl. by rewrite Hi, Hl, Hc.
Qed.

Lemma factor_token s s0 token state :
  cursor s = cursor s0 ->
  factor_ok s s0 (consume_token s token state) (consume_token s0 token state).
Proof.
  intros [= Hi Hl Hc Hs He]. unfold consume_token. rewrite Hi, Hl, Hc.
  destruct (advanceByToken _ _ _ _) as [[i line] col].
  by apply factor_quiet.
Qed.

Lemma shouldInspect_opts0 st : shouldInspect st opts0 = true.
Proof. by destruct st. Qed.

Lemma factor_inspect s s0 :
  cursor s = cursor s0 ->
  factor_ok s s0 (inspect_rune E path text lines opts s)
                 (inspect_rune E path text lines opts0 s0).
Proof.
  intros [= Hi Hl Hc Hs He]. unfold inspect_rune.
  rewrite shouldInspect_opts0, Hi, Hl, Hc.
  destruct (DecodeRuneInString _) as [r size]. rewrite <- Hs.
  cbn [AllowRunes OSeverity set_flags andb].
  change (invalid_finding path lines opts0) with (invalid_finding path lines opts).
  change (rune_finding E path lines opts0) with (rune_finding E path lines opts).
  destruct (_ && _).
  - split; [reflexivity|]. eexists. split; [reflexivity|]. cbn [ls_findings].
    destruct (shouldInspect _ _); by rewrite ?app_nil_r.
  - destruct (r =? 10); (split; [reflexivity|]); cbn [ls_findings];
      destruct (shouldInspect (ls_state s) opts),
               (isAllowedRune r (AllowRunes opts));
      cbn [negb andb];
      first [ by exists []; rewrite !app_nil_r
            | by eexists; split; [reflexivity | rewrite ?app_nil_r] ].
Qed.

Lemma factor_body s s0 :
  cursor s = cursor s0 -> factor_ok s s0 (body s) (body0 s0).
Proof.
  intros Hcur. pose proof Hcur as [= Hi Hl Hc Hs He].
  pose proof (factor_inspect s s0 Hcur) as Hin.
  unfold loop_body. rewrite <- Hi, <- Hs, <- He.
  destruct (slice_from text (ls_i s)) as [|c rest].
  { by apply factor_quiet. }
  destruct (ls_state s) eqn:?;
  repeat match goal with
  | |- context [matchPrefix ?a ?b] => destruct (matchPrefix a b)
  | |- context [bool_decide ?P] => destruct (bool_decide_reflect P)
  | |- context [if ?c then _ else _] => destruct c eqn:?
  end;
  first [ done | by apply factor_consume1 | by apply factor_token | idtac ].
  all: apply factor_quiet; [|done|done].
  all: unfold cursor; simpl; by rewrite Hi, Hl.
Qed.

Lemma filter_tagged st (new : list Finding) :
  map snd (filter (fun c : scanState * Finding => shouldInspect c.1 opts = true)
                  (map (pair st) new))
  = if shouldInspect st opts then new else [].
Proof.
  induction new as [|f new IH]; [by destruct (shouldInspect _ _)|].
  cbn [map]. rewrite filter_cons. cbn [fst].
  destruct (decide (shouldInspect st opts = true)) as [Ht | Hf].
  - rewrite Ht in *. cbn [map snd]. by rewrite IH.
  - apply not_true_is_false in Hf. rewrite Hf in *. done.
Qed.

Lemma scan_loop_factor fuel s s0 :
  cursor s = cursor s0 ->
  0 <= ls_i s -> len text - ls_i s <= Z.of_nat fuel ->
  scan_loop E path text lines syntax opts fuel s
  = Some (ls_findings s
          ++ map snd (filter (fun c => shouldInspect c.1 opts = true)
                             (context_loop E path text lines syntax opts fuel s0))).
Proof.
  revert s s0. induction fuel as [|f IH]; intros s s0 Hcur H0 Hfuel;
    pose proof Hcur as [= Hi _ _ Hs _];
    cbn [scan_loop context_loop]; rewrite <- Hi;
    destruct (ls_i s <? len text) eqn:Hlt; zb; try lia;
    try (by rewrite app_nil_r).
  destruct (factor_body s s0 Hcur) as (Hcur' & new & Hf0 & Hf).
  pose proof (loop_body_advances E path text lines syntax opts s ltac:(lia)).
  rewrite (IH _ _ Hcur') by lia.
  rewrite Hf, Hf0, drop_app_length, filter_app, map_app, <- app_assoc.
  do 2 f_equal. rewrite <- Hs. by rewrite filter_tagged.
Qed.
End Factor.

(** Under any options, the scanner reports the findings of the inspected
    contexts and no others. *)
Lemma scanContent_contexts (E : Env) (path : gostring) (data : list byte)
    (syntax : syntaxRules) (opts : Options) :
  scanContent E path data syntax opts
  = map snd (filter (fun c => shouldInspect c.1 opts = true)
                    (scanContexts E path data syntax opts)).
Proof.
  unfold scanContent, scanContexts.
  rewrite (scan_loop_factor E path data (Split_nl data) syntax opts
             (length data) loop_init loop_init); [done|done| |].
  - simpl. lia.
  - simpl. unfold len. lia.
Qed.

(** C3.  Every text can be laid out in pieces of code, comments and
    string literals, well formed for the syntax profile of its file.
    Take such a layout of a text in which exactly three runes are
    disallowed: one in a piece of code, one in a line comment and one in
    a string literal.  With nothing ignored the scanner reports the
    three.  Scanning with [ignoreComments] drops exactly the comment
    finding, scanning with [ignoreStrings] drops exactly the string
    finding, and scanning with both leaves exactly the code finding.
    Every finding stands at the line and column of its rune. *)
Theorem context_suppression (E : Env) (p path : gostring) (data : list byte)
    (opts : Options) :
  let syntax := syntaxForPath E p in
  (exists L, wf_layout syntax L = true /\ render syntax L = data)
  /\ forall (L : list piece) (xc xl xs : rune_at),
       wf_layout syntax L = true -> render syntax L = data ->
       filter (disallowed (AllowRunes opts)) (text_runes data) ≡ₚ [xc; xl; xs] ->
       context_at syntax L (ra_offset xc) = Some in_code ->
       context_at syntax L (ra_offset xl) = Some in_line_comment ->
       context_at syntax L (ra_offset xs) = Some in_string ->
       let scan ignoreComments ignoreStrings :=
         scanContent E path data syntax
           (set_flags ignoreComments ignoreStrings opts) in
       let finding := finding_at E path (Split_nl data) opts in
       scan false false ≡ₚ [finding xc; finding xl; finding xs]
       /\ scan true false ≡ₚ [finding xc; finding xs]
       /\ scan false true ≡ₚ [finding xc; finding xl]
       /\ scan true true = [finding xc]
       /\ Forall (fun x => Line (finding x) = ra_line x
                           /\ Column (finding x) = ra_col x) [xc; xl; xs].
Proof.
  intros syntax. pose proof (syntaxForPath_plain E p) as Hplain.
  fold syntax in Hplain. split; [apply layout_exists|].
  intros L xc xl xs Hwf Hr Hperm Hc Hl Hs scan finding.
  assert (Hscan : forall ic ist,
            scan ic ist ≡ₚ
              map finding
                (filter (fun x => inspected_at (set_flags ic ist opts)
                                    (contexts syntax L) (ra_offset x) = true)
                        [xc; xl; xs])).
  { intros ic ist. unfold scan.
    rewrite (scanContent_flags E path data syntax opts L ic ist Hplain Hwf Hr).
    apply Permutation_map. by rewrite Hperm. }
  assert (Hkeep : forall ic ist,
            filter (fun x => inspected_at (set_flags ic ist opts)
                               (contexts syntax L) (ra_offset x) = true)
                   [xc; xl; xs]
            = [xc] ++ (if ic then [] else [xl]) ++ (if ist then [] else [xs])).
  { intros ic ist. rewrite !filter_cons, filter_nil.
    rewrite (inspected_at_context _ _ _ _ _ Hc),
            (inspected_at_context _ _ _ _ _ Hl),
            (inspected_at_context _ _ _ _ _ Hs).
    by destruct ic, ist. }
  repeat split; [| | |apply Permutation_singleton_r|];
    try (rewrite Hscan, Hkeep; done).
  repeat constructor; apply finding_at_position.
Qed.

Lemma context_suppression_witness :
  let data := Sample.three_contexts in
  let xc := {| ra_offset := 0; ra_line := 1; ra_col := 1;
               ra_rune := 0xE9; ra_size := 2 |} in
  let xl := {| ra_offset := 6; ra_line := 1; ra_col := 6;
               ra_rune := 0xE9; ra_size := 2 |} in
  let xs := {| ra_offset := 10; ra_line := 2; ra_col := 2;
               ra_rune := 0xE9; ra_size := 2 |} in
  let scan ignoreComments ignoreStrings :=
    scanContent Sample.env (str "a.go") data
      (syntaxForPath Sample.env (str "a.go"))
      (set_flags ignoreComments ignoreStrings Sample.options) in
  let finding :=
    finding_at Sample.env (str "a.go") (Split_nl data) Sample.options in
  scan false false ≡ₚ [finding xc; finding xl; finding xs]
  /\ scan true false ≡ₚ [finding xc; finding xs]
  /\ scan false true ≡ₚ [finding xc; finding xl]
  /\ scan true true = [finding xc]
  /\ Forall (fun x => Line (finding x) = ra_line x
                      /\ Column (finding x) = ra_col x) [xc; xl; xs].
Proof.
  apply (proj2 (context_suppression Sample.env (str "a.go") (str "a.go")
                  Sample.three_contexts Sample.options)
           [Code (str "é "); LineComment (str "//") (str " é") true;
            Quoted quote2 (str "é") true; Code [nl]]);
    vm_compute; reflexivity.
Defined.

(** ** The order of the findings *)

Lemma str_lt_irrefl a : str_lt a a = false.
Proof.
  induction a as [|x a IH]; [done|]. simpl.
  by rewrite Z.ltb_irrefl.
Qed.

Lemma str_lt_trans a b c :
  str_lt a b = true -> str_lt b c = true -> str_lt a c = true.
Proof.
  revert b c. induction a as [|x a IH]; intros [|y b] [|z c]; simpl; try done.
  destruct (bv x <? bv y) eqn:Hxy, (bv y <? bv z) eqn:Hyz,
           (bv y <? bv x) eqn:Hyx, (bv z <? bv y) eqn:Hzy,
           (bv x <? bv z) eqn:Hxz, (bv z <? bv x) eqn:Hzx;
    zb; try done; try lia.
  apply IH.
Qed.

Lemma str_lt_connex a b :
  str_lt a b = false -> str_lt b a = false -> a = b.
Proof.
  revert b. induction a as [|x a IH]; intros [|y b]; simpl; try done.
  destruct (bv x <? bv y) eqn:Hxy, (bv y <? bv x) eqn:Hyx; zb; try done.
  intros H1 H2. f_equal; [apply bv_inj; lia | by apply IH].
Qed.

Lemma str_lt_asym a b : str_lt a b = true -> str_lt b a = false.
Proof.
  intros H. destruct (str_lt b a) eqn:H'; [|done].
  pose proof (str_lt_trans _ _ _ H H') as Ht.
  by rewrite str_lt_irrefl in Ht.
Qed.

Lemma finding_less_key_le a b : finding_less b a = false <-> key_le a b.
Proof.
  unfold finding_less, key_le.
  destruct (bool_decide_reflect (Path b = Path a)) as [Hp | Hp]; cbn [negb].
  - rewrite Hp, str_lt_irrefl.
    destruct (Line b =? Line a) eqn:Hl; zb; cbn [negb].
    + rewrite Hl. destruct (Column b =? Column a) eqn:Hc; zb; cbn [negb].
      * rewrite Hc. split.
        -- intros Hba. right. split; [done|]. right. split; [done|].
           right. split; [done|].
           destruct (str_lt (CodePoint a) (CodePoint b)) eqn:Hab; [by left|].
           right. by apply str_lt_connex.
        -- intros [Hf|[_ [Hf|[_ [Hf|[_ [Hab|Heq]]]]]]];
             [done | lia | lia | by apply str_lt_asym
             | rewrite Heq; apply str_lt_irrefl].
      * rewrite Z.ltb_ge. split.
        -- intros Hle. right. split; [done|]. right. split; [done|]. left. lia.
        -- intros [Hf|[_ [Hf|[_ [Hf|[Hf _]]]]]]; [done | lia | lia | lia].
    + rewrite Z.ltb_ge. split.
      * intros Hle. right. split; [done|]. left. lia.
      * intros [Hf|[_ [Hf|[Hf _]]]]; [done | lia | lia].
  - split.
    + intros Hba. left.
      destruct (str_lt (Path a) (Path b)) eqn:Hab; [done|].
      exfalso. apply Hp. symmetry. by apply str_lt_connex.
    + intros [Hab|[Heq _]]; [by apply str_lt_asym | by rewrite Heq in Hp].
Qed.

Lemma key_le_total a b : key_le a b \/ key_le b a.
Proof.
  unfold key_le.
  destruct (str_lt (Path a) (Path b)) eqn:Hab; [by left; left|].
  destruct (str_lt (Path b) (Path a)) eqn:Hba; [by right; left|].
  pose proof (str_lt_connex _ _ Hab Hba) as Hp.
  destruct (Z.lt_total (Line a) (Line b)) as [?|[Hl|?]];
    [left; right; split; [done|]; by left
    | | right; right; split; [done|]; by left].
  destruct (Z.lt_total (Column a) (Column b)) as [?|[Hc|?]];
    [left; right; split; [done|]; right; split; [done|]; by left
    | | right; right; split; [done|]; right; split; [done|]; by left].
  destruct (str_lt (CodePoint a) (CodePoint b)) eqn:Hcab.
  { left. right. split; [done|]. right. split; [done|]. right.
    split; [done|]. by left. }
  destruct (str_lt (CodePoint b) (CodePoint a)) eqn:Hcba.
  { right. right. split; [done|]. right. split; [done|]. right.
    split; [done|]. by left. }
  pose proof (str_lt_connex _ _ Hcab Hcba) as Hcp.
  left. right. split; [done|]. right. split; [done|]. right.
  split; [done|]. by right.
Qed.

Lemma key_le_trans a b c : key_le a b -> key_le b c -> key_le a c.
Proof.
  unfold key_le.
  intros [H1|[H1 H1']] [H2|[H2 H2']].
  - left. by eapply str_lt_trans.
  - left. by rewrite <- H2.
  - left. by rewrite H1.
  - right. split; [congruence|].
    destruct H1' as [H1'|[Hl1 H1']], H2' as [H2'|[Hl2 H2']]; try (left; lia).
    right. split; [lia|].
    destruct H1' as [H1'|[Hc1 H1']], H2' as [H2'|[Hc2 H2']]; try (left; lia).
    right. split; [lia|].
    destruct H1' as [H1'|H1'], H2' as [H2'|H2'].
    + left. by eapply str_lt_trans.
    + left. by rewrite <- H2'.
    + left. by rewrite H1'.
    + right. congruence.
Qed.

#[local] Instance finding_order_total :
  Total (fun a b : Finding => finding_less b a = false).
Proof. intros a b. rewrite !finding_less_key_le. apply key_le_total. Qed.

#[local] Instance finding_order_trans :
  Transitive (fun a b : Finding => finding_less b a = false).
Proof. intros a b c. rewrite !finding_less_key_le. apply key_le_trans. Qed.

Lemma StronglySorted_lookup {A} (R : relation A) (l : list A) i j a b :
  StronglySorted R l -> (i < j)%nat ->
  l !! i = Some a -> l !! j = Some b -> R a b.
Proof.
  intros Hs. revert i j. induction Hs as [|x l Hs IH Hx]; intros i j Hij Hi Hj.
  - done.
  - destruct j as [|j]; [lia|]. destruct i as [|i].
    + injection Hi as <-. rewrite Forall_forall in Hx. apply Hx.
      by eapply list_elem_of_lookup_2.
    + eapply (IH i j); [lia|done|done].
Qed.

Lemma sort_findings_sorted (l : list Finding) (i j : nat) (a b : Finding) :
  (i < j)%nat ->
  sort_Slice finding_less l !! i = Some a ->
  sort_Slice finding_less l !! j = Some b ->
  key_le a b.
Proof.
  intros Hij Hi Hj. apply finding_less_key_le.
  apply (StronglySorted_lookup (fun a b => finding_less b a = false)
           (sort_Slice finding_less l) i j a b); [|done|done|done].
  unfold sort_Slice. apply StronglySorted_merge_sort; apply _.
Qed.

Lemma Scan_success E W paths opts r :
  Scan E W paths opts = (r, None) ->
  exists cwd st,
    os_Getwd W = OK cwd
    /\ scan_paths E W cwd (normalizeOptions opts) (clean_paths E paths)
         scanSt_init = (st, None)
    /\ r = finish (res st).
Proof.
  unfold Scan. destruct (os_Getwd W) as [cwd|e]; [|done].
  destruct (scan_paths _ _ _ _ _ _) as [st [e|]] eqn:Hsp; [done|].
  intros [= <-]. by exists cwd, st.
Qed.

Lemma sort_findings_unique (l1 l2 : list Finding) :
  l1 ≡ₚ l2 ->
  (forall x y, x ∈ l1 -> y ∈ l1 -> key_le x y -> key_le y x -> x = y) ->
  sort_Slice finding_less l1 = sort_Slice finding_less l2.
Proof.
  intros Hperm Hkeys. unfold sort_Slice.
  apply (StronglySorted_unique_strong (fun a b => finding_less b a = false)).
  - intros x y Hx Hy Hxy Hyx.
    rewrite merge_sort_Permutation in Hx, Hy. rewrite <- Hperm in Hy.
    apply Hkeys; [done | done | by apply finding_less_key_le
                 | by apply finding_less_key_le].
  - apply StronglySorted_merge_sort; apply _.
  - apply StronglySorted_merge_sort; apply _.
  - by rewrite !merge_sort_Permutation.
Qed.

(** C6.  In the result of a successful [Scan], a finding that comes
    before another is less than or equal to it in the lexicographic
    order of (path, line, column, codePoint).  The order does not depend
    on the order in which the file system was enumerated: two successful
    scans that collect the same findings, in whatever order, return them
    in the same order, provided no two distinct findings share their
    (path, line, column, codePoint). *)
Theorem findings_sorted (E : Env) (W : World) (paths : list gostring)
    (opts : Options) (r : Result) :
  Scan E W paths opts = (r, None) ->
  (forall (i j : nat) (a b : Finding),
     (i < j)%nat ->
     Findings r !! i = Some a -> Findings r !! j = Some b ->
     key_le a b)
  /\ (forall (W' : World) (paths' : list gostring) (r' : Result),
        Scan E W' paths' opts = (r', None) ->
        Findings r' ≡ₚ Findings r ->
        (forall x y, x ∈ Findings r -> y ∈ Findings r ->
                     key_le x y -> key_le y x -> x = y) ->
        Findings r' = Findings r).
Proof.
  intros Hscan. apply Scan_success in Hscan as (cwd & st & _ & _ & ->).
  split.
  - intros i j a b Hij Hi Hj.
    exact (sort_findings_sorted (Findings (res st)) i j a b Hij Hi Hj).
  - intros W' paths' r' Hscan' Hperm Hkeys.
    apply Scan_success in Hscan' as (cwd' & st' & _ & _ & ->).
    cbn [Findings finish] in *. unfold sort_Slice in Hperm, Hkeys.
    rewrite !merge_sort_Permutation in Hperm.
    apply sort_findings_unique; [done|].
    intros x y Hx Hy. apply Hkeys; rewrite merge_sort_Permutation;
      by rewrite <- Hperm.
Qed.

Lemma findings_sorted_witness :
  (forall (i j : nat) (a b : Finding),
     (i < j)%nat ->
     Findings Sample.greeting_result !! i = Some a ->
     Findings Sample.greeting_result !! j = Some b ->
     key_le a b)
  /\ (forall (W' : World) (paths' : list gostring) (r' : Result),
        Scan Sample.env W' paths' Sample.options = (r', None) ->
        Findings r' ≡ₚ Findings Sample.greeting_result ->
        (forall x y, x ∈ Findings Sample.greeting_result ->
                     y ∈ Findings Sample.greeting_result ->
                     key_le x y -> key_le y x -> x = y) ->
        Findings r' = Findings Sample.greeting_result).
Proof.
  apply (findings_sorted Sample.env Sample.greeting_world [str "sample.go"]
           Sample.options Sample.greeting_result).
  vm_compute. reflexivity.
Defined.

(** ** What [scanFile] does to the state *)

Section ScanFile.
Context (E : Env) (W : World).

Lemma clean_paths_single (p : gostring) :
  strings_TrimSpace E p = p -> p <> [] -> clean_paths E [p] = [p].
Proof.
  intros Htrim Hne. unfold clean_paths.
  change (len [p] =? 0) with false. cbv iota. cbn [map].
  rewrite Htrim, filter_cons_True by done. by rewrite filter_nil.
Qed.

Lemma scanFile_visited path cwd opts st abs :
  filepath_Abs W path = OK abs -> abs ∈ visited st ->
  scanFile E W path cwd opts st = (st, None).
Proof.
  intros Habs Hin. unfold scanFile. rewrite Habs.
  by rewrite bool_decide_eq_true_2.
Qed.

Lemma scanFile_scanned path cwd opts st abs data :
  filepath_Abs W path = OK abs -> abs ∉ visited st ->
  let display := displayPath W cwd abs in
  isIncluded E display (Include opts) = true ->
  isExcluded E display (Exclude opts) = false ->
  isAllowedFile E display (AllowFilePatterns opts) = false ->
  os_ReadFile W abs = OK data -> isBinary data = false ->
  scanFile E W path cwd opts st
  = ({| visited := {[abs]} ∪ visited st;
        res := add_scanned (res st) display
                 (scanContent E display data (syntaxForPath E display) opts) |},
     None).
Proof.
  intros Habs Hnin display Hinc Hexc Hal Hread Hbin. unfold scanFile.
  rewrite Habs, bool_decide_eq_false_2 by done. fold display.
  by rewrite Hinc, Hexc, Hal, Hread, Hbin.
Qed.

Lemma scanFile_binary path cwd opts st abs data :
  filepath_Abs W path = OK abs -> abs ∉ visited st ->
  let display := displayPath W cwd abs in
  isIncluded E display (Include opts) = true ->
  isExcluded E display (Exclude opts) = false ->
  isAllowedFile E display (AllowFilePatterns opts) = false ->
  os_ReadFile W abs = OK data -> isBinary data = true ->
  scanFile E W path cwd opts st
  = ({| visited := {[abs]} ∪ visited st;
        res := add_skipped (res st) display (str "binary file") |}, None).
Proof.
  intros Habs Hnin display Hinc Hexc Hal Hread Hbin. unfold scanFile.
  rewrite Habs, bool_decide_eq_false_2 by done. fold display.
  by rewrite Hinc, Hexc, Hal, Hread, Hbin.
Qed.

Lemma scanFile_read_error path cwd opts st abs e :
  filepath_Abs W path = OK abs -> abs ∉ visited st ->
  let display := displayPath W cwd abs in
  isIncluded E display (Include opts) = true ->
  isExcluded E display (Exclude opts) = false ->
  isAllowedFile E display (AllowFilePatterns opts) = false ->
  os_ReadFile W abs = Err e ->
  scanFile E W path cwd opts st
  = ({| visited := {[abs]} ∪ visited st; res := res st |},
     Some (read_error display e)).
Proof.
  intros Habs Hnin display Hinc Hexc Hal Hread. unfold scanFile.
  rewrite Habs, bool_decide_eq_false_2 by done. fold display.
  by rewrite Hinc, Hexc, Hal, Hread.
Qed.
End ScanFile.

Lemma clean_paths_one E p : clean_paths E [p] = [cleaned_path E p].
Proof.
  unfold clean_paths, cleaned_path.
  change (len [p] =? 0) with false. cbv iota. cbn [map].
  destruct (bool_decide_reflect (strings_TrimSpace E p = [])) as [Heq | Hne].
  - by rewrite filter_cons_False, filter_nil by (intros H; by apply H).
  - by rewrite filter_cons_True, filter_nil by done.
Qed.


(** What [scanFile] leaves of a file met for the first time. *)
Lemma scanFile_first E W path cwd opts st abs :
  filepath_Abs W path = OK abs -> abs ∉ visited st ->
  let display := displayPath W cwd abs in
  scanFile E W path cwd opts st
  = if negb (isIncluded E display (Include opts))
       || isExcluded E display (Exclude opts)
    then ({| visited := {[abs]} ∪ visited st; res := res st |}, None)
    else if isAllowedFile E display (AllowFilePatterns opts)
    then ({| visited := {[abs]} ∪ visited st;
             res := add_skipped (res st) display (str "allowed by file pattern") |},
          None)
    else match os_ReadFile W abs with
         | Err e => ({| visited := {[abs]} ∪ visited st; res := res st |},
                     Some (read_error display e))
         | OK data =>
             if isBinary data
             then ({| visited := {[abs]} ∪ visited st;
                      res := add_skipped (res st) display (str "binary file") |},
                   None)
             else ({| visited := {[abs]} ∪ visited st;
                      res := add_scanned (res st) display
                               (scanContent E display data
                                  (syntaxForPath E display) opts) |}, None)
         end.
Proof.
  intros Habs Hnin display. unfold scanFile.
  rewrite Habs, bool_decide_eq_false_2 by done. fold display.
  by destruct (isIncluded _ _ _), (isExcluded _ _ _).
Qed.

(** The scan of one argument that is not a directory. *)
Lemma Scan_one_file E W opts p cwd :
  os_Getwd W = OK cwd -> os_Stat W (cleaned_path E p) = OK false ->
  Scan E W [p] opts
  = match scanFile E W (cleaned_path E p) cwd (normalizeOptions opts)
            scanSt_init with
    | (_, Some e) => (Result_zero, Some e)
    | (st, None) => (finish (res st), None)
    end.
Proof.
  intros Hwd Hstat. unfold Scan. rewrite clean_paths_one, Hwd.
  cbn [scan_paths]. rewrite Hstat. by destruct (scanFile _ _ _ _ _ _) as [? []].
Qed.

(** ** The end-to-end scenario *)

Lemma default_options_eq o : default_options o -> o = Sample.options.
Proof.
  destruct o. unfold default_options. simpl.
  intros (-> & -> & -> & -> & -> & -> & ->). done.
Qed.

Lemma scanContent_greeting (E : Env) :
  scanContent E (str "sample.go") Sample.greeting
    (syntaxForPath E (str "sample.go")) Sample.options
  = map (fun '(col, r) =>
           rune_finding E (str "sample.go") [Sample.greeting]
             Sample.options 1 col r)
        greeting_runes.
Proof. vm_compute. reflexivity. Qed.

Lemma category_hiragana (E : Env) (r : Z) :
  unicode_Is E Hiragana r = true -> categoryForRune E r = str "CJK".
Proof.
  intros H. unfold categoryForRune, unicode_In. cbn [existsb].
  rewrite H. by rewrite orb_true_r.
Qed.

(** C1 (amended).  For a regular file [sample.go] whose content is
    [var _ = "こんにちは"], scanned with default options (severity error,
    empty allow list and patterns, no ignore flags), [Scan] succeeds and
    yields five findings, one for each Japanese code point in text
    order: all on line 1, in columns 10 to 14, each with category CJK
    and severity error; the first is for the first Japanese code point,
    U+3053.  The file is the one scanned file, and the summary counts
    five findings.  (The category is CJK as soon as the Unicode tables
    place the five code points in Hiragana, which Go's do.) *)
Theorem scan_greeting (E : Env) (W : World) (opts : Options)
    (cwd abs : gostring) :
  default_options opts ->
  strings_TrimSpace E (str "sample.go") = str "sample.go" ->
  os_Getwd W = OK cwd ->
  os_Stat W (str "sample.go") = OK false ->
  filepath_Abs W (str "sample.go") = OK abs ->
  filepath_Abs W abs = OK abs ->
  filepath_Rel W cwd abs = OK (str "sample.go") ->
  os_ReadFile W abs = OK Sample.greeting ->
  Forall (fun '(_, r) => unicode_Is E Hiragana r = true) greeting_runes ->
  exists r,
    Scan E W [str "sample.go"] opts = (r, None)
    /\ Findings r
       = map (fun '(col, r) =>
                rune_finding E (str "sample.go") [Sample.greeting] opts 1 col r)
             greeting_runes
    /\ Forall (fun f => Line f = 1 /\ Category f = str "CJK"
                        /\ FSeverity f = SeverityError
                        /\ Path f = str "sample.go") (Findings r)
    /\ ScannedFiles r = [str "sample.go"]
    /\ SkippedFiles r = []
    /\ RSummary r = {| FilesScanned := 1; FilesSkipped := 0; NFindings := 5 |}.
Proof.
  intros Hopts Htrim Hwd Hstat Habs Habs' Hrel Hread Hcat.
  apply default_options_eq in Hopts as ->.
  assert (Hdisp : displayPath W cwd abs = str "sample.go").
  { unfold displayPath. rewrite Habs', Hrel. done. }
  unfold Scan. rewrite clean_paths_single, Hwd by done.
  cbn [scan_paths]. rewrite Hstat.
  change (normalizeOptions Sample.options) with Sample.options.
  rewrite (scanFile_scanned E W _ cwd Sample.options _ abs Sample.greeting);
    [|done|set_solver|by rewrite Hdisp..|done|done].
  rewrite Hdisp, scanContent_greeting.
  eexists. split; [reflexivity|].
  assert (Hf : Findings (finish (res
            {| visited := {[abs]} ∪ visited scanSt_init;
               res := add_scanned (res scanSt_init) (str "sample.go")
                 (map (fun '(col, r) =>
                    rune_finding E (str "sample.go") [Sample.greeting]
                      Sample.options 1 col r) greeting_runes) |}))
          = map (fun '(col, r) =>
                   rune_finding E (str "sample.go") [Sample.greeting]
                     Sample.options 1 col r) greeting_runes)
    by (by vm_compute).
  split; [exact Hf|]. split; [|by vm_compute].
  rewrite Hf. apply Forall_fmap.
  eapply Forall_impl; [apply Hcat|]. intros [col r] Hr. cbn.
  by rewrite category_hiragana.
Qed.

Lemma scan_greeting_witness :
  exists r,
    Scan Sample.env Sample.greeting_world [str "sample.go"] Sample.options
      = (r, None)
    /\ Findings r
       = map (fun '(col, r) =>
                rune_finding Sample.env (str "sample.go") [Sample.greeting]
                  Sample.options 1 col r)
             greeting_runes
    /\ Forall (fun f => Line f = 1 /\ Category f = str "CJK"
                        /\ FSeverity f = SeverityError
                        /\ Path f = str "sample.go") (Findings r)
    /\ ScannedFiles r = [str "sample.go"]
    /\ SkippedFiles r = []
    /\ RSummary r = {| FilesScanned := 1; FilesSkipped := 0; NFindings := 5 |}.
Proof.
  apply (scan_greeting Sample.env Sample.greeting_world Sample.options
           (str "/w") (str "/w/sample.go")).
  - repeat split.
  - vm_compute; reflexivity.
  - vm_compute; reflexivity.
  - vm_compute; reflexivity.
  - vm_compute; reflexivity.
  - vm_compute; reflexivity.
  - vm_compute; reflexivity.
  - vm_compute; reflexivity.
  - repeat constructor.
Defined.

(** C1 as stated fails: the scan of that file yields five findings,
    not one, and they stand on line 1, not on line 2. *)
Lemma scan_greeting_five_findings :
  Scan Sample.env Sample.greeting_world [str "sample.go"] Sample.options
    = (Sample.greeting_result, None)
  /\ map (fun f => (Line f, Column f)) (Findings Sample.greeting_result)
     = [(1, 10); (1, 11); (1, 12); (1, 13); (1, 14)]
  /\ NFindings (RSummary Sample.greeting_result) = 5
  /\ ~ (exists f, Findings Sample.greeting_result = [f] /\ Line f = 2).
Proof.
  assert (H : map (fun f => (Line f, Column f)) (Findings Sample.greeting_result)
     = [(1, 10); (1, 11); (1, 12); (1, 13); (1, 14)])
    by (vm_compute; reflexivity).
  split; [vm_compute; reflexivity|]. split; [exact H|].
  split; [vm_compute; reflexivity|].
  intros (f & Hf & _). rewrite Hf in H. discriminate H.
Qed.

(** ** Binary files *)

Lemma isBinary_control_spec b : isBinary_control b = true <-> control_byte b.
Proof.
  unfold isBinary_control, control_byte.
  destruct (bool_decide_reflect (b = nl)), (bool_decide_reflect (b = cr)),
           (bool_decide_reflect (b = tab)); simpl;
    try (split; [done | tauto]).
  rewrite orb_true_iff, Z.ltb_lt, Z.eqb_eq. tauto.
Qed.

Lemma existsb_elem_of (l : list byte) (x : byte) :
  existsb (fun b => bool_decide (b = x)) l = true <-> x ∈ l.
Proof.
  rewrite existsb_exists. split.
  - intros (y & Hin & Hy). apply bool_decide_eq_true in Hy. subst.
    by apply list_elem_of_In.
  - intros Hin. exists x. split; [by apply list_elem_of_In|].
    by apply bool_decide_eq_true.
Qed.

Lemma isBinary_spec (data : list byte) :
  isBinary data = true <-> binary_content data.
Proof.
  unfold isBinary, binary_content.
  destruct (len data =? 0) eqn:Hlen; zb.
  { assert (data = []) as -> by (destruct data; [done | unfold len in *; simpl in *; lia]).
    simpl. split; [done|]. intros [H|H]; [by apply elem_of_nil in H | unfold len in H; simpl in H; lia]. }
  assert ((if 8192 <? len data then slice_to data 8192 else data)
          = slice_to data (Z.min (len data) 8192)) as ->.
  { destruct (8192 <? len data) eqn:Hbig; zb.
    - by rewrite Z.min_r by lia.
    - rewrite Z.min_l by lia. unfold len, slice_to.
      rewrite Nat2Z.id, take_ge; [done|lia]. }
  set (sample := slice_to data _).
  assert (filter (fun b => isBinary_control b = true) sample
          = filter control_byte sample) as ->.
  { apply list_filter_iff. intros b. apply isBinary_control_spec. }
  destruct (existsb _ sample) eqn:Hnul.
  - apply existsb_elem_of in Hnul. split; [by left | done].
  - rewrite Z.ltb_lt. split; [by right|].
    intros [H|H]; [|done]. apply existsb_elem_of in H. congruence.
Qed.

(** C5 (amended).  Take a file whose content is binary: a NUL byte in
    the first [min(length, 8192)] bytes, or control characters other
    than newline, carriage return and tab making up more than 0.30 of
    that sample.  When [Scan] reads it - the file passes the include,
    exclude and allow-file steps and is met for the first time - it is
    recorded as a skipped file with reason "binary file"; no finding is
    added and the file is not added to the scanned files; as the only
    argument of the invocation it gives a result with no finding, no
    scanned file, and a summary of zero files scanned and one skipped.
    When the filters leave it out, it is not recorded as binary: a file
    that is excluded or not included leaves the result as it is, and a
    file that matches an allow-file pattern is recorded as skipped with
    reason "allowed by file pattern".  [isBinary] decides exactly this
    notion of binary content. *)
Theorem binary_file_skipped (E : Env) (W : World) (opts : Options)
    (cwd path abs : gostring) (data : list byte) (st : scanSt) :
  binary_content data ->
  filepath_Abs W path = OK abs ->
  os_ReadFile W abs = OK data ->
  let display := displayPath W cwd abs in
  let included := isIncluded E display (Include opts) in
  let excluded := isExcluded E display (Exclude opts) in
  let allowed := isAllowedFile E display (AllowFilePatterns opts) in
  let skipped reason := {| SPath := display; Reason := reason |} in
  (included = true -> excluded = false -> allowed = false ->
   (abs ∉ visited st ->
    exists st',
      scanFile E W path cwd opts st = (st', None)
      /\ SkippedFiles (res st') = SkippedFiles (res st) ++ [skipped (str "binary file")]
      /\ Findings (res st') = Findings (res st)
      /\ ScannedFiles (res st') = ScannedFiles (res st))
   /\ (forall p,
         cleaned_path E p = path ->
         os_Getwd W = OK cwd -> os_Stat W path = OK false ->
         Scan E W [p] opts
         = ({| Findings := []; ScannedFiles := [];
               SkippedFiles := [skipped (str "binary file")];
               RSummary := {| FilesScanned := 0; FilesSkipped := 1;
                              NFindings := 0 |} |}, None)))
  /\ (included = false \/ excluded = true -> abs ∉ visited st ->
      exists st',
        scanFile E W path cwd opts st = (st', None) /\ res st' = res st)
  /\ (included = true -> excluded = false -> allowed = true ->
      abs ∉ visited st ->
      exists st',
        scanFile E W path cwd opts st = (st', None)
        /\ SkippedFiles (res st')
           = SkippedFiles (res st) ++ [skipped (str "allowed by file pattern")]
        /\ Findings (res st') = Findings (res st)
        /\ ScannedFiles (res st') = ScannedFiles (res st)).
Proof.
  intros Hbin Habs Hread display included excluded allowed skipped.
  apply isBinary_spec in Hbin.
  assert (Hsf : forall o st0, abs ∉ visited st0 ->
            Include o = Include opts -> Exclude o = Exclude opts ->
            AllowFilePatterns o = AllowFilePatterns opts ->
            scanFile E W path cwd o st0
            = if negb included || excluded
              then ({| visited := {[abs]} ∪ visited st0; res := res st0 |}, None)
              else if allowed
              then ({| visited := {[abs]} ∪ visited st0;
                       res := add_skipped (res st0) display
                                (str "allowed by file pattern") |}, None)
              else ({| visited := {[abs]} ∪ visited st0;
                       res := add_skipped (res st0) display (str "binary file") |},
                    None)).
  { intros o st0 Hn Hi He Ha.
    rewrite (scanFile_first E W path cwd o st0 abs Habs Hn). fold display.
    by rewrite Hi, He, Ha, Hread, Hbin. }
  split; [|split].
  - intros Hinc Hexc Hal. split.
    + intros Hnin. rewrite Hsf, Hinc, Hexc, Hal by done. by eexists.
    + intros p Hp Hwd Hstat. subst path.
      rewrite (Scan_one_file E W opts p cwd Hwd Hstat).
      rewrite Hsf, Hinc, Hexc, Hal; [done | set_solver | done..].
  - intros Hf Hnin. rewrite Hsf by done. eexists.
    destruct Hf as [-> | ->]; [done|]. by rewrite orb_true_r.
  - intros Hinc Hexc Hal Hnin. rewrite Hsf, Hinc, Hexc, Hal by done.
    by eexists.
Qed.

Lemma binary_file_skipped_witness :
  let skipped := {| SPath := str "a.bin"; Reason := str "binary file" |} in
  (exists st',
     scanFile Sample.env Sample.binary_world (str "a.bin") (str "/w") Sample.options
       scanSt_init = (st', None)
     /\ SkippedFiles (res st') = SkippedFiles (res scanSt_init) ++ [skipped]
     /\ Findings (res st') = Findings (res scanSt_init)
     /\ ScannedFiles (res st') = ScannedFiles (res scanSt_init))
  /\ Scan Sample.env Sample.binary_world [str " a.bin "] Sample.options
     = ({| Findings := []; ScannedFiles := []; SkippedFiles := [skipped];
           RSummary := {| FilesScanned := 0; FilesSkipped := 1;
                          NFindings := 0 |} |}, None).
Proof.
  destruct (binary_file_skipped Sample.env Sample.binary_world Sample.options
              (str "/w") (str "a.bin") (str "/w/a.bin") Sample.binary_data
              scanSt_init) as [Hread _].
  - apply (bool_decide_unpack _). vm_compute. exact I.
  - vm_compute. reflexivity.
  - vm_compute. reflexivity.
  - destruct Hread as [Hfile Hscan]; [vm_compute; reflexivity..|].
    split.
    + apply Hfile. apply (bool_decide_unpack _). vm_compute. exact I.
    + apply Hscan; vm_compute; reflexivity.
Defined.

(** C5 as stated fails: a binary file that an exclude pattern matches
    is not recorded at all, and one that an allow-file pattern matches
    is recorded with another reason. *)
Lemma binary_file_filtered_out :
  binary_content Sample.binary_data
  /\ os_ReadFile Sample.binary_world (str "/w/a.bin") = OK Sample.binary_data
  /\ Scan Sample.env Sample.binary_world [str "a.bin"] Sample.excluding_binary
     = (Result_zero, None)
  /\ Scan Sample.env Sample.binary_world [str "a.bin"] Sample.allowing_binary
     = ({| Findings := []; ScannedFiles := [];
           SkippedFiles := [{| SPath := str "a.bin";
                               Reason := str "allowed by file pattern" |}];
           RSummary := {| FilesScanned := 0; FilesSkipped := 1;
                          NFindings := 0 |} |}, None).
Proof.
  split; [apply (bool_decide_unpack _); vm_compute; exact I|].
  repeat split; vm_compute; reflexivity.
Qed.

(** ** Errors abort the scan *)

Lemma fsnode_induction (P : fsnode -> Prop) :
  (forall p regular, P (FsFile p regular)) ->
  (forall p entries readErr, Forall P entries -> P (FsDir p entries readErr)) ->
  forall n, P n.
Proof.
  intros Hfile Hdir. fix IH 1. intros [p regular | p entries readErr].
  - apply Hfile.
  - apply Hdir. induction entries as [|e es IHes]; constructor.
    + apply IH.
    + apply IHes.
Qed.

Section FailFast.
Context (E : Env) (W : World) (cwd : gostring) (opts : Options).

Local Abbreviation fn := (walkFn E W cwd opts).
Local Abbreviation clean := (clean_visited E W cwd opts).

Lemma scanFile_clean path st st' :
  clean st -> scanFile E W path cwd opts st = (st', None) ->
  clean st' /\ file_fails E W cwd opts path = false.
Proof.
  intros Hclean. unfold scanFile, file_fails.
  destruct (filepath_Abs W path) as [abs|e]; [|done].
  destruct (bool_decide_reflect (abs ∈ visited st)) as [Hin | Hnin].
  { intros [= <-]. split; [done | by apply Hclean]. }
  assert (Hadd : forall r, unreadable E W cwd opts abs = false ->
            clean {| visited := {[abs]} ∪ visited st; res := r |}).
  { intros r Hu a Ha. cbn [visited] in Ha.
    apply elem_of_union in Ha as [Ha | Ha]; [|by apply Hclean].
    apply elem_of_singleton in Ha. by subst. }
  unfold unreadable, passes_filters in *.
  destruct (isIncluded _ _ _); cbn [negb andb] in *;
    [|intros [= <-]; split; [by apply Hadd | done]].
  destruct (isExcluded _ _ _); cbn [negb andb] in *;
    [intros [= <-]; split; [by apply Hadd | done]|].
  destruct (isAllowedFile _ _ _); cbn [negb andb] in *;
    [intros [= <-]; split; [by apply Hadd | done]|].
  destruct (os_ReadFile W abs) as [data|e]; [|done].
  destruct (isBinary data); intros [= <-]; split; try done; by apply Hadd.
Qed.

Lemma walkFn_not_skip_file path regular err st st' r :
  fn path (dirEntry_file regular) err st = (st', r) -> r <> WSkipDir.
Proof.
  unfold walkFn. destruct err; [by intros [= <- <-]|].
  cbn [dirEntry_file d_IsDir d_IsRegular]. destruct regular; cbn [negb].
  - destruct (scanFile _ _ _ _ _ _) as [st1 [e|]]; by intros [= <- <-].
  - by intros [= <- <-].
Qed.

Lemma walk_entries_not_skip walk es st st' r :
  walk_entries walk es st = (st', r) -> r <> WSkipDir.
Proof.
  revert st. induction es as [|e es IH]; intros st; cbn [walk_entries].
  - by intros [= <- <-].
  - destruct (walk e st) as [st1 [| |x]]; [apply IH| |]; by intros [= <- <-].
Qed.

Lemma walkDir_node_not_skip n st st' r :
  walkDir_node fn n st = (st', r) -> r <> WSkipDir.
Proof.
  destruct n as [p regular | p entries readErr]; cbn [walkDir_node].
  - apply walkFn_not_skip_file.
  - destruct (fn p dirEntry_dir None st) as [st1 [| |x]];
      [|by intros [= <- <-]..].
    destruct readErr as [e|]; [|apply walk_entries_not_skip].
    destruct (fn p dirEntry_dir (Some e) st1) as [st2 [| |x]];
      [apply walk_entries_not_skip | by intros [= <- <-]..].
Qed.

Lemma walkFn_dir p st :
  fn p dirEntry_dir None st
  = (st, if pruned E W cwd opts p then WSkipDir else WNil).
Proof.
  unfold walkFn, pruned. cbn [dirEntry_dir d_IsDir].
  by destruct (_ && _).
Qed.

Lemma walkFn_err p d e st : fn p d (Some e) st = (st, WErr e).
Proof. done. Qed.

Lemma walk_entries_clean es :
  Forall (fun n => forall st st',
            clean st -> walkDir_node fn n st = (st', WNil) ->
            clean st' /\ fails_in E W cwd opts n = false) es ->
  forall st st',
    clean st -> walk_entries (walkDir_node fn) es st = (st', WNil) ->
    clean st' /\ existsb (fails_in E W cwd opts) es = false.
Proof.
  induction 1 as [|n es Hn _ IH]; intros st st' Hclean; cbn [walk_entries existsb].
  - by intros [= <-].
  - destruct (walkDir_node fn n st) as [st1 r] eqn:Hw.
    pose proof (walkDir_node_not_skip _ _ _ _ Hw) as Hskip.
    destruct r as [| |x]; [|done|done].
    destruct (Hn _ _ Hclean Hw) as [Hclean1 ->].
    intros Hrest. by apply IH in Hrest.
Qed.

Lemma walkDir_node_clean n :
  forall st st',
    clean st -> walkDir_node fn n st = (st', WNil) ->
    clean st' /\ fails_in E W cwd opts n = false.
Proof.
  induction n as [p regular | p entries readErr IH] using fsnode_induction;
    intros st st' Hclean; cbn [walkDir_node fails_in].
  - unfold walkFn. cbn [dirEntry_file d_IsDir d_IsRegular].
    destruct regular; cbn [negb andb]; [|by intros [= <-]].
    destruct (scanFile _ _ _ _ _ _) as [st1 [e|]] eqn:Hsf; [done|].
    intros [= <-]. by apply scanFile_clean in Hsf.
  - rewrite walkFn_dir.
    destruct (pruned E W cwd opts p); cbn [negb andb]; [by intros [= <-]|].
    destruct readErr as [e|]; [by rewrite walkFn_err|].
    rewrite bool_decide_eq_false_2 by (by intros [? ?]). cbn [orb].
    by apply walk_entries_clean.
Qed.

Lemma walkDir_clean root st st' :
  clean st -> walkDir E W root cwd opts st = (st', None) ->
  clean st'
  /\ match os_Lstat W root with
     | Err _ => False
     | OK n => fails_in E W cwd opts n = false
     end.
Proof.
  intros Hclean. unfold walkDir, filepath_WalkDir.
  destruct (os_Lstat W root) as [n|e]; [|by rewrite walkFn_err].
  destruct (walkDir_node fn n st) as [st1 r] eqn:Hw.
  pose proof (walkDir_node_not_skip _ _ _ _ Hw) as Hskip.
  destruct r as [| |x]; [|done|done].
  intros [= <-]. by apply walkDir_node_clean in Hw.
Qed.

Lemma scan_paths_clean paths st st' :
  clean st -> scan_paths E W cwd opts paths st = (st', None) ->
  clean st' /\ forall p, p ∈ paths -> root_fails E W cwd opts p = false.
Proof.
  revert st. induction paths as [|p paths IH]; intros st Hclean;
    cbn [scan_paths].
  - intros [= <-]. split; [done|]. intros p Hp. by apply elem_of_nil in Hp.
  - unfold root_fails at 1.
    destruct (os_Stat W p) as [[|]|e] eqn:Hstat; [| |done].
    + destruct (walkDir E W p cwd opts st) as [st1 [e|]] eqn:Hw; [done|].
      apply walkDir_clean in Hw as [Hclean1 Hroot]; [|done].
      intros Hrest. apply IH in Hrest as [Hclean' Hall]; [|done].
      split; [done|]. intros q Hq. apply elem_of_cons in Hq as [-> | Hq];
        [|by apply Hall].
      unfold root_fails. rewrite Hstat.
      by destruct (os_Lstat W p).
    + destruct (scanFile E W p cwd opts st) as [st1 [e|]] eqn:Hsf; [done|].
      apply scanFile_clean in Hsf as [Hclean1 Hroot]; [|done].
      intros Hrest. apply IH in Hrest as [Hclean' Hall]; [|done].
      split; [done|]. intros q Hq. apply elem_of_cons in Hq as [-> | Hq];
        [|by apply Hall].
      unfold root_fails. by rewrite Hstat.
Qed.
End FailFast.

Lemma Scan_root_fails E W paths opts :
  (forall cwd, os_Getwd W = OK cwd ->
     exists p, p ∈ clean_paths E paths
               /\ root_fails E W cwd (normalizeOptions opts) p = true) ->
  exists e, Scan E W paths opts = (Result_zero, Some e).
Proof.
  intros Hfail. unfold Scan.
  destruct (os_Getwd W) as [cwd|e]; [|by eexists].
  destruct (Hfail cwd eq_refl) as (p & Hp & Hf).
  destruct (scan_paths _ _ _ _ _ _) as [st [e|]] eqn:Hsp; [by eexists|].
  apply scan_paths_clean in Hsp as [_ Hall].
  - rewrite (Hall p Hp) in Hf. done.
  - intros a Ha. by apply elem_of_empty in Ha.
Qed.

(** C9.  [Scan] is fail-fast.  Whenever it returns an error, the result
    that comes with it is the empty [Result]: no finding, no scanned
    file, no skipped file.  And it does return an error when an explicit
    root path cannot be stat'ed; when a root directory holds, outside
    the directories pruned by the exclude patterns, a directory that
    cannot be read or a regular file that passes the filters and cannot
    be read; and when a root file passes the filters and cannot be
    read. *)
Theorem scan_fails_fast (E : Env) (W : World) (paths : list gostring)
    (opts : Options) :
  (forall r e, Scan E W paths opts = (r, Some e) -> r = Result_zero)
  /\ (forall p e0,
        p ∈ clean_paths E paths -> os_Stat W p = Err e0 ->
        exists e, Scan E W paths opts = (Result_zero, Some e))
  /\ (forall p n,
        p ∈ clean_paths E paths ->
        os_Stat W p = OK true -> os_Lstat W p = OK n ->
        (forall cwd, os_Getwd W = OK cwd ->
                     fails_in E W cwd (normalizeOptions opts) n = true) ->
        exists e, Scan E W paths opts = (Result_zero, Some e))
  /\ (forall p,
        p ∈ clean_paths E paths -> os_Stat W p = OK false ->
        (forall cwd, os_Getwd W = OK cwd ->
                     file_fails E W cwd (normalizeOptions opts) p = true) ->
        exists e, Scan E W paths opts = (Result_zero, Some e)).
Proof.
  split; [|split; [|split]].
  - intros r e. unfold Scan. destruct (os_Getwd W); [|by intros [= <-]].
    destruct (scan_paths _ _ _ _ _ _) as [st [e'|]]; by intros [= <-].
  - intros p e0 Hp Hstat. apply Scan_root_fails. intros cwd _.
    exists p. split; [done|]. unfold root_fails. by rewrite Hstat.
  - intros p n Hp Hstat Hlstat Hfail. apply Scan_root_fails. intros cwd Hwd.
    exists p. split; [done|]. unfold root_fails. rewrite Hstat, Hlstat. auto.
  - intros p Hp Hstat Hfail. apply Scan_root_fails. intros cwd Hwd.
    exists p. split; [done|]. unfold root_fails. rewrite Hstat. auto.
Qed.

Lemma scan_fails_fast_witness :
  exists e,
    Scan Sample.env Sample.greeting_world [str "sample.go"; str "missing.go"]
      Sample.options = (Result_zero, Some e).
Proof.
  apply (proj1 (proj2 (scan_fails_fast Sample.env Sample.greeting_world
                         [str "sample.go"; str "missing.go"] Sample.options))
           (str "missing.go") (os_error (str "stat") (str "missing.go"))).
  - vm_compute. constructor 2. constructor 1.
  - vm_compute. reflexivity.
Defined.

(** The three kinds of failure on concrete file systems: the error is
    returned with the empty result, also when files scanned before the
    failure had findings. *)
Lemma scan_missing_root :
  Scan Sample.env Sample.greeting_world [str "sample.go"; str "missing.go"]
    Sample.options
  = (Result_zero, Some (os_error (str "stat") (str "missing.go"))).
Proof. vm_compute. reflexivity. Qed.

Lemma scan_unreadable_directory :
  fails_in Sample.env Sample.blocked_world (str "/w") Sample.options Sample.blocked_tree = true
  /\ Scan Sample.env Sample.blocked_world [str "d"] Sample.options
     = (Result_zero, Some (os_error (str "open") (str "d/blocked"))).
Proof. split; vm_compute; reflexivity. Qed.

Lemma scan_unreadable_file :
  file_fails Sample.env Sample.unreadable_world (str "/w") Sample.options
    (str "sample.go") = true
  /\ Scan Sample.env Sample.unreadable_world [str "sample.go"] Sample.options
     = (Result_zero,
        Some (read_error (str "sample.go")
                (os_error (str "open") (str "/w/sample.go")))).
Proof. split; vm_compute; reflexivity. Qed.

(** ** Each canonical path is scanned at most once *)

Section Dedup.
Context (E : Env) (W : World) (cwd : gostring) (opts : Options).

Local Abbreviation fn := (walkFn E W cwd opts).
Local Abbreviation once := (scanned_once E W cwd opts).


Lemma add_scanned_findings r display fs :
  Findings (add_scanned r display fs) = Findings r ++ fs.
Proof.
  unfold add_scanned. cbn [Findings].
  destruct fs; [by rewrite app_nil_r | done].
Qed.

Lemma scanFile_once path st st' r :
  once st -> scanFile E W path cwd opts st = (st', r) -> once st'.
Proof.
  intros (l & Hnd & Hvis & Hsc & Hfs). unfold scanFile.
  destruct (filepath_Abs W path) as [abs|e]; [|intros [= <- <-]; by exists l].
  destruct (bool_decide_reflect (abs ∈ visited st)) as [Hin | Hnin];
    [intros [= <- <-]; by exists l|].
  assert (Hkeep : forall r0,
            ScannedFiles r0 = ScannedFiles (res st) ->
            Findings r0 = Findings (res st) ->
            once {| visited := {[abs]} ∪ visited st; res := r0 |}).
  { intros r0 H1 H2. exists l. cbn [visited res]. rewrite H1, H2.
    repeat split; try done. intros a Ha. apply elem_of_union. right. auto. }
  destruct (negb _); [intros [= <- <-]; by apply Hkeep|].
  destruct (isExcluded _ _ _); [intros [= <- <-]; by apply Hkeep|].
  destruct (isAllowedFile _ _ _); [intros [= <- <-]; by apply Hkeep|].
  destruct (os_ReadFile W abs) as [data|e] eqn:Hread;
    [|intros [= <- <-]; by apply Hkeep].
  destruct (isBinary data); [intros [= <- <-]; by apply Hkeep|].
  intros [= <- <-]. exists (l ++ [abs]). cbn [visited res].
  split; [|split; [|split]].
  - apply NoDup_app. split; [done|]. split; [|apply NoDup_singleton].
    intros a Ha Hb. apply list_elem_of_singleton in Hb. subst. auto.
  - intros a Ha. apply elem_of_app in Ha as [Ha | Ha]; apply elem_of_union.
    + right. auto.
    + left. apply list_elem_of_singleton in Ha. by apply elem_of_singleton.
  - cbn [add_scanned ScannedFiles]. by rewrite Hsc, map_app.
  - rewrite add_scanned_findings, Hfs, flat_map_app. cbn [flat_map].
    rewrite app_nil_r. unfold findings_of at 3. by rewrite Hread.
Qed.

Lemma walkFn_once path d err st st' r :
  once st -> fn path d err st = (st', r) -> once st'.
Proof.
  intros Honce. unfold walkFn. destruct err; [by intros [= <- <-]|].
  destruct (d_IsDir d).
  { destruct (_ && _); by intros [= <- <-]. }
  destruct (negb _); [by intros [= <- <-]|].
  destruct (scanFile _ _ _ _ _ _) as [st1 [e|]] eqn:Hsf;
    intros [= <- <-]; by eapply scanFile_once.
Qed.

Lemma walk_entries_once es :
  Forall (fun n => forall st st' r,
            once st -> walkDir_node fn n st = (st', r) -> once st') es ->
  forall st st' r,
    once st -> walk_entries (walkDir_node fn) es st = (st', r) -> once st'.
Proof.
  induction 1 as [|n es Hn _ IH]; intros st st' r Honce; cbn [walk_entries].
  - by intros [= <- <-].
  - destruct (walkDir_node fn n st) as [st1 r1] eqn:Hw.
    pose proof (Hn _ _ _ Honce Hw) as Honce1.
    destruct r1; [by apply IH | by intros [= <- <-]..].
Qed.

Lemma walkDir_node_once n :
  forall st st' r,
    once st -> walkDir_node fn n st = (st', r) -> once st'.
Proof.
  induction n as [p regular | p entries readErr IH] using fsnode_induction;
    intros st st' r Honce; cbn [walkDir_node].
  - by apply walkFn_once.
  - destruct (fn p dirEntry_dir None st) as [st1 r1] eqn:H1.
    pose proof (walkFn_once _ _ _ _ _ _ Honce H1) as Honce1.
    destruct r1; [|by intros [= <- <-]..].
    destruct readErr as [e|]; [|by apply walk_entries_once].
    destruct (fn p dirEntry_dir (Some e) st1) as [st2 r2] eqn:H2.
    pose proof (walkFn_once _ _ _ _ _ _ Honce1 H2) as Honce2.
    destruct r2; [by apply walk_entries_once | by intros [= <- <-]..].
Qed.

Lemma walkDir_once root st st' r :
  once st -> walkDir E W root cwd opts st = (st', r) -> once st'.
Proof.
  intros Honce. unfold walkDir, filepath_WalkDir.
  destruct (os_Lstat W root) as [n|e].
  - destruct (walkDir_node fn n st) as [st1 r1] eqn:Hw.
    pose proof (walkDir_node_once _ _ _ _ Honce Hw).
    destruct r1; by intros [= <- <-].
  - destruct (fn root dirEntry_dir (Some e) st) as [st1 r1] eqn:Hw.
    pose proof (walkFn_once _ _ _ _ _ _ Honce Hw).
    destruct r1; by intros [= <- <-].
Qed.

Lemma scan_paths_once paths st st' r :
  once st -> scan_paths E W cwd opts paths st = (st', r) -> once st'.
Proof.
  revert st. induction paths as [|p paths IH]; intros st Honce;
    cbn [scan_paths].
  - by intros [= <- <-].
  - destruct (os_Stat W p) as [[|]|e]; [| |by intros [= <- <-]].
    + destruct (walkDir E W p cwd opts st) as [st1 [e|]] eqn:Hw;
        pose proof (walkDir_once _ _ _ _ Honce Hw);
        [by intros [= <- <-] | by apply IH].
    + destruct (scanFile E W p cwd opts st) as [st1 [e|]] eqn:Hsf;
        pose proof (scanFile_once _ _ _ _ Honce Hsf);
        [by intros [= <- <-] | by apply IH].
Qed.

Lemma scanSt_init_once : once scanSt_init.
Proof.
  exists []. repeat split; try done; [constructor|].
  intros a Ha. by apply elem_of_nil in Ha.
Qed.
End Dedup.







(* ================================================================== *)
(** * Further properties of the scanner and of its callers *)

(** ** The findings of one file: positions *)
Lemma pos_lt_trans a b c : pos_lt a b -> pos_lt b c -> pos_lt a c.
Proof. unfold pos_lt. lia. Qed.

Lemma advance_fold_pos rs i line col :
  rs <> [] ->
  let '(_, line', col') := fold_left advance_rune rs (i, line, col) in
  pos_lt (line, col) (line', col') /\ (1 <= line -> 1 <= col -> 1 <= line' /\ 1 <= col').
Proof.
  revert i line col. induction rs as [|r rs IH]; intros i line col Hne; [done|].
  cbn [fold_left]. unfold advance_rune at 2.
  destruct rs as [|r' rs'].
  { cbn [fold_left]. destruct (r =? 10); unfold pos_lt; simpl; lia. }
  destruct (r =? 10).
  - specialize (IH (i + RuneLen r) (line + 1) 1 ltac:(done)).
    destruct (fold_left _ _ _) as [[i' line'] col'].
    destruct IH as [IH1 IH2]. unfold pos_lt in *. simpl in *. lia.
  - specialize (IH (i + RuneLen r) line (col + 1) ltac:(done)).
    destruct (fold_left _ _ _) as [[i' line'] col'].
    destruct IH as [IH1 IH2]. unfold pos_lt in *. simpl in *. lia.
Qed.

Section Positions.
Context (E : Env) (path text : gostring) (lines : list gostring).
Context (syntax : syntaxRules) (opts : Options).

Local Abbreviation body := (loop_body E path text lines syntax opts).
Local Abbreviation inspect := (inspect_rune E path text lines opts).
Local Abbreviation loop := (scan_loop E path text lines syntax opts).
Local Abbreviation round := (round_ok path lines opts).
Local Abbreviation inv := (positions_inv path text opts).

Lemma round_consume1 s state escaped : round s (consume1 s state escaped).
Proof. unfold round_ok, pos_lt. simpl. split; [by left|]. lia. Qed.

Lemma round_token s token state :
  token <> [] -> round s (consume_token s token state).
Proof.
  intros Hne. unfold consume_token, advanceByToken.
  pose proof (advance_fold_pos (runes token) (ls_i s) (ls_line s) (ls_col s)
                (runes_nonempty _ Hne)) as H.
  destruct (fold_left _ _ _) as [[i line] col].
  unfold round_ok. simpl. split; [by left|]. done.
Qed.

Lemma round_inspect s : round s (inspect s).
Proof.
  unfold inspect_rune, round_ok, written_at, pos_lt.
  destruct (DecodeRuneInString _) as [r size].
  destruct (_ && _).
  - simpl. split; [|lia].
    destruct (shouldInspect _ _); [right | by left].
    eexists. split; [reflexivity|]. done.
  - destruct (r =? 10); simpl; (split; [|lia]);
      (destruct (_ && _); [right | by left]);
      (eexists; split; [reflexivity|]; done).
Qed.

Lemma round_body s : slice_from text (ls_i s) <> [] -> round s (body s).
Proof.
  intros Hne. unfold loop_body.
  destruct (slice_from text (ls_i s)) as [|c rest] eqn:Hrest; [done|].
  destruct (ls_state s);
  repeat match goal with
  | |- context [matchPrefix ?a ?b] =>
      let Hm := fresh "Hm" in
      destruct (matchPrefix a b) eqn:Hm;
      [apply matchPrefix_Some in Hm as (_ & ? & _)|]
  | |- context [bool_decide ?P] => destruct (bool_decide_reflect P)
  | |- context [if ?c then _ else _] => destruct c eqn:?
  end;
  first [ apply round_consume1 | by apply round_token | apply round_inspect
        | idtac ].
  all: unfold round_ok, pos_lt; simpl; (split; [by left|]); lia.
Qed.

Lemma StronglySorted_snoc {A} (R : relation A) (l : list A) (x : A) :
  StronglySorted R l -> Forall (fun y => R y x) l -> StronglySorted R (l ++ [x]).
Proof.
  induction 1 as [|y l Hl IH Hy]; intros Hx; simpl.
  - repeat constructor.
  - inversion Hx; subst. constructor; [by apply IH|].
    apply Forall_app. split; [done|]. by constructor.
Qed.

Lemma positions_inv_body s :
  0 <= ls_i s < len text -> inv s -> inv (body s).
Proof.
  intros Hi (Hl & Hc & Hn & Hall & Hsort).
  pose proof (loop_body_advances E path text lines syntax opts s Hi) as Hadv.
  destruct (round_body s (slice_from_nonempty _ _ Hi)) as (Hw & Hpos & Hge).
  destruct (Hge Hl Hc) as [Hl' Hc'].
  assert (Hold : Forall (fun f => pos_lt (finding_pos f)
                                    (ls_line (body s), ls_col (body s))
                      /\ 1 <= Line f /\ 1 <= Column f
                      /\ Path f = path /\ FSeverity f = OSeverity opts)
            (ls_findings s)).
  { eapply Forall_impl; [exact Hall|]. intros f (? & ?). split; [|done].
    by eapply pos_lt_trans. }
  unfold positions_inv.
  destruct Hw as [Heq | (f & Heq & Hfl & Hfc & Hfp & Hfs & _)];
    rewrite Heq; repeat split; try done; try lia.
  - rewrite len_app. change (len [f]) with 1. lia.
  - apply Forall_app. split; [done|]. constructor; [|done].
    unfold finding_pos. rewrite Hfl, Hfc. repeat split; try done; lia.
  - apply StronglySorted_snoc; [done|].
    eapply Forall_impl; [exact Hall|]. intros g (Hg & _).
    unfold finding_pos at 2. by rewrite Hfl, Hfc.
Qed.

Lemma scan_loop_positions fuel s fs :
  0 <= ls_i s -> inv s -> loop fuel s = Some fs ->
  exists s', inv s' /\ ls_findings s' = fs.
Proof.
  revert s. induction fuel as [|f IH]; intros s H0 Hinv; cbn [scan_loop];
    destruct (ls_i s <? len text) eqn:Hlt; zb; try done.
  1,3: intros [= <-]; by exists s.
  intros Hloop.
  pose proof (loop_body_advances E path text lines syntax opts s ltac:(lia)).
  by apply (IH (body s) ltac:(lia) (positions_inv_body s ltac:(lia) Hinv)).
Qed.
End Positions.

Lemma scanContent_positions_inv E path data syntax opts :
  exists s, positions_inv path data opts s
            /\ ls_findings s = scanContent E path data syntax opts.
Proof.
  destruct (scan_loop_total E path data (Split_nl data) syntax opts
              (length data) loop_init) as [fs Hfs];
    [simpl; lia | simpl; unfold len; lia |].
  destruct (scan_loop_positions E path data (Split_nl data) syntax opts
              (length data) loop_init fs) as (s & Hinv & Hs); [simpl; lia| |done|].
  - unfold positions_inv, len. simpl.
    repeat split; try lia; constructor.
  - exists s. split; [done|]. unfold scanContent. by rewrite Hfs.
Qed.

(** X1.  The findings of [scanContent] stand at strictly increasing
    positions (line, then column): the list is in text order and no two
    findings share a position. *)
Theorem scanContent_positions_increase (E : Env) (path : gostring)
    (data : list byte) (syntax : syntaxRules) (opts : Options) :
  StronglySorted (fun a b => pos_lt (finding_pos a) (finding_pos b))
    (scanContent E path data syntax opts).
Proof.
  destruct (scanContent_positions_inv E path data syntax opts)
    as (s & (_ & _ & _ & _ & Hsort) & <-). done.
Qed.

(** X2.  Every finding of [scanContent] carries the path it was given
    and the severity of the options, and stands at a line and a column
    from 1 on; there are at most as many findings as bytes. *)
Theorem scanContent_findings_wellformed (E : Env) (path : gostring)
    (data : list byte) (syntax : syntaxRules) (opts : Options) :
  Forall (fun f => Path f = path /\ FSeverity f = OSeverity opts
                   /\ 1 <= Line f /\ 1 <= Column f)
         (scanContent E path data syntax opts)
  /\ len (scanContent E path data syntax opts) <= len data.
Proof.
  destruct (scanContent_positions_inv E path data syntax opts)
    as (s & (_ & _ & Hn & Hall & _) & <-). split; [|lia].
  eapply Forall_impl; [exact Hall|]. naive_solver.
Qed.

(** ** The encoder and the decoder agree *)
Lemma lor_lead (c x n : Z) :
  0 <= n -> 0 <= x < 2 ^ n -> c mod 2 ^ n = 0 -> Z.lor c x = c + x.
Proof. intros. by apply (lor_disjoint c x n). Qed.

Lemma tx_byte (z : Z) (b : byte) :
  0x80 <= bv b <= 0xBF -> z mod 64 = bv b mod 64 ->
  byte_of_Z (Z.lor 0x80 (Z.land z 0x3F)) = b.
Proof.
  intros Hb Hz. apply byte_of_bv.
  change 0x3F with (2 ^ 6 - 1). rewrite land_low by lia.
  rewrite (lor_lead _ _ 6); [| lia | apply Z.mod_pos_bound; lia | done].
  change (2 ^ 6) with 64. rewrite Hz. Z.div_mod_to_equations. lia.
Qed.

Lemma lead_byte (c n k r : Z) (b : byte) :
  0 <= n -> 0 <= k -> c mod 2 ^ n = 0 ->
  0 <= r / 2 ^ k < 2 ^ n -> c + r / 2 ^ k = bv b ->
  byte_of_Z (Z.lor c (Z.shiftr r k)) = b.
Proof.
  intros Hn Hk Hc Hr Hb. apply byte_of_bv.
  rewrite Z.shiftr_div_pow2 by done.
  by rewrite (lor_lead _ _ n).
Qed.

Ltac enc_err := intros [= <- <-] Hne; by destruct Hne.

Ltac enc_guard :=
  repeat (match goal with
          | |- context [if ?c then (RuneError, 1) else _] => dec_split c
          end; [enc_err|]).

Ltac enc_if :=
  unfold encode_rune, is_surrogate;
  repeat match goal with
  | |- context [if ?c then _ else _] =>
      destruct c eqn:?; zb; try (exfalso; Z.div_mod_to_equations; lia)
  end.

(** The decoder and the encoder agree: a rune that the decoder reads
    from a string is encoded by exactly the bytes it was read from. *)
Lemma encode_Decode b t r size :
  DecodeRuneInString (b :: t) = (r, size) ->
  ~ (r = RuneError /\ size = 1) ->
  encode_rune r = slice_to (b :: t) size.
Proof.
  unfold DecodeRuneInString. pose proof (bv_range b) as Hb.
  remember (bv b) as s0 eqn:Hs0.
  pose proof (len_nonneg t) as Ht. rewrite len_cons.
  unfold utf8_first.
  destruct (s0 <? 128) eqn:H1.
  { simpl. intros [= <- <-] _. zb. unfold encode_rune, is_surrogate.
    repeat match goal with
    | |- context [if ?c then _ else _] => destruct c eqn:?; zb; try lia
    end.
    unfold slice_to. simpl. f_equal. by apply byte_of_bv. }
  zb.
  destruct (s0 <? 194) eqn:H2.
  { simpl. enc_err. }
  destruct (s0 <? 224) eqn:H3;
    [|destruct (s0 =? 224) eqn:H4;
      [|destruct (s0 <? 237) eqn:H5;
        [|destruct (s0 =? 237) eqn:H6;
          [|destruct (s0 <? 240) eqn:H7;
            [|destruct (s0 =? 240) eqn:H8;
              [|destruct (s0 <? 244) eqn:H9;
                [|destruct (s0 =? 244) eqn:H10]]]]]]];
    zb.
  all: repeat match goal with
       | |- context [Z.land (Z.pos ?p) 7] =>
           let v := eval vm_compute in (Z.land (Z.pos p) 7) in
           change (Z.land (Z.pos p) 7) with v
       | |- context [utf8_accept ?a] =>
           let v := eval vm_compute in (utf8_accept a) in
           change (utf8_accept a) with v
       | |- context [?a <=? ?b] =>
           let v := eval vm_compute in (a <=? b) in
           match v with true => idtac | false => idtac end;
           change (a <=? b) with v
       end; cbv beta iota.
  all: try solve [simpl; enc_err].
  all: destruct t as [|b1 t1]; [try enc_guard; enc_err|].
  all: rewrite ?len_cons in *; pose proof (len_nonneg t1);
    pose proof (bv_range b1) as Hb1; remember (bv b1) as s1 eqn:Hs1.
  all: enc_guard; zb.
  all: try solve [
    rewrite decode2_arith; intros [= <- <-] _;
    enc_if; unfold slice_to; change (Z.to_nat 2) with 2%nat; cbn [take];
    f_equal; [|f_equal];
    [ apply (lead_byte _ 5 6); [lia | lia | done | | ];
      change (2 ^ 6) with 64; change (2 ^ 5) with 32;
      Z.div_mod_to_equations; lia
    | apply tx_byte; [lia|]; Z.div_mod_to_equations; lia ] ].
  all: destruct t1 as [|b2 t2]; [enc_err|].
  all: rewrite ?len_cons in *; pose proof (len_nonneg t2);
    pose proof (bv_range b2) as Hb2; unfold is_cont in *;
    remember (bv b2) as s2 eqn:Hs2.
  all: enc_guard; zb.
  all: try solve [
    rewrite decode3_arith; intros [= <- <-] _;
    enc_if; unfold slice_to; change (Z.to_nat 3) with 3%nat; cbn [take];
    f_equal; [|f_equal; [|f_equal]];
    [ apply (lead_byte _ 4 12); [lia | lia | done | | ];
      change (2 ^ 12) with 4096; change (2 ^ 4) with 16;
      Z.div_mod_to_equations; lia
    | apply tx_byte; [lia|]; rewrite Z.shiftr_div_pow2 by lia;
      change (2 ^ 6) with 64; Z.div_mod_to_equations; lia
    | apply tx_byte; [lia|]; Z.div_mod_to_equations; lia ] ].
  all: destruct t2 as [|b3 t3]; [enc_err|].
  all: rewrite ?len_cons in *; pose proof (len_nonneg t3);
    pose proof (bv_range b3) as Hb3; unfold is_cont in *;
    remember (bv b3) as s3 eqn:Hs3.
  all: enc_guard; zb.
  all: try solve [
    rewrite decode4_arith; intros [= <- <-] _;
    enc_if; unfold slice_to; change (Z.to_nat 4) with 4%nat; cbn [take];
    f_equal; [|f_equal; [|f_equal; [|f_equal]]];
    [ apply (lead_byte _ 3 18); [lia | lia | done | | ];
      change (2 ^ 18) with 262144; change (2 ^ 3) with 8;
      Z.div_mod_to_equations; lia
    | apply tx_byte; [lia|]; rewrite Z.shiftr_div_pow2 by lia;
      change (2 ^ 12) with 4096; Z.div_mod_to_equations; lia
    | apply tx_byte; [lia|]; rewrite Z.shiftr_div_pow2 by lia;
      change (2 ^ 6) with 64; Z.div_mod_to_equations; lia
    | apply tx_byte; [lia|]; Z.div_mod_to_equations; lia ] ].
Qed.
Lemma bv_byte_of_Z z : 0 <= z < 256 -> bv (byte_of_Z z) = z.
Proof.
  intros Hz. unfold bv, byte_of_Z. rewrite Z.mod_small by lia.
  destruct (Byte.of_N (Z.to_N z)) as [b|] eqn:Hb.
  - apply Byte.to_of_N in Hb. simpl. rewrite Hb. lia.
  - apply Byte.of_N_None_iff in Hb. lia.
Qed.

Lemma bv_lead (c n k r : Z) :
  0 <= n -> 0 <= k -> c mod 2 ^ n = 0 -> 0 <= c -> c + 2 ^ n <= 256 ->
  0 <= r / 2 ^ k < 2 ^ n ->
  bv (byte_of_Z (Z.lor c (Z.shiftr r k))) = c + r / 2 ^ k.
Proof.
  intros Hn Hk Hc Hc0 Hc1 Hr.
  rewrite Z.shiftr_div_pow2 by done.
  rewrite (lor_lead _ _ n) by done.
  apply bv_byte_of_Z. lia.
Qed.

Lemma bv_tx (z : Z) :
  bv (byte_of_Z (Z.lor 0x80 (Z.land z 0x3F))) = 0x80 + z mod 64.
Proof.
  change 0x3F with (2 ^ 6 - 1). rewrite land_low by lia.
  pose proof (Z.mod_pos_bound z 64 ltac:(lia)).
  rewrite (lor_lead _ _ 6); [| lia | done | done].
  apply bv_byte_of_Z. change (2 ^ 6) with 64. lia.
Qed.

Ltac enc_cases :=
  unfold encode_rune, is_surrogate, utf8_tx;
  repeat match goal with
  | |- context [if ?c then _ else _] => destruct c eqn:?; zb; try lia
  end; try done.

Lemma encode_rune_1 r : 0 <= r <= 0x7F -> encode_rune r = [byte_of_Z r].
Proof. intros. enc_cases. Qed.

Lemma encode_rune_2 r :
  0x80 <= r <= 0x7FF ->
  encode_rune r = [byte_of_Z (Z.lor 0xC0 (Z.shiftr r 6)); utf8_tx r].
Proof. intros. enc_cases. Qed.

Lemma encode_rune_3 r :
  0x800 <= r <= 0xFFFF -> ~ (0xD800 <= r <= 0xDFFF) ->
  encode_rune r
  = [byte_of_Z (Z.lor 0xE0 (Z.shiftr r 12)); utf8_tx (Z.shiftr r 6); utf8_tx r].
Proof. intros. enc_cases. Qed.

Lemma encode_rune_4 r :
  0x10000 <= r <= 0x10FFFF ->
  encode_rune r
  = [byte_of_Z (Z.lor 0xF0 (Z.shiftr r 18)); utf8_tx (Z.shiftr r 12);
     utf8_tx (Z.shiftr r 6); utf8_tx r].
Proof. intros. enc_cases. Qed.

Ltac dec_if :=
  repeat match goal with
  | |- context [if ?c then _ else _] =>
      destruct c eqn:?; zb; try (exfalso; Z.div_mod_to_equations; lia)
  end.

Ltac fold_consts :=
  repeat match goal with
       | |- context [Z.land (Z.pos ?p) 7] =>
           let v := eval vm_compute in (Z.land (Z.pos p) 7) in
           change (Z.land (Z.pos p) 7) with v
       | |- context [utf8_accept ?a] =>
           let v := eval vm_compute in (utf8_accept a) in
           change (utf8_accept a) with v
       | |- context [Z.pos ?a <=? Z.pos ?b] =>
           let v := eval vm_compute in (Z.pos a <=? Z.pos b) in
           change (Z.pos a <=? Z.pos b) with v
       end; cbv beta iota.

Ltac first_is v :=
  match goal with
  | |- context [utf8_first ?s] =>
      let H := fresh "Hfirst" in
      assert (utf8_first s = v) as H
        by (unfold utf8_first; dec_if; done);
      rewrite H; clear H
  end.

(** The encoder and the decoder agree: the encoding of a valid rune,
    followed by anything, decodes to that rune and its width. *)
Lemma Decode_encode r rest :
  1 <= RuneLen r ->
  DecodeRuneInString (encode_rune r ++ rest) = (r, RuneLen r).
Proof.
  unfold RuneLen, is_surrogate.
  destruct (r <? 0) eqn:H0; zb; [lia|].
  destruct (r <=? 127) eqn:H1; zb.
  { intros _. rewrite encode_rune_1 by lia. cbn [app].
    unfold DecodeRuneInString.
    rewrite bv_byte_of_Z by lia. unfold utf8_first.
    assert ((r <? 128) = true) as -> by (apply Z.ltb_lt; lia). done. }
  destruct (r <=? 2047) eqn:H2; zb.
  { intros _. rewrite encode_rune_2 by lia. cbn [app]. unfold utf8_tx.
    unfold DecodeRuneInString.
    rewrite (bv_lead _ 5 6), bv_tx;
      [| lia | lia | done | lia | done
       | change (2 ^ 6) with 64; change (2 ^ 5) with 32;
         Z.div_mod_to_equations; lia].
    change (2 ^ 6) with 64.
    remember (192 + r / 64) as s0 eqn:Hs0.
    remember (128 + r mod 64) as s1 eqn:Hs1.
    rewrite !len_cons. pose proof (len_nonneg rest).
    first_is 2. fold_consts. dec_if.
    rewrite decode2_arith. f_equal. Z.div_mod_to_equations. lia. }
  destruct ((55296 <=? r) && (r <=? 57343)) eqn:H3; zb; [lia|].
  destruct (r <=? 65535) eqn:H4; zb.
  { intros _. rewrite encode_rune_3 by lia. cbn [app]. unfold utf8_tx.
    unfold DecodeRuneInString. rewrite !Z.shiftr_div_pow2 by lia.
    rewrite <- (Z.shiftr_div_pow2 r 12) by lia.
    rewrite (bv_lead _ 4 12), !bv_tx;
      [| lia | lia | done | lia | done
       | change (2 ^ 12) with 4096; change (2 ^ 4) with 16;
         Z.div_mod_to_equations; lia].
    change (2 ^ 6) with 64. change (2 ^ 12) with 4096.
    remember (224 + r / 4096) as s0 eqn:Hs0.
    remember (128 + (r / 64) mod 64) as s1 eqn:Hs1.
    remember (128 + r mod 64) as s2 eqn:Hs2.
    rewrite !len_cons. pose proof (len_nonneg rest).
    unfold is_cont.
    destruct (s0 =? 224) eqn:Ha; [|destruct (s0 =? 237) eqn:Hb]; zb;
      [first_is 19 | first_is 35 | first_is 3];
      fold_consts; dec_if;
      rewrite decode3_arith; f_equal; Z.div_mod_to_equations; lia. }
  destruct (r <=? 1114111) eqn:H5; zb; [|lia].
  intros _. rewrite encode_rune_4 by lia. cbn [app]. unfold utf8_tx.
  unfold DecodeRuneInString. rewrite !Z.shiftr_div_pow2 by lia.
  rewrite <- (Z.shiftr_div_pow2 r 18) by lia.
  rewrite (bv_lead _ 3 18), !bv_tx;
    [| lia | lia | done | lia | done
     | change (2 ^ 18) with 262144; change (2 ^ 3) with 8;
       Z.div_mod_to_equations; lia].
  change (2 ^ 6) with 64. change (2 ^ 12) with 4096. change (2 ^ 18) with 262144.
  remember (240 + r / 262144) as s0 eqn:Hs0.
  remember (128 + (r / 4096) mod 64) as s1 eqn:Hs1.
  remember (128 + (r / 64) mod 64) as s2 eqn:Hs2.
  remember (128 + r mod 64) as s3 eqn:Hs3.
  rewrite !len_cons. pose proof (len_nonneg rest).
  unfold is_cont.
  destruct (s0 =? 240) eqn:Ha; [|destruct (s0 =? 244) eqn:Hb]; zb;
    [first_is 52 | first_is 68 | first_is 4];
    fold_consts; dec_if;
    rewrite decode4_arith; f_equal; Z.div_mod_to_equations; lia.
Qed.

(** ** The character of a finding *)
(** X3.  The [Character] of a finding is the offending character as it
    stands in the file: the finding belongs to a rune of the text, it
    carries the line and the column of that rune, and its character is
    the bytes of the file the rune was decoded from - or "?" when
    these are one invalid byte. *)
Theorem finding_character_is_source (E : Env) (p path : gostring)
    (data : list byte) (opts : Options) (f : Finding) :
  f ∈ scanContent E path data (syntaxForPath E p) opts ->
  exists x,
    x ∈ text_runes data
    /\ Line f = ra_line x /\ Column f = ra_col x
    /\ 0 <= ra_offset x /\ ra_offset x + ra_size x <= len data
    /\ (if ra_invalid x
        then Character f = str "?" /\ ra_size x = 1
        else Character f
             = slice_to (slice_from data (ra_offset x)) (ra_size x)).
Proof.
  intros Hf.
  destruct (scanContent_vs_text E path data (syntaxForPath E p) opts
              (syntaxForPath_plain E p)) as [Hsub _].
  eapply elem_of_sublist in Hf; [|exact Hsub].
  unfold findings_of_text, expected in Hf.
  apply list_elem_of_fmap in Hf as (x & -> & Hx).
  apply list_elem_of_filter in Hx as [_ Hx].
  exists x. split; [done|].
  pose proof (text_runes_positions data) as Hpos.
  rewrite Forall_forall in Hpos.
  destruct (Hpos x Hx) as (Hoff & _ & Hend & Hd).
  unfold finding_at. destruct (ra_invalid x) eqn:Hinv.
  - cbn [invalid_finding Line Column Character].
    unfold ra_invalid in Hinv. zb. repeat split; try done; lia.
  - cbn [rune_finding Line Column Character].
    repeat split; try done; try lia.
    pose proof (slice_from_nonempty data (ra_offset x) Hoff) as Hne.
    destruct (slice_from data (ra_offset x)) as [|b t]; [done|].
    apply encode_Decode; [done|].
    unfold ra_invalid in Hinv. intros [Hr Hs]. rewrite Hr, Hs in Hinv. done.
Qed.

Lemma finding_character_is_source_witness :
  exists x,
    x ∈ text_runes Sample.greeting
    /\ Line Sample.greeting_first = ra_line x
    /\ Column Sample.greeting_first = ra_col x
    /\ 0 <= ra_offset x /\ ra_offset x + ra_size x <= len Sample.greeting
    /\ (if ra_invalid x
        then Character Sample.greeting_first = str "?" /\ ra_size x = 1
        else Character Sample.greeting_first
             = slice_to (slice_from Sample.greeting (ra_offset x)) (ra_size x)).
Proof.
  apply (finding_character_is_source Sample.env (str "sample.go")
           (str "sample.go") Sample.greeting Sample.options).
  vm_compute. constructor 1.
Defined.

(** ** Patterns *)
Lemma HasSuffix_app (s suffix : gostring) : HasSuffix (s ++ suffix) suffix = true.
Proof. unfold HasSuffix. rewrite reverse_app. apply HasPrefix_self_app. Qed.

Lemma TrimSuffix_app (s suffix : gostring) : TrimSuffix (s ++ suffix) suffix = s.
Proof.
  unfold TrimSuffix. rewrite HasSuffix_app, length_app.
  replace (length s + length suffix - length suffix)%nat with (length s) by lia.
  apply take_app_length.
Qed.

Lemma matches_exists E path patterns :
  matches E path patterns = true <->
  exists p, p ∈ patterns
    /\ strings_TrimSpace E p <> []
    /\ (match_Match E (strings_TrimSpace E p) path = true
        \/ match_Match E (strings_TrimSpace E p) (Base path) = true
        \/ (HasSuffix (strings_TrimSpace E p) (str "/**") = true
            /\ (path = TrimSuffix (strings_TrimSpace E p) (str "/**")
                \/ HasPrefix path (TrimSuffix (strings_TrimSpace E p) (str "/**")
                                   ++ str "/") = true))).
Proof.
  unfold matches, ToSlash. rewrite existsb_exists. split.
  - intros (p & Hin & Hp). exists p. split; [by apply list_elem_of_In|].
    destruct (bool_decide_reflect (strings_TrimSpace E p = [])); [done|].
    split; [done|].
    destruct (match_Match E _ path) eqn:H1; [by left|].
    destruct (match_Match E _ (Base path)) eqn:H2; [by right; left|].
    simpl in Hp. right. right.
    destruct (HasSuffix _ _); [|done]. split; [done|].
    apply orb_true_iff in Hp as [Hp | Hp]; [left | by right].
    by apply bool_decide_eq_true in Hp.
  - intros (p & Hin & Hne & Hp). exists p. split; [by apply list_elem_of_In|].
    rewrite bool_decide_eq_false_2 by done.
    destruct Hp as [-> | [-> | (-> & Hp)]]; [done | by rewrite orb_true_r |].
    destruct (_ || _); [done|].
    apply orb_true_iff. destruct Hp as [-> | ->]; [left | by right].
    by apply bool_decide_eq_true.
Qed.

(** X12.  A pattern [dir/**] covers the directory [dir] and every path
    below it, whatever [match.Match] answers: such a path is excluded by
    an exclude list that holds the pattern, included by an include list
    that holds it, and allowed by an allow-file list that holds it. *)
Theorem dir_glob_covers_tree (E : Env) (patterns : list gostring)
    (p dir path : gostring) :
  p ∈ patterns ->
  strings_TrimSpace E p = dir ++ str "/**" ->
  path = dir \/ HasPrefix path (dir ++ str "/") = true ->
  matches E path patterns = true
  /\ isExcluded E path patterns = true
  /\ isIncluded E path patterns = true
  /\ isAllowedFile E path patterns = true.
Proof.
  intros Hin Htrim Hpath.
  assert (Hm : matches E path patterns = true).
  { apply matches_exists. exists p. split; [done|]. rewrite Htrim.
    split; [by destruct dir|]. right. right.
    by rewrite HasSuffix_app, TrimSuffix_app. }
  assert ((len patterns =? 0) = false) as Hlen.
  { apply Z.eqb_neq. destruct patterns; [by apply elem_of_nil in Hin|].
    rewrite len_cons. pose proof (len_nonneg patterns). lia. }
  unfold isExcluded, isIncluded, isAllowedFile. by rewrite Hlen, Hm.
Qed.

Lemma dir_glob_covers_tree_witness :
  let path := str "vendor/lib/a.go" in
  let patterns := [str "*.lock"; str " vendor/** "] in
  matches Sample.env path patterns = true
  /\ isExcluded Sample.env path patterns = true
  /\ isIncluded Sample.env path patterns = true
  /\ isAllowedFile Sample.env path patterns = true.
Proof.
  apply (dir_glob_covers_tree Sample.env _ (str " vendor/** ") (str "vendor")).
  - constructor 2. constructor 1.
  - vm_compute. reflexivity.
  - right. vm_compute. reflexivity.
Defined.

(** X13.  Blank patterns match nothing.  A list of blank patterns
    excludes no path and allows no file, as the empty list does; but as
    an include list it selects no path at all, while the empty include
    list selects every path. *)
Theorem blank_patterns_match_nothing (E : Env) (path : gostring)
    (patterns : list gostring) :
  Forall (fun p => strings_TrimSpace E p = []) patterns ->
  matches E path patterns = false
  /\ isExcluded E path patterns = false
  /\ isAllowedFile E path patterns = false
  /\ isIncluded E path patterns = bool_decide (patterns = [])
  /\ isIncluded E path [] = true.
Proof.
  intros Hblank.
  assert (Hm : forall q, matches E q patterns = false).
  { intros q. destruct (matches E q patterns) eqn:Hq; [|done].
    apply matches_exists in Hq as (p & Hin & Hne & _).
    rewrite Forall_forall in Hblank. by rewrite (Hblank p Hin) in Hne. }
  unfold isExcluded, isAllowedFile, isIncluded. rewrite !Hm.
  repeat split; try by destruct (len patterns =? 0).
  destruct patterns as [|p ps]; [done|].
  rewrite bool_decide_eq_false_2 by done.
  assert ((len (p :: ps) =? 0) = false) as ->; [|done].
  apply Z.eqb_neq. rewrite len_cons. pose proof (len_nonneg ps). lia.
Qed.

Lemma blank_patterns_match_nothing_witness :
  let path := str "a.go" in
  let patterns := [str " "; []] in
  matches Sample.env path patterns = false
  /\ isExcluded Sample.env path patterns = false
  /\ isAllowedFile Sample.env path patterns = false
  /\ isIncluded Sample.env path patterns = bool_decide (patterns = [])
  /\ isIncluded Sample.env path [] = true.
Proof.
  apply blank_patterns_match_nothing. repeat constructor.
Defined.

(** ** The code point of a finding *)
Lemma digit_value_hex d : 0 <= d < 16 -> digit_value (hex_digit d) = d.
Proof.
  intros Hd. unfold digit_value, hex_digit.
  destruct (d <? 10) eqn:H; zb; rewrite bv_byte_of_Z by lia.
  - assert ((48 + d <? 58) = true) as -> by (apply Z.ltb_lt; lia). lia.
  - assert ((55 + d <? 58) = false) as -> by (apply Z.ltb_ge; lia). lia.
Qed.

Lemma fold_hex_app (a b : gostring) v :
  fold_left (fun v b => v * 16 + digit_value b) (a ++ b) v
  = fold_left (fun v b => v * 16 + digit_value b) b
      (fold_left (fun v b => v * 16 + digit_value b) a v).
Proof. apply fold_left_app. Qed.

Lemma hex_upper_digits fuel n acc :
  0 <= n < 16 ^ Z.of_nat fuel -> (0 < fuel)%nat ->
  exists ds, hex_upper fuel n acc = ds ++ acc
             /\ hex_value ds = n /\ ds <> [].
Proof.
  revert n acc. induction fuel as [|f IH]; intros n acc Hn Hf; [lia|].
  cbn [hex_upper].
  assert (0 <= n mod 16 < 16) as Hd by (apply Z.mod_pos_bound; lia).
  destruct (n / 16 =? 0) eqn:Hq; zb.
  - exists [hex_digit (n mod 16)]. split; [done|]. split; [|done].
    unfold hex_value. simpl. rewrite digit_value_hex by done.
    Z.div_mod_to_equations. lia.
  - destruct f as [|f'].
    { change (16 ^ Z.of_nat 1) with 16 in Hn. Z.div_mod_to_equations. lia. }
    destruct (IH (n / 16) (hex_digit (n mod 16) :: acc)) as (ds & Heq & Hv & Hne).
    + rewrite Nat2Z.inj_succ, Z.pow_succ_r in Hn by lia.
      Z.div_mod_to_equations. lia.
    + lia.
    + exists (ds ++ [hex_digit (n mod 16)]). rewrite Heq, <- app_assoc.
      split; [done|]. split; [|by destruct ds].
      unfold hex_value in *. rewrite fold_hex_app, Hv. simpl.
      rewrite digit_value_hex by done. Z.div_mod_to_equations. lia.
Qed.

Lemma hex_value_pad k s : hex_value (replicate k x30 ++ s) = hex_value s.
Proof.
  unfold hex_value. rewrite fold_hex_app. f_equal.
  induction k as [|k IH]; [done|].
  rewrite replicate_S_end, fold_hex_app, IH. done.
Qed.

Lemma parse_format_codepoint r :
  0 <= r < 16 ^ 16 -> parse_codepoint (format_codepoint r) = r.
Proof.
  intros Hr. unfold parse_codepoint, format_codepoint, pad4.
  change (slice_from (str "U+" ++ ?x) 2) with x.
  destruct (hex_upper_digits 16 r [] Hr ltac:(lia)) as (ds & Heq & Hv & _).
  rewrite hex_value_pad, Heq, app_nil_r. done.
Qed.

(** X4.  The code point text of a finding determines its rune: it is
    ["U+"] followed by at least four hexadecimal digits whose value is
    the rune, so findings for different runes carry different code
    points. *)
Theorem codepoint_identifies_rune (E : Env) (path : gostring)
    (lines : list gostring) (opts : Options) (line col r : Z) :
  0 <= r <= 0x10FFFF ->
  let f := rune_finding E path lines opts line col r in
  HasPrefix (CodePoint f) (str "U+") = true
  /\ 6 <= len (CodePoint f)
  /\ parse_codepoint (CodePoint f) = r
  /\ (forall line' col' r',
        0 <= r' <= 0x10FFFF ->
        CodePoint (rune_finding E path lines opts line' col' r') = CodePoint f ->
        r' = r).
Proof.
  intros Hr f. unfold f. cbn [rune_finding CodePoint].
  split; [apply HasPrefix_self_app|]. split; [|split].
  - unfold format_codepoint, pad4. rewrite !len_app. unfold len.
    rewrite length_replicate. simpl. lia.
  - apply parse_format_codepoint. lia.
  - intros line' col' r' Hr' Heq.
    rewrite <- (parse_format_codepoint r') by lia.
    rewrite Heq. apply parse_format_codepoint. lia.
Qed.

Lemma codepoint_identifies_rune_witness :
  let f := rune_finding Sample.env (str "a.go") [] Sample.options 1 1 0x3053 in
  HasPrefix (CodePoint f) (str "U+") = true
  /\ 6 <= len (CodePoint f)
  /\ parse_codepoint (CodePoint f) = 0x3053
  /\ (forall line' col' r',
        0 <= r' <= 0x10FFFF ->
        CodePoint (rune_finding Sample.env (str "a.go") [] Sample.options line' col' r')
          = CodePoint f ->
        r' = 0x3053).
Proof.
  apply (codepoint_identifies_rune Sample.env (str "a.go") [] Sample.options
           1 1 0x3053). lia.
Defined.

(** ** Files without a syntax profile *)
Section NoContext.
Context (E : Env) (path text : gostring) (lines : list gostring).
Context (syntax : syntaxRules) (opts : Options).
Hypothesis Hsyntax :
  lineComments syntax = [] /\ blockStart syntax = [] /\ strings syntax = false.

Lemma context_loop_no_context fuel s :
  ls_state s = stateCode ->
  Forall (fun c => c.1 = stateCode)
         (context_loop E path text lines syntax opts fuel s).
Proof.
  revert s. induction fuel as [|f IH]; intros s Hs; cbn [context_loop];
    destruct (ls_i s <? len text); try constructor.
  apply Forall_app. split.
  - apply Forall_fmap, Forall_true. done.
  - apply IH. destruct Hsyntax as (Hlc & Hbs & Hstr).
    unfold loop_body. rewrite Hs, Hlc, Hbs, Hstr.
    destruct (slice_from text (ls_i s)) as [|c rest]; [done|].
    cbn [matchPrefix]. rewrite bool_decide_eq_true_2 by done. cbn [negb andb].
    unfold inspect_rune. rewrite Hs.
    destruct (DecodeRuneInString _) as [r size].
    by repeat case_match.
Qed.
End NoContext.

Lemma filter_all {A} (P : A -> Prop) `{!forall x, Decision (P x)} (l : list A) :
  Forall P l -> filter P l = l.
Proof.
  induction 1 as [|x l Hx _ IH]; [done|].
  by rewrite filter_cons_True, IH.
Qed.

(** X5.  In a file without a syntax profile nothing is a comment or a
    string: the ignore flags have no effect, and the scanner reports
    every offending rune of the text. *)
Theorem no_profile_inspects_everything (E : Env) (path : gostring)
    (data : list byte) (syntax : syntaxRules) (opts : Options) :
  lineComments syntax = [] -> blockStart syntax = [] ->
  strings syntax = false -> blockEnd syntax = [] ->
  scanContent E path data syntax opts = findings_of_text E path data opts.
Proof.
  intros Hlc Hbs Hstr Hbe.
  rewrite scanContent_contexts.
  rewrite filter_all.
  - change (findings_of_text E path data opts)
      with (findings_of_text E path data (set_flags false false opts)).
    destruct (scanContent_vs_text E path data syntax (set_flags false false opts))
      as [_ Heq].
    { unfold plain_syntax. by rewrite Hlc, Hbs, Hbe. }
    rewrite <- Heq by done.
    rewrite scanContent_contexts. rewrite filter_all; [done|].
    apply Forall_true. intros [st f]. apply shouldInspect_opts0.
  - eapply Forall_impl.
    + by apply (context_loop_no_context E path data (Split_nl data) syntax opts).
    + intros [st f] Hst. simpl in Hst. by rewrite Hst.
Qed.

Lemma no_profile_inspects_everything_witness :
  scanContent Sample.env (str "notes.txt") Sample.three_contexts
    (syntaxForPath Sample.env (str "notes.txt"))
    (set_flags true true Sample.options)
  = findings_of_text Sample.env (str "notes.txt") Sample.three_contexts
      (set_flags true true Sample.options).
Proof.
  apply no_profile_inspects_everything; vm_compute; reflexivity.
Defined.

(** ** Tokens *)
(** ** [matchPrefix] returns the first match *)

(** X6.  [matchPrefix] returns the first non-empty prefix of the list
    that the input starts with, and nothing exactly when there is
    none. *)
Theorem matchPrefix_first (input : gostring) (prefixes : list gostring) :
  match matchPrefix input prefixes with
  | Some p =>
      exists before after,
        prefixes = before ++ p :: after
        /\ p <> [] /\ HasPrefix input p = true
        /\ Forall (fun q => q = [] \/ HasPrefix input q = false) before
  | None => Forall (fun q => q = [] \/ HasPrefix input q = false) prefixes
  end.
Proof.
  induction prefixes as [|q qs IH]; cbn [matchPrefix]; [constructor|].
  destruct (bool_decide_reflect (q = [])) as [Hq | Hq].
  - destruct (matchPrefix input qs) as [p|].
    + destruct IH as (before & after & -> & Hp & Hpre & Hall).
      exists (q :: before), after. repeat split; try done.
      constructor; [by left | done].
    + constructor; [by left | done].
  - destruct (HasPrefix input q) eqn:Hpre.
    + exists [], qs. repeat split; try done.
    + destruct (matchPrefix input qs) as [p|].
      * destruct IH as (before & after & -> & Hp & Hpre' & Hall).
        exists (q :: before), after. repeat split; try done.
        constructor; [by right | done].
      * constructor; [by right | done].
Qed.

(** ** [advanceByToken] on a valid token *)

Lemma advance_valid fuel s i line col :
  (length s <= fuel)%nat -> valid_fuel fuel s = true ->
  let '(i', line', col') :=
    fold_left advance_rune (runes_fuel fuel s) (i, line, col) in
  i' = i + len s
  /\ line' = line + count_nl s.
Proof.
  revert s i line col. induction fuel as [|f IH]; intros s i line col Hlen.
  - destruct s; [|simpl in Hlen; lia]. intros _. cbn [runes_fuel fold_left].
    change (count_nl []) with 0. change (len (@nil byte)) with 0. lia.
  - destruct s as [|b t].
    { intros _. cbn [runes_fuel fold_left].
      change (count_nl []) with 0. change (len (@nil byte)) with 0. lia. }
    cbn [valid_fuel runes_fuel].
    destruct (DecodeRuneInString (b :: t)) as [r size] eqn:Hd.
    pose proof (Decode_spec _ _ _ _ Hd) as (Hsize & Hrl & _).
    pose proof (Decode_count_nl _ _ _ _ Hd) as Hnl.
    destruct ((r =? RuneError) && (size =? 1)) eqn:Hinv; [done|].
    intros Hv. cbn [fold_left]. unfold advance_rune at 2.
    assert (RuneLen r = size) as Hr.
    { destruct Hrl as [[-> ->] | Hr]; [done | done]. }
    assert (Hsplit : b :: t = slice_to (b :: t) size ++ slice_from (b :: t) size).
    { unfold slice_to, slice_from. by rewrite take_drop. }
    assert (Hl : len (slice_to (b :: t) size) = size).
    { unfold slice_to, len in *. rewrite length_take. lia. }
    assert (Hfl : (length (slice_from (b :: t) size) <= f)%nat).
    { unfold slice_from, len in *. rewrite length_drop. simpl in *. lia. }
    rewrite Hr.
    destruct (r =? 10) eqn:H10.
    + specialize (IH (slice_from (b :: t) size) (i + size) (line + 1) 1 Hfl Hv).
      destruct (fold_left _ _ _) as [[i' line'] col'].
      destruct IH as [-> ->]. rewrite Hsplit at 2 4.
      rewrite len_app, count_nl_app, Hl, Hnl, ?H10. lia.
    + specialize (IH (slice_from (b :: t) size) (i + size) line (col + 1) Hfl Hv).
      destruct (fold_left _ _ _) as [[i' line'] col'].
      destruct IH as [-> ->]. rewrite Hsplit at 2 4.
      rewrite len_app, count_nl_app, Hl, Hnl, ?H10. lia.
Qed.

(** X7.  On a token that is valid UTF-8, [advanceByToken] moves the
    byte index by the length of the token and the line by the number of
    newlines in it. *)
Theorem advanceByToken_valid (i line col : Z) (token : gostring) :
  ValidString token = true ->
  (advanceByToken i line col token).1.1 = i + len token
  /\ (advanceByToken i line col token).1.2 = line + count_nl token.
Proof.
  intros Hv. unfold advanceByToken, runes.
  pose proof (advance_valid (length token) token i line col (le_n _) Hv) as H.
  destruct (fold_left _ _ _) as [[i' line'] col']. done.
Qed.

Lemma advanceByToken_valid_witness :
  (advanceByToken 0 1 1 (str "/*")).1.1 = 0 + len (str "/*")
  /\ (advanceByToken 0 1 1 (str "/*")).1.2 = 1 + count_nl (str "/*").
Proof. apply advanceByToken_valid. vm_compute. reflexivity. Defined.

(** ** [isBinary] looks at the first 8192 bytes *)

(** X8.  [isBinary] depends on the first 8192 bytes only; an empty file
    is not binary, and neither is a file without control characters
    (other than tab, newline and carriage return), however long. *)
Theorem isBinary_sample (data : list byte) :
  isBinary data = isBinary (slice_to data 8192)
  /\ isBinary [] = false
  /\ (Forall (fun b => ~ control_byte b) data -> isBinary data = false).
Proof.
  split; [|split; [done|]].
  - destruct (Z.le_gt_cases (len data) 8192) as [Hsmall | Hbig].
    + assert (slice_to data 8192 = data) as ->; [|done].
      unfold slice_to, len in *. apply take_ge. lia.
    + assert (len (slice_to data 8192) = 8192) as Hl.
      { unfold slice_to, len in *. rewrite length_take. lia. }
      unfold isBinary. rewrite !Hl.
      assert ((8192 <? len data) = true) as -> by (apply Z.ltb_lt; lia).
      assert ((len data =? 0) = false) as -> by (apply Z.eqb_neq; lia).
      change (8192 =? 0) with false. change (8192 <? 8192) with false.
      cbv iota zeta. by rewrite !Hl.
  - intros Htext. destruct (isBinary data) eqn:Hb; [|done].
    apply isBinary_spec in Hb. unfold binary_content in Hb.
    set (sample := slice_to data _) in *.
    assert (Forall (fun b => ~ control_byte b) sample) as Hs.
    { unfold sample, slice_to. by apply Forall_take. }
    destruct Hb as [Hnul | Hctl].
    + rewrite Forall_forall in Hs. exfalso. apply (Hs x00 Hnul).
      unfold control_byte. vm_compute. intuition discriminate.
    + assert (filter control_byte sample = []) as Hnone.
      { clear Hctl. induction Hs as [|b l Hb _ IH]; [done|].
        by rewrite filter_cons_False. }
      rewrite Hnone in Hctl. pose proof (len_nonneg sample).
      change (len (@nil byte)) with 0 in Hctl. lia.
Qed.

Lemma isBinary_sample_witness : isBinary Sample.greeting = false.
Proof.
  apply (isBinary_sample Sample.greeting).
  apply (bool_decide_unpack _). vm_compute. exact I.
Defined.

(** ** The profile depends on the last element, not on letter case *)

Lemma ext_scan_stop a b acc :
  ext_scan (a ++ slash :: b) acc = ext_scan a acc.
Proof.
  revert acc. induction a as [|x a IH]; intros acc; simpl.
  - done.
  - by repeat case_bool_decide.
Qed.

Lemma Ext_last dir name : Ext (dir ++ slash :: name) = Ext name.
Proof.
  unfold Ext. rewrite reverse_app, reverse_cons, <- app_assoc. simpl.
  apply ext_scan_stop.
Qed.

Lemma last_element_stop a b acc :
  slash ∉ a -> last_element (a ++ slash :: b) acc = reverse a ++ acc.
Proof.
  revert acc. induction a as [|x a IH]; intros acc Hn; simpl.
  - done.
  - rewrite bool_decide_eq_false_2 by set_solver.
    rewrite IH by set_solver. rewrite reverse_cons, <- app_assoc. done.
Qed.

Lemma last_element_all a acc :
  slash ∉ a -> last_element a acc = reverse a ++ acc.
Proof.
  revert acc. induction a as [|x a IH]; intros acc Hn; simpl; [done|].
  rewrite bool_decide_eq_false_2 by set_solver.
  rewrite IH by set_solver. rewrite reverse_cons, <- app_assoc. done.
Qed.

Lemma strip_slashes_none a : head a <> Some slash -> strip_slashes a = a.
Proof. destruct a as [|x a]; [done|]. simpl. intros H. case_bool_decide; [|done]. subst. done. Qed.

Lemma Base_last dir name :
  name <> [] -> slash ∉ name ->
  Base (dir ++ slash :: name) = name /\ Base name = name.
Proof.
  intros Hne Hns.
  assert (Hrev : slash ∉ reverse name) by (by rewrite elem_of_reverse).
  assert (Hhead : forall t, head (reverse name ++ t) <> Some slash).
  { intros t. destruct (reverse name) as [|x r] eqn:Hr.
    - apply (f_equal reverse) in Hr. rewrite reverse_involutive in Hr. done.
    - simpl. intros [= ->]. set_solver. }
  split; unfold Base.
  - destruct (dir ++ slash :: name) eqn:Hd; [by destruct dir|]. rewrite <- Hd.
    rewrite reverse_app, reverse_cons, <- app_assoc. simpl.
    rewrite strip_slashes_none by apply Hhead.
    rewrite last_element_stop by done.
    rewrite reverse_involutive, app_nil_r. by destruct name.
  - destruct name as [|x name'] eqn:Hn; [done|]. rewrite <- Hn in *.
    rewrite strip_slashes_none.
    + rewrite last_element_all by done.
      rewrite reverse_involutive, app_nil_r. by rewrite Hn.
    + specialize (Hhead []). by rewrite app_nil_r in Hhead.
Qed.

(** X9.  The syntax profile of a path is the profile of its last
    element: the directories above a file play no part. *)
Theorem syntaxForPath_last_element (E : Env) (dir name : gostring) :
  name <> [] -> slash ∉ name ->
  syntaxForPath E (dir ++ slash :: name) = syntaxForPath E name.
Proof.
  intros Hne Hns. destruct (Base_last dir name Hne Hns) as [H1 H2].
  unfold syntaxForPath. by rewrite Ext_last, H1, H2.
Qed.

Lemma syntaxForPath_last_element_witness :
  syntaxForPath Sample.env (str "src/archive.d" ++ slash :: str "main.go")
  = syntaxForPath Sample.env (str "main.go").
Proof.
  apply syntaxForPath_last_element.
  - done.
  - apply (bool_decide_unpack _). vm_compute. exact I.
Defined.

Lemma lower_ascii_slash b : lower_ascii b = slash <-> b = slash.
Proof. split; [|by intros ->]. by destruct b. Qed.

Lemma lower_ascii_dot b : lower_ascii b = dot <-> b = dot.
Proof. split; [|by intros ->]. by destruct b. Qed.

Lemma lower_ascii_idemp b : lower_ascii (lower_ascii b) = lower_ascii b.
Proof. by destruct b. Qed.

Lemma lower_ascii_ascii b : bv b < 0x80 -> bv (lower_ascii b) < 0x80.
Proof. destruct b; vm_compute; done. Qed.

Lemma ext_scan_lower a acc :
  ext_scan (map lower_ascii a) (map lower_ascii acc)
  = map lower_ascii (ext_scan a acc).
Proof.
  revert acc. induction a as [|x a IH]; intros acc; [done|]. cbn [map ext_scan].
  rewrite (bool_decide_ext _ _ (lower_ascii_slash x)).
  rewrite (bool_decide_ext _ _ (lower_ascii_dot x)).
  destruct (bool_decide (x = slash)); [done|].
  destruct (bool_decide (x = dot)); [done|].
  apply (IH (x :: acc)).
Qed.

Lemma strip_slashes_lower a :
  strip_slashes (map lower_ascii a) = map lower_ascii (strip_slashes a).
Proof.
  induction a as [|x a IH]; [done|]. cbn [map strip_slashes].
  rewrite (bool_decide_ext _ _ (lower_ascii_slash x)).
  by destruct (bool_decide (x = slash)).
Qed.

Lemma last_element_lower a acc :
  last_element (map lower_ascii a) (map lower_ascii acc)
  = map lower_ascii (last_element a acc).
Proof.
  revert acc. induction a as [|x a IH]; intros acc; [done|].
  cbn [map last_element].
  rewrite (bool_decide_ext _ _ (lower_ascii_slash x)).
  destruct (bool_decide (x = slash)); [done|].
  apply (IH (x :: acc)).
Qed.

Lemma Ext_lower p : Ext (map lower_ascii p) = map lower_ascii (Ext p).
Proof.
  unfold Ext. change (map lower_ascii p) with (lower_ascii <$> p).
  rewrite <- fmap_reverse. apply (ext_scan_lower _ []).
Qed.

Lemma Base_lower p : Base (map lower_ascii p) = map lower_ascii (Base p).
Proof.
  unfold Base. destruct p as [|x p]; [done|].
  change (map lower_ascii (x :: p)) with (lower_ascii <$> (x :: p)).
  destruct (lower_ascii <$> x :: p) eqn:Hl; [done|]. rewrite <- Hl.
  rewrite <- fmap_reverse.
  change (lower_ascii <$> reverse (x :: p)) with (map lower_ascii (reverse (x :: p))).
  rewrite strip_slashes_lower.
  rewrite (last_element_lower _ []).
  by destruct (last_element _ _).
Qed.

Lemma ext_scan_Forall (P : byte -> Prop) a acc :
  Forall P a -> Forall P acc -> Forall P (ext_scan a acc).
Proof.
  intros Ha. revert acc. induction Ha as [|x a Hx _ IH]; intros acc Hacc;
    simpl; [constructor|].
  repeat case_bool_decide; [constructor | by constructor |].
  apply IH. by constructor.
Qed.

Lemma strip_slashes_Forall (P : byte -> Prop) a :
  Forall P a -> Forall P (strip_slashes a).
Proof.
  induction 1 as [|x a Hx Ha IH]; simpl; [constructor|].
  case_bool_decide; [done | by constructor].
Qed.

Lemma last_element_Forall (P : byte -> Prop) a acc :
  Forall P a -> Forall P acc -> Forall P (last_element a acc).
Proof.
  intros Ha. revert acc. induction Ha as [|x a Hx _ IH]; intros acc Hacc;
    simpl; [done|].
  case_bool_decide; [done|]. apply IH. by constructor.
Qed.

Lemma Ext_ascii p : ascii p -> ascii (Ext p).
Proof.
  intros Hp. apply ext_scan_Forall; [|constructor].
  by apply Forall_reverse.
Qed.

Lemma Base_ascii p : ascii p -> ascii (Base p).
Proof.
  intros Hp. unfold Base. destruct p as [|x p].
  { repeat constructor. }
  destruct (last_element _ _) eqn:Hl.
  { repeat constructor. }
  rewrite <- Hl. apply last_element_Forall; [|constructor].
  apply strip_slashes_Forall. by apply Forall_reverse.
Qed.

Lemma ToLower_ascii E s : ascii s -> ToLower E s = map lower_ascii s.
Proof.
  intros Hs. unfold ToLower.
  assert (forallb (fun b => bv b <? 0x80) s = true) as ->; [|done].
  apply forallb_forall. intros b Hb. apply Z.ltb_lt.
  unfold ascii in Hs. rewrite Forall_forall in Hs. apply Hs.
  by apply list_elem_of_In.
Qed.

Lemma map_lower_idemp s :
  map lower_ascii (map lower_ascii s) = map lower_ascii s.
Proof.
  rewrite map_map. apply map_ext. intros b. apply lower_ascii_idemp.
Qed.

Lemma map_lower_ascii s : ascii s -> ascii (map lower_ascii s).
Proof.
  intros Hs. apply Forall_fmap. eapply Forall_impl; [exact Hs|].
  intros b. apply lower_ascii_ascii.
Qed.

(** X10.  The syntax profile does not depend on letter case: two ASCII
    paths that differ only in the case of their letters have the same
    profile. *)
Theorem syntaxForPath_ignores_case (E : Env) (p q : gostring) :
  ascii p -> ascii q -> map lower_ascii p = map lower_ascii q ->
  syntaxForPath E p = syntaxForPath E q.
Proof.
  intros Hp Hq Heq.
  assert (Hlow : forall s, ascii s ->
            ToLower E (Ext s) = Ext (map lower_ascii s)
            /\ ToLower E (Base s) = Base (map lower_ascii s)).
  { intros s Hs.
    rewrite Ext_lower, Base_lower.
    rewrite !ToLower_ascii by (by apply Ext_ascii || by apply Base_ascii).
    done. }
  destruct (Hlow p Hp) as [He Hb]. destruct (Hlow q Hq) as [He' Hb'].
  unfold syntaxForPath. by rewrite He, Hb, He', Hb', Heq.
Qed.

Lemma syntaxForPath_ignores_case_witness :
  syntaxForPath Sample.env (str "Main.GO") = syntaxForPath Sample.env (str "main.go").
Proof.
  apply syntaxForPath_ignores_case.
  - repeat constructor.
  - repeat constructor.
  - vm_compute. reflexivity.
Defined.

(** ** Entries that the walk passes over *)

Lemma walkDir_node_passed_over E W cwd opts n st :
  passed_over E W cwd opts n = true ->
  walkDir_node (walkFn E W cwd opts) n st = (st, WNil).
Proof.
  destruct n as [p regular | p entries readErr]; cbn [passed_over walkDir_node].
  - intros Hr. apply negb_true_iff in Hr. subst. done.
  - intros Hp. rewrite walkFn_dir, Hp. done.
Qed.

Lemma walk_entries_passed_over E W cwd opts pre n post st :
  passed_over E W cwd opts n = true ->
  walk_entries (walkDir_node (walkFn E W cwd opts)) (pre ++ n :: post) st
  = walk_entries (walkDir_node (walkFn E W cwd opts)) (pre ++ post) st.
Proof.
  intros Hn. revert st. induction pre as [|e pre IH]; intros st; simpl.
  - by rewrite walkDir_node_passed_over.
  - destruct (walkDir_node _ e st) as [st1 [| |x]]; [apply IH|done..].
Qed.

(** X11.  The walk passes over entries that are not regular files and
    over directories that an exclude pattern matches: a directory with
    such an entry is walked as if the entry was not there, whatever
    lies below it - even a directory that cannot be read. *)
Theorem walk_passes_over (E : Env) (W : World) (cwd : gostring)
    (opts : Options) (p : gostring) (pre post : list fsnode) (n : fsnode)
    (readErr : option error) (st : scanSt) :
  passed_over E W cwd opts n = true ->
  walkDir_node (walkFn E W cwd opts) (FsDir p (pre ++ n :: post) readErr) st
  = walkDir_node (walkFn E W cwd opts) (FsDir p (pre ++ post) readErr) st.
Proof.
  intros Hn. cbn [walkDir_node].
  destruct (walkFn E W cwd opts p dirEntry_dir None st) as [st1 [| |x]];
    [|done..].
  destruct readErr as [e|]; [|by apply walk_entries_passed_over].
  destruct (walkFn E W cwd opts p dirEntry_dir (Some e) st1) as [st2 [| |x]];
    [by apply walk_entries_passed_over | done..].
Qed.

Lemma walk_passes_over_witness :
  walkDir_node (walkFn Sample.env Sample.blocked_world (str "/w") Sample.pruning)
    (FsDir (str "d") ([FsFile (str "d/a.go") true] ++ Sample.blocked_dir :: [])
       None) scanSt_init
  = walkDir_node (walkFn Sample.env Sample.blocked_world (str "/w") Sample.pruning)
      (FsDir (str "d") ([FsFile (str "d/a.go") true] ++ []) None) scanSt_init.
Proof.
  apply walk_passes_over. vm_compute. reflexivity.
Defined.


(** ** Default root *)

Lemma clean_paths_blank E paths :
  Forall (fun p => strings_TrimSpace E p = []) paths ->
  strings_TrimSpace E (str ".") = str "." ->
  clean_paths E paths = [str "."].
Proof.
  intros Hblank Hdot. unfold clean_paths.
  destruct paths as [|p paths].
  - change (len (@nil gostring) =? 0) with true. cbv iota. cbn [map].
    rewrite Hdot. rewrite filter_cons_True by done. by rewrite filter_nil.
  - assert ((len (p :: paths) =? 0) = false) as ->.
    { apply Z.eqb_neq. rewrite len_cons. pose proof (len_nonneg paths). lia. }
    cbv iota.
    assert (filter (fun p : gostring => p ≠ []) (map (strings_TrimSpace E) (p :: paths))
            = []) as ->; [|done].
    induction Hblank as [|q qs Hq _ IH]; [done|].
    cbn [map]. by rewrite filter_cons_False by (rewrite Hq; intros H; by apply H).
Qed.

(** X14.  A scan without paths, or with blank paths only, is the scan of
    the current directory ["."]. *)
Theorem scan_default_root (E : Env) (W : World) (paths : list gostring)
    (opts : Options) :
  Forall (fun p => strings_TrimSpace E p = []) paths ->
  strings_TrimSpace E (str ".") = str "." ->
  Scan E W paths opts = Scan E W [str "."] opts.
Proof.
  intros Hblank Hdot. unfold Scan.
  rewrite (clean_paths_blank E paths Hblank Hdot).
  by rewrite (clean_paths_single E (str ".")).
Qed.

Lemma scan_default_root_witness :
  Scan Sample.env Sample.greeting_world [str "  "; []] Sample.options
  = Scan Sample.env Sample.greeting_world [str "."] Sample.options.
Proof.
  apply scan_default_root.
  - repeat constructor.
  - vm_compute. reflexivity.
Defined.

(** ** Files that the filters leave out *)

Lemma finish_init : finish (res scanSt_init) = Result_zero.
Proof. reflexivity. Qed.

(** X15.  A file that the include patterns do not select, or that an
    exclude pattern matches, leaves no trace: it is marked visited and
    neither scanned nor listed as skipped.  It is not read, so the scan
    of such a file cannot fail on its content: alone, it gives the empty
    result without an error. *)
Theorem filtered_file_left_out (E : Env) (W : World) (opts : Options)
    (cwd path abs : gostring) (st : scanSt) :
  filepath_Abs W path = OK abs ->
  abs ∉ visited st ->
  let display := displayPath W cwd abs in
  isIncluded E display (Include opts) = false
  \/ isExcluded E display (Exclude opts) = true ->
  scanFile E W path cwd opts st
  = ({| visited := {[abs]} ∪ visited st; res := res st |}, None)
  /\ (strings_TrimSpace E path = path -> path <> [] ->
      os_Getwd W = OK cwd -> os_Stat W path = OK false ->
      Scan E W [path] opts = (Result_zero, None)).
Proof.
  intros Habs Hnin display Hfilter.
  assert (Hsf : forall o st0, abs ∉ visited st0 ->
            Include o = Include opts -> Exclude o = Exclude opts ->
            scanFile E W path cwd o st0
            = ({| visited := {[abs]} ∪ visited st0; res := res st0 |}, None)).
  { intros o st0 Hn Hi He. unfold scanFile.
    rewrite Habs, bool_decide_eq_false_2 by done. fold display.
    rewrite Hi, He.
    destruct Hfilter as [-> | Hex]; [done|].
    rewrite Hex. by destruct (isIncluded _ _ _). }
  split; [by apply Hsf|].
  intros Htrim Hne Hwd Hstat. unfold Scan.
  rewrite clean_paths_single, Hwd by done. cbn [scan_paths]. rewrite Hstat.
  rewrite Hsf; [done | set_solver | done | done].
Qed.

Lemma filtered_file_left_out_witness :
  scanFile Sample.env Sample.unreadable_world (str "sample.go") (str "/w")
    Sample.excluding scanSt_init
  = ({| visited := {[str "/w/sample.go"]} ∪ visited scanSt_init;
        res := res scanSt_init |}, None)
  /\ Scan Sample.env Sample.unreadable_world [str "sample.go"] Sample.excluding
     = (Result_zero, None).
Proof.
  destruct (filtered_file_left_out Sample.env Sample.unreadable_world
              Sample.excluding (str "/w") (str "sample.go") (str "/w/sample.go")
              scanSt_init) as [Hfile Hscan].
  - vm_compute. reflexivity.
  - apply (bool_decide_unpack _). vm_compute. exact I.
  - right. vm_compute. reflexivity.
  - split; [exact Hfile|].
    apply Hscan; [vm_compute; reflexivity | discriminate
                 | vm_compute; reflexivity | vm_compute; reflexivity].
Defined.

(** X16.  A file that an allow-file pattern matches (and that the include
    and exclude patterns let through) is listed as skipped with the
    reason "allowed by file pattern".  It is not read: no finding is
    added, and the scan does not fail if the file cannot be read. *)
Theorem allowed_file_skipped (E : Env) (W : World) (opts : Options)
    (cwd path abs : gostring) (st : scanSt) :
  filepath_Abs W path = OK abs ->
  abs ∉ visited st ->
  let display := displayPath W cwd abs in
  isIncluded E display (Include opts) = true ->
  isExcluded E display (Exclude opts) = false ->
  isAllowedFile E display (AllowFilePatterns opts) = true ->
  let skipped := {| SPath := display; Reason := str "allowed by file pattern" |} in
  scanFile E W path cwd opts st
  = ({| visited := {[abs]} ∪ visited st;
        res := {| Findings := Findings (res st);
                  ScannedFiles := ScannedFiles (res st);
                  SkippedFiles := SkippedFiles (res st) ++ [skipped];
                  RSummary := RSummary (res st) |} |}, None)
  /\ (strings_TrimSpace E path = path -> path <> [] ->
      os_Getwd W = OK cwd -> os_Stat W path = OK false ->
      Scan E W [path] opts
      = ({| Findings := []; ScannedFiles := []; SkippedFiles := [skipped];
            RSummary := {| FilesScanned := 0; FilesSkipped := 1;
                           NFindings := 0 |} |}, None)).
Proof.
  intros Habs Hnin display Hinc Hexc Hal skipped.
  assert (Hsf : forall o st0, abs ∉ visited st0 ->
            Include o = Include opts -> Exclude o = Exclude opts ->
            AllowFilePatterns o = AllowFilePatterns opts ->
            scanFile E W path cwd o st0
            = ({| visited := {[abs]} ∪ visited st0;
                  res := add_skipped (res st0) display
                           (str "allowed by file pattern") |}, None)).
  { intros o st0 Hn Hi He Ha. unfold scanFile.
    rewrite Habs, bool_decide_eq_false_2 by done. fold display.
    by rewrite Hi, He, Ha, Hinc, Hexc, Hal. }
  split; [by apply Hsf|].
  intros Htrim Hne Hwd Hstat. unfold Scan.
  rewrite clean_paths_single, Hwd by done. cbn [scan_paths]. rewrite Hstat.
  rewrite Hsf; [done | set_solver | done | done | done].
Qed.

Lemma allowed_file_skipped_witness :
  let skipped := {| SPath := str "sample.go";
                    Reason := str "allowed by file pattern" |} in
  scanFile Sample.env Sample.unreadable_world (str "sample.go") (str "/w")
    Sample.allowing_file scanSt_init
  = ({| visited := {[str "/w/sample.go"]} ∪ visited scanSt_init;
        res := {| Findings := []; ScannedFiles := [];
                  SkippedFiles := [skipped];
                  RSummary := RSummary Result_zero |} |}, None)
  /\ Scan Sample.env Sample.unreadable_world [str "sample.go"]
       Sample.allowing_file
     = ({| Findings := []; ScannedFiles := []; SkippedFiles := [skipped];
           RSummary := {| FilesScanned := 0; FilesSkipped := 1;
                          NFindings := 0 |} |}, None).
Proof.
  destruct (allowed_file_skipped Sample.env Sample.unreadable_world
              Sample.allowing_file (str "/w") (str "sample.go")
              (str "/w/sample.go") scanSt_init) as [Hfile Hscan].
  - vm_compute. reflexivity.
  - apply (bool_decide_unpack _). vm_compute. exact I.
  - vm_compute. reflexivity.
  - vm_compute. reflexivity.
  - vm_compute. reflexivity.
  - split; [exact Hfile|].
    apply Hscan; [vm_compute; reflexivity | discriminate
                 | vm_compute; reflexivity | vm_compute; reflexivity].
Defined.

(** ** The result of a scan *)

#[local] Instance str_le_total : Total str_le.
Proof.
  intros a b. unfold str_le. destruct (str_lt b a) eqn:H; [|by left].
  right. by apply str_lt_asym.
Qed.

#[local] Instance str_le_trans : Transitive str_le.
Proof.
  intros a b c. unfold str_le. intros Hba Hcb.
  destruct (str_lt c a) eqn:Hca; [|done].
  destruct (str_lt a b) eqn:Hab.
  - by rewrite (str_lt_trans _ _ _ Hca Hab) in Hcb.
  - rewrite (str_lt_connex _ _ Hab Hba) in Hca. by rewrite Hca in Hcb.
Qed.

#[local] Instance skipped_le_total :
  Total (fun a b : SkippedFile => str_lt (SPath b) (SPath a) = false).
Proof. intros a b. apply (str_le_total (SPath a) (SPath b)). Qed.

#[local] Instance skipped_le_trans :
  Transitive (fun a b : SkippedFile => str_lt (SPath b) (SPath a) = false).
Proof. intros a b c. apply (str_le_trans (SPath a) (SPath b) (SPath c)). Qed.

(** X17.  In the result of a successful [Scan] the scanned files are in
    ascending bytewise order, the skipped files are in ascending order
    of their paths, and the summary counts the three lists. *)
Theorem scan_lists_sorted (E : Env) (W : World) (paths : list gostring)
    (opts : Options) (r : Result) :
  Scan E W paths opts = (r, None) ->
  StronglySorted str_le (ScannedFiles r)
  /\ StronglySorted (fun a b => str_le (SPath a) (SPath b)) (SkippedFiles r)
  /\ RSummary r = {| FilesScanned := len (ScannedFiles r);
                     FilesSkipped := len (SkippedFiles r);
                     NFindings := len (Findings r) |}.
Proof.
  intros Hscan. apply Scan_success in Hscan as (cwd & st & _ & _ & ->).
  cbn [finish ScannedFiles SkippedFiles Findings RSummary]. unfold sort_Slice.
  split; [|split; [|done]].
  - apply (StronglySorted_merge_sort str_le).
  - apply (StronglySorted_merge_sort
             (fun a b : SkippedFile => str_lt (SPath b) (SPath a) = false)).
Qed.

Lemma scan_lists_sorted_witness :
  StronglySorted str_le (ScannedFiles Sample.greeting_result)
  /\ StronglySorted (fun a b => str_le (SPath a) (SPath b))
       (SkippedFiles Sample.greeting_result)
  /\ RSummary Sample.greeting_result
     = {| FilesScanned := len (ScannedFiles Sample.greeting_result);
          FilesSkipped := len (SkippedFiles Sample.greeting_result);
          NFindings := len (Findings Sample.greeting_result) |}.
Proof.
  apply (scan_lists_sorted Sample.env Sample.greeting_world [str "sample.go"]
           Sample.options).
  vm_compute. reflexivity.
Defined.

(** X18.  Every finding of a successful [Scan] belongs to a file that is
    listed in [scannedFiles], and carries the normalised severity:
    "warning" if the options say so, and "error" for any other value. *)
Theorem scan_findings_belong (E : Env) (W : World) (paths : list gostring)
    (opts : Options) (r : Result) (f : Finding) :
  Scan E W paths opts = (r, None) -> f ∈ Findings r ->
  Path f ∈ ScannedFiles r
  /\ FSeverity f = (if bool_decide (OSeverity opts = SeverityWarning)
                    then SeverityWarning else SeverityError)
  /\ 1 <= Line f /\ 1 <= Column f.
Proof.
  intros Hscan Hf. apply Scan_success in Hscan as (cwd & st & _ & Hsp & ->).
  pose proof (scan_paths_once E W cwd _ _ _ _ _ (scanSt_init_once E W cwd _) Hsp)
    as (l & _ & _ & Hfiles & Hfind).
  cbn [finish ScannedFiles Findings] in *. unfold sort_Slice in *.
  rewrite merge_sort_Permutation in Hf. rewrite merge_sort_Permutation.
  rewrite Hfiles. rewrite Hfind in Hf.
  apply list_elem_of_In, in_flat_map in Hf as (a & Ha & Hf).
  apply list_elem_of_In in Ha, Hf.
  unfold findings_of in Hf.
  destruct (os_ReadFile W a) as [data|e]; [|by apply elem_of_nil in Hf].
  destruct (scanContent_positions_inv E (displayPath W cwd a) data
              (syntaxForPath E (displayPath W cwd a)) (normalizeOptions opts))
    as (s & (_ & _ & _ & Hall & _) & Hs).
  rewrite Hs in Hall. rewrite Forall_forall in Hall.
  destruct (Hall f Hf) as (_ & Hl & Hc & Hp & Hsev).
  split; [|split; [|done]].
  - rewrite Hp. apply list_elem_of_fmap. by exists a.
  - rewrite Hsev. cbn [normalizeOptions OSeverity].
    case_bool_decide as Hw; [done | done].
Qed.

Lemma scan_findings_belong_witness :
  Path Sample.greeting_first ∈ ScannedFiles Sample.greeting_result
  /\ FSeverity Sample.greeting_first
     = (if bool_decide (OSeverity Sample.options = SeverityWarning)
        then SeverityWarning else SeverityError)
  /\ 1 <= Line Sample.greeting_first /\ 1 <= Column Sample.greeting_first.
Proof.
  apply (scan_findings_belong Sample.env Sample.greeting_world
           [str "sample.go"] Sample.options).
  - vm_compute. reflexivity.
  - vm_compute. constructor 1.
Defined.

(** ** The allow list of the configuration *)

Lemma fold_insert_runes (rs : list Z) (out : gset Z) (r : Z) :
  r ∈ fold_left (fun out r => {[ r ]} ∪ out) rs out <-> r ∈ rs \/ r ∈ out.
Proof.
  revert out. induction rs as [|x rs IH]; intros out; simpl.
  - set_solver.
  - rewrite IH. set_solver.
Qed.

Lemma fold_items (allow : list gostring) (out : gset Z) (r : Z) :
  r ∈ fold_left
        (fun out item => fold_left (fun out r => {[ r ]} ∪ out) (runes item) out)
        allow out
  <-> (exists item, item ∈ allow /\ r ∈ runes item) \/ r ∈ out.
Proof.
  revert out. induction allow as [|x allow IH]; intros out; simpl.
  - set_solver.
  - rewrite IH, fold_insert_runes. set_solver.
Qed.

Lemma AllowedRuneMap_elem (allow : list gostring) (r : Z) :
  r ∈ config.AllowedRuneMap allow
  <-> exists item, item ∈ allow /\ r ∈ runes item.
Proof. unfold config.AllowedRuneMap. rewrite fold_items. set_solver. Qed.

(** X19.  The rune map built from the allow list of a configuration holds
    exactly the runes of its items: every character of every item, and
    nothing else.  Items may hold several characters; listing them in
    one item or in several makes no difference. *)
Theorem AllowedRuneMap_runes (allow : list gostring) (r : Z) :
  (r ∈ config.AllowedRuneMap allow
   <-> exists item, item ∈ allow /\ r ∈ runes item)
  /\ (forall more,
        config.AllowedRuneMap (allow ++ more)
        = config.AllowedRuneMap allow ∪ config.AllowedRuneMap more).
Proof.
  split.
  - apply AllowedRuneMap_elem.
  - intros more. apply set_eq. intros x. rewrite elem_of_union.
    unfold config.AllowedRuneMap. rewrite !fold_items.
    setoid_rewrite elem_of_app. set_solver.
Qed.

Lemma len_encode_rune r : 1 <= RuneLen r -> len (encode_rune r) = RuneLen r.
Proof.
  unfold RuneLen, is_surrogate.
  destruct (r <? 0) eqn:H0; zb; [lia|].
  destruct (r <=? 127) eqn:H1; zb.
  { intros _. by rewrite encode_rune_1 by lia. }
  destruct (r <=? 2047) eqn:H2; zb.
  { intros _. by rewrite encode_rune_2 by lia. }
  destruct ((55296 <=? r) && (r <=? 57343)) eqn:H3; zb; [lia|].
  destruct (r <=? 65535) eqn:H4; zb.
  { intros _. by rewrite encode_rune_3 by lia. }
  destruct (r <=? 1114111) eqn:H5; zb; [|lia].
  intros _. by rewrite encode_rune_4 by lia.
Qed.

Lemma runes_encode_rune r : 1 <= RuneLen r -> runes (encode_rune r) = [r].
Proof.
  intros Hr. unfold runes.
  pose proof (len_encode_rune r Hr) as Hl.
  pose proof (Decode_encode r [] Hr) as Hd. rewrite app_nil_r in Hd.
  destruct (encode_rune r) as [|b t] eqn:He.
  { change (len (@nil byte)) with 0 in Hl. lia. }
  cbn [length runes_fuel]. rewrite Hd. f_equal.
  assert (slice_from (b :: t) (RuneLen r) = []) as ->.
  { unfold slice_from. apply drop_ge. unfold len in Hl. lia. }
  by destruct (length t).
Qed.

(** X20.  A character that is an item of the configured allow list is not
    reported: when the scanner runs with the rune map of the allow
    list, no finding - other than one for an invalid byte - has the
    [Character] of an allow-list item. *)
Theorem allowed_characters_not_reported (E : Env) (p path : gostring)
    (data : list byte) (opts : Options) (allow : list gostring) (g : Finding) :
  g ∈ scanContent E path data (syntaxForPath E p)
        (set_allow (config.AllowedRuneMap allow) opts) ->
  Category g = str "Invalid UTF-8" \/ Character g ∉ allow.
Proof.
  intros Hg.
  destruct (scanContent_vs_text E path data (syntaxForPath E p)
              (set_allow (config.AllowedRuneMap allow) opts)
              (syntaxForPath_plain E p)) as [Hsub _].
  eapply elem_of_sublist in Hg; [|exact Hsub].
  unfold findings_of_text, expected in Hg.
  apply list_elem_of_fmap in Hg as (x & -> & Hx).
  apply list_elem_of_filter in Hx as [Hoff Hx].
  pose proof (text_runes_positions data) as Hpos.
  rewrite Forall_forall in Hpos.
  destruct (Hpos x Hx) as (Hrange & _ & _ & Hd).
  unfold finding_at. unfold offending in Hoff.
  destruct (ra_invalid x) eqn:Hinv; [by left|]. right.
  cbn [rune_finding Character]. cbn [orb] in Hoff.
  apply negb_true_iff in Hoff. cbn [set_allow AllowRunes] in Hoff.
  intros Hin.
  pose proof (slice_from_nonempty data (ra_offset x) Hrange) as Hne.
  destruct (slice_from data (ra_offset x)) as [|b t]; [done|].
  pose proof (Decode_spec _ _ _ _ Hd) as (Hsize & Hrl & _).
  assert (1 <= RuneLen (ra_rune x)) as Hvalid.
  { destruct Hrl as [[Hr Hs] | Hr]; [|lia].
    unfold ra_invalid in Hinv. rewrite Hr, Hs in Hinv. done. }
  assert (ra_rune x ∈ config.AllowedRuneMap allow) as Hmap.
  { apply AllowedRuneMap_elem. exists (encode_rune (ra_rune x)).
    split; [done|]. rewrite runes_encode_rune by done. by constructor. }
  unfold isAllowedRune in Hoff.
  rewrite (bool_decide_eq_true_2 _ Hmap) in Hoff.
  by repeat case_match.
Qed.

Lemma allowed_characters_not_reported_witness :
  Category Sample.arrow_finding = str "Invalid UTF-8"
  \/ Character Sample.arrow_finding ∉ [str "©"].
Proof.
  apply (allowed_characters_not_reported Sample.env (str "a.py") (str "a.py")
           Sample.allowed_text Sample.options [str "©"]).
  vm_compute. constructor 1.
Defined.

(** ** The arguments of [englint scan] *)

Lemma scan_args_loop_plain E pre tail out :
  Forall (plain_arg E) pre ->
  main.scan_args_loop E (pre ++ tail) out
  = main.scan_args_loop E tail
      (main.with_Paths (main.Paths out ++ paths_of E pre) out).
Proof.
  intros Hpre. revert out.
  induction Hpre as [|a pre Ha _ IH]; intros out.
  - unfold paths_of. cbn [map app]. rewrite filter_nil, app_nil_r.
    by destruct out.
  - cbn [app main.scan_args_loop]. unfold paths_of. cbn [map].
    destruct (bool_decide_reflect (strings_TrimSpace E a = [])) as [He | Hne].
    + rewrite IH. by rewrite filter_cons_False by (rewrite He; intros H; by apply H).
    + assert (strings_TrimSpace E a <> str "--") as Hdd.
      { intros Heq. unfold plain_arg in Ha. rewrite Heq in Ha. done. }
      rewrite bool_decide_eq_false_2 by done.
      unfold plain_arg in Ha. rewrite Ha. cbn [negb].
      rewrite IH. rewrite filter_cons_True by done.
      cbn [main.with_Paths main.Paths]. unfold paths_of.
      by rewrite <- app_assoc.
Qed.

Lemma parseScanArgs_finish E paths :
  (let out := main.with_Paths paths main.scanArgs_init in
   let out := if len (main.Paths out) =? 0
              then main.with_Paths [str "."] out else out in
   let out := if bool_decide (strings_TrimSpace E (main.ConfigPath out) = [])
              then main.with_ConfigPath main.default_config_path out else out in
   main.with_Severity (ToLower E (strings_TrimSpace E (main.Severity out))) out)
  = only_paths E paths.
Proof.
  cbv zeta. cbn [main.with_Paths main.Paths main.scanArgs_init].
  unfold only_paths.
  destruct (len paths =? 0); case_bool_decide; reflexivity.
Qed.

(** X21.  Arguments that do not start with a dash are the paths of the
    scan, trimmed and in the order given, blank ones dropped; after
    ["--"] every argument is a path exactly as written, also one that
    starts with a dash.  Without any path the scan is of ["."]. *)
Theorem parseScanArgs_paths (E : Env) (pre rest : list gostring) :
  Forall (plain_arg E) pre ->
  strings_TrimSpace E (str "--") = str "--" ->
  main.parseScanArgs E pre = inl (only_paths E (paths_of E pre))
  /\ main.parseScanArgs E (pre ++ str "--" :: rest)
     = inl (only_paths E (paths_of E pre ++ rest)).
Proof.
  intros Hpre Hdd. unfold main.parseScanArgs. split.
  - rewrite <- (app_nil_r pre) at 1. rewrite scan_args_loop_plain by done.
    cbn [main.scan_args_loop].
    cbn [main.with_Paths main.Paths main.scanArgs_init app].
    f_equal. apply (parseScanArgs_finish E (paths_of E pre)).
  - rewrite scan_args_loop_plain by done.
    cbn [main.scan_args_loop]. rewrite Hdd.
    rewrite bool_decide_eq_false_2 by done.
    rewrite bool_decide_eq_true_2 by done.
    cbn [main.with_Paths main.Paths main.scanArgs_init app].
    f_equal. apply (parseScanArgs_finish E (paths_of E pre ++ rest)).
Qed.

Lemma parseScanArgs_paths_witness :
  main.parseScanArgs Sample.env [str " src "; []; str "a.go"]
    = inl (only_paths Sample.env [str "src"; str "a.go"])
  /\ main.parseScanArgs Sample.env
       ([str " src "; []; str "a.go"] ++ str "--" :: [str "--odd"; str " "])
     = inl (only_paths Sample.env [str "src"; str "a.go"; str "--odd"; str " "]).
Proof.
  apply (parseScanArgs_paths Sample.env [str " src "; []; str "a.go"]
           [str "--odd"; str " "]).
  - repeat constructor.
  - vm_compute. reflexivity.
Defined.

(** ** The report *)

Section PrintProps.
Context {Out Err : Type} (Write : Out -> gostring -> Out * option Err).

Lemma write_all_app l k out :
  write_all Write (l ++ k) out
  = output.seq (write_all Write l) (write_all Write k) out.
Proof.
  revert out. induction l as [|s l IH]; intros out; [done|].
  cbn [app write_all]. unfold output.seq in *. cbn [write_all].
  destruct (Write out s) as [out' [e|]]; [done|]. apply IH.
Qed.

Lemma seq_ext (a a' b b' : @output.stmt Out Err) out :
  (forall o, a o = a' o) -> (forall o, b o = b' o) ->
  output.seq a b out = output.seq a' b' out.
Proof.
  intros Ha Hb. unfold output.seq. rewrite Ha.
  destruct (a' out) as [o [e|]]; [done|]. apply Hb.
Qed.

Lemma for_range_writes {A} (l : list A) (f : A -> gostring) out :
  output.for_range l (fun x => output.Fprint Write (f x)) out
  = write_all Write (map f l) out.
Proof.
  revert out. induction l as [|x l IH]; intros out; [done|].
  cbn [output.for_range map write_all]. unfold output.seq, output.Fprint.
  destruct (Write out (f x)) as [out' [e|]]; [done|]. apply IH.
Qed.

Lemma for_range_flat {A} (l : list A) (body : A -> @output.stmt Out Err)
    (f : A -> list gostring) out :
  (forall x o, body x o = write_all Write (f x) o) ->
  output.for_range l body out = write_all Write (flat_map f l) out.
Proof.
  intros Hbody. revert out. induction l as [|x l IH]; intros out; [done|].
  cbn [output.for_range flat_map]. rewrite write_all_app.
  apply seq_ext; [apply Hbody | apply IH].
Qed.
End PrintProps.

(** X22.  The human-readable report is a fixed sequence of writes that
    depends on the result and the options only, performed in order up
    to the first write that fails; the error of that write is returned
    and nothing is written after it.  The sequence is: with [Verbose],
    a line for each scanned and each skipped file; for each finding its
    line and, unless it is blank, its excerpt; the no-findings message
    exactly when the summary counts no finding; the summary line; and
    the fix suggestion exactly when a fix was requested and the summary
    counts a finding. *)
Theorem printScanHuman_writes {Out Err : Type}
    (Write : Out -> gostring -> Out * option Err) (E : Env) (toUpper : Z -> Z)
    (w : output.Writer) (result : Result) (opts : output.ScanOptions)
    (out : Out) :
  output.printScanHuman Write E toUpper w result opts out
  = write_all Write (report_writes E toUpper w result opts) out.
Proof.
  unfold output.printScanHuman, report_writes.
  rewrite write_all_app. apply seq_ext.
  { intros o. unfold output.when. destruct (output.Verbose opts); [|done].
    rewrite write_all_app. apply seq_ext; intros o'; apply for_range_writes. }
  intros o1. rewrite write_all_app. apply seq_ext.
  { intros o. apply for_range_flat. intros f o'.
    unfold output.seq, output.when, output.Fprint. cbn [write_all].
    destruct (Write o' _) as [o3 [e|]]; [done|].
    case_bool_decide; cbn [negb]; [done|].
    cbn [write_all]. by destruct (Write o3 _) as [o4 [e|]]. }
  intros o2. rewrite write_all_app. apply seq_ext.
  { intros o. unfold output.when, output.Fprint.
    destruct (_ =? 0); [|done]. cbn [write_all].
    by destruct (Write o _) as [o4 [e|]]. }
  intros o3. rewrite write_all_app. apply seq_ext.
  { intros o. unfold output.Fprint. cbn [write_all].
    by destruct (Write o _) as [o4 [e|]]. }
  intros o. unfold output.when, output.Fprint.
  destruct (_ && _); [|done]. cbn [write_all].
  by destruct (Write o _) as [o4 [e|]].
Qed.


(** X23.  The report of a successful scan that found nothing, without
    [Verbose], is two writes: the message that no non-English text was
    found, and the summary with the number of scanned and skipped files
    and zero findings.  No fix suggestion is written, whether or not a
    fix was requested. *)
Theorem clean_scan_report {Out Err : Type}
    (Write : Out -> gostring -> Out * option Err) (E : Env) (toUpper : Z -> Z)
    (W : World) (paths : list gostring) (sopts : Options) (r : Result)
    (w : output.Writer) (fix_requested : bool) (out : Out) :
  Scan E W paths sopts = (r, None) ->
  Findings r = [] ->
  output.printScanHuman Write E toUpper w r
    {| output.Verbose := false; output.FixRequested := fix_requested |} out
  = write_all Write
      [str "No non-English text found." ++ [nl];
       str "Summary: scanned=" ++ format_int (len (ScannedFiles r))
       ++ str " skipped=" ++ format_int (len (SkippedFiles r))
       ++ str " findings=0" ++ [nl]] out.
Proof.
  intros Hscan Hnone.
  apply Scan_success in Hscan as (cwd & st & _ & _ & ->).
  unfold output.printScanHuman.
  cbn [output.Verbose output.FixRequested output.when].
  cbn [finish Findings RSummary NFindings FilesScanned FilesSkipped
       ScannedFiles SkippedFiles] in *.
  rewrite Hnone. change (len (@nil Finding)) with 0.
  change (0 =? 0) with true. change (0 <? 0) with false.
  rewrite andb_false_r. cbn [output.for_range].
  unfold output.seq, output.when, output.skip, output.Fprint,
    output.summary_line.
  cbn [write_all FilesScanned FilesSkipped NFindings].
  destruct (Write out _) as [o1 [e|]]; [done|].
  by destruct (Write o1 _) as [o2 [e|]].
Qed.

Lemma clean_scan_report_witness :
  output.printScanHuman Sample.buffer_Write Sample.env (fun r => r)
    {| output.JSON := false; output.NoColor := true |} Sample.clean_result
    {| output.Verbose := false; output.FixRequested := true |} []
  = write_all Sample.buffer_Write
      [str "No non-English text found." ++ [nl];
       str "Summary: scanned=" ++ format_int (len (ScannedFiles Sample.clean_result))
       ++ str " skipped=" ++ format_int (len (SkippedFiles Sample.clean_result))
       ++ str " findings=0" ++ [nl]] [].
Proof.
  apply (clean_scan_report Sample.buffer_Write Sample.env (fun r => r)
           Sample.clean_world [str "ok.go"] Sample.options).
  - vm_compute. reflexivity.
  - vm_compute. reflexivity.
Defined.

(** ** Monotonicity *)

Lemma isAllowedRune_mono r (allow allow' : gset Z) :
  allow ⊆ allow' ->
  isAllowedRune r allow = true -> isAllowedRune r allow' = true.
Proof.
  intros Hsub. unfold isAllowedRune.
  destruct (_ || _); [done|]. destruct (_ && _); [done|].
  intros H. apply bool_decide_eq_true in H. apply bool_decide_eq_true.
  set_solver.
Qed.

Section AllowMore.
Context (E : Env) (path text : gostring) (lines : list gostring).
Context (syntax : syntaxRules) (opts : Options) (allow allow' : gset Z).
Hypothesis Hallow : allow ⊆ allow'.

Local Abbreviation body := (loop_body E path text lines syntax (set_allow allow opts)).
Local Abbreviation body' := (loop_body E path text lines syntax (set_allow allow' opts)).

Lemma fewer_quiet s s' t t' :
  cursor t = cursor t' ->
  ls_findings t = ls_findings s -> ls_findings t' = ls_findings s' ->
  fewer s s' t t'.
Proof.
  intros Hc Hf Hf'. split; [done|]. exists [], [].
  by rewrite Hf, Hf', !app_nil_r.
Qed.

Lemma fewer_consume1 s s' state escaped :
  cursor s = cursor s' ->
  fewer s s' (consume1 s state escaped) (consume1 s' state escaped).
Proof.
  intros [= Hi Hl Hc Hs He]. apply fewer_quiet; [|done|done].
  unfold cursor. simpl. by rewrite Hi, Hl, Hc.
Qed.

Lemma fewer_token s s' token state :
  cursor s = cursor s' ->
  fewer s s' (consume_token s token state) (consume_token s' token state).
Proof.
  intros [= Hi Hl Hc Hs He]. unfold consume_token. rewrite Hi, Hl, Hc.
  destruct (advanceByToken _ _ _ _) as [[i line] col].
  by apply fewer_quiet.
Qed.

Lemma fewer_inspect s s' :
  cursor s = cursor s' ->
  fewer s s' (inspect_rune E path text lines (set_allow allow opts) s)
             (inspect_rune E path text lines (set_allow allow' opts) s').
Proof.
  intros [= Hi Hl Hc Hs He]. unfold inspect_rune.
  rewrite Hi, Hl, Hc, Hs.
  destruct (DecodeRuneInString _) as [r size].
  change (shouldInspect (ls_state s') (set_allow allow opts))
    with (shouldInspect (ls_state s') opts).
  change (shouldInspect (ls_state s') (set_allow allow' opts))
    with (shouldInspect (ls_state s') opts).
  change (invalid_finding path lines (set_allow allow opts))
    with (invalid_finding path lines opts).
  change (invalid_finding path lines (set_allow allow' opts))
    with (invalid_finding path lines opts).
  change (rune_finding E path lines (set_allow allow opts))
    with (rune_finding E path lines opts).
  change (rune_finding E path lines (set_allow allow' opts))
    with (rune_finding E path lines opts).
  cbn [AllowRunes set_allow].
  destruct (_ && _).
  - split; [reflexivity|]. cbn [ls_findings].
    destruct (shouldInspect _ _).
    + eexists _, _. split; [reflexivity|]. split; [reflexivity|]. done.
    + exists [], []. by rewrite !app_nil_r.
  - pose proof (isAllowedRune_mono r allow allow' Hallow) as Hmono.
    destruct (r =? 10); (split; [reflexivity|]); cbn [ls_findings];
      destruct (shouldInspect (ls_state s') opts),
               (isAllowedRune r allow) eqn:Ha,
               (isAllowedRune r allow') eqn:Ha';
      cbn [negb andb];
      try (specialize (Hmono eq_refl); discriminate Hmono);
      first [ exists [], []; rewrite !app_nil_r; done
            | eexists [_], []; rewrite app_nil_r;
              split; [reflexivity|]; split; [reflexivity | apply sublist_nil_l]
            | eexists [_], [_];
              split; [reflexivity|]; split; reflexivity ].
Qed.

Lemma fewer_body s s' :
  cursor s = cursor s' -> fewer s s' (body s) (body' s').
Proof.
  intros Hcur. pose proof Hcur as [= Hi Hl Hc Hs He].
  pose proof (fewer_inspect s s' Hcur) as Hin.
  unfold loop_body. rewrite <- Hi, <- Hs, <- He.
  destruct (slice_from text (ls_i s)) as [|c rest].
  { by apply fewer_quiet. }
  destruct (ls_state s) eqn:?;
  repeat match goal with
  | |- context [matchPrefix ?a ?b] => destruct (matchPrefix a b)
  | |- context [bool_decide ?P] => destruct (bool_decide_reflect P)
  | |- context [if ?c then _ else _] => destruct c eqn:?
  end;
  first [ done | by apply fewer_consume1 | by apply fewer_token | idtac ].
  all: apply fewer_quiet; [|done|done].
  all: unfold cursor; simpl; by rewrite Hi, Hl.
Qed.

Lemma scan_loop_fewer fuel s s' fs fs' :
  cursor s = cursor s' ->
  sublist (ls_findings s') (ls_findings s) ->
  scan_loop E path text lines syntax (set_allow allow opts) fuel s = Some fs ->
  scan_loop E path text lines syntax (set_allow allow' opts) fuel s' = Some fs' ->
  sublist fs' fs.
Proof.
  revert s s'. induction fuel as [|f IH]; intros s s' Hcur Hsub;
    pose proof Hcur as [= Hi _ _ _ _];
    cbn [scan_loop]; rewrite <- Hi;
    destruct (ls_i s <? len text); try done;
    try (by intros [= <-] [= <-]).
  destruct (fewer_body s s' Hcur) as (Hcur' & new & new' & Hf & Hf' & Hn).
  apply IH; [done|]. rewrite Hf, Hf'. by apply sublist_app.
Qed.
End AllowMore.

(** X24.  Allowing more runes never adds or changes a finding: the
    findings under a larger allow set are a selection, in order, of the
    findings under the smaller one. *)
Theorem allow_more_reports_less (E : Env) (path : gostring) (data : list byte)
    (syntax : syntaxRules) (opts : Options) (allow allow' : gset Z) :
  allow ⊆ allow' ->
  sublist (scanContent E path data syntax (set_allow allow' opts))
          (scanContent E path data syntax (set_allow allow opts)).
Proof.
  intros Hsub. unfold scanContent.
  destruct (scan_loop_total E path data (Split_nl data) syntax
              (set_allow allow opts) (length data) loop_init) as [fs Hfs];
    [simpl; lia | simpl; unfold len; lia |].
  destruct (scan_loop_total E path data (Split_nl data) syntax
              (set_allow allow' opts) (length data) loop_init) as [fs' Hfs'];
    [simpl; lia | simpl; unfold len; lia |].
  rewrite Hfs, Hfs'. simpl.
  by apply (scan_loop_fewer E path data (Split_nl data) syntax opts allow allow'
              Hsub (length data) loop_init loop_init fs fs').
Qed.

Lemma allow_more_reports_less_witness :
  sublist (scanContent Sample.env (str "a.py") Sample.allowed_text
             (syntaxForPath Sample.env (str "a.py"))
             (set_allow {[ 0xA9; 0x2192 ]} Sample.options))
          (scanContent Sample.env (str "a.py") Sample.allowed_text
             (syntaxForPath Sample.env (str "a.py"))
             (set_allow {[ 0xA9 ]} Sample.options)).
Proof.
  apply allow_more_reports_less. set_solver.
Defined.

(** X25.  Ignoring comments or strings never adds or changes a finding:
    under any flags the findings are a selection, in order, of the
    findings with nothing ignored. *)
Theorem ignoring_reports_less (E : Env) (path : gostring) (data : list byte)
    (syntax : syntaxRules) (opts : Options) (ignoreComments ignoreStrings : bool) :
  sublist
    (scanContent E path data syntax (set_flags ignoreComments ignoreStrings opts))
    (scanContent E path data syntax (set_flags false false opts)).
Proof.
  rewrite !scanContent_contexts.
  change (scanContexts E path data syntax (set_flags ignoreComments ignoreStrings opts))
    with (scanContexts E path data syntax opts).
  change (scanContexts E path data syntax (set_flags false false opts))
    with (scanContexts E path data syntax opts).
  apply fmap_sublist.
  rewrite (filter_all (fun c : scanState * Finding =>
             shouldInspect c.1 (set_flags false false opts) = true)).
  - apply sublist_filter.
  - apply Forall_true. intros [st f]. apply shouldInspect_opts0.
Qed.

(** ** The configuration file *)

(** ** [stripInlineComment] *)

Section Strip.
Context (E : Env).

Local Abbreviation strip := (config.strip_loop E).

Lemma Decode_hash b t r size :
  DecodeRuneInString (b :: t) = (r, size) -> r = 0x23 -> b = hash /\ size = 1.
Proof.
  intros Hd Hr. apply Decode_spec in Hd as (_ & _ & [(Hb & Heq & Hs) | (_ & Hge)]).
  - split; [|done]. apply bv_inj. rewrite <- Heq, Hr. done.
  - lia.
Qed.

(** Without a hash the loop runs to the end of the line. *)
Lemma strip_no_hash fuel line rest i s d e :
  hash ∉ rest -> strip fuel line rest i s d e = strings_TrimSpace E line.
Proof.
  revert rest i s d e. induction fuel as [|f IH]; intros rest i s d e Hn; [done|].
  cbn [config.strip_loop]. destruct rest as [|b t]; [done|].
  destruct (DecodeRuneInString (b :: t)) as [r size] eqn:Hd.
  assert (hash ∉ slice_from (b :: t) size) as Hn'.
  { intros Hin. apply Hn. unfold slice_from in Hin.
    apply list_elem_of_lookup in Hin as [k Hk]. rewrite lookup_drop in Hk.
    by eapply list_elem_of_lookup_2. }
  destruct (r =? 35) eqn:H35.
  { zb. apply (Decode_hash _ _ _ _ Hd) in H35 as [-> _]. set_solver. }
  repeat case_match; by apply IH.
Qed.

(** The loop returns the trimmed line, or the trimmed text before a
    hash of the line. *)
Lemma strip_prefix fuel line rest i s d e :
  0 <= i <= len line -> rest = slice_from line i ->
  exists n, i <= n <= len line
    /\ strip fuel line rest i s d e = strings_TrimSpace E (slice_to line n)
    /\ (n = len line \/ line !! Z.to_nat n = Some hash).
Proof.
  assert (Hall : strings_TrimSpace E line
                 = strings_TrimSpace E (slice_to line (len line))).
  { unfold slice_to, len. by rewrite Nat2Z.id, firstn_all. }
  revert rest i s d e. induction fuel as [|f IH]; intros rest i s d e Hi Hrest.
  { exists (len line). split; [lia|]. split; [done | by left]. }
  cbn [config.strip_loop]. destruct rest as [|b t].
  { exists (len line). split; [lia|]. split; [done | by left]. }
  destruct (DecodeRuneInString (b :: t)) as [r size] eqn:Hd.
  pose proof (Decode_spec _ _ _ _ Hd) as (Hsize & _ & _).
  assert (Hlen : len (b :: t) = len line - i).
  { rewrite Hrest. unfold slice_from, len in *. rewrite length_drop. lia. }
  assert (Hnext : forall s' d' e',
            exists n, i <= n <= len line
              /\ strip f line (slice_from (b :: t) size) (i + size) s' d' e'
                 = strings_TrimSpace E (slice_to line n)
              /\ (n = len line \/ line !! Z.to_nat n = Some hash)).
  { intros s' d' e'.
    destruct (IH (slice_from (b :: t) size) (i + size) s' d' e') as (n & Hn & Heq & Hh).
    - lia.
    - rewrite Hrest. rewrite slice_from_add by lia. done.
    - exists n. split; [lia | done]. }
  destruct (r =? 92); [apply Hnext|].
  destruct (r =? 34); [apply Hnext|].
  destruct (r =? 39); [apply Hnext|].
  destruct (r =? 35) eqn:H35; [|apply Hnext].
  destruct (negb s && negb d); [|apply Hnext].
  zb. apply (Decode_hash _ _ _ _ Hd) in H35 as [-> _].
  exists i. split; [lia|]. split; [done|]. right.
  unfold slice_from in Hrest.
  rewrite <- (take_drop (Z.to_nat i) line), <- Hrest.
  rewrite lookup_app_r by (rewrite length_take; lia).
  rewrite length_take.
  replace (Z.to_nat i - Z.to_nat i `min` length line)%nat with 0%nat
    by (unfold len in *; lia).
  done.
Qed.

Lemma strip_quiet fuel line a rest i e :
  Forall quiet a -> (length (a ++ hash :: rest) <= fuel)%nat ->
  exists fuel' e',
    (length (hash :: rest) <= fuel')%nat
    /\ strip fuel line (a ++ hash :: rest) i false false e
       = strip fuel' line (hash :: rest) (i + len a) false false e'.
Proof.
  revert a i e. induction fuel as [|f IH]; intros a i e Ha Hf.
  { rewrite length_app in Hf. simpl in Hf. lia. }
  destruct a as [|b a'].
  { exists (S f), e. split; [done|]. cbn [app]. f_equal.
    change (len (@nil byte)) with 0. lia. }
  cbn [app config.strip_loop].
  destruct (DecodeRuneInString (b :: a' ++ hash :: rest)) as [r size] eqn:Hd.
  pose proof (Decode_spec _ _ _ _ Hd) as (Hsize & _ & Hcase).
  inversion Ha as [|? ? Hb Ha']; subst.
  destruct Hb as (Hb1 & Hb2 & Hb3).
  (* the bytes the decoder consumed lie within [b :: a'] *)
  assert (Hin : exists a1 a2, a' = a1 ++ a2 /\ size = 1 + len a1).
  { destruct (Decode_tail _ _ _ _ Hd) as [-> | (pre & post & Heq & -> & Hpre)].
    - exists [], a'. done.
    - assert (Hp : forall (pre a' : gostring) post,
                a' ++ hash :: rest = pre ++ post ->
                Forall (fun c => 0x80 <= bv c) pre ->
                exists a2, a' = pre ++ a2).
      { clear. induction pre as [|x pre IHp]; intros a' post Heq Hpre.
        - by exists a'.
        - inversion Hpre as [|? ? Hx Hpre']; subst.
          destruct a' as [|y a'].
          + simpl in Heq. injection Heq as <- _. vm_compute in Hx. done.
          + simpl in Heq. injection Heq as -> Heq.
            destruct (IHp a' post Heq Hpre') as [a2 ->]. by exists a2. }
      destruct (Hp pre a' post Heq Hpre) as [a2 ->]. by exists pre, a2. }
  destruct Hin as (a1 & a2 & -> & ->).
  assert (Hrest : slice_from (b :: (a1 ++ a2) ++ hash :: rest) (1 + len a1)
                  = a2 ++ hash :: rest).
  { unfold slice_from, len.
    replace (Z.to_nat (1 + Z.of_nat (length a1))) with (S (length a1)) by lia.
    simpl. rewrite <- app_assoc. apply drop_app_length. }
  rewrite Hrest.
  assert (Ha2 : Forall quiet a2) by (by apply Forall_app in Ha' as [_ ?]).
  assert (Hf2 : (length (a2 ++ hash :: rest) <= f)%nat).
  { simpl in Hf. rewrite !length_app in *. simpl in *. lia. }
  assert (Hgo : forall e0,
            exists fuel' e',
              (length (hash :: rest) <= fuel')%nat
              /\ strip f line (a2 ++ hash :: rest) (i + (1 + len a1)) false false e0
                 = strip fuel' line (hash :: rest) (i + len (b :: a1 ++ a2))
                     false false e').
  { intros e0. destruct (IH a2 (i + (1 + len a1)) e0 Ha2 Hf2)
      as (fuel' & e' & Hfuel' & Heq).
    exists fuel', e'. split; [done|]. rewrite Heq. f_equal.
    rewrite len_cons, len_app. lia. }
  assert (r <> 34 /\ r <> 39 /\ r <> 35) as (H34 & H39 & H35).
  { destruct Hcase as [(Hlt & -> & _) | (_ & Hge)]; [|lia].
    repeat split; intros Heq; [apply Hb3 | apply Hb2 | apply Hb1];
      apply bv_inj; rewrite Heq; done. }
  destruct (r =? 92); [apply Hgo|].
  destruct (r =? 34) eqn:?; zb; [done|].
  destruct (r =? 39) eqn:?; zb; [done|].
  destruct (r =? 35) eqn:?; zb; [done|].
  apply Hgo.
Qed.

Lemma strip_at_hash fuel line rest i e :
  (length (hash :: rest) <= fuel)%nat ->
  strip fuel line (hash :: rest) i false false e
  = strings_TrimSpace E (slice_to line i).
Proof.
  destruct fuel as [|f]; [simpl; lia|]. intros _.
  cbn [config.strip_loop]. rewrite Decode_ascii by (vm_compute; done).
  done.
Qed.
End Strip.

(** X26.  [stripInlineComment] returns the line, trimmed, up to its end
    or up to one of its hash signs.  A line without a hash is returned
    whole; a hash that comes before any quote cuts the line there. *)
Theorem stripInlineComment_cuts (E : Env) (line : gostring) :
  (exists n, 0 <= n <= len line
     /\ config.stripInlineComment E line = strings_TrimSpace E (slice_to line n)
     /\ (n = len line \/ line !! Z.to_nat n = Some hash))
  /\ (hash ∉ line ->
      config.stripInlineComment E line = strings_TrimSpace E line)
  /\ (forall a b,
        line = a ++ hash :: b -> Forall quiet a ->
        config.stripInlineComment E line = strings_TrimSpace E a).
Proof.
  unfold config.stripInlineComment. split; [|split].
  - apply strip_prefix; [pose proof (len_nonneg line); lia | done].
  - apply strip_no_hash.
  - intros a b -> Ha.
    destruct (strip_quiet E (length (a ++ hash :: b)) (a ++ hash :: b) a b 0 false
                Ha (le_n _)) as (fuel' & e' & Hfuel' & ->).
    rewrite strip_at_hash by done. f_equal.
    unfold slice_to, len. replace (Z.to_nat (0 + Z.of_nat (length a)))
      with (length a) by lia.
    apply take_app_length.
Qed.

Lemma stripInlineComment_cuts_witness :
  config.stripInlineComment Sample.env (str "error # strict")
  = strings_TrimSpace Sample.env (str "error ").
Proof.
  apply (proj2 (proj2 (stripInlineComment_cuts Sample.env (str "error # strict")))
           (str "error ") (str " strict")).
  - vm_compute. reflexivity.
  - repeat (constructor; [by repeat split|]). constructor.
Defined.

Section ParserProps.
Context (E : Env) (Unquote : gostring -> option gostring).

Local Abbreviation parse_line := (config.parse_line E Unquote).
Local Abbreviation parse_lines := (config.parse_lines E Unquote).
Local Abbreviation passed := (config.passed_line E).

Lemma parse_line_error n raw cfg cur e :
  parse_line n raw cfg cur = inr e -> error_line e = n.
Proof.
  unfold config.parse_line.
  repeat match goal with
  | |- context [match ?x with _ => _ end] => destruct x eqn:?
  end; by intros [= <-].
Qed.

Lemma parse_line_shift n k raw cfg cur :
  parse_line (n + k) raw cfg cur = shift_result k (parse_line n raw cfg cur).
Proof.
  unfold config.parse_line.
  repeat match goal with
  | |- context [match ?x with _ => _ end] => destruct x eqn:?
  end; reflexivity.
Qed.

Lemma parse_lines_shift lines i k cfg cur :
  parse_lines lines (i + k) cfg cur = shift_result k (parse_lines lines i cfg cur).
Proof.
  revert i cfg cur. induction lines as [|raw rest IH]; intros i cfg cur; [done|].
  cbn [config.parse_lines].
  replace (i + k + 1) with (i + 1 + k) by lia.
  destruct (passed raw); [apply IH|].
  rewrite parse_line_shift.
  destruct (parse_line (i + 1) raw cfg cur) as [[cfg' cur']|e]; [apply IH | done].
Qed.

Lemma parse_lines_error lines i cfg cur e :
  parse_lines lines i cfg cur = inr e ->
  i < error_line e <= i + len lines
  /\ exists raw, lines !! Z.to_nat (error_line e - i - 1) = Some raw
                 /\ passed raw = false.
Proof.
  revert i cfg cur. induction lines as [|raw rest IH]; intros i cfg cur; [done|].
  cbn [config.parse_lines]. rewrite len_cons. pose proof (len_nonneg rest).
  assert (Hrest : forall c l,
            parse_lines rest (i + 1) c l = inr e ->
            i < error_line e <= i + (1 + len rest)
            /\ exists raw0, (raw :: rest) !! Z.to_nat (error_line e - i - 1) = Some raw0
                            /\ passed raw0 = false).
  { intros c l Hr. apply IH in Hr as (Hi & raw0 & Hl & Hp). split; [lia|].
    exists raw0. split; [|done].
    replace (Z.to_nat (error_line e - i - 1))
      with (S (Z.to_nat (error_line e - (i + 1) - 1))) by lia.
    done. }
  destruct (passed raw) eqn:Hp; [apply Hrest|].
  destruct (parse_line (i + 1) raw cfg cur) as [[cfg' cur']|e'] eqn:Hl;
    [apply Hrest|].
  intros [= <-]. apply parse_line_error in Hl. rewrite Hl. split; [lia|].
  exists raw. split; [|done].
  replace (i + 1 - i - 1) with 0 by lia. done.
Qed.

Lemma parse_lines_passed l1 c l2 i cfg cur :
  passed c = true ->
  match parse_lines (l1 ++ c :: l2) i cfg cur, parse_lines (l1 ++ l2) i cfg cur with
  | inl c1, inl c2 => c1 = c2
  | inr e1, inr e2 =>
      e1 = (if error_line e2 <=? i + len l1 then e2 else shift_error 1 e2)
  | _, _ => False
  end.
Proof.
  intros Hc. revert i cfg cur. induction l1 as [|raw l1 IH]; intros i cfg cur.
  - cbn [app config.parse_lines]. rewrite Hc.
    rewrite parse_lines_shift.
    destruct (parse_lines l2 i cfg cur) as [c2|e2] eqn:Hp; simpl; [done|].
    apply parse_lines_error in Hp as [Hi _]. change (len (@nil gostring)) with 0.
    destruct (error_line e2 <=? i + 0) eqn:Hle; zb; [lia | done].
  - cbn [app config.parse_lines]. rewrite len_cons.
    replace (i + (1 + len l1)) with (i + 1 + len l1) by lia.
    destruct (passed raw); [apply IH|].
    destruct (parse_line (i + 1) raw cfg cur) as [[cfg' cur']|e] eqn:Hl;
      [apply IH|].
    apply parse_line_error in Hl. pose proof (len_nonneg l1).
    destruct (error_line e <=? i + 1 + len l1) eqn:Hle; zb; [done | lia].
Qed.
End ParserProps.

Lemma Split_nl_app a rest :
  Split_nl (a ++ nl :: rest) = Split_nl a ++ Split_nl rest.
Proof.
  induction a as [|x a IH]; [done|].
  cbn [app Split_nl]. case_bool_decide; [by rewrite IH|].
  rewrite IH. destruct (Split_nl_head a) as [ls ->]. done.
Qed.

Lemma Split_nl_one c : nl ∉ c -> Split_nl c = [c].
Proof.
  induction c as [|x c IH]; [done|]. intros Hn.
  cbn [Split_nl]. rewrite bool_decide_eq_false_2 by set_solver.
  rewrite IH by set_solver. done.
Qed.

(** X27.  An error of [parseConfigYAML] carries the number of a line of
    the input, counted from 1, and that line is neither blank nor a
    comment. *)
Theorem parse_error_line (E : Env) (Unquote : gostring -> option gostring)
    (input : gostring) (e : config.parse_error) :
  config.parseConfigYAML E Unquote input = inr e ->
  1 <= error_line e <= len (Split_nl input)
  /\ exists raw,
       Split_nl input !! Z.to_nat (error_line e - 1) = Some raw
       /\ config.passed_line E raw = false.
Proof.
  unfold config.parseConfigYAML. intros He.
  apply parse_lines_error in He as (Hi & raw & Hl & Hp).
  split; [lia|]. exists raw. split; [|done].
  by replace (error_line e - 1) with (error_line e - 0 - 1) by lia.
Qed.

Lemma parse_error_line_witness :
  let input := str "# rules" ++ nl :: str "bogus: 1" in
  config.parseConfigYAML Sample.env (fun _ => None) input
  = inr (config.unknown_key 2 (str "bogus"))
  /\ 1 <= 2 <= len (Split_nl input)
  /\ exists raw,
       Split_nl input !! Z.to_nat (2 - 1) = Some raw
       /\ config.passed_line Sample.env raw = false.
Proof.
  intros input.
  assert (H : config.parseConfigYAML Sample.env (fun _ => None) input
              = inr (config.unknown_key 2 (str "bogus")))
    by (vm_compute; reflexivity).
  split; [exact H|].
  exact (parse_error_line Sample.env (fun _ => None) input _ H).
Defined.

(** X28.  Blank lines and comment lines play no part: with such a line
    put between two lines of the input, [parseConfigYAML] returns the
    same configuration, or fails with the same error.  The line number
    of the error is the same when the failing line is one of the lines
    before the new line, and one more when it comes after it. *)
Theorem comment_lines_ignored (E : Env) (Unquote : gostring -> option gostring)
    (a c b : gostring) :
  nl ∉ c -> config.passed_line E c = true ->
  match config.parseConfigYAML E Unquote (a ++ nl :: c ++ nl :: b),
        config.parseConfigYAML E Unquote (a ++ nl :: b) with
  | inl c1, inl c2 => c1 = c2
  | inr e1, inr e2 =>
      e1 = (if error_line e2 <=? len (Split_nl a) then e2
            else shift_error 1 e2)
      /\ error_line e1 = (if error_line e2 <=? len (Split_nl a)
                          then error_line e2 else error_line e2 + 1)
  | _, _ => False
  end.
Proof.
  intros Hnl Hc. unfold config.parseConfigYAML.
  rewrite !Split_nl_app, (Split_nl_one c Hnl). cbn [app].
  pose proof (parse_lines_passed E Unquote (Split_nl a) c (Split_nl b) 0
                config.Config_zero [] Hc) as H.
  destruct (config.parse_lines E Unquote (Split_nl a ++ c :: Split_nl b) 0 _ _)
    as [c1|e1],
    (config.parse_lines E Unquote (Split_nl a ++ Split_nl b) 0 _ _)
    as [c2|e2]; try done.
  rewrite Z.add_0_l in H. split; [done|]. subst e1.
  destruct (error_line e2 <=? len (Split_nl a)); [done|]. by destruct e2.
Qed.

Lemma comment_lines_ignored_witness :
  match config.parseConfigYAML Sample.env (fun _ => None)
          (str "severity: error" ++ nl :: str "# note" ++ nl :: str "bogus: 1"),
        config.parseConfigYAML Sample.env (fun _ => None)
          (str "severity: error" ++ nl :: str "bogus: 1") with
  | inl c1, inl c2 => c1 = c2
  | inr e1, inr e2 =>
      e1 = (if error_line e2 <=? len (Split_nl (str "severity: error")) then e2
            else shift_error 1 e2)
      /\ error_line e1 = (if error_line e2 <=? len (Split_nl (str "severity: error"))
                          then error_line e2 else error_line e2 + 1)
  | _, _ => False
  end.
Proof.
  apply (comment_lines_ignored Sample.env (fun _ => None)
           (str "severity: error") (str "# note") (str "bogus: 1")).
  - apply (bool_decide_unpack _). vm_compute. exact I.
  - vm_compute. reflexivity.
Defined.

Section Accepted.
Context (E : Env) (Unquote : gostring -> option gostring).

Lemma parse_line_accepted n raw cfg cur r :
  config.parse_line E Unquote n raw cfg cur = inl r -> accepted_line E raw.
Proof.
  unfold config.parse_line, accepted_line.
  destruct (HasPrefix _ (str "- ")) eqn:Hitem; [by intros _; right; left|].
  destruct (SplitN_colon _) as [[k v]|]; [|done].
  intros H. right. right. exists k, v. split; [done|].
  destruct (bool_decide_reflect (strings_TrimSpace E v = [])) as [|Hv];
    [by left|]. right.
  destruct (config.parseScalar _ _ _); [|done].
  destruct (bool_decide_reflect (strings_TrimSpace E k = str "severity")) as [->|];
    [set_solver|].
  destruct (bool_decide_reflect (strings_TrimSpace E k = str "ignore_comments"))
    as [->|]; [set_solver|].
  destruct (bool_decide_reflect (strings_TrimSpace E k = str "ignore_strings"))
    as [->|]; [set_solver|].
  by destruct (one_of _ _).
Qed.
End Accepted.

(** X29.  [parseConfigYAML] accepts a value on a line only for the keys
    [severity], [ignore_comments] and [ignore_strings]: when it
    succeeds, every line of the input is blank or a comment, or a list
    item, or a key with an empty value, or one of these three keys with
    a value.  A line with another key and a value makes it fail. *)
Theorem parse_accepts_known_keys (E : Env)
    (Unquote : gostring -> option gostring) (input : gostring)
    (cfg : config.Config) :
  config.parseConfigYAML E Unquote input = inl cfg ->
  Forall (accepted_line E) (Split_nl input).
Proof.
  unfold config.parseConfigYAML.
  generalize (Split_nl input) 0 config.Config_zero (@nil byte).
  intros lines. induction lines as [|raw rest IH]; intros i c cur;
    [constructor|].
  cbn [config.parse_lines].
  destruct (config.passed_line E raw) eqn:Hp.
  { intros H. constructor; [by left | by eapply IH]. }
  destruct (config.parse_line E Unquote (i + 1) raw c cur)
    as [[c' cur']|e] eqn:Hl; [|done].
  intros H. constructor; [by eapply parse_line_accepted | by eapply IH].
Qed.

Lemma parse_accepts_known_keys_witness :
  Forall (accepted_line Sample.env)
    (Split_nl (str "severity: error" ++ nl :: str "allow:" ++ nl :: str "- x")).
Proof.
  apply (parse_accepts_known_keys Sample.env (fun _ => None) _
           (config.add_Allow (str "x")
              (config.set_Severity (str "error") config.Config_zero))).
  vm_compute. reflexivity.
Defined.
